(** * simple_rdbms: a shallow embedding of the query pipeline and storage core

    The development follows the Python sources module by module:
    - [exceptions.py]              : [exn], with the error monad [result]
    - [index.py]                   : module [Index], over keys that compare
                                     without error, and [ValueIndex], over
                                     column values, where [<] may raise
    - [datatypes.py], [schema.py]  : modules [Datatypes] and [Schema], and
                                     [Objects] for the comparison with NaN
    - [storage.py]                 : module [Storage]
    - [lexer.py], [parser.py]      : modules [Lexer] and [Parser]
    - [executor.py]                : module [Executor], and [OrderBy] for
                                     ORDER BY on rows that may hold NaN

    A Python call that may raise returns a [result]; a method that mutates
    its object returns the object's new state next to the outcome. *)

From Stdlib Require Import String Ascii DecimalString ZArith QArith Bool Lia.
From Stdlib Require Import List Permutation Sorted.
From Stdlib Require OrderedTypeEx.
Import ListNotations.
Local Open Scope Z_scope.

Set Implicit Arguments.

(** ** Values *)

(** A Python value as it flows through the engine: [None], [int], [float],
    [str] or [bool].  A [float] is represented by the rational it denotes:
    the values of this type are the finite ones, and what is proved of
    cells, rows and keys of this type is proved of data without NaN and
    without infinities.  Floating-point arithmetic is not rounded, except
    in [float(int)], see [Datatypes.float_of_int]; NaN is added where the
    comparisons are at stake, in [Objects]. *)
Inductive value : Type :=
| VNull
| VInt (n : Z)
| VReal (q : Q)
| VText (s : string)
| VBool (b : bool).

(** ** Exceptions and the error monad *)

(** The exception classes of [exceptions.py] together with the built-in
    exceptions the code can run into.  [OutOfFuel] is not a Python exception:
    it is the answer of a fuel-bounded recursion whose budget ran out, and is
    proved unreachable wherever a result is claimed. *)
Inductive exn : Type :=
| IndexError
| TypeError
| ValueError
| OverflowError
| KeyError
| RDBMSError
| SQLSyntaxError (line column : Z)
| SemanticError
| TableNotFoundError (table_name : string)
| TableExistsError (table_name : string)
| ColumnNotFoundError (column_name : string) (table_name : option string)
| AmbiguousColumnError (column_name : string)
| PrimaryKeyViolation (column_name : string) (v : value)
| UniqueViolation (column_name : string) (v : value)
| NotNullViolation (column_name : string)
| DataTypeError (expected_type : string) (actual_value : value)
| AttributeError
| OutOfFuel.

Inductive result (A : Type) : Type :=
| Ok (a : A)
| Raise (e : exn).
Arguments Ok {A} a.
Arguments Raise {A} e.

Definition bind {A B : Type} (m : result A) (f : A -> result B) : result B :=
  match m with
  | Ok a => f a
  | Raise e => Raise e
  end.

Notation "x <- m ;; k" := (bind m (fun x => k))
  (at level 61, m at next level, right associativity).
Notation "' p <- m ;; k" := (bind m (fun p => k))
  (at level 61, p pattern, m at next level, right associativity).

Lemma bind_Ok {A B : Type} (m : result A) (f : A -> result B) (b : B) :
  bind m f = Ok b -> exists a, m = Ok a /\ f a = Ok b.
Proof. destruct m as [a|e]; cbn; [eauto|discriminate]. Qed.

Lemma Ok_inj {A : Type} (a b : A) : Ok a = Ok b -> a = b.
Proof. now intros [= ->]. Qed.

(** Splits a hypothesis [H : (x <- m ;; k) = Ok r] into its steps. *)
Ltac inv_bind H :=
  lazymatch type of H with
  | bind _ _ = Ok _ =>
      let a := fresh "a" in
      let Ha := fresh "Hstep" in
      apply bind_Ok in H; destruct H as (a & Ha & H);
      lazymatch type of a with
      | prod _ _ => destruct a as [? ?]
      | _ => idtac
      end;
      inv_bind H
  | Ok _ = Ok _ => apply Ok_inj in H; try subst
  | Raise _ = Ok _ => discriminate H
  | _ => idtac
  end.

(** ** Python list primitives *)

Section PyList.
Context {A : Type}.

(** [l[i]] for [0 <= i]; out of range raises [IndexError]. *)
Definition getitem (l : list A) (i : nat) : result A :=
  match nth_error l i with
  | Some a => Ok a
  | None => Raise IndexError
  end.

(** [l.insert(i, x)]; an index past the end appends. *)
Definition list_insert (i : nat) (x : A) (l : list A) : list A :=
  firstn i l ++ x :: skipn i l.

(** [l.pop(i)]: the list without position [i]. *)
Definition list_pop (i : nat) (l : list A) : result (list A) :=
  match nth_error l i with
  | Some _ => Ok (firstn i l ++ skipn (S i) l)
  | None => Raise IndexError
  end.

(** [l[i] = x]. *)
Definition setitem (i : nat) (x : A) (l : list A) : result (list A) :=
  match nth_error l i with
  | Some _ => Ok (firstn i l ++ x :: skipn (S i) l)
  | None => Raise IndexError
  end.
End PyList.

Fixpoint sumZ (l : list Z) : Z :=
  match l with
  | [] => 0
  | x :: l' => x + sumZ l'
  end.

Definition lenZ {A : Type} (l : list A) : Z := Z.of_nat (length l).

Section PyListFacts.
Context {A B : Type}.
Implicit Types (l : list A) (i : nat).

Lemma getitem_Ok l i a : getitem l i = Ok a <-> nth_error l i = Some a.
Proof.
  unfold getitem. destruct (nth_error l i); split; congruence.
Qed.

Lemma getitem_lt l i : (i < length l)%nat -> exists a, getitem l i = Ok a.
Proof.
  intros H. unfold getitem. destruct (nth_error l i) eqn:E; eauto.
  apply nth_error_None in E. lia.
Qed.

Lemma setitem_Ok i x l l' :
  setitem i x l = Ok l' <->
  exists a, nth_error l i = Some a /\ l' = firstn i l ++ x :: skipn (S i) l.
Proof.
  unfold setitem. destruct (nth_error l i); split.
  - intros [= <-]. eauto.
  - intros (b & _ & ->). reflexivity.
  - discriminate.
  - intros (b & H & _). discriminate.
Qed.

Lemma setitem_lt i x l :
  (i < length l)%nat -> setitem i x l = Ok (firstn i l ++ x :: skipn (S i) l).
Proof.
  intros H. unfold setitem. destruct (nth_error l i) eqn:E; auto.
  apply nth_error_None in E. lia.
Qed.

Lemma nth_error_middle l i a :
  nth_error l i = Some a -> firstn i l ++ a :: skipn (S i) l = l.
Proof.
  revert i. induction l as [|b l IH]; intros [|i] H; try discriminate.
  - now injection H as ->.
  - cbn. f_equal. now apply IH.
Qed.

Lemma nth_error_parts l i a :
  nth_error l i = Some a ->
  exists l1 l2, l = l1 ++ a :: l2 /\ length l1 = i /\
                firstn i l = l1 /\ skipn (S i) l = l2 /\ skipn i l = a :: l2.
Proof.
  intros H. exists (firstn i l), (skipn (S i) l).
  assert (Hi : (i < length l)%nat) by (apply nth_error_Some; congruence).
  repeat split.
  - symmetry. now apply nth_error_middle.
  - rewrite length_firstn. lia.
  - revert i H Hi. induction l as [|b l IH]; intros [|i] H Hi;
      try discriminate; cbn in *.
    + congruence.
    + apply IH; [assumption|lia].
Qed.

Lemma length_replace i x l a :
  nth_error l i = Some a ->
  length (firstn i l ++ x :: skipn (S i) l) = length l.
Proof.
  intros H. destruct (nth_error_parts _ _ H) as (l1 & l2 & -> & _ & -> & -> & _).
  rewrite !length_app. reflexivity.
Qed.

Lemma nth_error_replace_eq i x l a :
  nth_error l i = Some a ->
  nth_error (firstn i l ++ x :: skipn (S i) l) i = Some x.
Proof.
  intros H. destruct (nth_error_parts _ _ H) as (l1 & l2 & -> & <- & -> & -> & _).
  rewrite nth_error_app2 by lia. now rewrite Nat.sub_diag.
Qed.

Lemma nth_error_replace_neq i j x l :
  i <> j ->
  nth_error (firstn i l ++ x :: skipn (S i) l) j = nth_error l j \/
  (length l <= i)%nat.
Proof.
  intros Hij. destruct (nth_error l i) as [a|] eqn:H.
  - left. destruct (nth_error_parts _ _ H) as (l1 & l2 & -> & <- & -> & -> & _).
    destruct (Nat.lt_ge_cases j (length l1)).
    + now rewrite !nth_error_app1 by lia.
    + rewrite !nth_error_app2 by lia.
      destruct (j - length l1)%nat eqn:E; [lia|reflexivity].
  - right. now apply nth_error_None.
Qed.

Lemma length_list_insert i x l : length (list_insert i x l) = S (length l).
Proof.
  unfold list_insert. rewrite <- (firstn_skipn i l) at 3.
  rewrite !length_app. cbn. lia.
Qed.

Lemma length_pop i l a :
  nth_error l i = Some a ->
  S (length (firstn i l ++ skipn (S i) l)) = length l.
Proof.
  intros H. destruct (nth_error_parts _ _ H) as (l1 & l2 & -> & _ & -> & -> & _).
  rewrite !length_app. cbn. lia.
Qed.

Lemma sumZ_app (l1 l2 : list Z) : sumZ (l1 ++ l2) = sumZ l1 + sumZ l2.
Proof. induction l1; cbn; lia. Qed.

Lemma sumZ_map_app (f : A -> Z) l1 l2 :
  sumZ (map f (l1 ++ l2)) = sumZ (map f l1) + sumZ (map f l2).
Proof. now rewrite map_app, sumZ_app. Qed.

Lemma sumZ_firstn_skipn (f : A -> Z) l i :
  sumZ (map f (firstn i l)) + sumZ (map f (skipn i l)) = sumZ (map f l).
Proof. now rewrite <- sumZ_map_app, firstn_skipn. Qed.

Lemma sumZ_middle (f : A -> Z) l i a :
  nth_error l i = Some a ->
  sumZ (map f l)
  = sumZ (map f (firstn i l)) + f a + sumZ (map f (skipn (S i) l)).
Proof.
  intros H. rewrite <- (nth_error_middle _ _ H) at 1.
  rewrite sumZ_map_app. cbn. lia.
Qed.

Lemma sumZ_list_insert (f : A -> Z) i x l :
  sumZ (map f (list_insert i x l)) = f x + sumZ (map f l).
Proof.
  unfold list_insert. rewrite sumZ_map_app. cbn.
  rewrite <- (sumZ_firstn_skipn f l i). lia.
Qed.

Lemma sumZ_nonneg (f : A -> Z) l :
  (forall a, 0 <= f a) -> 0 <= sumZ (map f l).
Proof. intros H. induction l; cbn; [lia|]. specialize (H a). lia. Qed.

Lemma sumZ_In_le (f : A -> Z) l a :
  (forall a, 0 <= f a) -> In a l -> f a <= sumZ (map f l).
Proof.
  intros H. induction l as [|b l IH]; cbn; [tauto|].
  intros [->|Hin].
  - pose proof (sumZ_nonneg f l H). lia.
  - specialize (IH Hin). specialize (H b). lia.
Qed.

Lemma combine_app (l1 l2 : list A) (m1 m2 : list B) :
  length l1 = length m1 ->
  combine (l1 ++ l2) (m1 ++ m2) = combine l1 m1 ++ combine l2 m2.
Proof.
  revert m1. induction l1 as [|a l1 IH]; intros [|b m1] H; try discriminate.
  - reflexivity.
  - cbn. f_equal. apply IH. now injection H.
Qed.

Lemma combine_skipn (l1 : list A) (m1 : list B) i :
  combine (skipn i l1) (skipn i m1) = skipn i (combine l1 m1).
Proof.
  revert l1 m1. induction i as [|i IH]; intros [|a l1] [|b m1]; cbn; auto.
  now destruct (skipn i l1).
Qed.

Lemma nth_error_combine (l1 : list A) (m1 : list B) i a b :
  nth_error l1 i = Some a -> nth_error m1 i = Some b ->
  nth_error (combine l1 m1) i = Some (a, b).
Proof.
  revert l1 m1. induction i as [|i IH]; intros [|a' l1] [|b' m1];
    cbn; try discriminate.
  - now intros [= ->] [= ->].
  - apply IH.
Qed.

End PyListFacts.

(** [l.remove(x)] on a list of row ids: drops the first occurrence. *)
Fixpoint list_remove (x : Z) (l : list Z) : list Z :=
  match l with
  | [] => []
  | y :: l' => if Z.eqb x y then l' else y :: list_remove x l'
  end.

(** [x in l] on a list of row ids. *)
Definition list_contains (x : Z) (l : list Z) : bool := existsb (Z.eqb x) l.

(** ** index.py *)

Module Index.
Section WithKeys.

(** The key domain of one index.  [is_none k] is Python's [k is None];
    [lt a b] is Python's [a < b] on two keys that are not [None], and
    [a > b] is read as [lt b a], as it is for the built-in types. *)
Variable K : Type.
Variable is_none : K -> bool.
Variable lt : K -> K -> bool.

(** [BTree._compare] *)
Definition _compare (a b : K) : Z :=
  if is_none a && is_none b then 0
  else if is_none a then -1
  else if is_none b then 1
  else if lt a b then -1
  else if lt b a then 1
  else 0.

(** [BTreeNode]: [keys], the parallel list [values] of row-id lists, and
    [children]. *)
Local Unset Elimination Schemes.
Inductive BTreeNode : Type :=
| Node (leaf : bool) (keys : list K) (values : list (list Z))
       (children : list BTreeNode).
Local Set Elimination Schemes.

Definition leaf (n : BTreeNode) := let (l, _, _, _) := n in l.
Definition keys (n : BTreeNode) := let (_, k, _, _) := n in k.
Definition values (n : BTreeNode) := let (_, _, v, _) := n in v.
Definition children (n : BTreeNode) := let (_, _, _, c) := n in c.

(** [BTree]: [order], [root] and [_size]. *)
Record BTree : Type := mkBTree {
  order : Z;
  root : BTreeNode;
  _size : Z
}.

(** [BTree.__init__] *)
Definition new (order : Z) : BTree :=
  mkBTree (Z.max order 3) (Node true [] [] []) 0.

Definition min_keys (t : BTree) : Z := (order t - 1) / 2.
Definition max_keys (t : BTree) : Z := order t - 1.

(** [BTree.__len__] *)
Definition len (t : BTree) : Z := _size t.

(** The loop [while i >= 0 and _compare(key, keys[i]) < 0: i -= 1] started
    at [i = n - 1]; the answer is the final [i + 1]. *)
Fixpoint scan_down (key : K) (ks : list K) (n : nat) : nat :=
  match n with
  | O => O
  | S i =>
      match nth_error ks i with
      | Some k => if _compare key k <? 0 then scan_down key ks i else S i
      | None => S i
      end
  end.

(** The loop [while i < len(keys) and _compare(key, keys[i]) > 0: i += 1]
    started at [i = 0]; the answer is the final [i]. *)
Fixpoint scan_up (key : K) (ks : list K) : nat :=
  match ks with
  | [] => O
  | k :: ks' => if _compare key k >? 0 then S (scan_up key ks') else O
  end.

(** [i < len(node.keys) and _compare(key, node.keys[i]) == 0] *)
Definition key_at (key : K) (ks : list K) (i : nat) : bool :=
  match nth_error ks i with
  | Some k => _compare key k =? 0
  | None => false
  end.

(** [BTree._split_child(parent, index)] *)
Definition _split_child (parent : BTreeNode) (index : nat)
  : result BTreeNode :=
  child <- getitem (children parent) index ;;
  let mid := Nat.div (length (keys child)) 2 in
  kmid <- getitem (keys child) mid ;;
  vmid <- getitem (values child) mid ;;
  let new_node :=
    Node (leaf child)
         (skipn (S mid) (keys child))
         (skipn (S mid) (values child))
         (if leaf child then [] else skipn (S mid) (children child)) in
  let child' :=
    Node (leaf child)
         (firstn mid (keys child))
         (firstn mid (values child))
         (if leaf child then children child
          else firstn (S mid) (children child)) in
  cs <- setitem index child' (children parent) ;;
  Ok (Node (leaf parent)
           (list_insert index kmid (keys parent))
           (list_insert index vmid (values parent))
           (list_insert (S index) new_node cs)).

(** [BTree._insert_non_full(node, key, row_id)].  The recursion descends
    into a child that may have just been produced by a split, so it is
    bounded by [fuel]. *)
Fixpoint _insert_non_full (mx : Z) (fuel : nat) (node : BTreeNode)
         (key : K) (row_id : Z) : result BTreeNode :=
  match fuel with
  | O => Raise OutOfFuel
  | S fuel' =>
      let pos := scan_down key (keys node) (length (keys node)) in
      if leaf node then
        match pos with
        | S i =>
            if key_at key (keys node) i then
              rs <- getitem (values node) i ;;
              vs <- setitem i (rs ++ [row_id]) (values node) ;;
              Ok (Node (leaf node) (keys node) vs (children node))
            else
              Ok (Node (leaf node)
                       (list_insert pos key (keys node))
                       (list_insert pos [row_id] (values node))
                       (children node))
        | O =>
            Ok (Node (leaf node)
                     (list_insert pos key (keys node))
                     (list_insert pos [row_id] (values node))
                     (children node))
        end
      else
        child <- getitem (children node) pos ;;
        if lenZ (keys child) =? mx then
          node' <- _split_child node pos ;;
          k <- getitem (keys node') pos ;;
          let i := if _compare key k >? 0 then S pos else pos in
          c <- getitem (children node') i ;;
          c' <- _insert_non_full mx fuel' c key row_id ;;
          cs <- setitem i c' (children node') ;;
          Ok (Node (leaf node') (keys node') (values node') cs)
        else
          c' <- _insert_non_full mx fuel' child key row_id ;;
          cs <- setitem pos c' (children node) ;;
          Ok (Node (leaf node) (keys node) (values node) cs)
  end.

(** The depth of the node graph; the recursion budget of an insert. *)
Fixpoint height (n : BTreeNode) : nat :=
  match n with
  | Node _ _ _ cs => S (list_max (map height cs))
  end.

(** [BTree.insert(key, row_id)] *)
Definition insert (t : BTree) (key : K) (row_id : Z) : result BTree :=
  r <- (if lenZ (keys (root t)) =? max_keys t then
          _split_child (Node false [] [] [root t]) 0
        else Ok (root t)) ;;
  r' <- _insert_non_full (max_keys t) (S (height r)) r key row_id ;;
  Ok (mkBTree (order t) r' (_size t + 1)).

(** [BTree._search(node, key)] *)
Fixpoint _search (node : BTreeNode) (key : K) : result (list Z) :=
  match node with
  | Node lf ks vs cs =>
      let i := scan_up key ks in
      if key_at key ks i then getitem vs i
      else if lf then Ok []
      else
        (fix at_child (cs : list BTreeNode) (i : nat) : result (list Z) :=
           match cs, i with
           | [], _ => Raise IndexError
           | c :: _, O => _search c key
           | _ :: cs', S i' => at_child cs' i'
           end) cs i
  end.

(** [BTree.search(key)] *)
Definition search (t : BTree) (key : K) : result (list Z) :=
  _search (root t) key.

(** [BTree.__contains__] *)
Definition contains (t : BTree) (key : K) : result bool :=
  rs <- search t key ;; Ok (0 <? lenZ rs).

(** The step shared by both branches of [_delete] once the key has been
    found at slot [i] and [row_id] is in its list. *)
Definition remove_at (lf : bool) (ks : list K) (vs : list (list Z))
           (cs : list BTreeNode) (i : nat) (rs : list Z) (row_id : Z)
  : result (BTreeNode * bool) :=
  let rs' := list_remove row_id rs in
  if lenZ rs' =? 0 then
    ks' <- list_pop i ks ;;
    vs' <- list_pop i vs ;;
    Ok (Node lf ks' vs' cs, true)
  else
    vs' <- setitem i rs' vs ;;
    Ok (Node lf ks vs' cs, true).

(** [BTree._delete(node, key, row_id)] *)
Fixpoint _delete (node : BTreeNode) (key : K) (row_id : Z)
  : result (BTreeNode * bool) :=
  match node with
  | Node lf ks vs cs =>
      let i := scan_up key ks in
      let descend :=
        '(cs', d) <-
          (fix at_child (cs : list BTreeNode) (i : nat)
             : result (list BTreeNode * bool) :=
             match cs, i with
             | [], _ => Raise IndexError
             | c :: cs', O =>
                 '(c', d) <- _delete c key row_id ;; Ok (c' :: cs', d)
             | c :: cs', S i' =>
                 '(cs'', d) <- at_child cs' i' ;; Ok (c :: cs'', d)
             end) cs i ;;
        Ok (Node lf ks vs cs', d) in
      if lf then
        if key_at key ks i then
          rs <- getitem vs i ;;
          if list_contains row_id rs then remove_at lf ks vs cs i rs row_id
          else Ok (node, false)
        else Ok (node, false)
      else
        if key_at key ks i then
          rs <- getitem vs i ;;
          if list_contains row_id rs then remove_at lf ks vs cs i rs row_id
          else descend
        else descend
  end.

(** [BTree.delete(key, row_id)] *)
Definition delete (t : BTree) (key : K) (row_id : Z)
  : result (BTree * bool) :=
  '(r, deleted) <- _delete (root t) key row_id ;;
  r' <- (if (lenZ (keys r) =? 0) && negb (leaf r)
         then getitem (children r) 0 else Ok r) ;;
  Ok (mkBTree (order t) r' (if deleted then _size t - 1 else _size t),
      deleted).

(** *** Observations on a node graph *)


(** The number of row ids held by the key slots of one node. *)
Definition slots (vs : list (list Z)) : Z := sumZ (map lenZ vs).

(** Row ids held by the key slots of all nodes below [n], [n] included. *)
Fixpoint total (n : BTreeNode) : Z :=
  match n with
  | Node _ _ vs cs => slots vs + sumZ (map total cs)
  end.

(** Row ids held by the key slots of the leaf nodes only. *)
Fixpoint leaf_total (n : BTreeNode) : Z :=
  match n with
  | Node lf _ vs cs =>
      (if lf then slots vs else 0) + sumZ (map leaf_total cs)
  end.

(** Shape of a node graph on which no operation indexes out of range:
    [values] runs parallel to [keys], and an internal node has more
    children than keys. *)
Fixpoint wf_node (n : BTreeNode) : bool :=
  match n with
  | Node lf ks vs cs =>
      Nat.eqb (length vs) (length ks)
      && (lf || Nat.ltb (length ks) (length cs))
      && forallb wf_node cs
  end.

Definition wf (t : BTree) : bool := (3 <=? order t) && wf_node (root t).

(** [key] compares equal to the key of some slot below [n]. *)
Fixpoint occurs (key : K) (n : BTreeNode) : bool :=
  match n with
  | Node _ ks _ cs =>
      existsb (fun k => _compare key k =? 0) ks
      || existsb (occurs key) cs
  end.

(** A slot whose key compares equal to [key] weighs 1 when its row-id list
    is exactly [[row_id]] and 2 otherwise; other slots weigh nothing. *)
Definition slot_weight (key : K) (row_id : Z) (kv : K * list Z) : Z :=
  if _compare key (fst kv) =? 0 then
    match snd kv with
    | [r] => if r =? row_id then 1 else 2
    | _ => 2
    end
  else 0.

Fixpoint weight (key : K) (row_id : Z) (n : BTreeNode) : Z :=
  match n with
  | Node _ ks vs cs =>
      sumZ (map (slot_weight key row_id) (combine ks vs))
      + sumZ (map (weight key row_id) cs)
  end.

(** *** Induction over node graphs *)

Section NodeInd.
Variable P : BTreeNode -> Prop.
Hypothesis P_node :
  forall lf ks vs cs, Forall P cs -> P (Node lf ks vs cs).

Fixpoint BTreeNode_ind (n : BTreeNode) : P n :=
  match n with
  | Node lf ks vs cs =>
      P_node lf ks vs
        ((fix all (l : list BTreeNode) : Forall P l :=
            match l with
            | [] => Forall_nil P
            | c :: l' => Forall_cons c (BTreeNode_ind c) (all l')
            end) cs)
  end.
End NodeInd.

(** *** Unfolding equations: [children[i]] as [getitem] *)

Lemma _search_eq (lf : bool) ks vs cs key :
  _search (Node lf ks vs cs) key =
  let i := scan_up key ks in
  if key_at key ks i then getitem vs i
  else if lf then Ok []
  else c <- getitem cs i ;; _search c key.
Proof.
  cbn [_search]. cbv zeta.
  destruct (key_at key ks (scan_up key ks)); [reflexivity|].
  destruct lf; [reflexivity|].
  generalize (scan_up key ks) as i.
  induction cs as [|c cs' IH]; intros [|i]; try reflexivity.
  rewrite IH. reflexivity.
Qed.

Definition descend (lf : bool) ks vs cs (i : nat) key row_id
  : result (BTreeNode * bool) :=
  c <- getitem cs i ;;
  '(c', d) <- _delete c key row_id ;;
  cs' <- setitem i c' cs ;;
  Ok (Node lf ks vs cs', d).

Lemma _delete_eq (lf : bool) ks vs cs key row_id :
  _delete (Node lf ks vs cs) key row_id =
  let i := scan_up key ks in
  if key_at key ks i then
    rs <- getitem vs i ;;
    if list_contains row_id rs then remove_at lf ks vs cs i rs row_id
    else if lf then Ok (Node lf ks vs cs, false)
         else descend lf ks vs cs i key row_id
  else if lf then Ok (Node lf ks vs cs, false)
       else descend lf ks vs cs i key row_id.
Proof.
  cbn [_delete]. cbv zeta.
  assert (E : forall l i,
    (fix at_child (cs0 : list BTreeNode) (i0 : nat)
       : result (list BTreeNode * bool) :=
       match cs0, i0 with
       | [], _ => Raise IndexError
       | c :: cs', O =>
           '(c', d) <- _delete c key row_id ;; Ok (c' :: cs', d)
       | c :: cs', S i' =>
           '(cs'', d) <- at_child cs' i' ;; Ok (c :: cs'', d)
       end) l i =
    (c <- getitem l i ;;
     '(c', d) <- _delete c key row_id ;;
     cs' <- setitem i c' l ;; Ok (cs', d))).
  { induction l as [|c l' IH]; intros [|i]; try reflexivity.
    rewrite IH. unfold getitem, setitem. cbn [nth_error].
    destruct (nth_error l' i) as [x|]; [|reflexivity].
    cbn. destruct (_delete x key row_id) as [[c' d]|e]; reflexivity. }
  unfold descend. rewrite E.
  destruct lf; destruct (key_at key ks (scan_up key ks)); cbn;
    try reflexivity;
    repeat match goal with
      | |- context [bind ?m _] =>
          lazymatch m with
          | bind _ _ => fail
          | _ => destruct m as [[? ?]|?] || destruct m; cbn
          end
      | |- context [if list_contains ?r ?l then _ else _] =>
          destruct (list_contains r l); cbn
      end; reflexivity.
Qed.

(** *** Every operation keeps the count of stored row ids in step *)

Lemma lenZ_app {A : Type} (l1 l2 : list A) :
  lenZ (l1 ++ l2) = lenZ l1 + lenZ l2.
Proof. unfold lenZ. rewrite length_app. lia. Qed.

Lemma slots_replace vs i rs rs' :
  nth_error vs i = Some rs ->
  slots (firstn i vs ++ rs' :: skipn (S i) vs) = slots vs - lenZ rs + lenZ rs'.
Proof.
  intros H. unfold slots. rewrite (sumZ_middle lenZ _ _ H).
  rewrite sumZ_map_app. cbn. lia.
Qed.

Lemma slots_pop vs i rs :
  nth_error vs i = Some rs ->
  slots (firstn i vs ++ skipn (S i) vs) = slots vs - lenZ rs.
Proof.
  intros H. unfold slots. rewrite (sumZ_middle lenZ _ _ H).
  rewrite sumZ_map_app. lia.
Qed.

Lemma _split_child_total p i p' :
  _split_child p i = Ok p' -> total p' = total p.
Proof.
  destruct p as [lf ks vs cs]. unfold _split_child. cbn [children keys values leaf].
  intros H. inv_bind H.
  destruct a as [clf cks cvs ccs]. cbn [children keys values leaf] in *.
  apply getitem_Ok in Hstep, Hstep0, Hstep1.
  apply setitem_Ok in Hstep2. destruct Hstep2 as (c0 & Hc0 & ->).
  rewrite Hstep in Hc0. injection Hc0 as <-.
  cbn [total]. unfold slots. rewrite !sumZ_list_insert.
  rewrite (sumZ_middle total _ _ Hstep). rewrite sumZ_map_app.
  cbn [map sumZ total]. unfold slots.
  rewrite (sumZ_middle lenZ _ _ Hstep1).
  destruct clf.
  - cbn [map sumZ]. lia.
  - pose proof (sumZ_firstn_skipn total ccs
                  (S (Nat.div (length cks) 2))). lia.
Qed.

Lemma _insert_non_full_total mx fuel n key row_id n' :
  _insert_non_full mx fuel n key row_id = Ok n' -> total n' = total n + 1.
Proof.
  revert n n'. induction fuel as [|fuel IH]; intros n n' H; [discriminate|].
  destruct n as [lf ks vs cs]. cbn [_insert_non_full children keys values leaf] in H.
  set (pos := scan_down key ks (length ks)) in *.
  destruct lf.
  - assert (Hnew : total (Node true (list_insert pos key ks)
                            (list_insert pos [row_id] vs) cs)
                   = total (Node true ks vs cs) + 1).
    { cbn [total]. unfold slots. rewrite sumZ_list_insert.
      change (lenZ [row_id]) with 1. lia. }
    destruct pos as [|i]; [now inv_bind H|].
    destruct (key_at key ks i); [|now inv_bind H].
    inv_bind H. apply getitem_Ok in Hstep.
    apply setitem_Ok in Hstep0. destruct Hstep0 as (x & _ & ->).
    cbn [total]. rewrite (slots_replace _ _ _ Hstep), lenZ_app.
    change (lenZ [row_id]) with 1. lia.
  - inv_bind H. destruct (lenZ (keys a) =? mx).
    + inv_bind H. apply _split_child_total in Hstep0.
      apply IH in Hstep3. apply getitem_Ok in Hstep2.
      apply setitem_Ok in Hstep4. destruct Hstep4 as (x & Hx & ->).
      rewrite Hstep2 in Hx. injection Hx as <-.
      destruct a0 as [lf' ks' vs' cs']. cbn [children keys values leaf] in *.
      rewrite <- Hstep0. cbn [total].
      rewrite (sumZ_middle total _ _ Hstep2), sumZ_map_app. cbn. lia.
    + inv_bind H. apply IH in Hstep0. apply getitem_Ok in Hstep.
      apply setitem_Ok in Hstep1. destruct Hstep1 as (x & Hx & ->).
      rewrite Hstep in Hx. injection Hx as <-.
      cbn [total].
      rewrite (sumZ_middle total _ _ Hstep), sumZ_map_app. cbn. lia.
Qed.

Lemma lenZ_list_remove x l :
  list_contains x l = true -> lenZ (list_remove x l) = lenZ l - 1.
Proof.
  unfold list_contains, lenZ. induction l as [|y l IH]; cbn [existsb list_remove].
  - discriminate.
  - destruct (x =? y); cbn [orb length]; [lia|].
    intros H. specialize (IH H). cbn [length]. lia.
Qed.

Lemma remove_at_total lf ks vs cs i rs row_id n' d :
  nth_error vs i = Some rs ->
  list_contains row_id rs = true ->
  remove_at lf ks vs cs i rs row_id = Ok (n', d) ->
  total n' = total (Node lf ks vs cs) - 1 /\ d = true.
Proof.
  intros Hrs Hin H. unfold remove_at in H.
  pose proof (lenZ_list_remove _ _ Hin) as Hlen.
  destruct (lenZ (list_remove row_id rs) =? 0) eqn:E; inv_bind H.
  - injection H as <- <-. split; [|reflexivity].
    unfold list_pop in Hstep0. rewrite Hrs in Hstep0.
    apply Ok_inj in Hstep0. subst a0.
    cbn [total]. rewrite (slots_pop _ _ Hrs). lia.
  - injection H as <- <-. split; [|reflexivity].
    apply setitem_Ok in Hstep. destruct Hstep as (x & _ & ->).
    cbn [total]. rewrite (slots_replace _ _ _ Hrs). lia.
Qed.

Lemma _delete_total n key row_id :
  forall n' d, _delete n key row_id = Ok (n', d) ->
               total n' = total n - (if d then 1 else 0).
Proof.
  induction n as [lf ks vs cs IH] using BTreeNode_ind. intros n' d H.
  rewrite _delete_eq in H. cbv zeta in H.
  set (i := scan_up key ks) in *.
  assert (Hdesc : descend lf ks vs cs i key row_id = Ok (n', d) ->
                  total n' = total (Node lf ks vs cs) - (if d then 1 else 0)).
  { unfold descend. intros Hd. inv_bind Hd. injection Hd as <- <-.
    apply getitem_Ok in Hstep.
    apply setitem_Ok in Hstep1. destruct Hstep1 as (x & _ & ->).
    rewrite Forall_forall in IH.
    specialize (IH _ (nth_error_In _ _ Hstep) _ _ Hstep0).
    cbn [total]. rewrite (sumZ_middle total _ _ Hstep), sumZ_map_app.
    cbn. lia. }
  assert (Hsame : Ok (Node lf ks vs cs, false) = Ok (n', d) ->
                  total n' = total (Node lf ks vs cs) - (if d then 1 else 0)).
  { intros [= <- <-]. lia. }
  destruct (key_at key ks i).
  - inv_bind H. apply getitem_Ok in Hstep.
    destruct (list_contains row_id a) eqn:Hin.
    + destruct (remove_at_total _ _ _ _ _ _ Hstep Hin H) as [-> ->]. lia.
    + destruct lf; auto.
  - destruct lf; auto.
Qed.

(** *** Reachable trees *)

(** [_delete] leaves an internal root without keys, so that [delete]
    replaces the root by its first child. *)
Definition root_replaced (t : BTree) (key : K) (row_id : Z) : bool :=
  match _delete (root t) key row_id with
  | Ok (r, _) => (lenZ (keys r) =? 0) && negb (leaf r)
  | Raise _ => false
  end.

(** Trees built from a fresh tree by [insert] and [delete]. *)
Inductive reachable : BTree -> Prop :=
| reach_new (order : Z) : reachable (new order)
| reach_insert t key row_id t' :
    reachable t -> insert t key row_id = Ok t' -> reachable t'
| reach_delete t key row_id t' d :
    reachable t -> delete t key row_id = Ok (t', d) -> reachable t'.

(** The same, except that no [delete] replaces the root. *)
Inductive reachable_keeping_root : BTree -> Prop :=
| keep_new (order : Z) : reachable_keeping_root (new order)
| keep_insert t key row_id t' :
    reachable_keeping_root t -> insert t key row_id = Ok t' ->
    reachable_keeping_root t'
| keep_delete t key row_id t' d :
    reachable_keeping_root t -> root_replaced t key row_id = false ->
    delete t key row_id = Ok (t', d) -> reachable_keeping_root t'.

Lemma insert_total t key row_id t' :
  insert t key row_id = Ok t' ->
  total (root t') = total (root t) + 1 /\ len t' = len t + 1.
Proof.
  unfold insert. intros H. inv_bind H. cbn [root len _size].
  apply _insert_non_full_total in Hstep0. split; [|reflexivity].
  rewrite Hstep0. f_equal.
  destruct (lenZ (keys (root t)) =? max_keys t).
  - apply _split_child_total in Hstep. rewrite Hstep. cbn. lia.
  - now apply Ok_inj in Hstep; subst.
Qed.

Lemma delete_total t key row_id t' d :
  root_replaced t key row_id = false ->
  delete t key row_id = Ok (t', d) ->
  total (root t') = total (root t) - (if d then 1 else 0) /\
  len t' = len t - (if d then 1 else 0).
Proof.
  unfold delete, root_replaced. intros Hkeep H. inv_bind H.
  rewrite Hstep in Hkeep. rewrite Hkeep in Hstep0.
  apply Ok_inj in Hstep0. subst a.
  injection H as <- <-. cbn [root len _size].
  apply _delete_total in Hstep. split; [assumption|].
  unfold len. destruct b0; lia.
Qed.

(** *** Shape, recursion depth and weight across a split *)

Lemma wf_node_inv lf ks vs cs :
  wf_node (Node lf ks vs cs) = true <->
  length vs = length ks /\
  (lf = false -> (length ks < length cs)%nat) /\
  Forall (fun c => wf_node c = true) cs.
Proof.
  cbn [wf_node]. rewrite !andb_true_iff, Nat.eqb_eq, forallb_forall,
    Forall_forall, orb_true_iff, Nat.ltb_lt.
  destruct lf; intuition congruence.
Qed.

Lemma height_le lf ks vs cs f :
  (height (Node lf ks vs cs) <= S f)%nat <->
  Forall (fun c => (height c <= f)%nat) cs.
Proof.
  cbn [height]. split; intros H.
  - apply (proj1 (Forall_map height (fun k => (k <= f)%nat) cs)),
      list_max_le. lia.
  - apply (proj2 (Forall_map height (fun k => (k <= f)%nat) cs)),
      list_max_le in H. lia.
Qed.

Lemma Forall_replace {A : Type} (P : A -> Prop) l i x :
  Forall P l -> P x -> Forall P (firstn i l ++ x :: skipn (S i) l).
Proof.
  intros Hl Hx. apply Forall_app. split; [|constructor; [assumption|]].
  - rewrite <- (firstn_skipn i l) in Hl. now apply Forall_app in Hl.
  - rewrite <- (firstn_skipn (S i) l) in Hl. now apply Forall_app in Hl.
Qed.

Lemma Forall_list_insert {A : Type} (P : A -> Prop) l i x :
  Forall P l -> P x -> Forall P (list_insert i x l).
Proof.
  intros Hl Hx. unfold list_insert.
  rewrite <- (firstn_skipn i l) in Hl. apply Forall_app in Hl.
  apply Forall_app. split; [|constructor]; tauto.
Qed.

Lemma Forall_firstn {A : Type} (P : A -> Prop) l i :
  Forall P l -> Forall P (firstn i l).
Proof.
  intros Hl. rewrite <- (firstn_skipn i l) in Hl. now apply Forall_app in Hl.
Qed.

Lemma Forall_skipn {A : Type} (P : A -> Prop) l i :
  Forall P l -> Forall P (skipn i l).
Proof.
  intros Hl. rewrite <- (firstn_skipn i l) in Hl. now apply Forall_app in Hl.
Qed.

Lemma slot_weight_nonneg key row_id kv : 0 <= slot_weight key row_id kv.
Proof.
  unfold slot_weight. destruct (_compare key (fst kv) =? 0); [|lia].
  destruct (snd kv) as [|r [|? ?]]; try lia. destruct (r =? row_id); lia.
Qed.

Lemma weight_nonneg key row_id n : 0 <= weight key row_id n.
Proof.
  induction n as [lf ks vs cs IH] using BTreeNode_ind. cbn [weight].
  pose proof (sumZ_nonneg (slot_weight key row_id) (combine ks vs)
                (slot_weight_nonneg key row_id)).
  assert (0 <= sumZ (map (weight key row_id) cs)); [|lia].
  induction IH; cbn; lia.
Qed.

Lemma combine_list_insert ks vs i (k : K) (v : list Z) :
  length vs = length ks ->
  combine (list_insert i k ks) (list_insert i v vs)
  = list_insert i (k, v) (combine ks vs).
Proof.
  intros Hlen. unfold list_insert.
  rewrite combine_app by (rewrite !length_firstn; lia).
  cbn [combine]. now rewrite combine_firstn, combine_skipn.
Qed.

Lemma scan_up_le key ks : (scan_up key ks <= length ks)%nat.
Proof.
  induction ks as [|k ks IH]; cbn; [lia|].
  destruct (_compare key k >? 0); lia.
Qed.

Lemma scan_down_le key ks n : (scan_down key ks n <= n)%nat.
Proof.
  induction n as [|n IH]; cbn; [lia|].
  destruct (nth_error ks n); [|lia].
  destruct (_compare key k <? 0); lia.
Qed.

(** What a successful split yields (the result exists whenever the child
    at [index] has at least one key). *)
Lemma _split_child_ok p i c key row_id f :
  wf_node p = true ->
  nth_error (children p) i = Some c ->
  (1 <= length (keys c))%nat ->
  Forall (fun c => (height c <= f)%nat) (children p) ->
  exists p',
    _split_child p i = Ok p' /\ wf_node p' = true /\
    weight key row_id p' = weight key row_id p /\
    Forall (fun c => (height c <= f)%nat) (children p') /\
    leaf p' = leaf p /\
    length (keys p') = S (length (keys p)) /\
    length (children p') = S (length (children p)).
Proof.
  destruct p as [lf ks vs cs]. destruct c as [clf cks cvs ccs].
  cbn [children keys values leaf]. intros Hwf Hc Hlen Hh.
  apply wf_node_inv in Hwf. destruct Hwf as (Hvs & Hcs & Hall).
  pose proof Hall as Hall'. rewrite Forall_forall in Hall'.
  pose proof (Hall' _ (nth_error_In _ _ Hc)) as Hwfc.
  apply wf_node_inv in Hwfc. destruct Hwfc as (Hcvs & Hccs & Hcall).
  pose proof Hh as Hh'. rewrite Forall_forall in Hh'.
  pose proof (Hh' _ (nth_error_In _ _ Hc)) as Hhc.
  set (mid := Nat.div (length cks) 2).
  assert (Hmid : (mid < length cks)%nat)
    by (apply Nat.Div0.div_lt_upper_bound; lia).
  destruct (nth_error cks mid) as [kmid|] eqn:Hk;
    [|apply nth_error_None in Hk; lia].
  destruct (nth_error cvs mid) as [vmid|] eqn:Hv;
    [|apply nth_error_None in Hv; lia].
  unfold _split_child. cbn [children keys values leaf].
  apply getitem_Ok in Hc. rewrite Hc. cbn [bind keys values leaf children].
  fold mid. unfold getitem at 1 2. rewrite Hk, Hv. cbn [bind].
  apply getitem_Ok in Hc. unfold setitem. rewrite Hc. cbn [bind].
  eexists. split; [reflexivity|].
  assert (Hhc' : Forall (fun c => (height c <= Nat.pred f)%nat) ccs /\
                 (1 <= f)%nat).
  { destruct f as [|f]; [cbn in Hhc; lia|]. split; [|lia].
    now apply height_le in Hhc. }
  destruct Hhc' as [Hhcs Hf].
  repeat split.
  - apply wf_node_inv. repeat split.
    + rewrite !length_list_insert. lia.
    + intros Hlf. rewrite !length_list_insert, (length_replace _ _ _ Hc).
      specialize (Hcs Hlf). lia.
    + apply Forall_list_insert; [apply Forall_replace; [assumption|]|];
        apply wf_node_inv; repeat split.
      * rewrite !length_firstn. lia.
      * intros ->. specialize (Hccs eq_refl).
        rewrite !length_firstn. lia.
      * destruct clf; [assumption|now apply Forall_firstn].
      * rewrite !length_skipn. lia.
      * intros ->. specialize (Hccs eq_refl).
        rewrite !length_skipn. lia.
      * destruct clf; [constructor|now apply Forall_skipn].
  - cbn [weight]. rewrite combine_list_insert by assumption.
    rewrite !sumZ_list_insert.
    rewrite (sumZ_middle (weight key row_id) _ _ Hc), sumZ_map_app.
    cbn [map sumZ weight].
    rewrite <- combine_firstn, combine_skipn.
    rewrite (sumZ_middle (slot_weight key row_id) _ _
               (nth_error_combine _ _ _ Hk Hv)).
    destruct clf.
    + cbn [map sumZ]. lia.
    + pose proof (sumZ_firstn_skipn (weight key row_id) ccs (S mid)). lia.
  - apply Forall_list_insert; [apply Forall_replace; [assumption|]|].
    + destruct f as [|f]; [lia|]. apply height_le.
      destruct clf; [assumption|now apply Forall_firstn].
    + destruct f as [|f]; [lia|]. apply height_le.
      destruct clf; [constructor|now apply Forall_skipn].
  - apply length_list_insert.
  - cbn [children]. rewrite length_list_insert. f_equal.
    apply (length_replace _ _ _ Hc).
Qed.

Lemma combine_replace_r ks vs i (k : K) (rs x : list Z) :
  nth_error ks i = Some k -> nth_error vs i = Some rs ->
  combine ks (firstn i vs ++ x :: skipn (S i) vs)
  = firstn i (combine ks vs) ++ (k, x) :: skipn (S i) (combine ks vs).
Proof.
  revert ks vs. induction i as [|i IH]; intros [|k0 ks] [|v0 vs];
    cbn [nth_error]; try discriminate.
  - intros [= ->] [= ->]. reflexivity.
  - intros Hk Hv. cbn. f_equal. now apply IH.
Qed.

Lemma slot_weight_new key row_id : slot_weight key row_id (key, [row_id]) <= 1.
Proof.
  unfold slot_weight. cbn [fst snd].
  destruct (_compare key key =? 0); [|lia]. rewrite Z.eqb_refl. lia.
Qed.

Lemma slot_weight_append key row_id k rs :
  slot_weight key row_id (k, rs ++ [row_id])
  <= slot_weight key row_id (k, rs) + 1.
Proof.
  unfold slot_weight. cbn [fst snd].
  destruct (_compare key k =? 0); [|lia].
  destruct rs as [|r [|r' rs]]; cbn [app].
  - rewrite Z.eqb_refl. lia.
  - destruct (r =? row_id); lia.
  - destruct rs; cbn; lia.
Qed.

Lemma key_at_Some key ks i :
  key_at key ks i = true ->
  exists k, nth_error ks i = Some k /\ (_compare key k =? 0) = true.
Proof.
  unfold key_at. destruct (nth_error ks i); [eauto|discriminate].
Qed.

(** An insert into a well-shaped node returns, keeps the shape, and raises
    the weight by at most one. *)
Lemma _insert_non_full_ok mx key row_id fuel :
  forall n,
    1 <= mx -> wf_node n = true -> (height n <= fuel)%nat ->
    exists n',
      _insert_non_full mx fuel n key row_id = Ok n' /\ wf_node n' = true /\
      weight key row_id n' <= weight key row_id n + 1.
Proof.
  induction fuel as [|fuel IH]; intros [lf ks vs cs] Hmx Hwf Hh;
    [cbn in Hh; lia|].
  apply height_le in Hh.
  pose proof Hwf as Hwf0. apply wf_node_inv in Hwf.
  destruct Hwf as (Hvs & Hcs & Hall).
  cbn [_insert_non_full children keys values leaf].
  set (pos := scan_down key ks (length ks)).
  assert (Hpos : (pos <= length ks)%nat) by apply scan_down_le.
  destruct lf.
  - assert (Hnew : exists n',
      Ok (Node true (list_insert pos key ks) (list_insert pos [row_id] vs) cs)
      = Ok n' /\ wf_node n' = true /\
      weight key row_id n' <= weight key row_id (Node true ks vs cs) + 1).
    { eexists. split; [reflexivity|]. split.
      - apply wf_node_inv. rewrite !length_list_insert.
        repeat split; [lia|discriminate|assumption].
      - cbn [weight]. rewrite combine_list_insert by assumption.
        rewrite sumZ_list_insert.
        pose proof (slot_weight_new key row_id). lia. }
    destruct pos as [|i]; [exact Hnew|].
    destruct (key_at key ks i) eqn:Hat; [|exact Hnew].
    apply key_at_Some in Hat. destruct Hat as (k & Hk & _).
    destruct (nth_error vs i) as [rs|] eqn:Hrs;
      [|apply nth_error_None in Hrs; lia].
    unfold getitem, setitem. rewrite Hrs. cbn [bind].
    eexists. split; [reflexivity|]. split.
    + apply wf_node_inv. rewrite (length_replace _ _ _ Hrs).
      repeat split; [assumption|discriminate|assumption].
    + cbn [weight]. rewrite (combine_replace_r _ _ _ _ Hk Hrs).
      rewrite (sumZ_middle (slot_weight key row_id) _ _
                 (nth_error_combine _ _ _ Hk Hrs)).
      rewrite sumZ_map_app. cbn [map sumZ].
      pose proof (slot_weight_append key row_id k rs). lia.
  - specialize (Hcs eq_refl).
    destruct (nth_error cs pos) as [child|] eqn:Hchild;
      [|apply nth_error_None in Hchild; lia].
    unfold getitem at 1. rewrite Hchild. cbn [bind].
    pose proof Hall as Hall'. rewrite Forall_forall in Hall'.
    pose proof Hh as Hh'. rewrite Forall_forall in Hh'.
    destruct (lenZ (keys child) =? mx) eqn:Hfull.
    + apply Z.eqb_eq in Hfull. unfold lenZ in Hfull.
      destruct (_split_child_ok (Node false ks vs cs) pos key row_id
                  Hwf0 Hchild ltac:(lia) Hh)
        as (p' & -> & Hwf' & Hw' & Hh2 & Hlf' & Hks' & Hcs').
      cbn [bind]. destruct p' as [lf' ks' vs' cs'].
      cbn [children keys values leaf] in *. subst lf'.
      apply wf_node_inv in Hwf'. destruct Hwf' as (Hvs' & _ & Hall2).
      destruct (nth_error ks' pos) as [k|] eqn:Hk;
        [|apply nth_error_None in Hk; lia].
      unfold getitem at 1. rewrite Hk. cbn [bind].
      set (i := if _compare key k >? 0 then S pos else pos).
      assert (Hi : (i < length cs')%nat)
        by (subst i; destruct (_compare key k >? 0); lia).
      destruct (nth_error cs' i) as [c|] eqn:Hc;
        [|apply nth_error_None in Hc; lia].
      unfold getitem at 1. rewrite Hc. cbn [bind].
      rewrite Forall_forall in Hall2, Hh2.
      destruct (IH c Hmx (Hall2 _ (nth_error_In _ _ Hc))
                  (Hh2 _ (nth_error_In _ _ Hc))) as (c' & -> & Hwfc' & Hwc').
      cbn [bind]. unfold setitem. rewrite Hc. cbn [bind].
      eexists. split; [reflexivity|]. split.
      * apply wf_node_inv. rewrite (length_replace _ _ _ Hc).
        repeat split; [assumption|lia|].
        apply Forall_replace; [now apply Forall_forall|assumption].
      * rewrite <- Hw'. cbn [weight].
        rewrite (sumZ_middle (weight key row_id) _ _ Hc), sumZ_map_app.
        cbn [map sumZ]. lia.
    + destruct (IH child Hmx (Hall' _ (nth_error_In _ _ Hchild))
                  (Hh' _ (nth_error_In _ _ Hchild)))
        as (c' & -> & Hwfc' & Hwc').
      cbn [bind]. unfold setitem. rewrite Hchild. cbn [bind].
      eexists. split; [reflexivity|]. split.
      * apply wf_node_inv. rewrite (length_replace _ _ _ Hchild).
        repeat split; [assumption|lia|].
        apply Forall_replace; assumption.
      * cbn [weight].
        rewrite (sumZ_middle (weight key row_id) _ _ Hchild), sumZ_map_app.
        cbn [map sumZ]. lia.
Qed.

(** *** Searching and deleting a key of small weight *)

Lemma slot_weight_hit key row_id k rs :
  (_compare key k =? 0) = true -> 1 <= slot_weight key row_id (k, rs).
Proof.
  unfold slot_weight. cbn [fst snd]. intros ->.
  destruct rs as [|r [|? ?]]; try lia. destruct (r =? row_id); lia.
Qed.

Lemma slot_weight_one key row_id k rs :
  (_compare key k =? 0) = true -> slot_weight key row_id (k, rs) <= 1 ->
  rs = [row_id].
Proof.
  unfold slot_weight. cbn [fst snd]. intros ->.
  destruct rs as [|r [|? ?]]; try lia.
  destruct (r =? row_id) eqn:E; [|lia]. apply Z.eqb_eq in E. now subst.
Qed.

Lemma combine_pop ks vs i :
  combine (firstn i ks ++ skipn (S i) ks) (firstn i vs ++ skipn (S i) vs)
  = firstn i (combine ks vs) ++ skipn (S i) (combine ks vs)
    :> list (K * list Z).
Proof.
  revert ks vs. induction i as [|i IH]; intros [|k0 ks] [|v0 vs];
    simpl; try reflexivity; try apply combine_nil.
  f_equal. apply IH.
Qed.

Lemma occurs_weight key row_id n :
  occurs key n = false -> weight key row_id n = 0.
Proof.
  induction n as [lf ks vs cs IH] using BTreeNode_ind.
  cbn [occurs weight]. intros H. apply orb_false_iff in H.
  destruct H as [Hks Hcs].
  assert (Hs : sumZ (map (slot_weight key row_id) (combine ks vs)) = 0).
  { clear - Hks. revert vs. induction ks as [|k ks IHk]; intros [|v vs];
      cbn [combine map sumZ]; try reflexivity.
    cbn [existsb] in Hks. apply orb_false_iff in Hks. destruct Hks as [Hk Hks].
    rewrite (IHk Hks). unfold slot_weight. cbn [fst]. now rewrite Hk. }
  assert (Hc : sumZ (map (weight key row_id) cs) = 0).
  { induction IH as [|c cs Hc _ IHcs]; [reflexivity|].
    cbn [existsb] in Hcs. apply orb_false_iff in Hcs. destruct Hcs as [H1 H2].
    cbn [map sumZ]. rewrite (Hc H1), (IHcs H2). reflexivity. }
  lia.
Qed.

Lemma weight_child key row_id lf ks vs cs c :
  In c cs -> weight key row_id c <= weight key row_id (Node lf ks vs cs).
Proof.
  intros Hin. cbn [weight].
  pose proof (sumZ_In_le (weight key row_id) cs c
                (weight_nonneg key row_id) Hin).
  pose proof (sumZ_nonneg (slot_weight key row_id) (combine ks vs)
                (slot_weight_nonneg key row_id)). lia.
Qed.

Lemma _search_weightless key row_id n :
  wf_node n = true -> weight key row_id n = 0 -> _search n key = Ok [].
Proof.
  induction n as [lf ks vs cs IH] using BTreeNode_ind. intros Hwf Hw.
  pose proof Hwf as Hwf0. apply wf_node_inv in Hwf.
  destruct Hwf as (Hvs & Hcs & Hall).
  rewrite _search_eq. cbv zeta. set (i := scan_up key ks).
  pose proof (scan_up_le key ks) as Hi. fold i in Hi.
  destruct (key_at key ks i) eqn:Hat.
  - apply key_at_Some in Hat. destruct Hat as (k & Hk & Hcmp).
    assert (Hlt : (i < length ks)%nat) by (apply nth_error_Some; congruence).
    destruct (nth_error vs i) as [rs|] eqn:Hrs;
      [|apply nth_error_None in Hrs; lia].
    pose proof (slot_weight_hit key row_id k rs Hcmp).
    pose proof (sumZ_In_le (slot_weight key row_id) (combine ks vs) (k, rs)
                  (slot_weight_nonneg key row_id)
                  (nth_error_In _ _ (nth_error_combine _ _ _ Hk Hrs))).
    cbn [weight] in Hw.
    pose proof (sumZ_nonneg (weight key row_id) cs (weight_nonneg key row_id)).
    lia.
  - destruct lf; [reflexivity|]. specialize (Hcs eq_refl).
    destruct (nth_error cs i) as [c|] eqn:Hc;
      [|apply nth_error_None in Hc; lia].
    unfold getitem. rewrite Hc. cbn [bind].
    pose proof (nth_error_In _ _ Hc) as Hin.
    rewrite Forall_forall in IH, Hall. apply IH; auto.
    pose proof (weight_child key row_id false ks vs cs c Hin).
    pose proof (weight_nonneg key row_id c). lia.
Qed.

Lemma _delete_light key row_id n :
  wf_node n = true -> weight key row_id n <= 1 ->
  exists n' d,
    _delete n key row_id = Ok (n', d) /\ wf_node n' = true /\
    _search n' key = Ok [].
Proof.
  induction n as [lf ks vs cs IH] using BTreeNode_ind. intros Hwf Hw.
  pose proof Hwf as Hwf0. apply wf_node_inv in Hwf.
  destruct Hwf as (Hvs & Hcs & Hall).
  rewrite _delete_eq. cbv zeta. set (i := scan_up key ks).
  pose proof (scan_up_le key ks) as Hi. fold i in Hi.
  assert (Hdesc : key_at key ks i = false -> lf = false ->
    exists n' d,
      descend lf ks vs cs i key row_id = Ok (n', d) /\ wf_node n' = true /\
      _search n' key = Ok []).
  { intros Hat ->. specialize (Hcs eq_refl).
    destruct (nth_error cs i) as [c|] eqn:Hc;
      [|apply nth_error_None in Hc; lia].
    pose proof (nth_error_In _ _ Hc) as Hin.
    rewrite Forall_forall in IH, Hall.
    pose proof (weight_child key row_id false ks vs cs c Hin).
    destruct (IH c Hin (Hall c Hin) ltac:(lia)) as (c' & d & Hd & Hwfc & Hs).
    unfold descend, getitem, setitem. rewrite Hc. cbn [bind].
    rewrite Hd. cbn [bind].
    eexists _, d. split; [reflexivity|]. split.
    - apply wf_node_inv. rewrite (length_replace _ _ _ Hc).
      repeat split; [assumption|lia|].
      apply Forall_replace; [now apply Forall_forall|assumption].
    - rewrite _search_eq. cbv zeta. fold i. rewrite Hat.
      unfold getitem. rewrite (nth_error_replace_eq _ _ _ Hc).
      cbn [bind]. assumption. }
  assert (Hsame : key_at key ks i = false -> lf = true ->
    exists n' d,
      Ok (Node lf ks vs cs, false) = Ok (n', d) /\ wf_node n' = true /\
      _search n' key = Ok []).
  { intros Hat ->. eexists _, _. split; [reflexivity|].
    split; [assumption|].
    rewrite _search_eq. cbv zeta. fold i. now rewrite Hat. }
  destruct (key_at key ks i) eqn:Hat.
  - apply key_at_Some in Hat. destruct Hat as (k & Hk & Hcmp).
    assert (Hlt : (i < length ks)%nat) by (apply nth_error_Some; congruence).
    destruct (nth_error vs i) as [rs|] eqn:Hrs;
      [|apply nth_error_None in Hrs; lia].
    unfold getitem. rewrite Hrs. cbn [bind].
    pose proof (sumZ_In_le (slot_weight key row_id) (combine ks vs) (k, rs)
                  (slot_weight_nonneg key row_id)
                  (nth_error_In _ _ (nth_error_combine _ _ _ Hk Hrs))) as Hle.
    pose proof (sumZ_nonneg (weight key row_id) cs (weight_nonneg key row_id))
      as Hnn.
    pose proof (slot_weight_hit key row_id k rs Hcmp) as Hge.
    cbn [weight] in Hw.
    assert (Hrs1 : rs = [row_id])
      by (apply (slot_weight_one key row_id k); [assumption|lia]).
    subst rs. unfold list_contains. cbn [existsb]. rewrite Z.eqb_refl.
    cbn [orb]. unfold remove_at. cbn [list_remove]. rewrite Z.eqb_refl.
    change (lenZ (@nil Z) =? 0) with true. cbv iota.
    unfold list_pop. rewrite Hk, Hrs. cbn [bind].
    eexists _, _. split; [reflexivity|].
    assert (Hwf' : wf_node (Node lf (firstn i ks ++ skipn (S i) ks)
                              (firstn i vs ++ skipn (S i) vs) cs) = true).
    { apply wf_node_inv.
      pose proof (length_pop _ _ Hk). pose proof (length_pop _ _ Hrs).
      repeat split; [lia| |assumption]. intros Hlf. specialize (Hcs Hlf). lia. }
    split; [assumption|].
    apply (_search_weightless key row_id); [assumption|].
    cbn [weight]. rewrite combine_pop, sumZ_map_app.
    rewrite (sumZ_middle (slot_weight key row_id) _ _
               (nth_error_combine _ _ _ Hk Hrs)) in Hw.
    pose proof (sumZ_nonneg (slot_weight key row_id)
                  (firstn i (combine ks vs)) (slot_weight_nonneg key row_id)).
    pose proof (sumZ_nonneg (slot_weight key row_id)
                  (skipn (S i) (combine ks vs))
                  (slot_weight_nonneg key row_id)).
    lia.
  - destruct lf; auto.
Qed.

Lemma remove_at_wf lf ks vs cs i (k : K) rs row_id :
  wf_node (Node lf ks vs cs) = true ->
  nth_error ks i = Some k -> nth_error vs i = Some rs ->
  exists n', remove_at lf ks vs cs i rs row_id = Ok (n', true) /\
             wf_node n' = true.
Proof.
  intros Hwf Hk Hrs. apply wf_node_inv in Hwf.
  destruct Hwf as (Hvs & Hcs & Hall). unfold remove_at, list_pop, setitem.
  rewrite Hk, Hrs.
  destruct (lenZ (list_remove row_id rs) =? 0); cbn [bind];
    (eexists; split; [reflexivity|]); apply wf_node_inv.
  - pose proof (length_pop _ _ Hk). pose proof (length_pop _ _ Hrs).
    repeat split; [lia| |assumption]. intros Hlf. specialize (Hcs Hlf). lia.
  - rewrite (length_replace _ _ _ Hrs). repeat split; assumption.
Qed.

(** A delete on a well-shaped node returns and keeps the shape. *)
Lemma _delete_wf key row_id n :
  wf_node n = true ->
  exists n' d, _delete n key row_id = Ok (n', d) /\ wf_node n' = true.
Proof.
  induction n as [lf ks vs cs IH] using BTreeNode_ind. intros Hwf.
  pose proof Hwf as Hwf0. apply wf_node_inv in Hwf.
  destruct Hwf as (Hvs & Hcs & Hall).
  rewrite _delete_eq. cbv zeta. set (i := scan_up key ks).
  pose proof (scan_up_le key ks) as Hi. fold i in Hi.
  assert (Hdesc : lf = false ->
    exists n' d,
      descend lf ks vs cs i key row_id = Ok (n', d) /\ wf_node n' = true).
  { intros ->. specialize (Hcs eq_refl).
    destruct (nth_error cs i) as [c|] eqn:Hc;
      [|apply nth_error_None in Hc; lia].
    pose proof (nth_error_In _ _ Hc) as Hin.
    rewrite Forall_forall in IH, Hall.
    destruct (IH c Hin (Hall c Hin)) as (c' & d & Hd & Hwfc).
    unfold descend, getitem, setitem. rewrite Hc. cbn [bind].
    rewrite Hd. cbn [bind].
    eexists _, d. split; [reflexivity|].
    apply wf_node_inv. rewrite (length_replace _ _ _ Hc).
    repeat split; [assumption|lia|].
    apply Forall_replace; [now apply Forall_forall|assumption]. }
  assert (Hsame : exists n' d,
      Ok (Node lf ks vs cs, false) = Ok (n', d) /\ wf_node n' = true)
    by (eexists _, _; split; [reflexivity|assumption]).
  destruct (key_at key ks i) eqn:Hat.
  - apply key_at_Some in Hat. destruct Hat as (k & Hk & Hcmp).
    assert (Hlt : (i < length ks)%nat) by (apply nth_error_Some; congruence).
    destruct (nth_error vs i) as [rs|] eqn:Hrs;
      [|apply nth_error_None in Hrs; lia].
    unfold getitem. rewrite Hrs. cbn [bind].
    destruct (list_contains row_id rs).
    + destruct (@remove_at_wf lf ks vs cs i k rs row_id Hwf0 Hk Hrs)
        as (n' & -> & Hn').
      eauto.
    + destruct lf; auto.
  - destruct lf; auto.
Qed.

(** *** The operations of [BTree] on well-shaped trees *)

Lemma new_wf (o : Z) : wf (new o) = true.
Proof.
  unfold wf, new. cbn [order root]. apply andb_true_iff. split.
  - apply Z.leb_le. lia.
  - reflexivity.
Qed.

Lemma insert_ok t key row_id :
  wf t = true ->
  exists t', insert t key row_id = Ok t' /\ wf t' = true /\
             weight key row_id (root t')
             <= weight key row_id (root t) + 1.
Proof.
  unfold wf. intros H. apply andb_true_iff in H. destruct H as [Ho Hr].
  apply Z.leb_le in Ho. unfold insert, max_keys.
  assert (Hsplit : exists r,
    (if lenZ (keys (root t)) =? order t - 1
     then _split_child (Node false [] [] [root t]) 0 else Ok (root t)) = Ok r
    /\ wf_node r = true /\
    weight key row_id r = weight key row_id (root t)).
  { destruct (lenZ (keys (root t)) =? order t - 1) eqn:E.
    - apply Z.eqb_eq in E. unfold lenZ in E.
      destruct (@_split_child_ok (Node false [] [] [root t]) 0 (root t)
                  key row_id (height (root t)))
        as (r & Hr1 & Hr2 & Hr3 & _).
      + apply wf_node_inv. repeat split; auto.
      + reflexivity.
      + lia.
      + cbn [children]. auto.
      + exists r. repeat split; auto. rewrite Hr3. cbn. lia.
    - eauto. }
  destruct Hsplit as (r & -> & Hwfr & Hwr). cbn [bind].
  destruct (@_insert_non_full_ok (order t - 1) key row_id (S (height r)) r)
    as (r' & -> & Hwf' & Hw'); [lia|assumption|lia|].
  cbn [bind]. eexists. split; [reflexivity|]. cbn [order root].
  split; [|lia]. apply andb_true_iff. split; [now apply Z.leb_le|assumption].
Qed.

Lemma delete_ok t key row_id :
  wf t = true ->
  exists t' d, delete t key row_id = Ok (t', d) /\ wf t' = true.
Proof.
  unfold wf. intros H. apply andb_true_iff in H. destruct H as [Ho Hr].
  destruct (@_delete_wf key row_id (root t) Hr) as (r & d & Hd & Hwfr).
  unfold delete. rewrite Hd. cbn [bind].
  destruct r as [lf ks vs cs]. cbn [keys leaf children].
  pose proof Hwfr as Hinv. apply wf_node_inv in Hinv.
  destruct Hinv as (_ & Hcs & Hall).
  destruct ((lenZ ks =? 0) && negb lf) eqn:E.
  - apply andb_true_iff in E. destruct E as [E1 E2].
    apply negb_true_iff in E2. specialize (Hcs E2).
    destruct cs as [|c cs]; [cbn in Hcs; lia|].
    cbn. eexists _, _. split; [reflexivity|]. cbn [order root].
    apply andb_true_iff. split; [assumption|]. now inversion Hall.
  - cbn [bind]. eexists _, _. split; [reflexivity|]. cbn [order root].
    apply andb_true_iff. split; assumption.
Qed.

Lemma reachable_wf t : reachable t -> wf t = true.
Proof.
  induction 1 as [o|t key row_id t' _ IH H|t key row_id t' d _ IH H].
  - apply new_wf.
  - destruct (@insert_ok t key row_id IH) as (t1 & H1 & Hwf & _).
    rewrite H in H1. apply Ok_inj in H1. now subst.
  - destruct (@delete_ok t key row_id IH) as (t1 & d1 & H1 & Hwf).
    rewrite H in H1. apply Ok_inj in H1. injection H1 as -> ->. assumption.
Qed.

Lemma reachable_keeping_root_reachable t :
  reachable_keeping_root t -> reachable t.
Proof. induction 1; eauto using reachable. Qed.

(** C4 (as amended).  On every B-tree built from a fresh tree by inserts and
    by deletes that do not replace the root, [len] is the number of row ids
    held by the key slots of all nodes, internal nodes and leaves alike. *)
Theorem len_counts_all_slots t :
  reachable_keeping_root t -> len t = total (root t).
Proof.
  induction 1 as [o|t key row_id t' _ IH H|t key row_id t' d _ IH Hk H].
  - reflexivity.
  - apply insert_total in H. lia.
  - apply (@delete_total t key row_id t' d Hk) in H. lia.
Qed.

(** C5 (as amended).  On a well-shaped B-tree in which no key slot holds a
    key equal to [key]: [insert(key, row_id)] returns, the following
    [delete(key, row_id)] returns, and [search(key)] is then the empty
    list. *)
Theorem insert_delete_search_absent t key row_id :
  wf t = true -> occurs key (root t) = false ->
  exists t1 t2 d,
    insert t key row_id = Ok t1 /\
    delete t1 key row_id = Ok (t2, d) /\
    search t2 key = Ok [].
Proof.
  intros Hwf Habs.
  destruct (@insert_ok t key row_id Hwf) as (t1 & Hins & Hwf1 & Hw1).
  rewrite (@occurs_weight key row_id (root t) Habs) in Hw1.
  exists t1. unfold wf in Hwf1. apply andb_true_iff in Hwf1.
  destruct Hwf1 as [_ Hr1].
  destruct (@_delete_light key row_id (root t1) Hr1 ltac:(lia))
    as (r & d & Hd & Hwfr & Hs).
  unfold delete, search. rewrite Hd. cbn [bind].
  destruct r as [lf ks vs cs]. cbn [keys leaf children].
  destruct ((lenZ ks =? 0) && negb lf) eqn:E.
  - apply andb_true_iff in E. destruct E as [E1 E2].
    apply negb_true_iff in E2. apply Z.eqb_eq in E1. subst lf.
    destruct ks; [|discriminate E1].
    rewrite _search_eq in Hs. cbn in Hs.
    destruct (getitem cs 0) as [c|e] eqn:Hc; [|discriminate Hs].
    cbn [bind] in *. eexists _, d. repeat split; eauto.
  - cbn [bind]. eexists _, d. repeat split; eauto.
Qed.

(** A run of inserts, for building example trees. *)
Fixpoint insert_all (t : BTree) (l : list (K * Z)) : result BTree :=
  match l with
  | [] => Ok t
  | (k, r) :: l' => t' <- insert t k r ;; insert_all t' l'
  end.

Lemma insert_all_keeping_root l :
  forall t t', reachable_keeping_root t -> insert_all t l = Ok t' ->
               reachable_keeping_root t'.
Proof.
  induction l as [|[k r] l IH]; intros t t' Ht H; cbn [insert_all] in H.
  - apply Ok_inj in H. now subst.
  - inv_bind H. eapply IH; [|eassumption]. eapply keep_insert; eassumption.
Qed.

End WithKeys.
End Index.

(** ** Indexes over integer keys: worked examples *)

Module IntIndex.
Import Index.

(** An integer key is never [None]; [<] is the order of [Z]. *)
Definition int_none (_ : Z) : bool := false.
Definition int_lt : Z -> Z -> bool := Z.ltb.

Definition reachable := @Index.reachable Z int_none int_lt.
Definition keeping_root := @Index.reachable_keeping_root Z int_none int_lt.

(** Order 4, after [insert(1, 10)], [insert(2, 20)], [insert(3, 30)],
    [insert(4, 40)]: the fourth insert splits the full root and moves key 2
    with its row ids into the new internal root. *)
Definition four_keys : BTree Z :=
  mkBTree 4
    (Node false [2] [[20]]
       [Node true [1] [[10]] []; Node true [3; 4] [[30]; [40]] []])
    4.

Lemma four_keys_built :
  insert_all int_none int_lt (new Z 4) [(1, 10); (2, 20); (3, 30); (4, 40)]
  = Ok four_keys.
Proof. reflexivity. Qed.

Lemma four_keys_reachable : keeping_root four_keys.
Proof.
  eapply insert_all_keeping_root; [apply keep_new|apply four_keys_built].
Qed.

(** C4, counterexample to the claim as stated: the tree [four_keys] is
    reached by four inserts, its [len] is 4, and its leaves hold 3 row ids;
    the fourth sits in the internal root. *)
Lemma len_leaf_slots_counterexample :
  reachable four_keys /\ len four_keys = 4 /\
  leaf_total (root four_keys) = 3 /\
  len four_keys <> leaf_total (root four_keys).
Proof.
  split; [|repeat split; discriminate].
  apply reachable_keeping_root_reachable, four_keys_reachable.
Qed.

Lemma len_counts_all_slots_witness :
  keeping_root four_keys /\ len four_keys = total (root four_keys).
Proof.
  split; [apply four_keys_reachable|].
  apply (@len_counts_all_slots Z int_none int_lt four_keys).
  apply four_keys_reachable.
Defined.

(** What the amended C4 leaves out: deleting the only key of the internal
    root makes [delete] replace the root by its first child, and the row ids
    under the other child are gone while [len] still counts them. *)
Lemma delete_root_key_loses_entries :
  exists t, delete int_none int_lt four_keys 2 20 = Ok (t, true) /\
            len t = 3 /\ total (root t) = 1.
Proof. eexists. repeat split. Qed.

(** One key with one row id. *)
Definition one_key : BTree Z := mkBTree 4 (Node true [5] [[1]] []) 1.

(** C5, counterexample to the claim as stated: key 5 already holds row id 1;
    row id 2 is not associated with it; after [insert(5, 2)] and
    [delete(5, 2)] the search returns [[1]], not the empty list. *)
Lemma insert_delete_search_counterexample :
  insert int_none int_lt (new Z 4) 5 1 = Ok one_key /\
  search int_none int_lt one_key 5 = Ok [1] /\
  exists t1 t2,
    insert int_none int_lt one_key 5 2 = Ok t1 /\
    delete int_none int_lt t1 5 2 = Ok (t2, true) /\
    search int_none int_lt t2 5 = Ok [1] /\
    search int_none int_lt t2 5 <> Ok [].
Proof.
  split; [reflexivity|]. split; [reflexivity|].
  eexists _, _. repeat split. discriminate.
Qed.

Lemma insert_delete_search_absent_witness :
  wf four_keys = true /\ occurs int_none int_lt 7 (root four_keys) = false /\
  exists t1 t2 d,
    insert int_none int_lt four_keys 7 70 = Ok t1 /\
    delete int_none int_lt t1 7 70 = Ok (t2, d) /\
    search int_none int_lt t2 7 = Ok [].
Proof.
  split; [reflexivity|]. split; [reflexivity|].
  apply (@insert_delete_search_absent Z int_none int_lt four_keys 7 70);
    reflexivity.
Defined.

(** The delete slip behind C5: a key that sits in an internal node is
    inserted again under the right child, but [_delete] looks for the pair
    under the left child, so the pair just inserted is not found. *)
Lemma insert_delete_internal_key :
  exists t1, insert int_none int_lt four_keys 2 99 = Ok t1 /\
             delete int_none int_lt t1 2 99 = Ok (t1, false).
Proof. eexists. split; reflexivity. Qed.

End IntIndex.

(** ** Python strings and comparisons *)

Module Py.

(** [str.lower()] and [str.upper()] on the ASCII letters; other characters
    are left as they are. *)
Definition lower_char (c : ascii) : ascii :=
  let n := N_of_ascii c in
  if ((65 <=? n) && (n <=? 90))%N then ascii_of_N (n + 32) else c.

Definition upper_char (c : ascii) : ascii :=
  let n := N_of_ascii c in
  if ((97 <=? n) && (n <=? 122))%N then ascii_of_N (n - 32) else c.

Fixpoint lower (s : string) : string :=
  match s with
  | EmptyString => EmptyString
  | String c s' => String (lower_char c) (lower s')
  end.

Fixpoint upper (s : string) : string :=
  match s with
  | EmptyString => EmptyString
  | String c s' => String (upper_char c) (upper s')
  end.

(** The number a numeric value denotes; [bool] is a subclass of [int]. *)
Definition num_of (v : value) : option Q :=
  match v with
  | VInt n => Some (inject_Z n)
  | VReal q => Some q
  | VBool b => Some (inject_Z (if b then 1 else 0))
  | _ => None
  end.

(** [a == b] *)
Definition eq (a b : value) : bool :=
  match a, b with
  | VNull, VNull => true
  | VText s, VText t => String.eqb s t
  | _, _ =>
      match num_of a, num_of b with
      | Some x, Some y => Qeq_bool x y
      | _, _ => false
      end
  end.

Definition Qlt_bool (x y : Q) : bool := negb (Qle_bool y x).

(** [a < b]; comparing [None], or text with a number, raises [TypeError]. *)
Definition lt (a b : value) : result bool :=
  match a, b with
  | VText s, VText t => Ok (String.ltb s t)
  | _, _ =>
      match num_of a, num_of b with
      | Some x, Some y => Ok (Qlt_bool x y)
      | _, _ => Raise TypeError
      end
  end.

(** [a <= b] *)
Definition le (a b : value) : result bool :=
  match a, b with
  | VText s, VText t => Ok (String.leb s t)
  | _, _ =>
      match num_of a, num_of b with
      | Some x, Some y => Ok (Qle_bool x y)
      | _, _ => Raise TypeError
      end
  end.

(** [a > b] and [a >= b] *)
Definition gt (a b : value) : result bool := lt b a.
Definition ge (a b : value) : result bool := le b a.

(** [bool(v)] *)
Definition truthy (v : value) : bool :=
  match v with
  | VNull => false
  | VInt n => negb (n =? 0)
  | VReal q => negb (Qeq_bool q (inject_Z 0))
  | VText s => negb (String.eqb s EmptyString)
  | VBool b => b
  end.

Definition is_none (v : value) : bool :=
  match v with
  | VNull => true
  | _ => false
  end.

(** The built-in conversions and the regular-expression match behind LIKE
    are the interpreter's; the engine is stated over any implementation of
    them. *)
Record builtins : Type := mkBuiltins {
  int_of_str : string -> option Z;     (* [int(s)], [None] for [ValueError] *)
  float_of_str : string -> option Q;   (* [float(s)], likewise *)
  str_of : value -> string;            (* [str(v)] *)
  like : value -> value -> result value
    (* [bool(re.match('^' + p.replace('%','.*').replace('_','.') + '$',
                      str(v), re.IGNORECASE))] for the operands [v], [p] *)
}.

Lemma lower_char_idem c : lower_char (lower_char c) = lower_char c.
Proof. destruct c as [[] [] [] [] [] [] [] []]; reflexivity. Qed.

Lemma lower_idem s : lower (lower s) = lower s.
Proof.
  induction s as [|c s IH]; cbn; [reflexivity|].
  now rewrite lower_char_idem, IH.
Qed.

Lemma eq_refl_value v : eq v v = true.
Proof.
  destruct v; cbn; try reflexivity; try apply Qeq_bool_refl.
  apply String.eqb_refl.
Qed.

Lemma eq_sym a b : eq a b = eq b a.
Proof.
  destruct a, b; cbn; try reflexivity; try apply Qeq_bool_comm.
  apply String.eqb_sym.
Qed.

Lemma eq_trans a b c : eq a b = true -> eq b c = true -> eq a c = true.
Proof.
  destruct a, b; cbn; try discriminate; destruct c; cbn;
    try discriminate; try reflexivity; try apply Qeq_bool_trans.
  intros H1 H2. apply String.eqb_eq in H1, H2. subst. apply String.eqb_refl.
Qed.

Lemma eq_null_r v : eq v VNull = true -> v = VNull.
Proof. destruct v; cbn; try discriminate; reflexivity. Qed.

End Py.

(** ** datatypes.py *)

Module Datatypes.

Inductive DataType : Type := INTEGER | TEXT | REAL | BOOLEAN.

(** [DataType.name] *)
Definition name (dt : DataType) : string :=
  match dt with
  | INTEGER => "INTEGER"
  | TEXT => "TEXT"
  | REAL => "REAL"
  | BOOLEAN => "BOOLEAN"
  end.

(** [type_map] of [DataType.from_string] *)
Definition type_map : list (string * DataType) :=
  [("INTEGER", INTEGER); ("INT", INTEGER);
   ("TEXT", TEXT); ("VARCHAR", TEXT); ("STRING", TEXT);
   ("REAL", REAL); ("FLOAT", REAL); ("DOUBLE", REAL);
   ("BOOLEAN", BOOLEAN); ("BOOL", BOOLEAN)]%string.

Fixpoint lookup {V : Type} (m : list (string * V)) (k : string) : option V :=
  match m with
  | [] => None
  | (k', v) :: m' => if String.eqb k k' then Some v else lookup m' k
  end.

(** [DataType.from_string] *)
Definition from_string (type_str : string) : result DataType :=
  match lookup type_map (Py.upper type_str) with
  | Some dt => Ok dt
  | None => Raise ValueError
  end.

(** [float.is_integer()] and [int(float)] on the rational model. *)
Definition is_integer (q : Q) : bool := (Qnum q mod Zpos (Qden q)) =? 0.
Definition int_of_float (q : Q) : Z := Qnum q / Zpos (Qden q).

(** [float(n)] of an [int]: the nearest float, the even one of two that are
    equally near, and [OverflowError] when that float would not be below
    [2 ** 1024].  A float has 53 significant bits, so an [int] below
    [2 ** 53] is its own float; a larger one is rounded to a multiple of
    [unit], the weight of the last of its 53 leading bits. *)
Definition float_of_int (n : Z) : result Q :=
  let a := Z.abs n in
  if a <? 2 ^ 53 then Ok (inject_Z n)
  else
    let unit := 2 ^ (Z.log2 a - 52) in
    let q := a / unit in
    let r := a mod unit in
    let q' := if (unit <? 2 * r) || ((unit =? 2 * r) && Z.odd q)
              then q + 1 else q in
    if 2 ^ 1024 <=? q' * unit then Raise OverflowError
    else Ok (inject_Z (Z.sgn n * (q' * unit))).
Arguments float_of_int : simpl never.

Definition str_in (s : string) (l : list string) : bool :=
  existsb (String.eqb s) l.

Section Coerce.
Variable py : Py.builtins.

(** [validate_and_coerce(value, data_type, column_name)]; the [ValueError]
    of a failed [int(str)] or [float(str)] is caught and re-raised as
    [DataTypeError]; the [OverflowError] of [float(int)] is not caught. *)
Definition validate_and_coerce (v : value) (dt : DataType) : result value :=
  match v with
  | VNull => Ok VNull
  | _ =>
      match dt with
      | INTEGER =>
          match v with
          | VBool _ => Raise (DataTypeError "INTEGER" v)
          | VInt _ => Ok v
          | VReal q =>
              if is_integer q then Ok (VInt (int_of_float q))
              else Raise (DataTypeError "INTEGER" v)
          | VText s =>
              match Py.int_of_str py s with
              | Some n => Ok (VInt n)
              | None => Raise (DataTypeError (name dt) v)
              end
          | VNull => Raise (DataTypeError "INTEGER" v)
          end
      | TEXT =>
          match v with
          | VText _ => Ok v
          | _ => Ok (VText (Py.str_of py v))
          end
      | REAL =>
          match v with
          | VBool _ => Raise (DataTypeError "REAL" v)
          | VInt n => q <- float_of_int n ;; Ok (VReal q)
          | VReal _ => Ok v
          | VText s =>
              match Py.float_of_str py s with
              | Some q => Ok (VReal q)
              | None => Raise (DataTypeError (name dt) v)
              end
          | VNull => Raise (DataTypeError "REAL" v)
          end
      | BOOLEAN =>
          match v with
          | VBool _ => Ok v
          | VInt n => Ok (VBool (negb (n =? 0)))
          | VText s =>
              let lower := Py.lower s in
              if str_in lower ["true"; "1"; "yes"; "on"]%string
              then Ok (VBool true)
              else if str_in lower ["false"; "0"; "no"; "off"]%string
              then Ok (VBool false)
              else Raise (DataTypeError "BOOLEAN" v)
          | _ => Raise (DataTypeError "BOOLEAN" v)
          end
      end
  end.

End Coerce.

(** [compare_values(left, right)] *)
Definition compare_values (left right : value) : result Z :=
  match left, right with
  | VNull, VNull => Ok 0
  | VNull, _ => Ok (-1)
  | _, VNull => Ok 1
  | _, _ =>
      l <- Py.lt left right ;;
      if l then Ok (-1)
      else g <- Py.gt left right ;;
           if g then Ok 1 else Ok 0
  end.

(** *** [compare_values] is a three-way comparison *)

(** The three-way comparison [-1 if x < y else 1 if y < x else 0]. *)
Section ThreeWay.
Variable T : Type.
Variable ltb : T -> T -> bool.
Hypothesis asym : forall x y, ltb x y = true -> ltb y x = false.
Hypothesis negtrans :
  forall x y z, ltb x y = false -> ltb y z = false -> ltb x z = false.

Definition three_way (x y : T) : Z :=
  if ltb x y then -1 else if ltb y x then 1 else 0.

Lemma three_way_opp x y : three_way y x = - three_way x y.
Proof.
  unfold three_way. destruct (ltb x y) eqn:E1.
  - now rewrite (asym E1).
  - now destruct (ltb y x).
Qed.

Lemma three_way_le x y : three_way x y <= 0 <-> ltb y x = false.
Proof.
  unfold three_way. destruct (ltb x y) eqn:E1.
  - rewrite (asym E1). split; [reflexivity|lia].
  - destruct (ltb y x); split; (lia || discriminate || reflexivity).
Qed.

Lemma three_way_lt x y : three_way x y < 0 <-> ltb x y = true.
Proof.
  unfold three_way. destruct (ltb x y) eqn:E1.
  - split; [reflexivity|lia].
  - destruct (ltb y x); split; (lia || discriminate).
Qed.

Lemma three_way_trans x y z :
  three_way x y <= 0 -> three_way y z <= 0 ->
  three_way x z <= 0 /\
  (three_way x y < 0 \/ three_way y z < 0 -> three_way x z < 0).
Proof.
  rewrite !three_way_le, !three_way_lt. intros H1 H2. split.
  - now apply negtrans with y.
  - intros [H|H]; destruct (ltb x z) eqn:E; try reflexivity; exfalso.
    + rewrite (negtrans E H2) in H. discriminate.
    + rewrite (negtrans H1 E) in H. discriminate.
Qed.

End ThreeWay.

Lemma Qlt_bool_iff x y : Py.Qlt_bool x y = true <-> (x < y)%Q.
Proof.
  unfold Py.Qlt_bool. rewrite negb_true_iff. split.
  - intros H. apply Qnot_le_lt. intros Hle. apply Qle_bool_iff in Hle.
    congruence.
  - intros H. destruct (Qle_bool y x) eqn:E; [|reflexivity].
    apply Qle_bool_iff in E. exfalso. now apply (Qlt_not_le x y).
Qed.

Lemma Qlt_bool_false x y : Py.Qlt_bool x y = false <-> (y <= x)%Q.
Proof.
  unfold Py.Qlt_bool. rewrite negb_false_iff. apply Qle_bool_iff.
Qed.

Lemma Qlt_bool_asym x y : Py.Qlt_bool x y = true -> Py.Qlt_bool y x = false.
Proof.
  rewrite Qlt_bool_iff, Qlt_bool_false. apply Qlt_le_weak.
Qed.

Lemma Qlt_bool_negtrans x y z :
  Py.Qlt_bool x y = false -> Py.Qlt_bool y z = false ->
  Py.Qlt_bool x z = false.
Proof.
  rewrite !Qlt_bool_false. intros H1 H2. now apply Qle_trans with y.
Qed.

Lemma ltb_asym s t : String.ltb s t = true -> String.ltb t s = false.
Proof.
  unfold String.ltb. rewrite (String.compare_antisym t s).
  now destruct (String.compare s t).
Qed.

Lemma ltb_false s t : String.ltb s t = false <-> String.leb t s = true.
Proof.
  unfold String.ltb, String.leb. rewrite (String.compare_antisym t s).
  destruct (String.compare s t); cbn; split; congruence.
Qed.

Lemma ltb_negtrans s t u :
  String.ltb s t = false -> String.ltb t u = false -> String.ltb s u = false.
Proof.
  intros H1 H2. destruct (String.ltb s u) eqn:E; [exfalso|reflexivity].
  unfold String.ltb in *.
  destruct (String.compare s u) eqn:Esu; try discriminate.
  apply OrderedTypeEx.String_as_OT.cmp_lt in Esu.
  destruct (String.compare s t) eqn:Est; try discriminate.
  - apply OrderedTypeEx.String_as_OT.cmp_eq in Est. subst t.
    apply OrderedTypeEx.String_as_OT.cmp_lt in Esu.
    unfold OrderedTypeEx.String_as_OT.cmp in Esu. now rewrite Esu in H2.
  - rewrite String.compare_antisym in Est.
    destruct (String.compare t s) eqn:Ets; try discriminate.
    apply OrderedTypeEx.String_as_OT.cmp_lt in Ets.
    pose proof (OrderedTypeEx.String_as_OT.lt_trans t s u Ets Esu) as Htu.
    apply OrderedTypeEx.String_as_OT.cmp_lt in Htu.
    unfold OrderedTypeEx.String_as_OT.cmp in Htu. now rewrite Htu in H2.
Qed.

(** The kinds of values [compare_values] tells apart: [None], a number,
    a text. *)
Inductive rank : Type := RNull | RNum (q : Q) | RText (s : string).

Definition rank_of (v : value) : rank :=
  match v with
  | VNull => RNull
  | VText s => RText s
  | VInt n => RNum (inject_Z n)
  | VReal q => RNum q
  | VBool b => RNum (inject_Z (if b then 1 else 0))
  end.

Definition compare_ranks (a b : rank) : result Z :=
  match a, b with
  | RNull, RNull => Ok 0
  | RNull, _ => Ok (-1)
  | _, RNull => Ok 1
  | RNum x, RNum y => Ok (three_way Py.Qlt_bool x y)
  | RText s, RText t => Ok (three_way String.ltb s t)
  | _, _ => Raise TypeError
  end.

Lemma compare_values_ranks a b :
  compare_values a b = compare_ranks (rank_of a) (rank_of b).
Proof.
  destruct a, b; cbn; try reflexivity; unfold three_way, Py.gt, Py.lt; cbn;
    repeat match goal with
      | |- context [if ?c then _ else _] => destruct c; cbn
      end; reflexivity.
Qed.

Lemma compare_ranks_opp a b n :
  compare_ranks a b = Ok n -> compare_ranks b a = Ok (- n).
Proof.
  destruct a, b; cbn; intros H; try discriminate; apply Ok_inj in H; subst n;
    try reflexivity; f_equal.
  - apply three_way_opp. apply Qlt_bool_asym.
  - apply three_way_opp. apply ltb_asym.
Qed.

Lemma compare_ranks_trans a b c n1 n2 n3 :
  compare_ranks a b = Ok n1 -> compare_ranks b c = Ok n2 ->
  compare_ranks a c = Ok n3 -> n1 <= 0 -> n2 <= 0 ->
  n3 <= 0 /\ (n1 < 0 \/ n2 < 0 -> n3 < 0).
Proof.
  destruct a, b, c; cbn; intros H1 H2 H3; try discriminate;
    apply Ok_inj in H1, H2, H3; subst n1 n2 n3; try lia.
  - apply three_way_trans; [apply Qlt_bool_asym|apply Qlt_bool_negtrans].
  - apply three_way_trans; [apply ltb_asym|apply ltb_negtrans].
Qed.

Lemma compare_values_opp a b n :
  compare_values a b = Ok n -> compare_values b a = Ok (- n).
Proof. rewrite !compare_values_ranks. apply compare_ranks_opp. Qed.

Lemma compare_values_trans a b c n1 n2 n3 :
  compare_values a b = Ok n1 -> compare_values b c = Ok n2 ->
  compare_values a c = Ok n3 -> n1 <= 0 -> n2 <= 0 ->
  n3 <= 0 /\ (n1 < 0 \/ n2 < 0 -> n3 < 0).
Proof. rewrite !compare_values_ranks. apply compare_ranks_trans. Qed.

End Datatypes.

(** ** Values and the float that is not a number *)

(** The comparisons of Python are defined on every float, and one float
    denotes no rational: NaN, which [float('nan')] returns and a REAL column
    accepts.  It is neither below nor above nor equal to any number, itself
    included.  [obj] adds it to the values, for the functions that only
    compare what they are given. *)
Module Objects.
Import Datatypes.

Inductive obj : Type :=
| Val (v : value)
| NaN.

Definition is_none (o : obj) : bool :=
  match o with
  | Val v => Py.is_none v
  | NaN => false
  end.

Definition is_nan (o : obj) : bool :=
  match o with
  | Val _ => false
  | NaN => true
  end.

(** [a < b] and [a > b]: false when a number meets NaN, [TypeError] when
    [None] or a text does. *)
Definition lt (a b : obj) : result bool :=
  match a, b with
  | Val x, Val y => Py.lt x y
  | NaN, NaN => Ok false
  | NaN, Val y | Val y, NaN =>
      match Py.num_of y with
      | Some _ => Ok false
      | None => Raise TypeError
      end
  end.

Definition gt (a b : obj) : result bool := lt b a.

(** [compare_values(left, right)] *)
Definition compare_values (left right : obj) : result Z :=
  if is_none left && is_none right then Ok 0
  else if is_none left then Ok (-1)
  else if is_none right then Ok 1
  else
    l <- lt left right ;;
    if l then Ok (-1)
    else g <- gt left right ;;
         if g then Ok 1 else Ok 0.

(** On two values it is the [compare_values] of [Datatypes]. *)
Lemma compare_values_Val a b :
  compare_values (Val a) (Val b) = Datatypes.compare_values a b.
Proof. destruct a, b; reflexivity. Qed.

Lemma compare_values_NaN x :
  Py.num_of x <> None ->
  compare_values NaN (Val x) = Ok 0 /\ compare_values (Val x) NaN = Ok 0.
Proof.
  intros H. unfold compare_values, gt, lt. destruct x; cbn in *; try tauto.
Qed.

End Objects.

(** ** Python dictionaries *)

(** A [dict] keeps its keys in insertion order; assigning to a key that is
    present replaces the value in place. *)
Module Dict.
Section WithKey.
Variables K V : Type.
Variable eqb : K -> K -> bool.

Definition t : Type := list (K * V).

(** [d.get(k)] *)
Fixpoint get (d : t) (k : K) : option V :=
  match d with
  | [] => None
  | (k', v) :: d' => if eqb k k' then Some v else get d' k
  end.

(** [k in d] *)
Definition contains (d : t) (k : K) : bool :=
  match get d k with
  | Some _ => true
  | None => false
  end.

(** [d[k] = v] *)
Fixpoint set (d : t) (k : K) (v : V) : t :=
  match d with
  | [] => [(k, v)]
  | (k', v') :: d' =>
      if eqb k k' then (k', v) :: d' else (k', v') :: set d' k v
  end.

(** [del d[k]] and [d.pop(k)] for a key that is present. *)
Definition remove (d : t) (k : K) : t :=
  filter (fun kv => negb (eqb k (fst kv))) d.

(** [list(d.keys())] *)
Definition keys (d : t) : list K := map fst d.

Hypothesis eqb_eq : forall a b, eqb a b = true <-> a = b.

Lemma eqb_refl a : eqb a a = true.
Proof. now apply eqb_eq. Qed.

Lemma eqb_neq a b : a <> b -> eqb a b = false.
Proof.
  intros H. destruct (eqb a b) eqn:E; [|reflexivity].
  apply eqb_eq in E. contradiction.
Qed.

Lemma get_set_same d k v : get (set d k v) k = Some v.
Proof.
  induction d as [|[k' v'] d IH]; cbn.
  - now rewrite eqb_refl.
  - destruct (eqb k k') eqn:E; cbn; rewrite E; auto.
Qed.

Lemma get_set_other d k v k' : k <> k' -> get (set d k v) k' = get d k'.
Proof.
  intros Hne. induction d as [|[k0 v0] d IH]; cbn.
  - rewrite eqb_neq; auto.
  - destruct (eqb k k0) eqn:E; cbn.
    + apply eqb_eq in E. subst k0. rewrite (eqb_neq (a:=k')); auto.
    + now rewrite IH.
Qed.

Lemma get_remove_same d k : get (remove d k) k = None.
Proof.
  induction d as [|[k0 v0] d IH]; cbn; [reflexivity|].
  destruct (eqb k k0) eqn:E; cbn; [assumption|]. now rewrite E.
Qed.

Lemma get_remove_other d k k' : k <> k' -> get (remove d k) k' = get d k'.
Proof.
  intros Hne. unfold remove.
  induction d as [|[k0 v0] d IH]; cbn; [reflexivity|].
  destruct (eqb k k0) eqn:E; cbn.
  - apply eqb_eq in E. subst k0. rewrite (eqb_neq (a:=k')); auto.
  - now rewrite IH.
Qed.

Lemma get_In d k v : get d k = Some v -> In (k, v) d.
Proof.
  induction d as [|[k0 v0] d IH]; cbn; [discriminate|].
  destruct (eqb k k0) eqn:E.
  - apply eqb_eq in E. intros [= ->]. subst. now left.
  - intros H. right. auto.
Qed.

Lemma In_get d k v : NoDup (keys d) -> In (k, v) d -> get d k = Some v.
Proof.
  induction d as [|[k0 v0] d IH]; cbn; [tauto|].
  intros Hnd. inversion Hnd as [|? ? Hnotin Hnd']; subst.
  intros [[= -> ->]|Hin].
  - now rewrite eqb_refl.
  - destruct (eqb k k0) eqn:E; [|auto].
    apply eqb_eq in E. subst k0. exfalso. apply Hnotin.
    unfold keys. change k with (fst (k, v)). now apply in_map.
Qed.

Lemma keys_set d k v :
  keys (set d k v) = if contains d k then keys d else keys d ++ [k].
Proof.
  unfold contains, keys.
  induction d as [|[k0 v0] d IH]; cbn; [reflexivity|].
  destruct (eqb k k0) eqn:E; cbn; [reflexivity|].
  rewrite IH. now destruct (get d k).
Qed.

Lemma contains_In_keys d k : contains d k = true -> In k (keys d).
Proof.
  unfold contains. destruct (get d k) eqn:E; [|discriminate].
  intros _. apply get_In in E. unfold keys.
  change k with (fst (k, v)). now apply in_map.
Qed.

Lemma In_keys_contains d k : In k (keys d) -> contains d k = true.
Proof.
  unfold contains, keys. induction d as [|[k0 v0] d IH]; cbn; [tauto|].
  destruct (eqb k k0) eqn:E; [reflexivity|].
  intros [->|Hin]; [now rewrite eqb_refl in E|auto].
Qed.

Lemma NoDup_set d k v : NoDup (keys d) -> NoDup (keys (set d k v)).
Proof.
  intros Hnd. rewrite keys_set. destruct (contains d k) eqn:E; [assumption|].
  apply NoDup_app; [assumption|repeat constructor; cbn; tauto|].
  intros a Ha [<-|[]]. apply In_keys_contains in Ha. congruence.
Qed.

Lemma set_same_value d k v : get d k = Some v -> set d k v = d.
Proof.
  induction d as [|[k0 v0] d IH]; cbn; [discriminate|].
  destruct (eqb k k0) eqn:E.
  - now intros [= ->].
  - intros H. now rewrite IH.
Qed.

Lemma keys_remove d k :
  keys (remove d k) = filter (fun k' => negb (eqb k k')) (keys d).
Proof.
  unfold keys, remove. induction d as [|[k0 v0] d IH]; cbn; [reflexivity|].
  destruct (eqb k k0); cbn; now rewrite IH.
Qed.

Lemma NoDup_remove d k : NoDup (keys d) -> NoDup (keys (remove d k)).
Proof. intros H. rewrite keys_remove. now apply NoDup_filter. Qed.

End WithKey.
End Dict.

(** ** schema.py *)

Module Schema.
Import Datatypes.

Record Column : Type := mkColumn {
  name : string;
  data_type : DataType;
  primary_key : bool;
  unique : bool;
  not_null : bool
}.

(** [Column(...)] with its [__post_init__]: a primary key is unique and
    not null. *)
Definition Column_init (name : string) (data_type : DataType)
           (primary_key unique not_null : bool) : Column :=
  mkColumn name data_type primary_key
           (if primary_key then true else unique)
           (if primary_key then true else not_null).

Record TableSchema : Type := mkTableSchema {
  table_name : string;
  columns : list Column
}.

(** [TableSchema(...)] with its [__post_init__]: a second primary-key column
    raises [ValueError]. *)
Definition TableSchema_init (name : string) (columns : list Column)
  : result TableSchema :=
  if (1 <? lenZ (filter primary_key columns))
  then Raise ValueError
  else Ok (mkTableSchema name columns).

(** [_column_map[lower_name]]: a later column of the same lowercase name
    replaces an earlier one. *)
Fixpoint column_map_get (cols : list Column) (lower_name : string)
  : option Column :=
  match cols with
  | [] => None
  | c :: cols' =>
      match column_map_get cols' lower_name with
      | Some c' => Some c'
      | None =>
          if String.eqb (Py.lower (name c)) lower_name then Some c else None
      end
  end.

(** [TableSchema.get_column] *)
Definition get_column (s : TableSchema) (name : string) : result Column :=
  match column_map_get (columns s) (Py.lower name) with
  | Some c => Ok c
  | None => Raise (ColumnNotFoundError name (Some (table_name s)))
  end.

(** [TableSchema.primary_key] *)
Definition primary_key_of (s : TableSchema) : option Column :=
  find primary_key (columns s).

(** [TableSchema.column_names] *)
Definition column_names (s : TableSchema) : list string :=
  map name (columns s).

(** [Catalog]: lowercase table name to schema. *)
Definition Catalog : Type := Dict.t string TableSchema.

Definition Catalog_create_table (c : Catalog) (s : TableSchema)
  : result Catalog :=
  let lower_name := Py.lower (table_name s) in
  if Dict.contains String.eqb c lower_name
  then Raise (TableExistsError (table_name s))
  else Ok (Dict.set String.eqb c lower_name s).

Definition Catalog_drop_table (c : Catalog) (name : string) : result Catalog :=
  let lower_name := Py.lower name in
  if Dict.contains String.eqb c lower_name
  then Ok (Dict.remove String.eqb c lower_name)
  else Raise (TableNotFoundError name).

Definition Catalog_get_table (c : Catalog) (name : string)
  : result TableSchema :=
  match Dict.get String.eqb c (Py.lower name) with
  | Some s => Ok s
  | None => Raise (TableNotFoundError name)
  end.

Definition Catalog_has_table (c : Catalog) (name : string) : bool :=
  Dict.contains String.eqb c (Py.lower name).

End Schema.

(** ** index.py: [IndexManager] over column values *)

Module IndexManager.
Import Index.

(** [a < b] between two keys of one index.  The keys of an index are the
    coerced values of one column and compare without error; on a pair that
    Python would refuse to compare the answer is [false]. *)
Definition value_lt (a b : value) : bool :=
  match Py.lt a b with
  | Ok r => r
  | Raise _ => false
  end.

Definition tree : Type := BTree value.

Definition tree_insert : tree -> value -> Z -> result tree :=
  @Index.insert value Py.is_none value_lt.
Definition tree_delete : tree -> value -> Z -> result (tree * bool) :=
  @Index.delete value Py.is_none value_lt.
Definition tree_search : tree -> value -> result (list Z) :=
  @Index.search value Py.is_none value_lt.

(** [_indexes]: lowercase column name to [BTree]. *)
Definition t : Type := Dict.t string tree.

(** The truth value of a [BTree] object.  The class defines [__len__] and
    no [__bool__], so [if index:] asks whether [len(index)] is non-zero. *)
Definition truth (index : tree) : result bool :=
  if len index <? 0 then Raise ValueError else Ok (negb (len index =? 0)).

(** [IndexManager.create_index(column_name)], with the default order 32. *)
Definition create_index (im : t) (column_name : string) : t :=
  let lower_name := Py.lower column_name in
  if Dict.contains String.eqb im lower_name then im
  else Dict.set String.eqb im lower_name (Index.new value 32).

(** [IndexManager.get_index] *)
Definition get_index (im : t) (column_name : string) : option tree :=
  Dict.get String.eqb im (Py.lower column_name).

(** [IndexManager.insert(column_name, key, row_id)] *)
Definition insert (im : t) (column_name : string) (key : value) (row_id : Z)
  : result t :=
  match Dict.get String.eqb im (Py.lower column_name) with
  | None => Ok im
  | Some index =>
      b <- truth index ;;
      if b then
        index' <- tree_insert index key row_id ;;
        Ok (Dict.set String.eqb im (Py.lower column_name) index')
      else Ok im
  end.

(** [IndexManager.delete(column_name, key, row_id)] *)
Definition delete (im : t) (column_name : string) (key : value) (row_id : Z)
  : result t :=
  match Dict.get String.eqb im (Py.lower column_name) with
  | None => Ok im
  | Some index =>
      b <- truth index ;;
      if b then
        '(index', _) <- tree_delete index key row_id ;;
        Ok (Dict.set String.eqb im (Py.lower column_name) index')
      else Ok im
  end.

(** [IndexManager.search(column_name, key)]; [None] when there is no index
    to ask. *)
Definition search (im : t) (column_name : string) (key : value)
  : result (option (list Z)) :=
  match Dict.get String.eqb im (Py.lower column_name) with
  | None => Ok None
  | Some index =>
      b <- truth index ;;
      if b then rs <- tree_search index key ;; Ok (Some rs)
      else Ok None
  end.

(** [IndexManager.clear] *)
Definition clear (im : t) : t := [].

End IndexManager.

(** ** storage.py *)

Module Storage.
Import Datatypes Schema.

Record Row : Type := mkRow {
  row_id : Z;
  data : Dict.t string value
}.

Record Table : Type := mkTable {
  schema : TableSchema;
  _rows : Dict.t Z Row;
  _next_row_id : Z;
  _index_manager : IndexManager.t;
  _unique_values : Dict.t string (list value)
}.

(** A [set] of values: membership is by [==]. *)
Definition set_contains (v : value) (s : list value) : bool :=
  existsb (Py.eq v) s.
Definition set_add (v : value) (s : list value) : list value :=
  if set_contains v s then s else s ++ [v].
Definition set_discard (v : value) (s : list value) : list value :=
  filter (fun u => negb (Py.eq v u)) s.

(** [d.get(k)], which is [None] for a missing key. *)
Definition data_get (d : Dict.t string value) (k : string) : value :=
  match Dict.get String.eqb d k with
  | Some v => v
  | None => VNull
  end.

(** The indexes every table starts with: one on the primary key, one on each
    other unique column. *)
Definition create_indexes (s : TableSchema) (im : IndexManager.t)
  : IndexManager.t :=
  let im1 := match primary_key_of s with
             | Some pk => IndexManager.create_index im (name pk)
             | None => im
             end in
  fold_left (fun im col =>
               if unique col && negb (primary_key col)
               then IndexManager.create_index im (name col) else im)
            (columns s) im1.

(** [{col.name.lower(): set() for col in schema.columns if col.unique}] *)
Definition init_unique_values (s : TableSchema)
  : Dict.t string (list value) :=
  fold_left (fun d col =>
               if unique col then Dict.set String.eqb d (Py.lower (name col)) []
               else d)
            (columns s) [].

(** [Table.__init__] *)
Definition Table_init (s : TableSchema) : Table :=
  mkTable s [] 1 (create_indexes s []) (init_unique_values s).

(** [{k.lower(): v for k, v in values.items()}] *)
Definition normalize (values : Dict.t string value) : Dict.t string value :=
  fold_left (fun d kv => Dict.set String.eqb d (Py.lower (fst kv)) (snd kv))
            values [].

(** [self._unique_values[col_name]] *)
Definition unique_set (u : Dict.t string (list value)) (col_name : string)
  : result (list value) :=
  match Dict.get String.eqb u col_name with
  | Some s => Ok s
  | None => Raise KeyError
  end.

Definition violation (col : Column) (v : value) : exn :=
  if primary_key col then PrimaryKeyViolation (name col) v
  else UniqueViolation (name col) v.

Section WithBuiltins.
Variable py : Py.builtins.

(** The validation loop of [Table.insert]: reads the table, writes only the
    local [row_data]. *)
Fixpoint validate_insert (u : Dict.t string (list value))
         (normalized : Dict.t string value) (cols : list Column)
         (row_data : Dict.t string value) : result (Dict.t string value) :=
  match cols with
  | [] => Ok row_data
  | col :: cols' =>
      let col_name := Py.lower (name col) in
      let value := data_get normalized col_name in
      if Py.is_none value && not_null col
      then Raise (NotNullViolation (name col))
      else
        value <- (if Py.is_none value then Ok value
                  else validate_and_coerce py value (data_type col)) ;;
        _ <- (if unique col && negb (Py.is_none value) then
                s <- unique_set u col_name ;;
                if set_contains value s then Raise (violation col value)
                else Ok tt
              else Ok tt) ;;
        validate_insert u normalized cols'
                        (Dict.set String.eqb row_data col_name value)
  end.

(** The loop of [Table.insert] that adds the new values to the unique
    sets. *)
Fixpoint add_unique_values (u : Dict.t string (list value))
         (cols : list Column) (row_data : Dict.t string value)
  : Dict.t string (list value) * result unit :=
  match cols with
  | [] => (u, Ok tt)
  | col :: cols' =>
      let col_name := Py.lower (name col) in
      let value := data_get row_data col_name in
      if unique col && negb (Py.is_none value) then
        match unique_set u col_name with
        | Ok s =>
            add_unique_values
              (Dict.set String.eqb u col_name (set_add value s))
              cols' row_data
        | Raise e => (u, Raise e)
        end
      else add_unique_values u cols' row_data
  end.

(** The loop of [Table.insert] that feeds the indexes. *)
Fixpoint index_insert_all (im : IndexManager.t)
         (items : list (string * value)) (row_id : Z)
  : IndexManager.t * result unit :=
  match items with
  | [] => (im, Ok tt)
  | (col_name, value) :: items' =>
      if Py.is_none value then index_insert_all im items' row_id
      else
        match IndexManager.insert im col_name value row_id with
        | Ok im' => index_insert_all im' items' row_id
        | Raise e => (im, Raise e)
        end
  end.

(** [Table.insert(values)]: the table afterwards and the row returned or
    the exception raised. *)
Definition Table_insert (t : Table) (values : Dict.t string value)
  : Table * result Row :=
  let normalized := normalize values in
  match validate_insert (_unique_values t) normalized
                        (columns (schema t)) [] with
  | Raise e => (t, Raise e)
  | Ok row_data =>
      let row_id := _next_row_id t in
      let row := mkRow row_id row_data in
      let rows := Dict.set Z.eqb (_rows t) row_id row in
      let '(u, r1) := add_unique_values (_unique_values t)
                                        (columns (schema t)) row_data in
      match r1 with
      | Raise e =>
          (mkTable (schema t) rows (row_id + 1) (_index_manager t) u, Raise e)
      | Ok _ =>
          let '(im, r2) := index_insert_all (_index_manager t)
                                            row_data row_id in
          (mkTable (schema t) rows (row_id + 1) im u,
           match r2 with
           | Ok _ => Ok row
           | Raise e => Raise e
           end)
      end
  end.

(** The validation loop of [Table.update] over the items of [normalized];
    a coerced value is written back into [normalized]. *)
Fixpoint validate_update (t : Table) (row : Row)
         (items : list (string * value)) (normalized : Dict.t string value)
  : result (Dict.t string value) :=
  match items with
  | [] => Ok normalized
  | (col_name, new_value) :: items' =>
      col <- get_column (schema t) col_name ;;
      let old_value := data_get (data row) col_name in
      if Py.is_none new_value && not_null col
      then Raise (NotNullViolation (name col))
      else
        '(new_value, normalized) <-
          (if Py.is_none new_value then Ok (new_value, normalized)
           else v <- validate_and_coerce py new_value (data_type col) ;;
                Ok (v, Dict.set String.eqb normalized col_name v)) ;;
        _ <- (if unique col && negb (Py.is_none new_value)
                 && negb (Py.eq new_value old_value) then
                s <- unique_set (_unique_values t) col_name ;;
                if set_contains new_value s
                then Raise (violation col new_value)
                else Ok tt
              else Ok tt) ;;
        validate_update t row items' normalized
  end.

(** One round of the second loop of [Table.update]. *)
Definition apply_update (t : Table) (rid : Z) (row : Row)
           (col_name : string) (new_value : value)
  : Table * Row * result unit :=
  match get_column (schema t) col_name with
  | Raise e => (t, row, Raise e)
  | Ok col =>
      let old_value := data_get (data row) col_name in
      let '(u, r1) :=
        if unique col then
          match unique_set (_unique_values t) col_name with
          | Raise e => (_unique_values t, Raise e)
          | Ok s =>
              let s1 := if Py.is_none old_value then s
                        else set_discard old_value s in
              let s2 := if Py.is_none new_value then s1
                        else set_add new_value s1 in
              (Dict.set String.eqb (_unique_values t) col_name s2, Ok tt)
          end
        else (_unique_values t, Ok tt) in
      match r1 with
      | Raise e =>
          (mkTable (schema t) (_rows t) (_next_row_id t) (_index_manager t) u,
           row, Raise e)
      | Ok _ =>
          let r2 :=
            im1 <- (if Py.is_none old_value then Ok (_index_manager t)
                    else IndexManager.delete (_index_manager t) col_name
                                             old_value rid) ;;
            (if Py.is_none new_value then Ok im1
             else IndexManager.insert im1 col_name new_value rid) in
          match r2 with
          | Raise e =>
              (mkTable (schema t) (_rows t) (_next_row_id t)
                       (_index_manager t) u, row, Raise e)
          | Ok im =>
              let row' :=
                mkRow (row_id row)
                      (Dict.set String.eqb (data row) col_name new_value) in
              (mkTable (schema t) (Dict.set Z.eqb (_rows t) rid row')
                       (_next_row_id t) im u, row', Ok tt)
          end
      end
  end.

(** The second loop of [Table.update]. *)
Fixpoint apply_updates (t : Table) (rid : Z) (row : Row)
         (items : list (string * value)) : Table * result Row :=
  match items with
  | [] => (t, Ok row)
  | (col_name, new_value) :: items' =>
      match apply_update t rid row col_name new_value with
      | (t', row', Ok _) => apply_updates t' rid row' items'
      | (t', _, Raise e) => (t', Raise e)
      end
  end.

(** [Table.update(row_id, values)] *)
Definition Table_update (t : Table) (rid : Z) (values : Dict.t string value)
  : Table * result (option Row) :=
  match Dict.get Z.eqb (_rows t) rid with
  | None => (t, Ok None)
  | Some row =>
      let normalized := normalize values in
      match validate_update t row normalized normalized with
      | Raise e => (t, Raise e)
      | Ok normalized' =>
          match apply_updates t rid row normalized' with
          | (t', Ok row') => (t', Ok (Some row'))
          | (t', Raise e) => (t', Raise e)
          end
      end
  end.

(** The loop of [Table.delete] over the unique columns. *)
Fixpoint discard_unique_values (u : Dict.t string (list value))
         (cols : list Column) (row_data : Dict.t string value)
  : Dict.t string (list value) * result unit :=
  match cols with
  | [] => (u, Ok tt)
  | col :: cols' =>
      let col_name := Py.lower (name col) in
      let value := data_get row_data col_name in
      if unique col && negb (Py.is_none value) then
        match unique_set u col_name with
        | Ok s =>
            discard_unique_values
              (Dict.set String.eqb u col_name (set_discard value s))
              cols' row_data
        | Raise e => (u, Raise e)
        end
      else discard_unique_values u cols' row_data
  end.

(** The loop of [Table.delete] over the indexes. *)
Fixpoint index_delete_all (im : IndexManager.t)
         (items : list (string * value)) (rid : Z)
  : IndexManager.t * result unit :=
  match items with
  | [] => (im, Ok tt)
  | (col_name, value) :: items' =>
      if Py.is_none value then index_delete_all im items' rid
      else
        match IndexManager.delete im col_name value rid with
        | Ok im' => index_delete_all im' items' rid
        | Raise e => (im, Raise e)
        end
  end.

(** [Table.delete(row_id)] *)
Definition Table_delete (t : Table) (rid : Z) : Table * result (option Row) :=
  match Dict.get Z.eqb (_rows t) rid with
  | None => (t, Ok None)
  | Some row =>
      let rows := Dict.remove Z.eqb (_rows t) rid in
      let '(u, r1) := discard_unique_values (_unique_values t)
                        (columns (schema t)) (data row) in
      match r1 with
      | Raise e =>
          (mkTable (schema t) rows (_next_row_id t) (_index_manager t) u,
           Raise e)
      | Ok _ =>
          let '(im, r2) := index_delete_all (_index_manager t) (data row)
                                            rid in
          (mkTable (schema t) rows (_next_row_id t) im u,
           match r2 with
           | Ok _ => Ok (Some row)
           | Raise e => Raise e
           end)
      end
  end.

End WithBuiltins.

(** [Table.get(row_id)] *)
Definition Table_get (t : Table) (rid : Z) : option Row :=
  Dict.get Z.eqb (_rows t) rid.

(** [Table.scan()]: the rows in insertion order. *)
Definition Table_scan (t : Table) : list Row := map snd (_rows t).

(** [Table.count()] *)
Definition Table_count (t : Table) : Z := lenZ (_rows t).

(** [Table.find_by_index(column_name, value)] *)
Definition Table_find_by_index (t : Table) (column_name : string) (v : value)
  : result (list Row) :=
  row_ids <- IndexManager.search (_index_manager t) column_name v ;;
  match row_ids with
  | None =>
      Ok (filter (fun row => Py.eq (data_get (data row) (Py.lower column_name)) v)
                 (Table_scan t))
  | Some rids =>
      Ok (flat_map (fun rid => match Dict.get Z.eqb (_rows t) rid with
                               | Some row => [row]
                               | None => []
                               end) rids)
  end.

(** [Table.clear()] *)
Definition Table_clear (t : Table) : Table :=
  mkTable (schema t) [] 1
          (create_indexes (schema t) (IndexManager.clear (_index_manager t)))
          (map (fun kv => (fst kv, @nil value)) (_unique_values t)).

(** *** Sequences of table operations *)

Inductive op : Type :=
| OpInsert (values : Dict.t string value)
| OpUpdate (rid : Z) (values : Dict.t string value)
| OpDelete (rid : Z)
| OpClear.

Definition is_clear (o : op) : bool :=
  match o with
  | OpClear => true
  | _ => false
  end.

Section Runs.
Variable py : Py.builtins.

(** The table after one operation, whether it returned or raised. *)
Definition step (t : Table) (o : op) : Table :=
  match o with
  | OpInsert values => fst (Table_insert py t values)
  | OpUpdate rid values => fst (Table_update py t rid values)
  | OpDelete rid => fst (Table_delete t rid)
  | OpClear => Table_clear t
  end.

Definition run (t : Table) (ops : list op) : Table := fold_left step ops t.

(** The row ids handed out by the inserts of a run that returned, oldest
    first. *)
Fixpoint allocated (t : Table) (ops : list op) : list Z :=
  match ops with
  | [] => []
  | o :: ops' =>
      match o with
      | OpInsert values =>
          match snd (Table_insert py t values) with
          | Ok row => [row_id row]
          | Raise _ => []
          end
      | _ => []
      end ++ allocated (step t o) ops'
  end.

(** *** The indexes of a table never receive an entry *)

(** Every index is the tree [BTree(order=32)] it was created as. *)
Definition indexes_fresh (im : IndexManager.t) : Prop :=
  forall k index, Dict.get String.eqb im k = Some index ->
                  index = Index.new value 32.

Lemma create_index_fresh im c :
  indexes_fresh im -> indexes_fresh (IndexManager.create_index im c).
Proof.
  unfold IndexManager.create_index. intros H.
  destruct (Dict.contains String.eqb im (Py.lower c)); [assumption|].
  intros k index. destruct (String.eqb_spec (Py.lower c) k) as [<-|Hne].
  - rewrite (Dict.get_set_same _ String.eqb_eq). now intros [= <-].
  - rewrite (Dict.get_set_other _ String.eqb_eq) by assumption. apply H.
Qed.

Lemma create_indexes_fresh s im :
  indexes_fresh im -> indexes_fresh (create_indexes s im).
Proof.
  unfold create_indexes. intros H.
  assert (H1 : indexes_fresh
                 match primary_key_of s with
                 | Some pk => IndexManager.create_index im (name pk)
                 | None => im
                 end)
    by (destruct (primary_key_of s); [now apply create_index_fresh|assumption]).
  revert H1. generalize (match primary_key_of s with
                         | Some pk => IndexManager.create_index im (name pk)
                         | None => im
                         end).
  induction (columns s) as [|col cols IH]; intros im0 H0; cbn; [assumption|].
  apply IH. destruct (unique col && negb (primary_key col));
    [now apply create_index_fresh|assumption].
Qed.

Lemma indexes_fresh_nil : indexes_fresh [].
Proof. intros k index. discriminate. Qed.

Lemma insert_on_fresh im c key rid :
  indexes_fresh im -> IndexManager.insert im c key rid = Ok im.
Proof.
  intros H. unfold IndexManager.insert.
  destruct (Dict.get String.eqb im (Py.lower c)) as [index|] eqn:E;
    [|reflexivity].
  now rewrite (H _ _ E).
Qed.

Lemma delete_on_fresh im c key rid :
  indexes_fresh im -> IndexManager.delete im c key rid = Ok im.
Proof.
  intros H. unfold IndexManager.delete.
  destruct (Dict.get String.eqb im (Py.lower c)) as [index|] eqn:E;
    [|reflexivity].
  now rewrite (H _ _ E).
Qed.

Lemma search_on_fresh im c key :
  indexes_fresh im -> IndexManager.search im c key = Ok None.
Proof.
  intros H. unfold IndexManager.search.
  destruct (Dict.get String.eqb im (Py.lower c)) as [index|] eqn:E;
    [|reflexivity].
  now rewrite (H _ _ E).
Qed.

Lemma index_insert_all_fresh im items rid :
  indexes_fresh im -> index_insert_all im items rid = (im, Ok tt).
Proof.
  intros H. induction items as [|[c v] items IH]; cbn; [reflexivity|].
  destruct (Py.is_none v); [assumption|].
  now rewrite insert_on_fresh.
Qed.

Lemma index_delete_all_fresh im items rid :
  indexes_fresh im -> index_delete_all im items rid = (im, Ok tt).
Proof.
  intros H. induction items as [|[c v] items IH]; cbn; [reflexivity|].
  destruct (Py.is_none v); [assumption|].
  now rewrite delete_on_fresh.
Qed.

(** *** What every reachable table satisfies *)

Definition live (t : Table) (rid : Z) (row : Row) : Prop :=
  Dict.get Z.eqb (_rows t) rid = Some row.

(** [row.data.get(cn)] *)
Definition cell (row : Row) (cn : string) : value := data_get (data row) cn.

(** Every unique column has its set in [u]. *)
Definition unique_keys_ok (s : TableSchema) (u : Dict.t string (list value))
  : Prop :=
  forall col, In col (columns s) -> unique col = true ->
              Dict.contains String.eqb u (Py.lower (name col)) = true.

Record Inv0 (t : Table) : Prop := {
  inv_fresh : indexes_fresh (_index_manager t);
  inv_sets : unique_keys_ok (schema t) (_unique_values t);
  inv_keys : NoDup (Dict.keys (_rows t));
  inv_ids : forall rid row, live t rid row ->
                            row_id row = rid /\ 1 <= rid < _next_row_id t;
  inv_next : 1 <= _next_row_id t
}.

Lemma contains_set_mono {V : Type} (d : Dict.t string V) k v k' :
  Dict.contains String.eqb d k' = true ->
  Dict.contains String.eqb (Dict.set String.eqb d k v) k' = true.
Proof.
  unfold Dict.contains. destruct (String.eqb_spec k k') as [<-|Hne].
  - now rewrite (Dict.get_set_same _ String.eqb_eq).
  - now rewrite (Dict.get_set_other _ String.eqb_eq).
Qed.

Lemma contains_set_same {V : Type} (d : Dict.t string V) k v :
  Dict.contains String.eqb (Dict.set String.eqb d k v) k = true.
Proof.
  unfold Dict.contains. now rewrite (Dict.get_set_same _ String.eqb_eq).
Qed.

Lemma init_unique_values_ok s : unique_keys_ok s (init_unique_values s).
Proof.
  unfold unique_keys_ok, init_unique_values.
  generalize (@nil (string * list value)).
  induction (columns s) as [|c cols IH]; intros d col Hin Hu; [destruct Hin|].
  cbn [fold_left]. destruct Hin as [->|Hin]; [|now apply IH].
  rewrite Hu. clear IH.
  assert (H : Dict.contains String.eqb
                (Dict.set String.eqb d (Py.lower (name col)) [])
                (Py.lower (name col)) = true) by apply contains_set_same.
  revert H. generalize (Dict.set String.eqb d (Py.lower (name col)) []).
  induction cols as [|c cols IH]; intros d0 H; cbn [fold_left]; [assumption|].
  apply IH. destruct (unique c); [now apply contains_set_mono|assumption].
Qed.

Lemma unique_set_ok u cn :
  Dict.contains String.eqb u cn = true -> exists s, unique_set u cn = Ok s.
Proof.
  unfold Dict.contains, unique_set.
  destruct (Dict.get String.eqb u cn); [eauto|discriminate].
Qed.

(** A loop that rewrites the sets of some unique columns, as the loops of
    [insert] and [delete] do, returns and keeps every key. *)
Lemma add_unique_values_ok cols rd :
  forall u,
    (forall col, In col cols -> unique col = true ->
                 Dict.contains String.eqb u (Py.lower (name col)) = true) ->
    snd (add_unique_values u cols rd) = Ok tt /\
    forall k, Dict.contains String.eqb u k = true ->
              Dict.contains String.eqb (fst (add_unique_values u cols rd)) k
              = true.
Proof.
  induction cols as [|c cols IH]; intros u Hk; cbn [add_unique_values].
  - auto.
  - destruct (unique c && negb (Py.is_none (data_get rd (Py.lower (name c)))))
      eqn:E.
    + apply andb_true_iff in E. destruct E as [Hu _].
      destruct (unique_set_ok _ _ (Hk c (or_introl eq_refl) Hu)) as (s & ->).
      destruct (IH (Dict.set String.eqb u (Py.lower (name c))
                      (set_add (data_get rd (Py.lower (name c))) s)))
        as [H1 H2].
      * intros col Hin Hcu. apply contains_set_mono. apply Hk; [now right|auto].
      * split; [assumption|]. intros k Hc. apply H2.
        now apply contains_set_mono.
    + apply IH. intros col Hin. apply Hk. now right.
Qed.

Lemma discard_unique_values_ok cols rd :
  forall u,
    (forall col, In col cols -> unique col = true ->
                 Dict.contains String.eqb u (Py.lower (name col)) = true) ->
    snd (discard_unique_values u cols rd) = Ok tt /\
    forall k, Dict.contains String.eqb u k = true ->
              Dict.contains String.eqb (fst (discard_unique_values u cols rd))
                            k = true.
Proof.
  induction cols as [|c cols IH]; intros u Hk; cbn [discard_unique_values].
  - auto.
  - destruct (unique c && negb (Py.is_none (data_get rd (Py.lower (name c)))))
      eqn:E.
    + apply andb_true_iff in E. destruct E as [Hu _].
      destruct (unique_set_ok _ _ (Hk c (or_introl eq_refl) Hu)) as (s & ->).
      destruct (IH (Dict.set String.eqb u (Py.lower (name c))
                      (set_discard (data_get rd (Py.lower (name c))) s)))
        as [H1 H2].
      * intros col Hin Hcu. apply contains_set_mono. apply Hk; [now right|auto].
      * split; [assumption|]. intros k Hc. apply H2.
        now apply contains_set_mono.
    + apply IH. intros col Hin. apply Hk. now right.
Qed.

(** [Table.insert] under [Inv0]: either validation raises and the table is
    the one before, or every later step runs through. *)
Lemma Table_insert_cases t values :
  Inv0 t ->
  (exists e,
      validate_insert py (_unique_values t) (normalize values)
                      (columns (schema t)) [] = Raise e /\
      Table_insert py t values = (t, Raise e)) \/
  (exists rd,
      validate_insert py (_unique_values t) (normalize values)
                      (columns (schema t)) [] = Ok rd /\
      Table_insert py t values =
      (mkTable (schema t)
               (Dict.set Z.eqb (_rows t) (_next_row_id t)
                         (mkRow (_next_row_id t) rd))
               (_next_row_id t + 1) (_index_manager t)
               (fst (add_unique_values (_unique_values t)
                                       (columns (schema t)) rd)),
       Ok (mkRow (_next_row_id t) rd))).
Proof.
  intros [Hf Hs _ _ _]. unfold Table_insert.
  destruct (validate_insert py (_unique_values t) (normalize values)
                            (columns (schema t)) []) as [rd|e] eqn:Hv.
  - right. exists rd. split; [reflexivity|].
    destruct (add_unique_values_ok (columns (schema t)) rd
                (_unique_values t) Hs) as [H1 _].
    destruct (add_unique_values (_unique_values t) (columns (schema t)) rd)
      as [u r1]. cbn [fst snd] in *. subst r1.
    now rewrite (index_insert_all_fresh _ _ Hf).
  - left. eauto.
Qed.

Lemma is_none_false v : Py.is_none v = false <-> v <> VNull.
Proof. destruct v; cbn; split; congruence. Qed.

Lemma column_map_get_Some cols ln col :
  column_map_get cols ln = Some col ->
  In col cols /\ Py.lower (name col) = ln.
Proof.
  induction cols as [|c cols IH]; cbn; [discriminate|].
  destruct (column_map_get cols ln) as [c'|].
  - intros [= ->]. destruct (IH eq_refl). auto.
  - destruct (String.eqb_spec (Py.lower (name c)) ln); [|discriminate].
    intros [= ->]. auto.
Qed.

Lemma get_column_Ok s cn col :
  Py.lower cn = cn -> get_column s cn = Ok col ->
  In col (columns s) /\ Py.lower (name col) = cn.
Proof.
  unfold get_column. intros Hl.
  destruct (column_map_get (columns s) (Py.lower cn)) as [c|] eqn:E;
    [|discriminate].
  intros [= ->]. rewrite Hl in E. now apply column_map_get_Some.
Qed.

Lemma set_middle {V : Type} (d1 d2 : Dict.t string V) k v v' :
  ~ In k (Dict.keys d1) ->
  Dict.set String.eqb (d1 ++ (k, v) :: d2) k v' = d1 ++ (k, v') :: d2.
Proof.
  induction d1 as [|[k0 v0] d1 IH]; cbn; intros Hn.
  - now rewrite String.eqb_refl.
  - destruct (String.eqb_spec k k0) as [->|Hne]; [tauto|].
    f_equal. apply IH. tauto.
Qed.

(** What the validation loop of [Table.update] has established for an
    item of the validated dictionary. *)
Definition validated (t : Table) (row : Row) (item : string * value) : Prop :=
  let (cn, nv) := item in
  exists col,
    get_column (schema t) cn = Ok col /\ In col (columns (schema t)) /\
    Py.lower (name col) = cn /\
    (unique col = true -> nv <> VNull -> Py.eq nv (cell row cn) = false ->
     exists s, unique_set (_unique_values t) cn = Ok s /\
               set_contains nv s = false).

Lemma coerce_not_null v dt v' :
  v <> VNull -> validate_and_coerce py v dt = Ok v' -> v' <> VNull.
Proof.
  intros Hv. destruct v; [congruence| | | |]; destruct dt; cbn;
    repeat match goal with
      | |- context [if ?b then _ else _] => destruct b
      | |- context [match ?o with Some _ => _ | None => _ end] => destruct o
      | |- context [float_of_int ?n] => destruct (float_of_int n); cbn [bind]
      end; intros [= <-]; discriminate.
Qed.

Lemma validate_update_spec t row :
  forall items done n',
    NoDup (Dict.keys (done ++ items)) ->
    Forall (fun k => Py.lower k = k) (Dict.keys items) ->
    validate_update py t row items (done ++ items) = Ok n' ->
    exists items',
      n' = done ++ items' /\ Dict.keys items' = Dict.keys items /\
      Forall (validated t row) items'.
Proof.
  induction items as [|[cn nv] items IH]; intros done n' Hnd Hlow H.
  - cbn in H. apply Ok_inj in H. subst. exists []. auto.
  - cbn [validate_update] in H. inv_bind H.
    inversion Hlow as [|? ? Hcn Hlow']; subst.
    destruct (@get_column_Ok (schema t) cn a Hcn Hstep) as [Hin Hname].
    destruct (Py.is_none nv && not_null a) eqn:Hnn; [discriminate|].
    inv_bind H.
    assert (Hdone : ~ In cn (Dict.keys done)).
    { unfold Dict.keys in *. rewrite map_app in Hnd. cbn in Hnd.
      apply NoDup_remove_2 in Hnd. rewrite in_app_iff in Hnd. tauto. }
    assert (Ht0 : t0 = done ++ (cn, v) :: items).
    { destruct (Py.is_none nv) eqn:Hnone.
      - apply Ok_inj in Hstep0. now injection Hstep0 as <- <-.
      - inv_bind Hstep0. injection Hstep0 as <- <-. now apply set_middle. }
    subst t0.
    change (done ++ (cn, v) :: items) with (done ++ [(cn, v)] ++ items) in H.
    rewrite app_assoc in H.
    apply IH in H; [|unfold Dict.keys in *; rewrite <- app_assoc;
                     rewrite map_app in *; exact Hnd|assumption].
    destruct H as (items' & -> & Hk & Hall).
    exists ((cn, v) :: items'). rewrite <- app_assoc. split; [reflexivity|].
    split; [cbn; now f_equal|]. constructor; [|assumption].
    exists a. repeat split; try assumption.
    intros Hu Hvn Hne. unfold cell in Hne.
    apply is_none_false in Hvn. rewrite Hu, Hvn, Hne in Hstep1.
    cbn [andb negb] in Hstep1. inv_bind Hstep1.
    destruct (set_contains v a1) eqn:Hc; [discriminate|]. eauto.
Qed.

Lemma normalize_keys values :
  NoDup (Dict.keys (normalize values)) /\
  Forall (fun k => Py.lower k = k) (Dict.keys (normalize values)).
Proof.
  unfold normalize.
  assert (H : NoDup (Dict.keys (@nil (string * value))) /\
              Forall (fun k => Py.lower k = k)
                     (Dict.keys (@nil (string * value))))
    by (split; constructor).
  revert H. generalize (@nil (string * value)).
  induction values as [|[k v] values IH]; intros d [H1 H2]; cbn [fold_left];
    [auto|].
  apply IH. split.
  - now apply (Dict.NoDup_set String.eqb String.eqb_eq).
  - rewrite (Dict.keys_set String.eqb).
    destruct (Dict.contains String.eqb d (Py.lower (fst (k, v))));
      [assumption|].
    apply Forall_app. split; [assumption|].
    constructor; [apply Py.lower_idem|constructor].
Qed.

(** The set of a unique column after one of its cells went from [old] to
    [new]. *)
Definition updated_set (s : list value) (old new : value) : list value :=
  let s1 := if Py.is_none old then s else set_discard old s in
  if Py.is_none new then s1 else set_add new s1.

(** The table and the row after one round of the second loop of
    [Table.update]. *)
Definition row_after (row : Row) (cn : string) (nv : value) : Row :=
  mkRow (row_id row) (Dict.set String.eqb (data row) cn nv).

Definition sets_after (t : Table) (row : Row) (col : Column) (cn : string)
           (nv : value) : Dict.t string (list value) :=
  if unique col then
    match Dict.get String.eqb (_unique_values t) cn with
    | Some s0 =>
        Dict.set String.eqb (_unique_values t) cn
                 (updated_set s0 (cell row cn) nv)
    | None => _unique_values t
    end
  else _unique_values t.

Definition table_after (t : Table) (rid : Z) (row : Row) (col : Column)
           (cn : string) (nv : value) : Table :=
  mkTable (schema t) (Dict.set Z.eqb (_rows t) rid (row_after row cn nv))
          (_next_row_id t) (_index_manager t) (sets_after t row col cn nv).

Lemma apply_update_eq t rid row cn nv col :
  indexes_fresh (_index_manager t) ->
  get_column (schema t) cn = Ok col ->
  (unique col = true ->
   Dict.contains String.eqb (_unique_values t) cn = true) ->
  apply_update t rid row cn nv
  = (table_after t rid row col cn nv, row_after row cn nv, Ok tt).
Proof.
  intros Hf Hc Hu. unfold apply_update, table_after, sets_after. rewrite Hc.
  assert (Him : (im1 <- (if Py.is_none (data_get (data row) cn)
                         then Ok (_index_manager t)
                         else IndexManager.delete (_index_manager t) cn
                                (data_get (data row) cn) rid) ;;
                 (if Py.is_none nv then Ok im1
                  else IndexManager.insert im1 cn nv rid))
                = Ok (_index_manager t)).
  { destruct (Py.is_none (data_get (data row) cn));
      [|rewrite (delete_on_fresh _ _ _ Hf)]; cbn [bind];
      (destruct (Py.is_none nv); [reflexivity|apply (insert_on_fresh _ _ _ Hf)]). }
  destruct (unique col).
  - specialize (Hu eq_refl). unfold Dict.contains in Hu. unfold unique_set.
    destruct (Dict.get String.eqb (_unique_values t) cn) as [s0|];
      [|discriminate].
    rewrite Him. reflexivity.
  - rewrite Him. reflexivity.
Qed.

Lemma live_table_after t rid row col cn nv rid0 row0 :
  live (table_after t rid row col cn nv) rid0 row0 <->
  (rid0 = rid /\ row0 = row_after row cn nv) \/
  (rid0 <> rid /\ live t rid0 row0).
Proof.
  unfold live, table_after. cbn [_rows].
  destruct (Z.eq_dec rid rid0) as [<-|Hne].
  - rewrite (Dict.get_set_same Z.eqb Z.eqb_eq). split.
    + intros [= <-]. auto.
    + intros [[_ ->]|[Hne _]]; [reflexivity|congruence].
  - rewrite (Dict.get_set_other Z.eqb Z.eqb_eq) by assumption. split.
    + intros H. right. split; [congruence|assumption].
    + intros [[-> _]|[_ H]]; [congruence|assumption].
Qed.

Lemma unique_keys_sets_after t row col cn nv :
  unique_keys_ok (schema t) (_unique_values t) ->
  unique_keys_ok (schema t) (sets_after t row col cn nv).
Proof.
  unfold sets_after. intros H. destruct (unique col); [|assumption].
  destruct (Dict.get String.eqb (_unique_values t) cn); [|assumption].
  intros c Hin Hu. apply contains_set_mono. now apply H.
Qed.

Lemma Inv0_table_after t rid row col cn nv :
  Inv0 t -> live t rid row -> Inv0 (table_after t rid row col cn nv).
Proof.
  intros [Hf Hs Hk Hi Hn] Hl. constructor.
  - exact Hf.
  - cbn [table_after schema _unique_values].
    now apply unique_keys_sets_after.
  - cbn [table_after _rows]. now apply (Dict.NoDup_set Z.eqb Z.eqb_eq).
  - intros rid0 row0 H. apply live_table_after in H.
    destruct H as [[-> ->]|[_ H]].
    + cbn [row_after row_id table_after _next_row_id]. now apply Hi.
    + cbn [table_after _next_row_id]. now apply Hi.
  - exact Hn.
Qed.

(** *** Sets of values *)

Lemma set_contains_false v s u :
  set_contains v s = false -> In u s -> Py.eq v u = false.
Proof.
  unfold set_contains. intros H Hin.
  destruct (Py.eq v u) eqn:E; [|reflexivity].
  assert (existsb (Py.eq v) s = true) by (apply existsb_exists; eauto).
  congruence.
Qed.

Lemma set_contains_congr a b s :
  Py.eq a b = true -> set_contains a s = true -> set_contains b s = true.
Proof.
  unfold set_contains. intros Hab H. apply existsb_exists in H.
  destruct H as (u & Hin & Hu). apply existsb_exists. exists u.
  split; [assumption|]. apply Py.eq_trans with a; [|assumption].
  now rewrite Py.eq_sym.
Qed.

Lemma set_contains_add_same v s : set_contains v (set_add v s) = true.
Proof.
  unfold set_add. destruct (set_contains v s) eqn:E; [assumption|].
  unfold set_contains. rewrite existsb_app. cbn.
  rewrite Py.eq_refl_value. now rewrite orb_true_r.
Qed.

Lemma set_contains_add_mono x v s :
  set_contains x s = true -> set_contains x (set_add v s) = true.
Proof.
  unfold set_add. intros H. destruct (set_contains v s); [assumption|].
  unfold set_contains in *. rewrite existsb_app, H. reflexivity.
Qed.

Lemma set_contains_discard x v s :
  set_contains x s = true -> Py.eq v x = false ->
  set_contains x (set_discard v s) = true.
Proof.
  unfold set_contains, set_discard. intros H Hvx.
  apply existsb_exists in H. destruct H as (u & Hin & Hu).
  apply existsb_exists. exists u. split; [|assumption].
  apply filter_In. split; [assumption|].
  destruct (Py.eq v u) eqn:E; [|reflexivity].
  rewrite (Py.eq_trans v u x) in Hvx; [discriminate|assumption|].
  now rewrite Py.eq_sym.
Qed.

Lemma set_contains_updated x s old new :
  set_contains x s = true -> (old <> VNull -> Py.eq old x = false) ->
  set_contains x (updated_set s old new) = true.
Proof.
  intros H Hold. unfold updated_set.
  assert (H1 : set_contains x (if Py.is_none old then s
                               else set_discard old s) = true).
  { destruct (Py.is_none old) eqn:E; [assumption|].
    apply set_contains_discard; [assumption|].
    apply Hold. now apply is_none_false. }
  destruct (Py.is_none new); [assumption|now apply set_contains_add_mono].
Qed.

(** *** Unique columns *)

(** The guarantee for the unique column of lowercase name [cn]: its set
    holds every non-null value of the column, and no two live rows share a
    non-null value. *)
Record col_inv (t : Table) (cn : string) : Prop := {
  ci_set :
    exists s, Dict.get String.eqb (_unique_values t) cn = Some s /\
              forall rid row, live t rid row -> cell row cn <> VNull ->
                              set_contains (cell row cn) s = true;
  ci_distinct :
    forall rid1 row1 rid2 row2,
      live t rid1 row1 -> live t rid2 row2 -> rid1 <> rid2 ->
      cell row1 cn <> VNull -> cell row2 cn <> VNull ->
      Py.eq (cell row1 cn) (cell row2 cn) = false
}.

(** No two columns share a name, ignoring letter case. *)
Definition distinct_names (s : TableSchema) : Prop :=
  NoDup (map (fun c => Py.lower (name c)) (columns s)).

Record InvU (t : Table) : Prop := {
  inv_names : distinct_names (schema t);
  inv_cols : forall col, In col (columns (schema t)) -> unique col = true ->
                         col_inv t (Py.lower (name col))
}.

Lemma NoDup_map_eq {A B : Type} (f : A -> B) l a b :
  NoDup (map f l) -> In a l -> In b l -> f a = f b -> a = b.
Proof.
  induction l as [|x l IH]; cbn; [tauto|].
  intros Hnd. inversion Hnd as [|? ? Hx Hnd']; subst.
  intros [->|Ha] [->|Hb] Hf; auto.
  - exfalso. apply Hx. rewrite Hf. now apply in_map.
  - exfalso. apply Hx. rewrite <- Hf. now apply in_map.
Qed.

Lemma cell_row_after_same row cn nv : cell (row_after row cn nv) cn = nv.
Proof.
  unfold cell, row_after, data_get. cbn [data].
  now rewrite (Dict.get_set_same String.eqb String.eqb_eq).
Qed.

Lemma cell_row_after_other row cn nv cn' :
  cn <> cn' -> cell (row_after row cn nv) cn' = cell row cn'.
Proof.
  intros H. unfold cell, row_after, data_get. cbn [data].
  now rewrite (Dict.get_set_other String.eqb String.eqb_eq).
Qed.

Lemma eq_not_null a b : Py.eq a b = true -> a <> VNull -> b <> VNull.
Proof.
  intros H Ha ->. apply Ha. now apply Py.eq_null_r.
Qed.

Lemma col_inv_table_after_other t rid row col cn nv cn0 :
  cn <> cn0 -> live t rid row -> col_inv t cn0 ->
  col_inv (table_after t rid row col cn nv) cn0.
Proof.
  intros Hne Hl [(s & Hs & Hin) Hd].
  assert (Hcell : forall rid0 row0,
    live (table_after t rid row col cn nv) rid0 row0 ->
    exists row1, live t rid0 row1 /\ cell row0 cn0 = cell row1 cn0).
  { intros rid0 row0 H. apply live_table_after in H.
    destruct H as [[-> ->]|[_ H]].
    - exists row. split; [assumption|now apply cell_row_after_other].
    - eauto. }
  constructor.
  - exists s. split.
    + cbn [table_after _unique_values]. unfold sets_after.
      destruct (unique col); [|assumption].
      destruct (Dict.get String.eqb (_unique_values t) cn); [|assumption].
      now rewrite (Dict.get_set_other String.eqb String.eqb_eq).
    + intros rid0 row0 H. destruct (Hcell _ _ H) as (row1 & H1 & ->).
      exact (Hin rid0 row1 H1).
  - intros rid1 row1 rid2 row2 H1 H2.
    destruct (Hcell _ _ H1) as (r1 & L1 & ->).
    destruct (Hcell _ _ H2) as (r2 & L2 & ->).
    now apply Hd.
Qed.

Lemma col_inv_table_after_same t rid row col cn nv :
  live t rid row -> unique col = true -> col_inv t cn ->
  (nv <> VNull -> Py.eq nv (cell row cn) = false ->
   exists s, unique_set (_unique_values t) cn = Ok s /\
             set_contains nv s = false) ->
  col_inv (table_after t rid row col cn nv) cn.
Proof.
  intros Hl Hu [(s & Hs & Hin) Hd] Hval.
  assert (Hother : forall rid2 row2,
    live t rid2 row2 -> rid2 <> rid -> nv <> VNull ->
    cell row2 cn <> VNull -> Py.eq nv (cell row2 cn) = false).
  { intros rid2 row2 L2 Hne Hnv Hv2.
    destruct (Py.eq nv (cell row cn)) eqn:Eold.
    - pose proof (@eq_not_null _ _ Eold Hnv) as Hold.
      pose proof (Hd _ _ _ _ Hl L2 (not_eq_sym Hne) Hold Hv2) as Hd2.
      destruct (Py.eq nv (cell row2 cn)) eqn:E2; [|reflexivity].
      rewrite (Py.eq_trans (cell row cn) nv (cell row2 cn)) in Hd2;
        [discriminate| |assumption].
      now rewrite Py.eq_sym.
    - destruct (Hval Hnv eq_refl) as (s' & Hs' & Hc).
      unfold unique_set in Hs'. rewrite Hs in Hs'. apply Ok_inj in Hs'.
      subst s'. destruct (Py.eq nv (cell row2 cn)) eqn:E2; [|reflexivity].
      specialize (Hin _ _ L2 Hv2).
      rewrite Py.eq_sym in E2.
      rewrite (@set_contains_congr _ _ _ E2 Hin) in Hc. discriminate. }
  constructor.
  - exists (updated_set s (cell row cn) nv). split.
    + cbn [table_after _unique_values]. unfold sets_after. rewrite Hu, Hs.
      now rewrite (Dict.get_set_same String.eqb String.eqb_eq).
    + intros rid0 row0 H Hnn. apply live_table_after in H.
      destruct H as [[-> ->]|[Hne H]].
      * rewrite cell_row_after_same in *. unfold updated_set.
        apply is_none_false in Hnn. rewrite Hnn.
        apply set_contains_add_same.
      * apply set_contains_updated; [now apply (Hin _ _ H)|].
        intros Hold. apply (Hd _ _ _ _ Hl H); auto.
  - intros rid1 row1 rid2 row2 H1 H2 Hne Hv1 Hv2.
    apply live_table_after in H1, H2.
    destruct H1 as [[-> ->]|[Hne1 H1]], H2 as [[-> ->]|[Hne2 H2]].
    + congruence.
    + rewrite cell_row_after_same in *. now apply (Hother _ _ H2).
    + rewrite cell_row_after_same in *. rewrite Py.eq_sym.
      now apply (Hother _ _ H1).
    + now apply (Hd _ _ _ _ H1 H2).
Qed.

Lemma InvU_table_after t rid row col cn nv :
  InvU t -> live t rid row ->
  In col (columns (schema t)) -> Py.lower (name col) = cn ->
  (unique col = true -> nv <> VNull -> Py.eq nv (cell row cn) = false ->
   exists s, unique_set (_unique_values t) cn = Ok s /\
             set_contains nv s = false) ->
  InvU (table_after t rid row col cn nv).
Proof.
  intros [Hn Hc] Hl Hin Hname Hval. constructor; [exact Hn|].
  cbn [table_after schema]. intros c0 Hin0 Hu0.
  destruct (String.eqb_spec cn (Py.lower (name c0))) as [E|Hne].
  - assert (c0 = col).
    { apply (NoDup_map_eq (fun c => Py.lower (name c)) (columns (schema t)));
        auto; congruence. }
    subst c0. rewrite Hname.
    apply col_inv_table_after_same; auto. rewrite <- Hname. now apply Hc.
  - apply col_inv_table_after_other; auto.
Qed.

Lemma validated_frame t rid row col cn nv item :
  cn <> fst item -> validated t row item ->
  validated (table_after t rid row col cn nv) (row_after row cn nv) item.
Proof.
  destruct item as [cn' nv']. cbn [fst]. intros Hne (c & H1 & H2 & H3 & H4).
  exists c. cbn [table_after schema _unique_values]. repeat split; auto.
  rewrite cell_row_after_other by assumption.
  intros Hu Hnn He. destruct (H4 Hu Hnn He) as (s & Hs & Hc).
  exists s. split; [|assumption]. unfold unique_set, sets_after in *.
  destruct (unique col); [|assumption].
  destruct (Dict.get String.eqb (_unique_values t) cn); [|assumption].
  now rewrite (Dict.get_set_other String.eqb String.eqb_eq).
Qed.

(** The second loop of [Table.update] runs through on validated items. *)
Lemma apply_updates_ok rid :
  forall items t row,
    Inv0 t -> live t rid row ->
    NoDup (Dict.keys items) -> Forall (validated t row) items ->
    exists t' row',
      apply_updates t rid row items = (t', Ok row') /\
      Inv0 t' /\ live t' rid row' /\
      schema t' = schema t /\ _next_row_id t' = _next_row_id t /\
      Dict.keys (_rows t') = Dict.keys (_rows t) /\
      (InvU t -> InvU t').
Proof.
  induction items as [|[cn nv] items IH]; intros t row H0 Hl Hnd Hall.
  - exists t, row. cbn. repeat apply conj; auto.
  - inversion Hall as [|? ? Hv Hall']; subst.
    inversion Hnd as [|? ? Hcn Hnd']; subst.
    destruct Hv as (col & Hc & Hin & Hname & Hval).
    cbn [apply_updates].
    rewrite (@apply_update_eq t rid row cn nv col (inv_fresh H0) Hc).
    2:{ intros Hu. rewrite <- Hname. now apply (inv_sets H0). }
    destruct (IH (table_after t rid row col cn nv) (row_after row cn nv))
      as (t' & row' & He & H0' & Hl' & Hs' & Hn' & Hk' & HU').
    + now apply Inv0_table_after.
    + apply live_table_after. auto.
    + assumption.
    + rewrite Forall_forall in *. intros item Hitem.
      apply validated_frame; [|now apply Hall'].
      intros ->. apply Hcn. unfold Dict.keys. now apply in_map.
    + exists t', row'. repeat apply conj; auto.
      * rewrite Hk'. cbn [table_after _rows].
        rewrite (Dict.keys_set Z.eqb). unfold Dict.contains.
        unfold live in Hl. now rewrite Hl.
      * intros HU. apply HU'. now apply InvU_table_after.
Qed.

(** [Table.update] under [Inv0]. *)
Lemma Table_update_cases t rid values :
  Inv0 t ->
  Table_update py t rid values = (t, Ok None) \/
  (exists e, Table_update py t rid values = (t, Raise e)) \/
  (exists t' row',
      Table_update py t rid values = (t', Ok (Some row')) /\
      Inv0 t' /\ (InvU t -> InvU t') /\ schema t' = schema t /\
      _next_row_id t' = _next_row_id t /\
      Dict.keys (_rows t') = Dict.keys (_rows t)).
Proof.
  intros H0. unfold Table_update.
  destruct (Dict.get Z.eqb (_rows t) rid) as [row|] eqn:Hrow; [|now left].
  right.
  destruct (validate_update py t row (normalize values) (normalize values))
    as [n'|e] eqn:Hv; [|left; eauto].
  right. destruct (normalize_keys values) as [Hnd Hlow].
  destruct (@validate_update_spec t row (normalize values) [] n' Hnd Hlow Hv)
    as (items' & -> & Hk & Hall).
  cbn [app]. rewrite <- Hk in Hnd.
  destruct (@apply_updates_ok rid items' t row H0 Hrow Hnd Hall)
    as (t' & row' & -> & H0' & _ & Hs' & Hn' & Hk' & HU').
  exists t', row'. repeat apply conj; auto.
Qed.

(** *** [Table.insert] and the unique columns *)

Definition lname (c : Column) : string := Py.lower (name c).

Lemma data_get_set_same d k v : data_get (Dict.set String.eqb d k v) k = v.
Proof.
  unfold data_get. now rewrite (Dict.get_set_same String.eqb String.eqb_eq).
Qed.

Lemma data_get_set_other d k v k' :
  k <> k' -> data_get (Dict.set String.eqb d k v) k' = data_get d k'.
Proof.
  intros H. unfold data_get.
  now rewrite (Dict.get_set_other String.eqb String.eqb_eq).
Qed.

Lemma validate_insert_spec u n :
  forall cols rd0 rd,
    NoDup (map lname cols) ->
    validate_insert py u n cols rd0 = Ok rd ->
    (forall k, ~ In k (map lname cols) -> data_get rd k = data_get rd0 k) /\
    (forall col, In col cols -> unique col = true ->
                 data_get rd (lname col) <> VNull ->
                 exists s, unique_set u (lname col) = Ok s /\
                           set_contains (data_get rd (lname col)) s = false).
Proof.
  induction cols as [|c cols IH]; intros rd0 rd Hnd H.
  - cbn in H. apply Ok_inj in H. subst. split; [auto|intros ? []].
  - cbn [validate_insert] in H. inversion Hnd as [|? ? Hc Hnd']; subst.
    fold (lname c) in H.
    destruct (Py.is_none (data_get n (lname c)) && not_null c);
      [discriminate|].
    inv_bind H. destruct (IH _ _ Hnd' H) as [Hk Hu].
    assert (Hcell : data_get rd (lname c) = a).
    { rewrite (Hk _ Hc). apply data_get_set_same. }
    split.
    + intros k Hnk. cbn [map In] in Hnk. rewrite Hk by tauto.
      apply data_get_set_other. tauto.
    + intros col [->|Hin] Hcu Hnn; [|now apply Hu].
      rewrite Hcell in *. apply is_none_false in Hnn.
      rewrite Hcu, Hnn in Hstep0. cbn [andb negb] in Hstep0.
      inv_bind Hstep0.
      destruct (set_contains a a1) eqn:E; [discriminate|]. eauto.
Qed.

Lemma add_unique_values_spec rd :
  forall cols u,
    NoDup (map lname cols) ->
    (forall col, In col cols -> unique col = true ->
                 Dict.contains String.eqb u (lname col) = true) ->
    (forall k, ~ In k (map lname cols) ->
               Dict.get String.eqb (fst (add_unique_values u cols rd)) k
               = Dict.get String.eqb u k) /\
    (forall col s,
        In col cols -> Dict.get String.eqb u (lname col) = Some s ->
        Dict.get String.eqb (fst (add_unique_values u cols rd)) (lname col)
        = Some (if unique col && negb (Py.is_none (data_get rd (lname col)))
                then set_add (data_get rd (lname col)) s else s)).
Proof.
  induction cols as [|c cols IH]; intros u Hnd Hok;
    [split; [auto|intros ? ? []]|].
  inversion Hnd as [|? ? Hc Hnd']; subst.
  cbn [add_unique_values]. fold (lname c).
  destruct (unique c && negb (Py.is_none (data_get rd (lname c)))) eqn:E.
  - apply andb_true_iff in E. destruct E as [Eu En].
    pose proof (Hok c (or_introl eq_refl) Eu) as Hcont.
    unfold Dict.contains in Hcont. unfold unique_set.
    destruct (Dict.get String.eqb u (lname c)) as [s0|] eqn:Hs0;
      [|discriminate].
    destruct (IH (Dict.set String.eqb u (lname c)
                    (set_add (data_get rd (lname c)) s0)) Hnd')
      as [Hk Hu].
    { intros col Hin Hcu. apply contains_set_mono. apply Hok; [now right|auto]. }
    split.
    + intros k Hnk. cbn [map In] in Hnk. rewrite Hk by tauto.
      apply (Dict.get_set_other String.eqb String.eqb_eq). tauto.
    + intros col s [->|Hin] Hs.
      * rewrite (Hk _ Hc), Eu, En.
        rewrite (Dict.get_set_same String.eqb String.eqb_eq).
        cbn [andb]. congruence.
      * apply Hu; [assumption|].
        rewrite (Dict.get_set_other String.eqb String.eqb_eq);
          [assumption|].
        intros Heq. apply Hc. rewrite Heq. now apply in_map.
  - destruct (IH u Hnd') as [Hk Hu].
    { intros col Hin. apply Hok. now right. }
    split.
    + intros k Hnk. apply Hk. cbn [map In] in Hnk. tauto.
    + intros col s [->|Hin] Hs; [|now apply Hu].
      rewrite E. now rewrite (Hk _ Hc).
Qed.

Lemma discard_unique_values_spec rd :
  forall cols u,
    NoDup (map lname cols) ->
    (forall col, In col cols -> unique col = true ->
                 Dict.contains String.eqb u (lname col) = true) ->
    (forall k, ~ In k (map lname cols) ->
               Dict.get String.eqb (fst (discard_unique_values u cols rd)) k
               = Dict.get String.eqb u k) /\
    (forall col s,
        In col cols -> Dict.get String.eqb u (lname col) = Some s ->
        Dict.get String.eqb (fst (discard_unique_values u cols rd)) (lname col)
        = Some (if unique col && negb (Py.is_none (data_get rd (lname col)))
                then set_discard (data_get rd (lname col)) s else s)).
Proof.
  induction cols as [|c cols IH]; intros u Hnd Hok;
    [split; [auto|intros ? ? []]|].
  inversion Hnd as [|? ? Hc Hnd']; subst.
  cbn [discard_unique_values]. fold (lname c).
  destruct (unique c && negb (Py.is_none (data_get rd (lname c)))) eqn:E.
  - apply andb_true_iff in E. destruct E as [Eu En].
    pose proof (Hok c (or_introl eq_refl) Eu) as Hcont.
    unfold Dict.contains in Hcont. unfold unique_set.
    destruct (Dict.get String.eqb u (lname c)) as [s0|] eqn:Hs0;
      [|discriminate].
    destruct (IH (Dict.set String.eqb u (lname c)
                    (set_discard (data_get rd (lname c)) s0)) Hnd')
      as [Hk Hu].
    { intros col Hin Hcu. apply contains_set_mono. apply Hok; [now right|auto]. }
    split.
    + intros k Hnk. cbn [map In] in Hnk. rewrite Hk by tauto.
      apply (Dict.get_set_other String.eqb String.eqb_eq). tauto.
    + intros col s [->|Hin] Hs.
      * rewrite (Hk _ Hc), Eu, En.
        rewrite (Dict.get_set_same String.eqb String.eqb_eq).
        cbn [andb]. congruence.
      * apply Hu; [assumption|].
        rewrite (Dict.get_set_other String.eqb String.eqb_eq);
          [assumption|].
        intros Heq. apply Hc. rewrite Heq. now apply in_map.
  - destruct (IH u Hnd') as [Hk Hu].
    { intros col Hin. apply Hok. now right. }
    split.
    + intros k Hnk. apply Hk. cbn [map In] in Hnk. tauto.
    + intros col s [->|Hin] Hs; [|now apply Hu].
      rewrite E. now rewrite (Hk _ Hc).
Qed.

(** The table after an insert that passed validation with [rd]. *)
Definition inserted (t : Table) (rd : Dict.t string value) : Table :=
  mkTable (schema t)
          (Dict.set Z.eqb (_rows t) (_next_row_id t)
                    (mkRow (_next_row_id t) rd))
          (_next_row_id t + 1) (_index_manager t)
          (fst (add_unique_values (_unique_values t) (columns (schema t)) rd)).

Lemma live_inserted t rd rid row :
  Inv0 t ->
  live (inserted t rd) rid row <->
  (rid = _next_row_id t /\ row = mkRow (_next_row_id t) rd) \/
  (rid <> _next_row_id t /\ live t rid row).
Proof.
  intros H0. unfold live, inserted. cbn [_rows].
  destruct (Z.eq_dec (_next_row_id t) rid) as [<-|Hne].
  - rewrite (Dict.get_set_same Z.eqb Z.eqb_eq). split.
    + intros [= <-]. auto.
    + intros [[_ ->]|[Hne _]]; [reflexivity|congruence].
  - rewrite (Dict.get_set_other Z.eqb Z.eqb_eq) by assumption. split.
    + intros H. right. split; [congruence|assumption].
    + intros [[-> _]|[_ H]]; [congruence|assumption].
Qed.

Lemma Inv0_inserted t rd : Inv0 t -> Inv0 (inserted t rd).
Proof.
  intros H0. pose proof H0 as [Hf Hs Hk Hi Hn]. constructor.
  - exact Hf.
  - cbn [inserted schema _unique_values]. intros col Hin Hu.
    apply (add_unique_values_ok (columns (schema t)) rd _ Hs).
    now apply Hs.
  - cbn [inserted _rows]. now apply (Dict.NoDup_set Z.eqb Z.eqb_eq).
  - intros rid row H. apply (live_inserted rd rid row H0) in H.
    cbn [inserted _next_row_id].
    destruct H as [[-> ->]|[_ H]]; [cbn [row_id]; lia|].
    destruct (Hi _ _ H). lia.
  - cbn [inserted _next_row_id]. lia.
Qed.

Lemma InvU_inserted t values rd :
  Inv0 t -> InvU t ->
  validate_insert py (_unique_values t) (normalize values)
                  (columns (schema t)) [] = Ok rd ->
  InvU (inserted t rd).
Proof.
  intros H0 [Hn Hc] Hv. constructor; [exact Hn|].
  cbn [inserted schema]. intros c0 Hin0 Hu0.
  destruct (Hc c0 Hin0 Hu0) as [(s & Hs & Hin) Hd].
  destruct (@validate_insert_spec (_unique_values t) (normalize values)
              (columns (schema t)) [] rd Hn Hv) as [_ Hval].
  specialize (Hval c0 Hin0 Hu0). fold (lname c0) in *.
  destruct (@add_unique_values_spec rd (columns (schema t))
              (_unique_values t) Hn (inv_sets H0)) as [_ Hadd].
  specialize (Hadd c0 s Hin0 Hs). rewrite Hu0 in Hadd. cbn [andb] in Hadd.
  assert (Hold : forall rid row, live t rid row -> rid <> _next_row_id t).
  { intros rid row H. destruct (@inv_ids t H0 rid row H). lia. }
  assert (Hnew : forall rid row,
    live t rid row -> data_get rd (lname c0) <> VNull ->
    cell row (lname c0) <> VNull ->
    Py.eq (data_get rd (lname c0)) (cell row (lname c0)) = false).
  { intros rid row H Hnn Hnr.
    destruct (Hval Hnn) as (s' & Hs' & Hcs).
    unfold unique_set in Hs'. rewrite Hs in Hs'. apply Ok_inj in Hs'.
    subst s'. specialize (Hin _ _ H Hnr).
    destruct (Py.eq (data_get rd (lname c0)) (cell row (lname c0))) eqn:E;
      [|reflexivity].
    rewrite Py.eq_sym in E.
    rewrite (@set_contains_congr _ _ _ E Hin) in Hcs. discriminate. }
  constructor.
  - eexists. split; [exact Hadd|].
    intros rid row H Hnn. apply (live_inserted rd rid row H0) in H.
    destruct H as [[-> ->]|[_ H]].
    + unfold cell in *. cbn [data] in *. apply is_none_false in Hnn.
      rewrite Hnn. cbn [negb]. apply set_contains_add_same.
    + specialize (Hin _ _ H Hnn).
      destruct (negb (Py.is_none (data_get rd (lname c0))));
        [now apply set_contains_add_mono|assumption].
  - intros rid1 row1 rid2 row2 H1 H2 Hne Hv1 Hv2.
    apply (live_inserted rd rid1 row1 H0) in H1.
    apply (live_inserted rd rid2 row2 H0) in H2.
    destruct H1 as [[-> ->]|[Hne1 H1]], H2 as [[-> ->]|[Hne2 H2]].
    + congruence.
    + unfold cell at 1. cbn [data]. apply (Hnew _ _ H2); assumption.
    + rewrite Py.eq_sym. unfold cell at 1. cbn [data].
      apply (Hnew _ _ H1); assumption.
    + now apply (Hd _ _ _ _ H1 H2).
Qed.

(** *** [Table.delete], [Table.clear] and [Table.__init__] *)

Definition deleted (t : Table) (rid : Z) (row : Row) : Table :=
  mkTable (schema t) (Dict.remove Z.eqb (_rows t) rid) (_next_row_id t)
          (_index_manager t)
          (fst (discard_unique_values (_unique_values t)
                                      (columns (schema t)) (data row))).

Lemma Table_delete_cases t rid :
  Inv0 t ->
  (Dict.get Z.eqb (_rows t) rid = None /\ Table_delete t rid = (t, Ok None)) \/
  (exists row, live t rid row /\
               Table_delete t rid = (deleted t rid row, Ok (Some row))).
Proof.
  intros [Hf Hs _ _ _]. unfold Table_delete, live.
  destruct (Dict.get Z.eqb (_rows t) rid) as [row|]; [right|now left].
  exists row. split; [reflexivity|]. unfold deleted.
  destruct (discard_unique_values_ok (columns (schema t)) (data row)
              (_unique_values t) Hs) as [H1 _].
  destruct (discard_unique_values (_unique_values t) (columns (schema t))
                                  (data row)) as [u r1].
  cbn [fst snd] in *. subst r1.
  now rewrite (index_delete_all_fresh _ _ Hf).
Qed.

Lemma live_deleted t rid row rid0 row0 :
  live (deleted t rid row) rid0 row0 <-> rid0 <> rid /\ live t rid0 row0.
Proof.
  unfold live, deleted. cbn [_rows].
  destruct (Z.eq_dec rid rid0) as [<-|Hne].
  - rewrite (Dict.get_remove_same Z.eqb). split; [discriminate|tauto].
  - rewrite (Dict.get_remove_other Z.eqb Z.eqb_eq) by assumption.
    split; [intros H; split; [congruence|assumption]|tauto].
Qed.

Lemma Inv0_deleted t rid row : Inv0 t -> Inv0 (deleted t rid row).
Proof.
  intros [Hf Hs Hk Hi Hn]. constructor.
  - exact Hf.
  - cbn [deleted schema _unique_values]. intros col Hin Hu.
    apply (discard_unique_values_ok (columns (schema t)) (data row) _ Hs).
    now apply Hs.
  - cbn [deleted _rows]. now apply (Dict.NoDup_remove Z.eqb).
  - intros rid0 row0 H. apply live_deleted in H. destruct H as [_ H].
    cbn [deleted _next_row_id]. now apply Hi.
  - exact Hn.
Qed.

Lemma InvU_deleted t rid row :
  Inv0 t -> InvU t -> live t rid row -> InvU (deleted t rid row).
Proof.
  intros H0 [Hn Hc] Hl. constructor; [exact Hn|].
  cbn [deleted schema]. intros c0 Hin0 Hu0.
  destruct (Hc c0 Hin0 Hu0) as [(s & Hs & Hin) Hd].
  destruct (@discard_unique_values_spec (data row) (columns (schema t))
              (_unique_values t) Hn (inv_sets H0)) as [_ Hdis].
  specialize (Hdis c0 s Hin0 Hs). rewrite Hu0 in Hdis. cbn [andb] in Hdis.
  fold (lname c0) in *. constructor.
  - eexists. split; [exact Hdis|].
    intros rid0 row0 H Hnn. apply live_deleted in H. destruct H as [Hne H].
    specialize (Hin _ _ H Hnn). fold (cell row (lname c0)).
    destruct (Py.is_none (cell row (lname c0))) eqn:E; [assumption|].
    cbn [negb]. apply set_contains_discard; [assumption|].
    apply is_none_false in E.
    apply (Hd _ _ _ _ Hl H); auto.
  - intros rid1 row1 rid2 row2 H1 H2.
    apply live_deleted in H1, H2. destruct H1 as [_ H1], H2 as [_ H2].
    now apply (Hd _ _ _ _ H1 H2).
Qed.

Lemma get_map_nil (u : Dict.t string (list value)) k :
  Dict.get String.eqb (map (fun kv => (fst kv, @nil value)) u) k
  = match Dict.get String.eqb u k with
    | Some _ => Some []
    | None => None
    end.
Proof.
  induction u as [|[k0 v0] u IH]; cbn; [reflexivity|].
  destruct (String.eqb k k0); [reflexivity|assumption].
Qed.

Lemma Inv0_clear t : Inv0 t -> Inv0 (Table_clear t).
Proof.
  intros [Hf Hs Hk Hi Hn]. constructor; cbn [Table_clear _index_manager
    schema _unique_values _rows _next_row_id].
  - apply create_indexes_fresh, indexes_fresh_nil.
  - intros col Hin Hu. specialize (Hs col Hin Hu).
    unfold Dict.contains in *. rewrite get_map_nil.
    now destruct (Dict.get String.eqb (_unique_values t) (Py.lower (name col))).
  - constructor.
  - intros rid row H. discriminate H.
  - lia.
Qed.

Lemma InvU_clear t : InvU t -> InvU (Table_clear t).
Proof.
  intros [Hn Hc]. constructor; [exact Hn|].
  cbn [Table_clear schema]. intros c0 Hin0 Hu0.
  destruct (Hc c0 Hin0 Hu0) as [(s & Hs & _) _]. constructor.
  - exists []. split; [|intros rid row H; discriminate H].
    cbn [Table_clear _unique_values]. now rewrite get_map_nil, Hs.
  - intros rid1 row1 rid2 row2 H. discriminate H.
Qed.

Lemma Inv0_init s : Inv0 (Table_init s).
Proof.
  constructor; cbn [Table_init _index_manager schema _unique_values _rows
    _next_row_id].
  - apply create_indexes_fresh, indexes_fresh_nil.
  - apply init_unique_values_ok.
  - constructor.
  - intros rid row H. discriminate H.
  - lia.
Qed.

Lemma InvU_init s : distinct_names s -> InvU (Table_init s).
Proof.
  intros Hn. constructor; [exact Hn|].
  cbn [Table_init schema]. intros c0 Hin0 Hu0. constructor.
  - pose proof (init_unique_values_ok s c0 Hin0 Hu0) as H.
    unfold Dict.contains in H. cbn [Table_init _unique_values].
    destruct (Dict.get String.eqb (init_unique_values s)
                (Py.lower (name c0))) as [s0|]; [|discriminate].
    exists s0. split; [reflexivity|]. intros rid row Hl. discriminate Hl.
  - intros rid1 row1 rid2 row2 H. discriminate H.
Qed.

(** One operation keeps both invariants. *)
Lemma Inv0_step t o : Inv0 t -> Inv0 (step t o).
Proof.
  intros H0. destruct o as [values|rid values|rid|]; cbn [step].
  - destruct (Table_insert_cases values H0)
      as [(e & _ & ->)|(rd & _ & ->)]; cbn [fst]; [assumption|].
    now apply Inv0_inserted.
  - destruct (Table_update_cases rid values H0)
      as [->|[(e & ->)|(t' & row' & -> & H0' & _)]]; cbn [fst]; assumption.
  - destruct (Table_delete_cases rid H0) as [[_ ->]|(row & Hl & ->)];
      cbn [fst]; [assumption|now apply Inv0_deleted].
  - now apply Inv0_clear.
Qed.

Lemma InvU_step t o : Inv0 t -> InvU t -> InvU (step t o).
Proof.
  intros H0 HU. destruct o as [values|rid values|rid|]; cbn [step].
  - destruct (Table_insert_cases values H0)
      as [(e & _ & ->)|(rd & Hv & ->)]; cbn [fst]; [assumption|].
    eapply InvU_inserted; eauto.
  - destruct (Table_update_cases rid values H0)
      as [->|[(e & ->)|(t' & row' & -> & _ & HU' & _)]]; cbn [fst]; auto.
  - destruct (Table_delete_cases rid H0) as [[_ ->]|(row & Hl & ->)];
      cbn [fst]; [assumption|now apply InvU_deleted].
  - now apply InvU_clear.
Qed.

Lemma schema_step t o : Inv0 t -> schema (step t o) = schema t.
Proof.
  intros H0. destruct o as [values|rid values|rid|]; cbn [step].
  - destruct (Table_insert_cases values H0)
      as [(e & _ & ->)|(rd & _ & ->)]; reflexivity.
  - destruct (Table_update_cases rid values H0)
      as [->|[(e & ->)|(t' & row' & -> & _ & _ & Hs & _)]]; auto.
  - destruct (Table_delete_cases rid H0) as [[_ ->]|(row & Hl & ->)];
      reflexivity.
  - reflexivity.
Qed.

Lemma run_Inv ops :
  forall t, Inv0 t ->
            Inv0 (run t ops) /\ (InvU t -> InvU (run t ops)) /\
            schema (run t ops) = schema t.
Proof.
  induction ops as [|o ops IH]; intros t H0; cbn [run fold_left]; [auto|].
  destruct (IH (step t o) (Inv0_step o H0)) as (H1 & H2 & H3).
  fold (run (step t o) ops). repeat apply conj; auto.
  - intros HU. apply H2. now apply InvU_step.
  - rewrite H3. now apply schema_step.
Qed.

(** *** Row ids *)

(** [start, start + 1, ...], [n] numbers. *)
Fixpoint zrange (start : Z) (n : nat) : list Z :=
  match n with
  | O => []
  | S n' => start :: zrange (start + 1) n'
  end.

Lemma next_step t o :
  Inv0 t -> is_clear o = false ->
  allocated t [o] = zrange (_next_row_id t) (length (allocated t [o])) /\
  _next_row_id (step t o)
  = _next_row_id t + Z.of_nat (length (allocated t [o])) /\
  (forall rid, In rid (Dict.keys (_rows (step t o))) ->
               In rid (Dict.keys (_rows t)) \/ In rid (allocated t [o])).
Proof.
  intros H0 Hc. destruct o as [values|rid values|rid|];
    [| | |discriminate]; cbn [allocated step app].
  - destruct (Table_insert_cases values H0)
      as [(e & _ & ->)|(rd & _ & ->)]; cbn [fst snd app length zrange].
    + repeat apply conj; auto. lia.
    + cbn [row_id]. repeat apply conj; auto.
      intros rid. cbn [inserted _rows]. rewrite (Dict.keys_set Z.eqb).
      destruct (Dict.contains Z.eqb (_rows t) (_next_row_id t)); [auto|].
      rewrite in_app_iff. cbn. tauto.
  - cbn [length zrange].
    destruct (Table_update_cases rid values H0)
      as [->|[(e & ->)|(t' & row' & -> & _ & _ & _ & Hn & Hk)]];
      cbn [fst]; repeat apply conj; auto; try lia.
    rewrite Hk. auto.
  - cbn [length zrange].
    destruct (Table_delete_cases rid H0) as [[_ ->]|(row & Hl & ->)];
      cbn [fst]; repeat apply conj; auto; try (cbn; lia).
    intros r. cbn [deleted _rows]. rewrite (Dict.keys_remove Z.eqb).
    intros H. apply filter_In in H. tauto.
Qed.

Lemma zrange_app start n m :
  zrange start (n + m) = zrange start n ++ zrange (start + Z.of_nat n) m.
Proof.
  revert start. induction n as [|n IH]; intros start; cbn [zrange Nat.add app].
  - f_equal. lia.
  - rewrite IH. do 3 f_equal. lia.
Qed.

Lemma allocated_run ops :
  forall t,
    Inv0 t -> forallb (fun o => negb (is_clear o)) ops = true ->
    allocated t ops = zrange (_next_row_id t) (length (allocated t ops)) /\
    _next_row_id (run t ops)
    = _next_row_id t + Z.of_nat (length (allocated t ops)) /\
    (forall rid, In rid (Dict.keys (_rows (run t ops))) ->
                 In rid (Dict.keys (_rows t)) \/ In rid (allocated t ops)).
Proof.
  induction ops as [|o ops IH]; intros t H0 Hnc.
  - cbn. repeat apply conj; auto. lia.
  - cbn [forallb] in Hnc. apply andb_true_iff in Hnc. destruct Hnc as [Ho Hnc].
    apply negb_true_iff in Ho.
    destruct (@next_step t o H0 Ho) as (A1 & A2 & A3).
    destruct (IH (step t o) (@Inv0_step t o H0) Hnc) as (B1 & B2 & B3).
    assert (E : allocated t (o :: ops)
                = allocated t [o] ++ allocated (step t o) ops).
    { cbn [allocated]. now rewrite app_nil_r. }
    cbn [run fold_left]. fold (run (step t o) ops).
    rewrite E, length_app, zrange_app, <- A1, <- A2, <- B1.
    repeat apply conj; auto.
    + rewrite B2, A2. lia.
    + intros rid H. rewrite in_app_iff. destruct (B3 _ H) as [H1|H1]; [|auto].
      destruct (A3 _ H1); auto.
Qed.

(** C8 (as amended).  Over any run of [insert], [update] and [delete] on a
    new table, the row ids handed out are exactly 1, 2, 3, ... in this
    order, so each is larger than all before it and none is handed out
    twice; the live rows carry pairwise different ids, each of them handed
    out earlier in the run and stored in its row. *)
Theorem row_ids_count_up s ops :
  forallb (fun o => negb (is_clear o)) ops = true ->
  let t := run (Table_init s) ops in
  let ids := allocated (Table_init s) ops in
  ids = zrange 1 (length ids) /\
  _next_row_id t = 1 + Z.of_nat (length ids) /\
  NoDup (Dict.keys (_rows t)) /\
  forall rid row, live t rid row -> In rid ids /\ row_id row = rid.
Proof.
  intros Hnc t ids.
  destruct (@allocated_run ops (Table_init s) (Inv0_init s) Hnc)
    as (A1 & A2 & A3).
  destruct (@run_Inv ops (Table_init s) (Inv0_init s)) as (H0 & _ & _).
  repeat apply conj; auto.
  - apply (inv_keys H0).
  - intros rid row Hl. split; [|apply (inv_ids H0 Hl)].
    destruct (A3 rid) as [[]|H]; [|exact H].
    apply (Dict.get_In Z.eqb Z.eqb_eq) in Hl. unfold Dict.keys.
    change rid with (fst (rid, row)). now apply in_map.
Qed.

(** *** Unique and primary-key columns *)

Lemma validate_insert_app u n pre post :
  forall rd0,
    validate_insert py u n (pre ++ post) rd0
    = (rd1 <- validate_insert py u n pre rd0 ;;
       validate_insert py u n post rd1).
Proof.
  induction pre as [|c pre IH]; intros rd0; [reflexivity|].
  cbn [app validate_insert].
  destruct (Py.is_none (data_get n (Py.lower (name c))) && not_null c);
    [reflexivity|].
  destruct (if Py.is_none (data_get n (Py.lower (name c)))
            then Ok (data_get n (Py.lower (name c)))
            else validate_and_coerce py (data_get n (Py.lower (name c)))
                                     (data_type c)) as [v|e];
    [|reflexivity].
  cbn [bind].
  destruct (if unique c && negb (Py.is_none v)
            then s <- unique_set u (Py.lower (name c)) ;;
                 (if set_contains v s then Raise (violation c v) else Ok tt)
            else Ok tt); [|reflexivity].
  cbn [bind]. apply IH.
Qed.

Lemma validate_update_app t row pre post :
  forall n,
    validate_update py t row (pre ++ post) n
    = (n1 <- validate_update py t row pre n ;;
       validate_update py t row post n1).
Proof.
  induction pre as [|[cn nv] pre IH]; intros n; [reflexivity|].
  cbn [app validate_update].
  destruct (get_column (schema t) cn) as [col|e]; [|reflexivity].
  cbn [bind].
  destruct (Py.is_none nv && not_null col); [reflexivity|].
  destruct (if Py.is_none nv then Ok (nv, n)
            else v <- validate_and_coerce py nv (data_type col) ;;
                 Ok (v, Dict.set String.eqb n cn v)) as [[v n1]|e];
    [|reflexivity].
  cbn [bind].
  destruct (if unique col && negb (Py.is_none v)
               && negb (Py.eq v (data_get (data row) cn))
            then s <- unique_set (_unique_values t) cn ;;
                 (if set_contains v s then Raise (violation col v)
                  else Ok tt)
            else Ok tt); [|reflexivity].
  cbn [bind]. apply IH.
Qed.

(** An insert whose value for the unique column [col] is already held by a
    live row raises the violation of [col], once the columns before [col]
    have passed. *)
Lemma insert_duplicate_raises t values pre col post rd1 x v rid row :
  Inv0 t -> InvU t ->
  columns (schema t) = pre ++ col :: post ->
  validate_insert py (_unique_values t) (normalize values) pre [] = Ok rd1 ->
  unique col = true ->
  data_get (normalize values) (lname col) = x -> x <> VNull ->
  validate_and_coerce py x (data_type col) = Ok v ->
  live t rid row -> Py.eq v (cell row (lname col)) = true ->
  Table_insert py t values = (t, Raise (violation col v)).
Proof.
  intros H0 HU Hcols Hpre Hu Hx Hxn Hv Hl He.
  assert (Hin : In col (columns (schema t)))
    by (rewrite Hcols, in_app_iff; cbn; auto).
  destruct (inv_cols HU col Hin Hu) as [(s & Hs & Hcont) _].
  fold (lname col) in *.
  assert (Hvn : v <> VNull) by (eapply coerce_not_null; eauto).
  assert (Hrow : cell row (lname col) <> VNull)
    by (eapply eq_not_null; eauto).
  assert (Hc : set_contains v s = true).
  { apply set_contains_congr with (cell row (lname col)).
    - now rewrite Py.eq_sym.
    - now apply (Hcont rid row). }
  unfold Table_insert. rewrite Hcols, validate_insert_app, Hpre.
  cbn [bind validate_insert]. fold (lname col). rewrite Hx.
  apply is_none_false in Hxn, Hvn. rewrite Hxn. cbn [andb]. rewrite Hv.
  cbn [bind]. rewrite Hu, Hvn. cbn [andb negb]. unfold unique_set.
  rewrite Hs. cbn [bind]. now rewrite Hc.
Qed.

(** An update that would give row [rid] the value another live row holds
    in the unique column [col] raises the violation of [col], once the
    items before it have passed. *)
Lemma update_duplicate_raises t rid row values pre cn x post n1 col v
      rid' row' :
  Inv0 t -> InvU t -> live t rid row ->
  normalize values = pre ++ (cn, x) :: post ->
  validate_update py t row pre (normalize values) = Ok n1 ->
  get_column (schema t) cn = Ok col -> unique col = true ->
  x <> VNull -> validate_and_coerce py x (data_type col) = Ok v ->
  live t rid' row' -> rid' <> rid -> Py.eq v (cell row' cn) = true ->
  Table_update py t rid values = (t, Raise (violation col v)).
Proof.
  intros H0 HU Hl Hn Hpre Hcol Hu Hxn Hv Hl' Hne He.
  assert (Hlow : Py.lower cn = cn).
  { destruct (normalize_keys values) as [_ Hlow]. rewrite Hn in Hlow.
    rewrite Forall_forall in Hlow. apply Hlow. unfold Dict.keys.
    rewrite map_app, in_app_iff. cbn. auto. }
  destruct (@get_column_Ok (schema t) cn col Hlow Hcol) as [Hin Hname].
  destruct (inv_cols HU col Hin Hu) as [(s & Hs & Hcont) Hd].
  rewrite Hname in *.
  assert (Hvn : v <> VNull) by (eapply coerce_not_null; eauto).
  assert (Hrow' : cell row' cn <> VNull) by (eapply eq_not_null; eauto).
  assert (Hc : set_contains v s = true).
  { apply set_contains_congr with (cell row' cn).
    - now rewrite Py.eq_sym.
    - now apply (Hcont rid' row'). }
  assert (Hold : Py.eq v (cell row cn) = false).
  { destruct (Py.eq v (cell row cn)) eqn:E; [|reflexivity].
    assert (Hr : cell row cn <> VNull) by (eapply eq_not_null; eauto).
    specialize (Hd rid' row' rid row Hl' Hl Hne Hrow' Hr).
    rewrite (Py.eq_trans (cell row' cn) v (cell row cn)) in Hd;
      [discriminate|now rewrite Py.eq_sym|assumption]. }
  unfold Table_update. unfold live in Hl. rewrite Hl.
  rewrite Hn at 1. rewrite validate_update_app, Hpre.
  cbn [bind validate_update]. rewrite Hcol. cbn [bind].
  apply is_none_false in Hxn, Hvn. rewrite Hxn. cbn [andb]. rewrite Hv.
  cbn [bind]. unfold cell in Hold. rewrite Hu, Hvn, Hold. cbn [andb negb].
  unfold unique_set. rewrite Hs. cbn [bind]. now rewrite Hc.
Qed.

(** C3 (as amended).  On a table whose column names differ pairwise,
    ignoring letter case, and after any run of [insert], [update], [delete]
    and [clear]: no two live rows hold equal non-null values in a column
    declared UNIQUE or PRIMARY KEY; an insert whose value for such a column
    is already held by a live row raises [PrimaryKeyViolation] for the
    primary-key column and [UniqueViolation] for another unique column, once
    the columns checked before it have passed; and so does an update that
    would give a row the value another live row holds. *)
Theorem unique_columns_stay_unique s ops :
  distinct_names s ->
  let t := run (Table_init s) ops in
  (forall col rid1 row1 rid2 row2,
      In col (columns s) -> unique col = true ->
      live t rid1 row1 -> live t rid2 row2 -> rid1 <> rid2 ->
      cell row1 (lname col) <> VNull -> cell row2 (lname col) <> VNull ->
      Py.eq (cell row1 (lname col)) (cell row2 (lname col)) = false) /\
  (forall values pre col post rd1 x v rid row,
      columns s = pre ++ col :: post ->
      validate_insert py (_unique_values t) (normalize values) pre []
      = Ok rd1 ->
      unique col = true ->
      data_get (normalize values) (lname col) = x -> x <> VNull ->
      validate_and_coerce py x (data_type col) = Ok v ->
      live t rid row -> Py.eq v (cell row (lname col)) = true ->
      Table_insert py t values
      = (t, Raise (if primary_key col then PrimaryKeyViolation (name col) v
                   else UniqueViolation (name col) v))) /\
  (forall rid row values pre cn x post n1 col v rid' row',
      live t rid row ->
      normalize values = pre ++ (cn, x) :: post ->
      validate_update py t row pre (normalize values) = Ok n1 ->
      get_column s cn = Ok col -> unique col = true ->
      x <> VNull -> validate_and_coerce py x (data_type col) = Ok v ->
      live t rid' row' -> rid' <> rid -> Py.eq v (cell row' cn) = true ->
      Table_update py t rid values
      = (t, Raise (if primary_key col then PrimaryKeyViolation (name col) v
                   else UniqueViolation (name col) v))).
Proof.
  intros Hn t.
  destruct (@run_Inv ops (Table_init s) (Inv0_init s)) as (H0 & HU & Hs).
  specialize (HU (InvU_init Hn)). fold t in H0, HU, Hs.
  cbn [Table_init schema] in Hs. repeat apply conj.
  - intros col rid1 row1 rid2 row2 Hin Hu L1 L2 Hne V1 V2.
    rewrite <- Hs in Hin.
    destruct (inv_cols HU col Hin Hu) as [_ Hd].
    exact (Hd rid1 row1 rid2 row2 L1 L2 Hne V1 V2).
  - intros values pre col post rd1 x v rid row Hc Hp Hu Hx Hxn Hv Hl He.
    rewrite <- Hs in Hc.
    exact (@insert_duplicate_raises t values pre col post rd1 x v rid row
             H0 HU Hc Hp Hu Hx Hxn Hv Hl He).
  - intros rid row values pre cn x post n1 col v rid' row'
           Hl Hn' Hp Hc Hu Hxn Hv Hl' Hne He.
    rewrite <- Hs in Hc.
    exact (@update_duplicate_raises t rid row values pre cn x post n1 col v
             rid' row' H0 HU Hl Hn' Hp Hc Hu Hxn Hv Hl' Hne He).
Qed.

(** *** A failed row operation changes nothing *)

Lemma Table_insert_atomic t values t' e :
  Inv0 t -> Table_insert py t values = (t', Raise e) -> t' = t.
Proof.
  intros H0 H. destruct (@Table_insert_cases t values H0)
    as [(e' & _ & E)|(rd & _ & E)]; rewrite E in H; congruence.
Qed.

Lemma Table_update_atomic t rid values t' e :
  Inv0 t -> Table_update py t rid values = (t', Raise e) -> t' = t.
Proof.
  intros H0 H. destruct (@Table_update_cases t rid values H0)
    as [E|[(e' & E)|(t1 & row' & E & _)]]; rewrite E in H; congruence.
Qed.

Lemma Table_delete_returns t rid :
  Inv0 t -> exists r, snd (Table_delete t rid) = Ok r.
Proof.
  intros H0.
  destruct (@Table_delete_cases t rid H0) as [[_ ->]|(row & _ & ->)];
    cbn [snd]; eauto.
Qed.

(** *** Every row holds every column *)

(** A row is a dictionary with one entry per key, and an entry for every
    column of the schema. *)
Definition row_ok (s : TableSchema) (row : Row) : Prop :=
  NoDup (Dict.keys (data row)) /\
  forall col, In col (columns s) ->
              Dict.contains String.eqb (data row) (Py.lower (name col)) = true.

Definition rows_ok (t : Table) : Prop :=
  forall rid row, live t rid row -> row_ok (schema t) row.

Lemma validate_insert_keys u n :
  forall cols rd rd',
    validate_insert py u n cols rd = Ok rd' ->
    NoDup (Dict.keys rd) ->
    NoDup (Dict.keys rd') /\
    (forall k, Dict.contains String.eqb rd k = true ->
               Dict.contains String.eqb rd' k = true) /\
    (forall col, In col cols ->
                 Dict.contains String.eqb rd' (Py.lower (name col)) = true).
Proof.
  induction cols as [|col cols IH]; intros rd rd' H Hnd; cbn in H.
  - apply Ok_inj in H. subst rd'. repeat split; auto; intros col [].
  - destruct (Py.is_none (data_get n (Py.lower (name col))) && not_null col);
      [discriminate|].
    destruct (if Py.is_none (data_get n (Py.lower (name col))) then _ else _)
      as [v|e]; [|discriminate]. cbn [bind] in H.
    destruct (if unique col && negb (Py.is_none v) then _ else _)
      as [[]|e]; [|discriminate]. cbn [bind] in H.
    apply IH in H; [|now apply (Dict.NoDup_set String.eqb String.eqb_eq)].
    destruct H as (H1 & H2 & H3). repeat split; auto.
    + intros k Hk. apply H2. now apply contains_set_mono.
    + intros c [<-|Hin]; [|auto]. apply H2. unfold Dict.contains.
      now rewrite (Dict.get_set_same String.eqb String.eqb_eq).
Qed.

Lemma rows_ok_inserted t values rd :
  Inv0 t -> rows_ok t ->
  validate_insert py (_unique_values t) (normalize values)
                  (columns (schema t)) [] = Ok rd ->
  rows_ok (inserted t rd).
Proof.
  intros H0 Hr Hv rid row Hl. apply (live_inserted rd rid row H0) in Hl.
  cbn [inserted schema].
  destruct Hl as [[-> ->]|[_ Hl]]; [|now apply (Hr rid)].
  destruct (validate_insert_keys _ _ _ _ Hv (NoDup_nil _)) as (H1 & _ & H3).
  split; assumption.
Qed.

Lemma rows_ok_table_after t rid row col cn nv :
  rows_ok t -> live t rid row -> rows_ok (table_after t rid row col cn nv).
Proof.
  intros Hr Hl rid0 row0 H. apply live_table_after in H.
  cbn [table_after schema].
  destruct H as [[-> ->]|[_ H]]; [|now apply (Hr rid0)].
  destruct (Hr _ _ Hl) as [H1 H2]. split; cbn [row_after data].
  - now apply (Dict.NoDup_set String.eqb String.eqb_eq).
  - intros c Hc. now apply contains_set_mono, H2.
Qed.

Lemma apply_updates_rows_ok rid :
  forall items t row,
    Inv0 t -> live t rid row ->
    NoDup (Dict.keys items) -> Forall (validated t row) items ->
    rows_ok t -> rows_ok (fst (apply_updates t rid row items)).
Proof.
  induction items as [|[cn nv] items IH]; intros t row H0 Hl Hnd Hall Hr.
  - exact Hr.
  - inversion Hall as [|? ? Hv Hall']; subst.
    inversion Hnd as [|? ? Hcn Hnd']; subst.
    destruct Hv as (col & Hc & Hin & Hname & Hval).
    cbn [apply_updates].
    rewrite (@apply_update_eq t rid row cn nv col (inv_fresh H0) Hc).
    2:{ intros Hu. rewrite <- Hname. now apply (inv_sets H0). }
    specialize (IH (table_after t rid row col cn nv) (row_after row cn nv)).
    destruct (apply_updates (table_after t rid row col cn nv) rid
                            (row_after row cn nv) items) as [t' [r|e]];
      cbn [fst] in *; apply IH; auto.
    all: try (now apply Inv0_table_after).
    all: try (apply live_table_after; auto).
    all: try (now apply rows_ok_table_after).
    all: rewrite Forall_forall in *; intros item Hitem;
      (apply validated_frame; [|now apply Hall']);
      intros ->; apply Hcn; unfold Dict.keys; now apply in_map.
Qed.

Lemma rows_ok_Table_update t rid values :
  Inv0 t -> rows_ok t -> rows_ok (fst (Table_update py t rid values)).
Proof.
  intros H0 Hr. unfold Table_update.
  destruct (Dict.get Z.eqb (_rows t) rid) as [row|] eqn:Hrow; [|exact Hr].
  destruct (validate_update py t row (normalize values) (normalize values))
    as [n'|e] eqn:Hv; [|exact Hr].
  destruct (normalize_keys values) as [Hnd Hlow].
  destruct (@validate_update_spec t row (normalize values) [] n' Hnd Hlow Hv)
    as (items' & -> & Hk & Hall).
  cbn [app]. rewrite <- Hk in Hnd.
  pose proof (@apply_updates_rows_ok rid items' t row H0 Hrow Hnd Hall Hr) as H.
  destruct (apply_updates t rid row items') as [t' [r|e]]; exact H.
Qed.

Lemma rows_ok_step t o : Inv0 t -> rows_ok t -> rows_ok (step t o).
Proof.
  intros H0 Hr. destruct o as [values|rid values|rid|]; cbn [step].
  - destruct (Table_insert_cases values H0)
      as [(e & _ & ->)|(rd & Hv & ->)]; cbn [fst]; [assumption|].
    eapply rows_ok_inserted; eauto.
  - now apply rows_ok_Table_update.
  - destruct (Table_delete_cases rid H0) as [[_ ->]|(row & Hl & ->)];
      cbn [fst]; [assumption|].
    intros rid0 row0 H. apply live_deleted in H. now apply (Hr rid0).
  - intros rid0 row0 H. discriminate H.
Qed.

Lemma rows_ok_init s : rows_ok (Table_init s).
Proof. intros rid row H. discriminate H. Qed.

Lemma rows_ok_run ops : forall t, Inv0 t -> rows_ok t -> rows_ok (run t ops).
Proof.
  induction ops as [|o ops IH]; intros t H0 Hr; cbn [run fold_left]; [auto|].
  apply IH; [now apply Inv0_step|now apply rows_ok_step].
Qed.

(** Tables reached from a new table by row operations. *)
Definition reachable (t : Table) : Prop :=
  exists s ops, t = run (Table_init s) ops.

Lemma reachable_Inv0 t : reachable t -> Inv0 t.
Proof.
  intros (s & ops & ->). apply run_Inv, Inv0_init.
Qed.

Lemma reachable_rows_ok t : reachable t -> rows_ok t.
Proof.
  intros (s & ops & ->). apply rows_ok_run; [apply Inv0_init|apply rows_ok_init].
Qed.

(** The indexes of a reachable table hold no entry at all. *)
Lemma reachable_indexes_fresh t :
  reachable t -> indexes_fresh (_index_manager t).
Proof. intros H. apply (inv_fresh (reachable_Inv0 H)). Qed.

End Runs.
End Storage.

(** ** Worked examples on a table *)

Module StorageExamples.
Import Datatypes Schema Storage.
Local Open Scope string_scope.
Local Open Scope Z_scope.

(** A small implementation of the built-ins, enough to run the examples:
    [int] and [float] read an optional sign and decimal digits, [str] prints
    integers, and LIKE is left out. *)
Fixpoint digits (s : string) (acc : Z) : option Z :=
  match s with
  | EmptyString => Some acc
  | String c s' =>
      let n := Z.of_N (N_of_ascii c) in
      if (48 <=? n) && (n <=? 57) then digits s' (10 * acc + (n - 48))
      else None
  end.

Definition stub_int (s : string) : option Z :=
  match s with
  | EmptyString => None
  | String "-" (String c s') => option_map Z.opp (digits (String c s') 0)
  | _ => digits s 0
  end.

Definition stub_str (v : value) : string :=
  match v with
  | VInt n => DecimalString.NilZero.string_of_int (Z.to_int n)
  | VText s => s
  | VBool true => "True"
  | VBool false => "False"
  | VNull => "None"
  | VReal _ => "?"
  end.

Definition stub : Py.builtins :=
  Py.mkBuiltins stub_int (fun s => option_map inject_Z (stub_int s)) stub_str
                (fun _ _ => Raise TypeError).

(** [CREATE TABLE users (id INTEGER PRIMARY KEY, name TEXT NOT NULL)] *)
Definition users : TableSchema :=
  mkTableSchema "users"
    [Column_init "id" INTEGER true false false;
     Column_init "name" TEXT false false true].

Definition alice : Dict.t string value :=
  [("id", VInt 1); ("name", VText "Alice")].
Definition bob_as_1 : Dict.t string value :=
  [("id", VInt 1); ("name", VText "Bob")].
Definition bob : Dict.t string value :=
  [("id", VInt 2); ("name", VText "Bob")].
Definition carol : Dict.t string value :=
  [("id", VInt 3); ("name", VText "Carol")].

Definition users1 : Table := run stub (Table_init users) [OpInsert alice].

Lemma users_distinct_names : distinct_names users.
Proof.
  unfold distinct_names. cbn.
  repeat constructor; cbn; intuition discriminate.
Qed.

(** C2 (code bug), at the failing input: after
    [users.insert({'id': 1, 'name': 'Alice'})] row 1 is live with [id = 1],
    yet the B-tree on [id] is still empty, so its [search(1)] is the empty
    list, and [IndexManager.search] takes the index for absent. *)
Theorem index_misses_inserted_row :
  (exists row, live users1 1 row /\ cell row "id" = VInt 1) /\
  (exists index,
      IndexManager.get_index (_index_manager users1) "id" = Some index /\
      Index.len index = 0 /\
      IndexManager.tree_search index (VInt 1) = Ok []) /\
  IndexManager.search (_index_manager users1) "id" (VInt 1) = Ok None.
Proof.
  split; [eexists; split; reflexivity|].
  split; [eexists; repeat split; reflexivity|reflexivity].
Qed.

Lemma unique_columns_stay_unique_witness :
  distinct_names users /\
  Table_insert stub users1 bob_as_1
  = (users1, Raise (PrimaryKeyViolation "id" (VInt 1))).
Proof.
  split; [exact users_distinct_names|].
  destruct (@unique_columns_stay_unique stub users [OpInsert alice]
              users_distinct_names) as (_ & P & _).
  exact (P bob_as_1 [] (Column_init "id" INTEGER true false false)
           [Column_init "name" TEXT false false true] []
           (VInt 1) (VInt 1) 1 (mkRow 1 alice)
           eq_refl eq_refl eq_refl eq_refl
           ltac:(discriminate) eq_refl eq_refl eq_refl).
Defined.

(** [CREATE TABLE t (a INTEGER UNIQUE, A TEXT)]: two columns of one
    lowercase name. *)
Definition twins : TableSchema :=
  mkTableSchema "t"
    [Column_init "a" INTEGER false true false;
     Column_init "A" TEXT false false false].

Definition five : Dict.t string value := [("a", VInt 5); ("A", VInt 5)].

(** C3, counterexample to the claim as stated: on [twins] the cell [a] of a
    row is written twice, last by the TEXT column, and the unique set of [a]
    receives the text ['5'] while the check looks for the integer [5]; two
    inserts of the same values both return and leave two live rows with the
    same value in the UNIQUE column. *)
Lemma duplicate_column_names_counterexample :
  let t := run stub (Table_init twins) [OpInsert five; OpInsert five] in
  exists col row1 row2,
    In col (columns twins) /\ unique col = true /\
    live t 1 row1 /\ live t 2 row2 /\
    cell row1 (lname col) = VText "5" /\ cell row2 (lname col) = VText "5" /\
    Py.eq (cell row1 (lname col)) (cell row2 (lname col)) = true.
Proof.
  cbv zeta. eexists (Column_init "a" INTEGER false true false), _, _.
  split; [now left|]. repeat split; reflexivity.
Qed.

Definition five_ops : list op :=
  [OpInsert alice; OpInsert bob_as_1; OpInsert bob; OpDelete 1;
   OpInsert carol].

Lemma row_ids_count_up_witness :
  forallb (fun o => negb (is_clear o)) five_ops = true /\
  allocated stub (Table_init users) five_ops = [1; 2; 3] /\
  _next_row_id (run stub (Table_init users) five_ops) = 4.
Proof.
  split; [reflexivity|].
  destruct (@row_ids_count_up stub users five_ops eq_refl) as (H1 & H2 & _).
  split; [exact H1|exact H2].
Defined.

(** C8, counterexample to the claim as stated: [Table.clear] sets the
    counter back to 1, and the insert after it hands out row id 1 a second
    time. *)
Lemma clear_reuses_row_ids_counterexample :
  allocated stub (Table_init users) [OpInsert alice; OpClear; OpInsert bob]
  = [1; 1].
Proof. reflexivity. Qed.

End StorageExamples.

(** ** ast_nodes.py *)

Module Ast.

Inductive OrderDirection : Type := ASC | DESC.

Inductive BinaryOp : Type := EQ | NE | LT | LE | GT | GE | AND | OR | LIKE.

Inductive UnaryOp : Type := NOT | IS_NULL | IS_NOT_NULL.

Inductive Expression : Type :=
| Literal (v : value)
| ColumnRef (column : string) (table : option string)
| BinaryExpr (left : Expression) (op : BinaryOp) (right : Expression)
| UnaryExpr (op : UnaryOp) (operand : Expression)
| StarExpr (table : option string).

Record ColumnDef : Type := mkColumnDef {
  cd_name : string;
  cd_data_type : string;
  cd_primary_key : bool;
  cd_unique : bool;
  cd_not_null : bool
}.

Record TableRef : Type := mkTableRef {
  tr_name : string;
  tr_alias : option string
}.

(** A [str] used as a condition: [None] and the empty string are false. *)
Definition nonempty (o : option string) : option string :=
  match o with
  | Some EmptyString => None
  | _ => o
  end.

(** [TableRef.effective_name]: [self.alias or self.name] *)
Definition effective_name (r : TableRef) : string :=
  match nonempty (tr_alias r) with
  | Some a => a
  | None => tr_name r
  end.

Record OrderByItem : Type := mkOrderByItem {
  ob_column : string;
  ob_table : option string;
  ob_direction : OrderDirection
}.

(** The statements.  A [SelectStmt] carries the base table of its FROM
    clause; the JOIN loop of [execute_select] is not part of this
    embedding. *)
Record SelectStmt : Type := mkSelectStmt {
  sel_columns : list Expression;
  sel_from : option TableRef;
  sel_where : option Expression;
  sel_order_by : list OrderByItem;
  sel_limit : option Z;
  sel_offset : option Z
}.

Record InsertStmt : Type := mkInsertStmt {
  ins_table_name : string;
  ins_columns : option (list string);
  ins_values : list (list Expression)
}.

Record UpdateStmt : Type := mkUpdateStmt {
  upd_table_name : string;
  upd_assignments : list (string * Expression);
  upd_where : option Expression
}.

Record DeleteStmt : Type := mkDeleteStmt {
  del_table_name : string;
  del_where : option Expression
}.

Record CreateTableStmt : Type := mkCreateTableStmt {
  ct_table_name : string;
  ct_columns : list ColumnDef;
  ct_if_not_exists : bool
}.

Record DropTableStmt : Type := mkDropTableStmt {
  dt_table_name : string;
  dt_if_exists : bool
}.

Inductive Statement : Type :=
| Create (stmt : CreateTableStmt)
| Drop (stmt : DropTableStmt)
| Insert (stmt : InsertStmt)
| Select (stmt : SelectStmt)
| Update (stmt : UpdateStmt)
| Delete (stmt : DeleteStmt).

(** [BinaryOp.value] and [UnaryOp.value] *)
Definition binop_text (op : BinaryOp) : string :=
  match op with
  | EQ => "=" | NE => "<>" | LT => "<" | LE => "<=" | GT => ">" | GE => ">="
  | AND => "AND" | OR => "OR" | LIKE => "LIKE"
  end.

Definition unop_text (op : UnaryOp) : string :=
  match op with
  | NOT => "NOT" | IS_NULL => "IS NULL" | IS_NOT_NULL => "IS NOT NULL"
  end.

End Ast.

(** ** storage.py: [Database] *)

Module Database.
Import Schema Storage.

Record t : Type := mk {
  catalog : Catalog;
  _tables : Dict.t string Table
}.

Definition empty : t := mk [] [].

(** [Database.create_table] *)
Definition create_table (db : t) (s : TableSchema) : t * result Table :=
  match Catalog_create_table (catalog db) s with
  | Raise e => (db, Raise e)
  | Ok c =>
      let table := Table_init s in
      (mk c (Dict.set String.eqb (_tables db) (Py.lower (table_name s)) table),
       Ok table)
  end.

(** [Database.drop_table] *)
Definition drop_table (db : t) (name : string) : t * result unit :=
  match Catalog_drop_table (catalog db) name with
  | Raise e => (db, Raise e)
  | Ok c =>
      if Dict.contains String.eqb (_tables db) (Py.lower name)
      then (mk c (Dict.remove String.eqb (_tables db) (Py.lower name)), Ok tt)
      else (mk c (_tables db), Raise KeyError)
  end.

(** [Database.get_table] *)
Definition get_table (db : t) (name : string) : result Table :=
  _ <- Catalog_get_table (catalog db) name ;;
  match Dict.get String.eqb (_tables db) (Py.lower name) with
  | Some table => Ok table
  | None => Raise KeyError
  end.

(** [Database.has_table] *)
Definition has_table (db : t) (name : string) : bool :=
  Catalog_has_table (catalog db) name.

(** A table object mutated in place is seen through the database that owns
    it: the table registered under [name] becomes [table]. *)
Definition put_table (db : t) (name : string) (table : Table) : t :=
  mk (catalog db) (Dict.set String.eqb (_tables db) (Py.lower name) table).

End Database.

(** ** executor.py *)

Module Executor.
Import Datatypes Schema Storage Ast.
Local Open Scope string_scope.
Local Open Scope Z_scope.

Record QueryResult : Type := mkQueryResult {
  columns : list string;
  rows : list (Dict.t string value);
  affected_rows : Z
}.

(** [ExecutionContext.tables]: alias or name, lowercase, to table. *)
Definition ExecutionContext : Type := Dict.t string Table.

(** A row of the working set of a SELECT: the prefixed column bindings and
    the [_row_ids] entry kept beside them. *)
Record WorkRow : Type := mkWorkRow {
  bindings : Dict.t string value;
  _row_ids : Dict.t string Z
}.

(** [f"{prefix}.{name}"] *)
Definition dotted (prefix name : string) : string := prefix ++ "." ++ name.

(** [ExecutionContext.get_table] *)
Definition ctx_get_table (ctx : ExecutionContext) (name : string)
  : result Table :=
  match Dict.get String.eqb ctx (Py.lower name) with
  | Some table => Ok table
  | None => Raise (TableNotFoundError name)
  end.

(** [ExecutionContext.resolve_column] *)
Definition resolve_column (ctx : ExecutionContext) (column : string)
           (table : option string) (row_data : Dict.t string value)
  : result value :=
  let col_name := Py.lower column in
  match nonempty table with
  | Some tbl =>
      match Dict.get String.eqb row_data (dotted (Py.lower tbl) col_name) with
      | Some v => Ok v
      | None => Raise (ColumnNotFoundError column (Some tbl))
      end
  | None =>
      let matches :=
        filter (fun key => Dict.contains String.eqb row_data key)
               (map (fun prefix => dotted prefix col_name) (Dict.keys ctx)) in
      match matches with
      | [] => Raise (ColumnNotFoundError column None)
      | [key] =>
          match Dict.get String.eqb row_data key with
          | Some v => Ok v
          | None => Raise KeyError
          end
      | _ => Raise (AmbiguousColumnError column)
      end
  end.

Section WithBuiltins.
Variable py : Py.builtins.

Definition is_false (v : value) : bool :=
  match v with
  | VBool false => true
  | _ => false
  end.

Definition is_true (v : value) : bool :=
  match v with
  | VBool true => true
  | _ => false
  end.

(** [Executor._apply_binary_op] *)
Definition _apply_binary_op (op : BinaryOp) (left right : value)
  : result value :=
  let cmp (f : value -> value -> result bool) :=
    b <- f left right ;; Ok (VBool b) in
  match op with
  | AND =>
      if is_false left || is_false right then Ok (VBool false)
      else if Py.is_none left || Py.is_none right then Ok VNull
      else Ok (if Py.truthy left then right else left)
  | OR =>
      if is_true left || is_true right then Ok (VBool true)
      else if Py.is_none left || Py.is_none right then Ok VNull
      else Ok (if Py.truthy left then left else right)
  | _ =>
      if Py.is_none left || Py.is_none right then Ok VNull
      else
        match op with
        | EQ => Ok (VBool (Py.eq left right))
        | NE => Ok (VBool (negb (Py.eq left right)))
        | LT => cmp Py.lt
        | LE => cmp Py.le
        | GT => cmp Py.gt
        | GE => cmp Py.ge
        | _ => Py.like py left right
        end
  end.

(** [Executor._apply_unary_op] *)
Definition _apply_unary_op (op : UnaryOp) (operand : value) : result value :=
  match op with
  | NOT =>
      if Py.is_none operand then Ok VNull
      else Ok (VBool (negb (Py.truthy operand)))
  | IS_NULL => Ok (VBool (Py.is_none operand))
  | IS_NOT_NULL => Ok (VBool (negb (Py.is_none operand)))
  end.

(** [Executor.evaluate_expr(expr, row, ctx)]; [ctx] is [None] when the
    caller passes none. *)
Fixpoint evaluate_expr (ctx : option ExecutionContext)
         (row : Dict.t string value) (expr : Expression) : result value :=
  match expr with
  | Literal v => Ok v
  | ColumnRef column table =>
      match ctx with
      | Some c => resolve_column c column table row
      | None =>
          match Dict.get String.eqb row (Py.lower column) with
          | Some v => Ok v
          | None => Raise (ColumnNotFoundError column None)
          end
      end
  | BinaryExpr l op r =>
      left <- evaluate_expr ctx row l ;;
      right <- evaluate_expr ctx row r ;;
      _apply_binary_op op left right
  | UnaryExpr op e =>
      operand <- evaluate_expr ctx row e ;;
      _apply_unary_op op operand
  | StarExpr _ => Raise RDBMSError
  end.

(** [Executor._evaluate_where] *)
Definition _evaluate_where (ctx : ExecutionContext)
           (row : Dict.t string value) (expr : Expression) : result bool :=
  r <- evaluate_expr (Some ctx) row expr ;;
  Ok (if Py.is_none r then false else Py.truthy r).

(** [{f"{prefix}.{k}": v for k, v in row.data.items()}] *)
Definition prefixed (prefix : string) (row : Row) : Dict.t string value :=
  fold_left (fun d kv => Dict.set String.eqb d (dotted prefix (fst kv))
                                  (snd kv))
            (data row) [].

(** The body of the loop of [_table_to_rows]: the prefixed bindings of one
    row, with its [_row_ids] entry. *)
Definition work_row (prefix : string) (row : Row) : WorkRow :=
  mkWorkRow (prefixed prefix row) [(prefix, row_id row)].

(** [Executor._table_to_rows] *)
Definition _table_to_rows (table : Table) (prefix : string) : list WorkRow :=
  map (work_row (Py.lower prefix)) (Table_scan table).

(** The list comprehension [[r for r in rows if keep(r)]], where [keep]
    may raise. *)
Fixpoint filter_rows {A : Type} (keep : A -> result bool) (l : list A)
  : result (list A) :=
  match l with
  | [] => Ok []
  | a :: l' =>
      b <- keep a ;;
      rest <- filter_rows keep l' ;;
      Ok (if b then a :: rest else rest)
  end.

(** The first component of an entry of the sort key: [1] for [None] under
    ASC and for a value under DESC, [0] otherwise. *)
Definition null_order (v : value) (direction : OrderDirection) : Z :=
  match Py.is_none v, direction with
  | true, ASC => 1
  | true, DESC => 0
  | false, ASC => 0
  | false, DESC => 1
  end.

(** [sort_key(row)] of [_apply_order_by]: per ORDER BY item the pair
    [(null_order, value)]. *)
Fixpoint sort_key (ctx : ExecutionContext) (order_by : list OrderByItem)
         (row : Dict.t string value) : result (list (Z * value)) :=
  match order_by with
  | [] => Ok []
  | item :: items =>
      v <- resolve_column ctx (ob_column item) (ob_table item) row ;;
      rest <- sort_key ctx items row ;;
      Ok ((null_order v (ob_direction item), v) :: rest)
  end.

(** [compare_keys(a, b)] of [_apply_order_by]; the loop index runs over
    [a], [b] and [order_by] together. *)
Fixpoint compare_keys (order_by : list OrderByItem) (a b : list (Z * value))
  : result Z :=
  match a with
  | [] => Ok 0
  | (a_null_order, a_val) :: a' =>
      match b with
      | [] => Raise IndexError
      | (b_null_order, b_val) :: b' =>
          if negb (a_null_order =? b_null_order)
          then Ok (a_null_order - b_null_order)
          else if Py.is_none a_val && Py.is_none b_val
          then compare_keys (tl order_by) a' b'
          else
            match order_by with
            | [] => Raise IndexError
            | item :: _ =>
                cmp <- compare_values a_val b_val ;;
                if negb (cmp =? 0)
                then Ok (match ob_direction item with
                         | ASC => cmp
                         | DESC => - cmp
                         end)
                else compare_keys (tl order_by) a' b'
            end
      end
  end.

(** The comparison [sorted] is given: [compare_keys(sort_key(a),
    sort_key(b))]. *)
Definition compare_rows (ctx : ExecutionContext) (order_by : list OrderByItem)
           (a b : WorkRow) : result Z :=
  ka <- sort_key ctx order_by (bindings a) ;;
  kb <- sort_key ctx order_by (bindings b) ;;
  compare_keys order_by ka kb.

(** [sorted(rows, key=cmp_to_key(cmp))]: a stable sort that asks only
    whether [cmp(y, x) < 0].  It is written as the insertion of each row
    before the rows that follow it in the input. *)
Fixpoint insert_sorted {A : Type} (cmp : A -> A -> result Z) (x : A)
         (l : list A) : result (list A) :=
  match l with
  | [] => Ok [x]
  | y :: l' =>
      c <- cmp y x ;;
      if c <? 0 then rest <- insert_sorted cmp x l' ;; Ok (y :: rest)
      else Ok (x :: y :: l')
  end.

Fixpoint sorted {A : Type} (cmp : A -> A -> result Z) (l : list A)
  : result (list A) :=
  match l with
  | [] => Ok []
  | x :: l' => s <- sorted cmp l' ;; insert_sorted cmp x s
  end.

(** [Executor._apply_order_by] *)
Definition _apply_order_by (ctx : ExecutionContext)
           (order_by : list OrderByItem) (rows : list WorkRow)
  : result (list WorkRow) :=
  sorted (compare_rows ctx order_by) rows.

(** [str(expr)] *)
Fixpoint expr_str (e : Expression) : string :=
  match e with
  | Literal (VText s) => "'" ++ s ++ "'"
  | Literal v => Py.str_of py v
  | ColumnRef column table =>
      match nonempty table with
      | Some t => dotted t column
      | None => column
      end
  | BinaryExpr l op r =>
      "(" ++ expr_str l ++ " " ++ binop_text op ++ " " ++ expr_str r ++ ")"
  | UnaryExpr op e' => "(" ++ unop_text op ++ " " ++ expr_str e' ++ ")"
  | StarExpr table =>
      match nonempty table with
      | Some t => t ++ ".*"
      | None => "*"
      end
  end.

(** The display names a star stands for: [prefix.col.name] per column. *)
Definition star_columns (prefix : string) (table : Table) : list string :=
  map (fun col => dotted prefix (name col)) (Schema.columns (schema table)).

(** The first loop of [_project_columns]. *)
Fixpoint result_columns (ctx : ExecutionContext) (exprs : list Expression)
  : result (list string) :=
  match exprs with
  | [] => Ok []
  | e :: exprs' =>
      cols <- match e with
              | StarExpr table =>
                  match nonempty table with
                  | Some t =>
                      table <- ctx_get_table ctx t ;; Ok (star_columns t table)
                  | None =>
                      Ok (flat_map (fun kv => star_columns (fst kv) (snd kv))
                                   ctx)
                  end
              | _ => Ok [expr_str e]
              end ;;
      rest <- result_columns ctx exprs' ;;
      Ok (cols ++ rest)%list
  end.

(** [projected[col_name] = row.get(key)] for the columns of one table. *)
Definition project_star (prefix : string) (table : Table)
           (row : Dict.t string value) (projected : Dict.t string value)
  : Dict.t string value :=
  fold_left (fun d col =>
               Dict.set String.eqb d (dotted prefix (name col))
                        (data_get row (dotted (Py.lower prefix)
                                              (Py.lower (name col)))))
            (Schema.columns (schema table)) projected.

(** The body of the second loop of [_project_columns], for one row. *)
Fixpoint project_row (ctx : ExecutionContext) (names : list string)
         (row : Dict.t string value) (exprs : list Expression) (i : nat)
         (projected : Dict.t string value) : result (Dict.t string value) :=
  match exprs with
  | [] => Ok projected
  | e :: exprs' =>
      projected' <-
        match e with
        | StarExpr table =>
            match nonempty table with
            | Some t =>
                table <- ctx_get_table ctx t ;;
                Ok (project_star t table row projected)
            | None =>
                Ok (fold_left (fun d kv => project_star (fst kv) (snd kv) row d)
                              ctx projected)
            end
        | _ =>
            let col_name := match nth_error names i with
                            | Some n => n
                            | None => expr_str e
                            end in
            v <- evaluate_expr (Some ctx) row e ;;
            Ok (Dict.set String.eqb projected col_name v)
        end ;;
      project_row ctx names row exprs' (S i) projected'
  end.

Fixpoint map_result {A B : Type} (f : A -> result B) (l : list A)
  : result (list B) :=
  match l with
  | [] => Ok []
  | a :: l' => b <- f a ;; rest <- map_result f l' ;; Ok (b :: rest)
  end.

(** [Executor._project_columns] *)
Definition _project_columns (ctx : ExecutionContext) (exprs : list Expression)
           (rows : list WorkRow)
  : result (list string * list (Dict.t string value)) :=
  names <- result_columns ctx exprs ;;
  result_rows <- map_result
                   (fun row => project_row ctx names (bindings row) exprs O [])
                   rows ;;
  Ok (names, result_rows).

(** The slices [rows[offset:]] and [rows[:limit]]; a negative bound counts
    from the end. *)
Definition slice_from {A : Type} (l : list A) (offset : Z) : list A :=
  if offset <? 0 then skipn (Z.to_nat (Z.max (lenZ l + offset) 0)) l
  else skipn (Z.to_nat offset) l.

Definition slice_to {A : Type} (l : list A) (limit : Z) : list A :=
  if limit <? 0 then firstn (Z.to_nat (Z.max (lenZ l + limit) 0)) l
  else firstn (Z.to_nat limit) l.

(** The constant SELECT, without FROM: each expression is evaluated against
    the row built so far. *)
Fixpoint select_constants (exprs : list Expression)
         (row : Dict.t string value) (names : list string)
  : result (list string * Dict.t string value) :=
  match exprs with
  | [] => Ok (names, row)
  | e :: exprs' =>
      v <- evaluate_expr None row e ;;
      select_constants exprs' (Dict.set String.eqb row (expr_str e) v)
                       (names ++ [expr_str e])%list
  end.

(** The steps of [execute_select] that follow the WHERE clause: ORDER BY,
    OFFSET, LIMIT and the projection. *)
Definition select_after_where (ctx : ExecutionContext) (stmt : SelectStmt)
           (rows : list WorkRow) : result QueryResult :=
  rows <- match sel_order_by stmt with
          | [] => Ok rows
          | order_by => _apply_order_by ctx order_by rows
          end ;;
  let rows := match sel_offset stmt with
              | Some o => if o =? 0 then rows else slice_from rows o
              | None => rows
              end in
  let rows := match sel_limit stmt with
              | Some l => slice_to rows l
              | None => rows
              end in
  '(names, result_rows) <- _project_columns ctx (sel_columns stmt) rows ;;
  Ok (mkQueryResult names result_rows 0).

(** [Executor.execute_select], for a statement without JOIN clauses. *)
Definition execute_select (db : Database.t) (stmt : SelectStmt)
  : result QueryResult :=
  match sel_from stmt with
  | None =>
      '(names, row) <- select_constants (sel_columns stmt) [] [] ;;
      Ok (mkQueryResult names [row] 0)
  | Some table_ref =>
      base_table <- Database.get_table db (tr_name table_ref) ;;
      let ctx : ExecutionContext :=
        [(Py.lower (effective_name table_ref), base_table)] in
      let rows := _table_to_rows base_table (effective_name table_ref) in
      rows <- match sel_where stmt with
              | Some w =>
                  filter_rows (fun r => _evaluate_where ctx (bindings r) w)
                              rows
              | None => Ok rows
              end ;;
      select_after_where ctx stmt rows
  end.

(** The inner loop of [execute_insert]: [row_data[col_name] = value] over
    [zip(columns, value_list)]. *)
Fixpoint insert_row_data (cols : list string) (exprs : list Expression)
         (row_data : Dict.t string value) : result (Dict.t string value) :=
  match cols, exprs with
  | col_name :: cols', e :: exprs' =>
      v <- evaluate_expr None [] e ;;
      insert_row_data cols' exprs' (Dict.set String.eqb row_data col_name v)
  | _, _ => Ok row_data
  end.

(** The loop of [execute_insert] over the value lists: the table as it is
    when the loop ends or an exception leaves it, and the count. *)
Fixpoint insert_value_lists (table : Table) (columns : option (list string))
         (value_lists : list (list Expression)) (inserted_count : Z)
  : Table * result Z :=
  match value_lists with
  | [] => (table, Ok inserted_count)
  | value_list :: rest =>
      let cols := match columns with
                  | Some (c :: cs) => c :: cs
                  | _ => column_names (schema table)
                  end in
      if negb (lenZ value_list =? lenZ cols) then (table, Raise SemanticError)
      else
        match insert_row_data cols value_list [] with
        | Raise e => (table, Raise e)
        | Ok row_data =>
            match Table_insert py table row_data with
            | (table', Raise e) => (table', Raise e)
            | (table', Ok _) =>
                insert_value_lists table' columns rest (inserted_count + 1)
            end
        end
  end.

(** [Executor.execute_insert] *)
Definition execute_insert (db : Database.t) (stmt : InsertStmt)
  : Database.t * result QueryResult :=
  match Database.get_table db (ins_table_name stmt) with
  | Raise e => (db, Raise e)
  | Ok table =>
      let '(table', r) :=
        insert_value_lists table (ins_columns stmt) (ins_values stmt) 0 in
      (Database.put_table db (ins_table_name stmt) table',
       n <- r ;; Ok (mkQueryResult [] [] n))
  end.

(** [{col_name: evaluate_expr(expr, prefixed, ctx) ...}] of
    [execute_update]. *)
Fixpoint update_values (ctx : ExecutionContext) (row : Dict.t string value)
         (assignments : list (string * Expression))
         (updates : Dict.t string value) : result (Dict.t string value) :=
  match assignments with
  | [] => Ok updates
  | (col_name, e) :: rest =>
      v <- evaluate_expr (Some ctx) row e ;;
      update_values ctx row rest (Dict.set String.eqb updates col_name v)
  end.

(** The loop of [execute_update] over [list(table.scan())]. *)
Fixpoint update_rows (table : Table) (prefix : string) (stmt : UpdateStmt)
         (snapshot : list Row) (updated_count : Z) : Table * result Z :=
  match snapshot with
  | [] => (table, Ok updated_count)
  | row :: rest =>
      let ctx : ExecutionContext := [(prefix, table)] in
      let p := prefixed prefix row in
      match (match upd_where stmt with
             | None => Ok true
             | Some w => _evaluate_where ctx p w
             end) with
      | Raise e => (table, Raise e)
      | Ok false => update_rows table prefix stmt rest updated_count
      | Ok true =>
          match update_values ctx p (upd_assignments stmt) [] with
          | Raise e => (table, Raise e)
          | Ok updates =>
              match Table_update py table (row_id row) updates with
              | (table', Raise e) => (table', Raise e)
              | (table', Ok _) =>
                  update_rows table' prefix stmt rest (updated_count + 1)
              end
          end
      end
  end.

(** [Executor.execute_update] *)
Definition execute_update (db : Database.t) (stmt : UpdateStmt)
  : Database.t * result QueryResult :=
  match Database.get_table db (upd_table_name stmt) with
  | Raise e => (db, Raise e)
  | Ok table =>
      let '(table', r) :=
        update_rows table (Py.lower (upd_table_name stmt)) stmt
                    (Table_scan table) 0 in
      (Database.put_table db (upd_table_name stmt) table',
       n <- r ;; Ok (mkQueryResult [] [] n))
  end.

(** The second loop of [execute_delete]. *)
Fixpoint delete_rows (table : Table) (to_delete : list Z) : Table * result unit :=
  match to_delete with
  | [] => (table, Ok tt)
  | rid :: rest =>
      match Table_delete table rid with
      | (table', Raise e) => (table', Raise e)
      | (table', Ok _) => delete_rows table' rest
      end
  end.

(** [Executor.execute_delete] *)
Definition execute_delete (db : Database.t) (stmt : DeleteStmt)
  : Database.t * result QueryResult :=
  match Database.get_table db (del_table_name stmt) with
  | Raise e => (db, Raise e)
  | Ok table =>
      let prefix := Py.lower (del_table_name stmt) in
      let ctx : ExecutionContext := [(prefix, table)] in
      match filter_rows
              (fun row => match del_where stmt with
                          | None => Ok true
                          | Some w => _evaluate_where ctx (prefixed prefix row) w
                          end)
              (Table_scan table) with
      | Raise e => (db, Raise e)
      | Ok doomed =>
          let to_delete := map row_id doomed in
          let '(table', r) := delete_rows table to_delete in
          (Database.put_table db (del_table_name stmt) table',
           _ <- r ;; Ok (mkQueryResult [] [] (lenZ to_delete)))
      end
  end.

(** The conversion loop of [execute_create_table]. *)
Fixpoint convert_columns (defs : list ColumnDef) : result (list Column) :=
  match defs with
  | [] => Ok []
  | d :: defs' =>
      data_type <- from_string (cd_data_type d) ;;
      rest <- convert_columns defs' ;;
      Ok (Column_init (cd_name d) data_type (cd_primary_key d) (cd_unique d)
                      (cd_not_null d) :: rest)
  end.

(** [Executor.execute_create_table] *)
Definition execute_create_table (db : Database.t) (stmt : CreateTableStmt)
  : Database.t * result QueryResult :=
  if ct_if_not_exists stmt && Database.has_table db (ct_table_name stmt)
  then (db, Ok (mkQueryResult [] [] 0))
  else
    match (cols <- convert_columns (ct_columns stmt) ;;
           TableSchema_init (ct_table_name stmt) cols) with
    | Raise e => (db, Raise e)
    | Ok s =>
        let '(db', r) := Database.create_table db s in
        (db', _ <- r ;; Ok (mkQueryResult [] [] 0))
    end.

(** [Executor.execute_drop_table] *)
Definition execute_drop_table (db : Database.t) (stmt : DropTableStmt)
  : Database.t * result QueryResult :=
  if dt_if_exists stmt && negb (Database.has_table db (dt_table_name stmt))
  then (db, Ok (mkQueryResult [] [] 0))
  else
    let '(db', r) := Database.drop_table db (dt_table_name stmt) in
    (db', _ <- r ;; Ok (mkQueryResult [] [] 0)).

(** [Executor.execute] *)
Definition execute (db : Database.t) (stmt : Statement)
  : Database.t * result QueryResult :=
  match stmt with
  | Create c => execute_create_table db c
  | Drop d => execute_drop_table db d
  | Insert i => execute_insert db i
  | Select q => (db, execute_select db q)
  | Update u => execute_update db u
  | Delete d => execute_delete db d
  end.

(** *** What a failing statement leaves behind *)

(** Every registered table satisfies the base invariant of [Storage], and
    every name of the catalog has its table. *)
Record db_ok (db : Database.t) : Prop := {
  ok_tables : forall k table,
      Dict.get String.eqb (Database._tables db) k = Some table -> Inv0 table;
  ok_catalog : forall k,
      Dict.contains String.eqb (Database.catalog db) k = true ->
      Dict.contains String.eqb (Database._tables db) k = true
}.

Lemma get_table_Ok db name table :
  Database.get_table db name = Ok table ->
  Dict.get String.eqb (Database._tables db) (Py.lower name) = Some table.
Proof.
  unfold Database.get_table. intros H. inv_bind H.
  destruct (Dict.get String.eqb (Database._tables db) (Py.lower name));
    [|discriminate].
  now apply Ok_inj in H; subst.
Qed.

Lemma put_table_same db name table :
  Database.get_table db name = Ok table ->
  Database.put_table db name table = db.
Proof.
  intros H. apply get_table_Ok in H. unfold Database.put_table.
  rewrite (Dict.set_same_value String.eqb _ _ H). now destruct db.
Qed.

Lemma Inv0_Table_insert t values :
  Inv0 t -> Inv0 (fst (Table_insert py t values)).
Proof. intros H. exact (@Inv0_step py t (OpInsert values) H). Qed.

Lemma Inv0_Table_update t rid values :
  Inv0 t -> Inv0 (fst (Table_update py t rid values)).
Proof. intros H. exact (@Inv0_step py t (OpUpdate rid values) H). Qed.

Lemma Inv0_Table_delete t rid : Inv0 t -> Inv0 (fst (Table_delete t rid)).
Proof. intros H. exact (@Inv0_step py t (OpDelete rid) H). Qed.

(** A failing run over value lists stops where a run over the first [k]
    lists ends. *)
Lemma insert_value_lists_prefix columns value_lists :
  forall table n table' e,
    Inv0 table ->
    insert_value_lists table columns value_lists n = (table', Raise e) ->
    exists k, (k < length value_lists)%nat /\
              insert_value_lists table columns (firstn k value_lists) n
              = (table', Ok (n + Z.of_nat k)).
Proof.
  induction value_lists as [|vl rest IH]; intros table n table' e H0 H;
    cbn [insert_value_lists] in H; [discriminate|].
  assert (Hstop : (table, @Raise Z e) = (table', Raise e) ->
                  exists k, (k < length (vl :: rest))%nat /\
                            insert_value_lists table columns
                              (firstn k (vl :: rest)) n
                            = (table', Ok (n + Z.of_nat k))).
  { intros [= <-]. exists O. cbn. split; [lia|]. do 2 f_equal. lia. }
  set (cols := match columns with
               | Some (c :: cs) => c :: cs
               | _ => column_names (schema table)
               end) in *.
  destruct (negb (lenZ vl =? lenZ cols)) eqn:Hlen;
    [injection H as <- <-; now apply Hstop|].
  destruct (insert_row_data cols vl []) as [rd|e1] eqn:Hrd;
    [|injection H as <- <-; now apply Hstop].
  destruct (Table_insert py table rd) as [t1 [row|e1]] eqn:Hins.
  - assert (H1 : Inv0 t1).
    { pose proof (Inv0_Table_insert rd H0) as Hi. now rewrite Hins in Hi. }
    destruct (IH _ _ _ _ H1 H) as (k & Hk & E).
    exists (S k). cbn [length firstn insert_value_lists]. fold cols.
    rewrite Hlen, Hrd, Hins, E. split; [lia|]. do 2 f_equal. lia.
  - injection H as <- <-.
    pose proof (@Table_insert_atomic py table rd t1 e1 H0 Hins) as Ht.
    subst t1. now apply Hstop.
Qed.

(** The UPDATE loop likewise. *)
Lemma update_rows_prefix prefix stmt snapshot :
  forall table n table' e,
    Inv0 table ->
    update_rows table prefix stmt snapshot n = (table', Raise e) ->
    exists k m, (k < length snapshot)%nat /\
                update_rows table prefix stmt (firstn k snapshot) n
                = (table', Ok m).
Proof.
  induction snapshot as [|row rest IH]; intros table n table' e H0 H;
    cbn [update_rows] in H; [discriminate|].
  assert (Hstop : (table, @Raise Z e) = (table', Raise e) ->
                  exists k m, (k < length (row :: rest))%nat /\
                              update_rows table prefix stmt
                                (firstn k (row :: rest)) n
                              = (table', Ok m)).
  { intros [= <-]. exists O, n. cbn. split; [lia|reflexivity]. }
  destruct (match upd_where stmt with
            | Some w => _evaluate_where [(prefix, table)]
                                        (prefixed prefix row) w
            | None => Ok true
            end) as [[|]|e1] eqn:Hw.
  - destruct (update_values [(prefix, table)] (prefixed prefix row)
                            (upd_assignments stmt) []) as [u|e1] eqn:Hu;
      [|injection H as <- <-; now apply Hstop].
    destruct (Table_update py table (row_id row) u) as [t1 [r|e1]] eqn:Hup.
    + assert (H1 : Inv0 t1).
      { pose proof (Inv0_Table_update (row_id row) u H0) as Hi.
        now rewrite Hup in Hi. }
      destruct (IH _ _ _ _ H1 H) as (k & m & Hk & E).
      exists (S k), m. cbn [length firstn update_rows].
      rewrite Hw, Hu, Hup, E. split; [lia|reflexivity].
    + injection H as <- <-.
      pose proof (@Table_update_atomic py table (row_id row) u t1 e1 H0 Hup)
        as Ht.
      subst t1. now apply Hstop.
  - destruct (IH _ _ _ _ H0 H) as (k & m & Hk & E).
    exists (S k), m. cbn [length firstn update_rows].
    rewrite Hw, E. split; [lia|reflexivity].
  - injection H as <- <-. now apply Hstop.
Qed.

Lemma delete_rows_returns to_delete :
  forall table, Inv0 table -> snd (delete_rows table to_delete) = Ok tt.
Proof.
  induction to_delete as [|rid rest IH]; intros table H0; [reflexivity|].
  cbn [delete_rows].
  pose proof (Inv0_Table_delete rid H0) as H1.
  destruct (@Table_delete_returns table rid H0) as (r & Hr).
  destruct (Table_delete table rid) as [t1 r1]. cbn [fst snd] in *.
  subst r1. now apply IH.
Qed.

Lemma Inv0_insert_value_lists columns value_lists :
  forall table n, Inv0 table ->
    Inv0 (fst (insert_value_lists table columns value_lists n)).
Proof.
  induction value_lists as [|vl rest IH]; intros table n H0; cbn; [assumption|].
  destruct (negb _); [assumption|].
  destruct (insert_row_data _ vl []) as [rd|e1]; [|assumption].
  pose proof (Inv0_Table_insert rd H0) as H1.
  destruct (Table_insert py table rd) as [t1 [r|e1]]; cbn [fst] in *; auto.
Qed.

Lemma Inv0_update_rows prefix stmt snapshot :
  forall table n, Inv0 table ->
    Inv0 (fst (update_rows table prefix stmt snapshot n)).
Proof.
  induction snapshot as [|row rest IH]; intros table n H0; cbn; [assumption|].
  destruct (match upd_where stmt with None => _ | Some _ => _ end)
    as [[|]|e1]; auto.
  destruct (update_values _ _ _ _) as [u|e1]; [|assumption].
  pose proof (Inv0_Table_update (row_id row) u H0) as H1.
  destruct (Table_update py table (row_id row) u) as [t1 [r|e1]];
    cbn [fst] in *; auto.
Qed.

Lemma Inv0_delete_rows to_delete :
  forall table, Inv0 table -> Inv0 (fst (delete_rows table to_delete)).
Proof.
  induction to_delete as [|rid rest IH]; intros table H0; cbn; [assumption|].
  pose proof (Inv0_Table_delete rid H0) as H1.
  destruct (Table_delete table rid) as [t1 [r|e1]]; cbn [fst] in *; auto.
Qed.

Lemma db_ok_empty : db_ok Database.empty.
Proof. split; cbn; intros; discriminate. Qed.

Lemma db_ok_put_table db name table :
  db_ok db -> Inv0 table -> db_ok (Database.put_table db name table).
Proof.
  intros [Ht Hc] H0. split; cbn [Database.put_table Database._tables
                                  Database.catalog]; intros k.
  - intros table'. destruct (string_dec (Py.lower name) k) as [<-|Hne].
    + rewrite (Dict.get_set_same String.eqb String.eqb_eq). now intros [= <-].
    + rewrite (Dict.get_set_other String.eqb String.eqb_eq); eauto.
  - intros H. apply Hc in H. unfold Dict.contains in *.
    destruct (string_dec (Py.lower name) k) as [<-|Hne].
    + now rewrite (Dict.get_set_same String.eqb String.eqb_eq).
    + rewrite (Dict.get_set_other String.eqb String.eqb_eq); auto.
Qed.

(** Statements keep the databases well formed, whether they return or
    raise. *)
Lemma db_ok_execute db stmt : db_ok db -> db_ok (fst (execute db stmt)).
Proof.
  intros Hok. destruct stmt as [c|d|i|q|u|d]; cbn [execute].
  - unfold execute_create_table.
    destruct (ct_if_not_exists c && Database.has_table db (ct_table_name c));
      [assumption|].
    destruct (cols <- convert_columns (ct_columns c) ;;
              TableSchema_init (ct_table_name c) cols) as [s|e1];
      [|assumption].
    unfold Database.create_table, Catalog_create_table.
    destruct (Dict.contains String.eqb (Database.catalog db)
                (Py.lower (table_name s))) eqn:Hc; [assumption|].
    cbn. destruct Hok as [Ht Hcat]. split; cbn; intros k.
    + intros table'. destruct (string_dec (Py.lower (table_name s)) k) as [<-|Hne].
      * rewrite (Dict.get_set_same String.eqb String.eqb_eq).
        intros [= <-]. apply Inv0_init.
      * rewrite (Dict.get_set_other String.eqb String.eqb_eq); eauto.
    + unfold Dict.contains in *.
      destruct (string_dec (Py.lower (table_name s)) k) as [<-|Hne].
      * now rewrite !(Dict.get_set_same String.eqb String.eqb_eq).
      * rewrite !(Dict.get_set_other String.eqb String.eqb_eq); auto.
  - unfold execute_drop_table.
    destruct (dt_if_exists d && negb (Database.has_table db (dt_table_name d)));
      [assumption|].
    unfold Database.drop_table, Catalog_drop_table.
    destruct (Dict.contains String.eqb (Database.catalog db)
                (Py.lower (dt_table_name d))) eqn:Hc; [|assumption].
    rewrite (ok_catalog Hok _ Hc). cbn.
    destruct Hok as [Ht Hcat]. split; cbn; intros k.
    + intros table'. destruct (string_dec (Py.lower (dt_table_name d)) k) as [<-|Hne].
      * now rewrite (Dict.get_remove_same String.eqb).
      * rewrite (Dict.get_remove_other String.eqb String.eqb_eq); eauto.
    + unfold Dict.contains in *.
      destruct (string_dec (Py.lower (dt_table_name d)) k) as [<-|Hne].
      * now rewrite (Dict.get_remove_same String.eqb).
      * rewrite !(Dict.get_remove_other String.eqb String.eqb_eq); auto.
  - unfold execute_insert.
    destruct (Database.get_table db (ins_table_name i)) as [table|e1] eqn:Hg;
      [|assumption].
    pose proof (ok_tables Hok _ (get_table_Ok _ _ Hg)) as H0.
    pose proof (@Inv0_insert_value_lists (ins_columns i) (ins_values i)
                  table 0 H0) as H1.
    destruct (insert_value_lists _ _ _ _) as [t1 r]. cbn [fst] in *.
    now apply db_ok_put_table.
  - unfold execute_select. destruct (sel_from q); cbn.
    all: repeat match goal with
         | |- context [match ?x with _ => _ end] => destruct x; cbn
         end; assumption.
  - unfold execute_update.
    destruct (Database.get_table db (upd_table_name u)) as [table|e1] eqn:Hg;
      [|assumption].
    pose proof (ok_tables Hok _ (get_table_Ok _ _ Hg)) as H0.
    pose proof (@Inv0_update_rows (Py.lower (upd_table_name u)) u
                  (Table_scan table) table 0 H0) as H1.
    destruct (update_rows _ _ _ _ _) as [t1 r]. cbn [fst] in *.
    now apply db_ok_put_table.
  - unfold execute_delete.
    destruct (Database.get_table db (del_table_name d)) as [table|e1] eqn:Hg;
      [|assumption].
    destruct (filter_rows _ (Table_scan table)) as [doomed|e1]; [|assumption].
    pose proof (ok_tables Hok _ (get_table_Ok _ _ Hg)) as H0.
    pose proof (@Inv0_delete_rows (map row_id doomed) table H0) as H1.
    destruct (delete_rows _ _) as [t1 r]. cbn [fst] in *.
    now apply db_ok_put_table.
Qed.

(** The INSERT statement cut down to its first [k] value lists. *)
Definition first_lists (stmt : InsertStmt) (k : nat) : InsertStmt :=
  mkInsertStmt (ins_table_name stmt) (ins_columns stmt)
               (firstn k (ins_values stmt)).

Lemma execute_insert_failing db stmt db' e :
  db_ok db -> execute_insert db stmt = (db', Raise e) ->
  db' = db \/
  exists k, (0 < k < length (ins_values stmt))%nat /\
            execute_insert db (first_lists stmt k)
            = (db', Ok (mkQueryResult [] [] (Z.of_nat k))).
Proof.
  intros Hok H. unfold execute_insert in *. cbn [first_lists ins_table_name
    ins_columns ins_values].
  destruct (Database.get_table db (ins_table_name stmt)) as [table|e1] eqn:Hg;
    [|left; congruence].
  destruct (insert_value_lists table (ins_columns stmt) (ins_values stmt) 0)
    as [t1 [n|e1]] eqn:Hl; [discriminate|].
  injection H as <- <-.
  pose proof (ok_tables Hok _ (get_table_Ok _ _ Hg)) as H0.
  destruct (@insert_value_lists_prefix (ins_columns stmt) (ins_values stmt)
              table 0 t1 e1 H0 Hl) as (k & Hk & E).
  destruct k as [|k].
  - left. cbn in E. injection E as <-. now apply put_table_same.
  - right. exists (S k). split; [lia|]. rewrite E. cbn [bind].
    do 3 f_equal.
Qed.

Lemma execute_update_failing db stmt db' e :
  db_ok db -> execute_update db stmt = (db', Raise e) ->
  db' = db \/
  exists table k m table',
    Database.get_table db (upd_table_name stmt) = Ok table /\
    (0 < k < length (Table_scan table))%nat /\
    update_rows table (Py.lower (upd_table_name stmt)) stmt
                (firstn k (Table_scan table)) 0 = (table', Ok m) /\
    db' = Database.put_table db (upd_table_name stmt) table'.
Proof.
  intros Hok H. unfold execute_update in *.
  destruct (Database.get_table db (upd_table_name stmt)) as [table|e1] eqn:Hg;
    [|left; congruence].
  destruct (update_rows table (Py.lower (upd_table_name stmt)) stmt
                        (Table_scan table) 0) as [t1 [n|e1]] eqn:Hl;
    [discriminate|].
  injection H as <- <-.
  pose proof (ok_tables Hok _ (get_table_Ok _ _ Hg)) as H0.
  destruct (@update_rows_prefix (Py.lower (upd_table_name stmt)) stmt
              (Table_scan table) table 0 t1 e1 H0 Hl) as (k & m & Hk & E).
  destruct k as [|k].
  - left. cbn in E. injection E as <- _. now apply put_table_same.
  - right. exists table, (S k), m, t1. repeat apply conj; try lia; auto.
Qed.

(** C1 (as amended).  On a database whose tables satisfy the storage
    invariant, a statement that raises leaves the database as it was,
    except for a multi-row INSERT or UPDATE: after a failing INSERT the
    database is the one a successful INSERT of the value lists before the
    failing one produces, and after a failing UPDATE the table is the one
    the UPDATE loop produces on the rows before the failing one. *)
Theorem failing_statement_state db stmt db' e :
  db_ok db -> execute db stmt = (db', Raise e) ->
  match stmt with
  | Insert i =>
      db' = db \/
      exists k, (0 < k < length (ins_values i))%nat /\
                execute db (Insert (first_lists i k))
                = (db', Ok (mkQueryResult [] [] (Z.of_nat k)))
  | Update u =>
      db' = db \/
      exists table k m table',
        Database.get_table db (upd_table_name u) = Ok table /\
        (0 < k < length (Table_scan table))%nat /\
        update_rows table (Py.lower (upd_table_name u)) u
                    (firstn k (Table_scan table)) 0 = (table', Ok m) /\
        db' = Database.put_table db (upd_table_name u) table'
  | _ => db' = db
  end.
Proof.
  intros Hok H. destruct stmt as [c|d|i|q|u|d]; cbn [execute] in H.
  - unfold execute_create_table in H.
    destruct (ct_if_not_exists c && Database.has_table db (ct_table_name c));
      [discriminate|].
    destruct (cols <- convert_columns (ct_columns c) ;;
              TableSchema_init (ct_table_name c) cols) as [s|e1];
      [|congruence].
    unfold Database.create_table in H.
    destruct (Catalog_create_table (Database.catalog db) s);
      [discriminate|congruence].
  - unfold execute_drop_table in H.
    destruct (dt_if_exists d && negb (Database.has_table db (dt_table_name d)));
      [discriminate|].
    unfold Database.drop_table, Catalog_drop_table in H.
    destruct (Dict.contains String.eqb (Database.catalog db)
                (Py.lower (dt_table_name d))) eqn:Hc; [|congruence].
    now rewrite (ok_catalog Hok _ Hc) in H.
  - eapply execute_insert_failing; eassumption.
  - congruence.
  - eapply execute_update_failing; eassumption.
  - unfold execute_delete in H.
    destruct (Database.get_table db (del_table_name d)) as [table|e1] eqn:Hg;
      [|congruence].
    destruct (filter_rows _ (Table_scan table)) as [doomed|e1]; [|congruence].
    pose proof (ok_tables Hok _ (get_table_Ok _ _ Hg)) as H0.
    pose proof (delete_rows_returns (map row_id doomed) H0) as Hd.
    destruct (delete_rows table (map row_id doomed)) as [t1 r].
    cbn [snd] in Hd. subst r. discriminate.
Qed.

(** A failing INSERT of a single value list changes nothing. *)
Lemma single_row_insert_atomic db stmt db' e :
  db_ok db -> length (ins_values stmt) = 1%nat ->
  execute db (Insert stmt) = (db', Raise e) -> db' = db.
Proof.
  intros Hok Hlen H. cbn [execute] in H.
  destruct (@execute_insert_failing db stmt db' e Hok H) as [E|(k & Hk & _)];
    [assumption|lia].
Qed.

(** *** The rows of a database hold every column *)

Definition db_rows_ok (db : Database.t) : Prop :=
  forall k table,
    Dict.get String.eqb (Database._tables db) k = Some table -> rows_ok table.

Lemma rows_ok_insert_value_lists columns value_lists :
  forall table n, Inv0 table -> rows_ok table ->
    rows_ok (fst (insert_value_lists table columns value_lists n)).
Proof.
  induction value_lists as [|vl rest IH]; intros table n H0 Hr; cbn;
    [assumption|].
  destruct (negb _); [assumption|].
  destruct (insert_row_data _ vl []) as [rd|e1]; [|assumption].
  pose proof (Inv0_Table_insert rd H0) as H1.
  pose proof (rows_ok_step py (OpInsert rd) H0 Hr) as H2. cbn [step] in H2.
  destruct (Table_insert py table rd) as [t1 [r|e1]]; cbn [fst] in *; auto.
Qed.

Lemma rows_ok_update_rows prefix stmt snapshot :
  forall table n, Inv0 table -> rows_ok table ->
    rows_ok (fst (update_rows table prefix stmt snapshot n)).
Proof.
  induction snapshot as [|row rest IH]; intros table n H0 Hr; cbn;
    [assumption|].
  destruct (match upd_where stmt with None => _ | Some _ => _ end)
    as [[|]|e1]; auto.
  destruct (update_values _ _ _ _) as [u|e1]; [|assumption].
  pose proof (Inv0_Table_update (row_id row) u H0) as H1.
  pose proof (rows_ok_step py (OpUpdate (row_id row) u) H0 Hr) as H2.
  cbn [step] in H2.
  destruct (Table_update py table (row_id row) u) as [t1 [r|e1]];
    cbn [fst] in *; auto.
Qed.

Lemma rows_ok_delete_rows to_delete :
  forall table, Inv0 table -> rows_ok table ->
    rows_ok (fst (delete_rows table to_delete)).
Proof.
  induction to_delete as [|rid rest IH]; intros table H0 Hr; cbn; [assumption|].
  pose proof (Inv0_Table_delete rid H0) as H1.
  pose proof (rows_ok_step py (OpDelete rid) H0 Hr) as H2. cbn [step] in H2.
  destruct (Table_delete table rid) as [t1 [r|e1]]; cbn [fst] in *; auto.
Qed.

Lemma db_rows_ok_empty : db_rows_ok Database.empty.
Proof. intros k table H. discriminate H. Qed.

Lemma db_rows_ok_put_table db name table :
  db_rows_ok db -> rows_ok table ->
  db_rows_ok (Database.put_table db name table).
Proof.
  intros Hd Hr k table'. cbn [Database.put_table Database._tables].
  destruct (string_dec (Py.lower name) k) as [<-|Hne].
  - rewrite (Dict.get_set_same String.eqb String.eqb_eq). now intros [= <-].
  - rewrite (Dict.get_set_other String.eqb String.eqb_eq); eauto.
Qed.

Lemma db_rows_ok_execute db stmt :
  db_ok db -> db_rows_ok db -> db_rows_ok (fst (execute db stmt)).
Proof.
  intros Hok Hd. destruct stmt as [c|d|i|q|u|d]; cbn [execute].
  - unfold execute_create_table.
    destruct (ct_if_not_exists c && Database.has_table db (ct_table_name c));
      [assumption|].
    destruct (cols <- convert_columns (ct_columns c) ;;
              TableSchema_init (ct_table_name c) cols) as [s|e1];
      [|assumption].
    unfold Database.create_table, Catalog_create_table.
    destruct (Dict.contains String.eqb (Database.catalog db)
                (Py.lower (table_name s))) eqn:Hc; [assumption|].
    cbn. intros k table'. cbn [Database._tables].
    destruct (string_dec (Py.lower (table_name s)) k) as [<-|Hne].
    + rewrite (Dict.get_set_same String.eqb String.eqb_eq).
      intros [= <-]. apply rows_ok_init.
    + rewrite (Dict.get_set_other String.eqb String.eqb_eq); eauto.
  - unfold execute_drop_table.
    destruct (dt_if_exists d && negb (Database.has_table db (dt_table_name d)));
      [assumption|].
    unfold Database.drop_table, Catalog_drop_table.
    destruct (Dict.contains String.eqb (Database.catalog db)
                (Py.lower (dt_table_name d))) eqn:Hc; [|assumption].
    rewrite (ok_catalog Hok _ Hc). cbn. intros k table'. cbn [Database._tables].
    destruct (string_dec (Py.lower (dt_table_name d)) k) as [<-|Hne].
    + now rewrite (Dict.get_remove_same String.eqb).
    + rewrite (Dict.get_remove_other String.eqb String.eqb_eq); eauto.
  - unfold execute_insert.
    destruct (Database.get_table db (ins_table_name i)) as [table|e1] eqn:Hg;
      [|assumption].
    pose proof (ok_tables Hok _ (get_table_Ok _ _ Hg)) as H0.
    pose proof (@rows_ok_insert_value_lists (ins_columns i) (ins_values i)
                  table 0 H0 (Hd _ _ (get_table_Ok _ _ Hg))) as H1.
    destruct (insert_value_lists _ _ _ _) as [t1 r]. cbn [fst] in *.
    now apply db_rows_ok_put_table.
  - assumption.
  - unfold execute_update.
    destruct (Database.get_table db (upd_table_name u)) as [table|e1] eqn:Hg;
      [|assumption].
    pose proof (ok_tables Hok _ (get_table_Ok _ _ Hg)) as H0.
    pose proof (@rows_ok_update_rows (Py.lower (upd_table_name u)) u
                  (Table_scan table) table 0 H0
                  (Hd _ _ (get_table_Ok _ _ Hg))) as H1.
    destruct (update_rows _ _ _ _ _) as [t1 r]. cbn [fst] in *.
    now apply db_rows_ok_put_table.
  - unfold execute_delete.
    destruct (Database.get_table db (del_table_name d)) as [table|e1] eqn:Hg;
      [|assumption].
    destruct (filter_rows _ (Table_scan table)) as [doomed|e1]; [|assumption].
    pose proof (ok_tables Hok _ (get_table_Ok _ _ Hg)) as H0.
    pose proof (@rows_ok_delete_rows (map row_id doomed) table H0
                  (Hd _ _ (get_table_Ok _ _ Hg))) as H1.
    destruct (delete_rows _ _) as [t1 r]. cbn [fst] in *.
    now apply db_rows_ok_put_table.
Qed.

(** *** ORDER BY *)

(** A comparison function is consistent when swapping the arguments negates
    the result and "not after" is transitive, strictly so when one of the
    steps is strict. *)
Definition consistent {A : Type} (cmp : A -> A -> result Z) : Prop :=
  (forall a b n, cmp a b = Ok n -> cmp b a = Ok (- n)) /\
  (forall a b c n1 n2 n3,
      cmp a b = Ok n1 -> cmp b c = Ok n2 -> cmp a c = Ok n3 ->
      n1 <= 0 -> n2 <= 0 -> n3 <= 0 /\ (n1 < 0 \/ n2 < 0 -> n3 < 0)).

(** [a] is not after [b]; [a] and [b] are tied. *)
Definition not_after {A : Type} (cmp : A -> A -> result Z) (a b : A) : Prop :=
  exists n, cmp a b = Ok n /\ n <= 0.

Definition tied {A : Type} (cmp : A -> A -> result Z) (a b : A) : bool :=
  match cmp a b with
  | Ok n => n =? 0
  | Raise _ => false
  end.

(** The same of the elements that satisfy [P] only. *)
Definition consistent_on {A : Type} (P : A -> Prop)
           (cmp : A -> A -> result Z) : Prop :=
  (forall a b n, P a -> P b -> cmp a b = Ok n -> cmp b a = Ok (- n)) /\
  (forall a b c n1 n2 n3,
      P a -> P b -> P c ->
      cmp a b = Ok n1 -> cmp b c = Ok n2 -> cmp a c = Ok n3 ->
      n1 <= 0 -> n2 <= 0 -> n3 <= 0 /\ (n1 < 0 \/ n2 < 0 -> n3 < 0)).

Section StableSortOn.
Variable A : Type.
Variable cmp : A -> A -> result Z.
Variable P : A -> Prop.
Hypothesis cmp_consistent : consistent_on P cmp.

Lemma tied_trans_on a b c n :
  P a -> P b -> P c ->
  cmp a b = Ok 0 -> cmp b c = Ok 0 -> cmp a c = Ok n -> n = 0.
Proof.
  destruct cmp_consistent as [Hopp Htrans]. intros Pa Pb Pc H1 H2 H3.
  destruct (Htrans _ _ _ _ _ _ Pa Pb Pc H1 H2 H3) as [Hle _]; try lia.
  pose proof (Hopp _ _ _ Pa Pb H1) as H1'.
  pose proof (Hopp _ _ _ Pb Pc H2) as H2'.
  pose proof (Hopp _ _ _ Pa Pc H3) as H3'.
  destruct (Htrans _ _ _ _ _ _ Pc Pb Pa H2' H1' H3') as [Hge _]; lia.
Qed.

(** Inserting [x] in front of a sorted list whose rows come after it in the
    input: [x] goes behind the rows that are strictly before it. *)
Lemma insert_sorted_spec_on x :
  P x ->
  forall s,
    Forall P s ->
    (forall y, In y s -> exists n, cmp y x = Ok n) ->
    StronglySorted (not_after cmp) s ->
    exists ys zs,
      insert_sorted cmp x s = Ok (ys ++ x :: zs)%list /\ s = (ys ++ zs)%list /\
      Forall (fun y => exists n, cmp y x = Ok n /\ n < 0) ys /\
      StronglySorted (not_after cmp) (ys ++ x :: zs)%list.
Proof.
  destruct cmp_consistent as [Hopp Htrans]. intros Px.
  induction s as [|y s IH]; intros HP Hdef Hs.
  - exists [], []. cbn. repeat split; auto. repeat constructor.
  - cbn [insert_sorted]. destruct (Hdef y (or_introl eq_refl)) as [n Hn].
    rewrite Hn. cbn [bind]. inversion Hs as [|? ? Hs' Hy]; subst.
    inversion HP as [|? ? Py HP']; subst.
    destruct (n <? 0) eqn:E.
    + apply Z.ltb_lt in E.
      destruct (IH HP' (fun z Hz => Hdef z (or_intror Hz)) Hs')
        as (ys & zs & -> & -> & Hys & Hsorted).
      exists (y :: ys), zs. cbn [bind app]. repeat split; auto.
      * constructor; eauto.
      * constructor; [assumption|].
        apply Forall_app. apply Forall_app in Hy. destruct Hy as [Hy1 Hy2].
        split; [assumption|]. constructor; [|assumption].
        exists n. split; [assumption|lia].
    + apply Z.ltb_ge in E. exists [], (y :: s). cbn [app].
      repeat split; auto. constructor; [assumption|].
      assert (Hxy : not_after cmp x y).
      { exists (- n). split; [now apply Hopp|lia]. }
      constructor; [assumption|].
      rewrite Forall_forall in *. intros z Hz.
      destruct Hxy as (n1 & H1 & Hn1). destruct (Hy z Hz) as (n2 & H2 & Hn2).
      destruct (Hdef z (or_intror Hz)) as [n3 H3].
      apply Hopp in H3; auto. exists (- n3). split; [assumption|].
      now destruct (Htrans _ _ _ _ _ _ Px Py (HP' z Hz) H1 H2 H3 Hn1 Hn2).
Qed.

(** [sorted] returns the stable sorted arrangement of a list whose rows all
    compare. *)
Lemma sorted_spec_on :
  forall l,
    Forall P l ->
    (forall a b, In a l -> In b l -> exists n, cmp a b = Ok n) ->
    exists out,
      sorted cmp l = Ok out /\ Permutation l out /\
      StronglySorted (not_after cmp) out /\
      forall w, P w -> filter (tied cmp w) out = filter (tied cmp w) l.
Proof.
  destruct cmp_consistent as [Hopp Htrans].
  induction l as [|x l IH]; intros HP Hdef.
  - exists []. cbn. repeat split; auto. constructor.
  - inversion HP as [|? ? Px HP']; subst.
    destruct IH as (s & Hs & Hperm & Hsorted & Hstable); [assumption| |].
    { intros a b Ha Hb. apply Hdef; now right. }
    assert (HPs : Forall P s).
    { rewrite Forall_forall in *. intros y Hy. apply HP'.
      apply Permutation_sym in Hperm. now apply (Permutation_in _ Hperm). }
    cbn [sorted]. rewrite Hs. cbn [bind].
    destruct (@insert_sorted_spec_on x Px s HPs)
      as (ys & zs & -> & -> & Hys & Hout); [|assumption|].
    { intros y Hy. apply Hdef; [right|now left].
      apply Permutation_sym in Hperm. now apply (Permutation_in _ Hperm). }
    exists (ys ++ x :: zs)%list. repeat split; auto.
    + apply Permutation_cons_app. assumption.
    + intros w Pw. cbn [filter]. rewrite <- (Hstable w Pw).
      rewrite !filter_app. cbn [filter].
      destruct (tied cmp w x) eqn:Ew; [|reflexivity].
      assert (E : filter (tied cmp w) ys = []).
      { apply Forall_app in HPs. destruct HPs as [HPys _].
        clear - Hys Ew Hopp HPys Px Pw cmp_consistent.
        induction ys as [|y ys IH]; [reflexivity|].
        inversion Hys as [|? ? (n & Hn & Hlt) Hys']; subst.
        inversion HPys as [|? ? Py HPys']; subst. cbn [filter].
        destruct (tied cmp w y) eqn:Ey; [exfalso|auto].
        unfold tied in Ew, Ey.
        destruct (cmp w x) as [nx|] eqn:Hwx; [|discriminate].
        destruct (cmp w y) as [ny|] eqn:Hwy; [|discriminate].
        apply Z.eqb_eq in Ew, Ey. subst nx ny.
        apply Hopp in Hwy; auto. cbn in Hwy.
        pose proof (tied_trans_on Py Pw Px Hwy Hwx Hn). lia. }
      now rewrite E.
Qed.

End StableSortOn.

Section StableSort.
Variable A : Type.
Variable cmp : A -> A -> result Z.
Hypothesis cmp_consistent : consistent cmp.

Lemma consistent_on_all : consistent_on (fun _ => True) cmp.
Proof.
  destruct cmp_consistent as [Hopp Htrans]. split.
  - intros a b n _ _. apply Hopp.
  - intros a b c n1 n2 n3 _ _ _. apply Htrans.
Qed.

Lemma tied_trans a b c n :
  cmp a b = Ok 0 -> cmp b c = Ok 0 -> cmp a c = Ok n -> n = 0.
Proof. now apply (tied_trans_on consistent_on_all). Qed.

(** [sorted] returns the stable sorted arrangement of a list whose rows all
    compare. *)
Lemma sorted_spec :
  forall l,
    (forall a b, In a l -> In b l -> exists n, cmp a b = Ok n) ->
    exists out,
      sorted cmp l = Ok out /\ Permutation l out /\
      StronglySorted (not_after cmp) out /\
      forall w, filter (tied cmp w) out = filter (tied cmp w) l.
Proof.
  intros l Hdef.
  destruct (sorted_spec_on consistent_on_all (l := l))
    as (out & H1 & H2 & H3 & H4); [|assumption|].
  { apply Forall_forall. auto. }
  exists out. repeat split; auto.
Qed.

End StableSort.

(** Sorting the images of a list under [f] is sorting the list by the
    comparison of the images. *)
Lemma insert_sorted_map {A B : Type} (f : A -> B) (cmp : B -> B -> result Z)
      x :
  forall l,
    insert_sorted cmp (f x) (map f l)
    = (r <- insert_sorted (fun a b => cmp (f a) (f b)) x l ;; Ok (map f r)).
Proof.
  induction l as [|y l IH]; cbn [map insert_sorted]; [reflexivity|].
  destruct (cmp (f y) (f x)) as [c|e]; [|reflexivity]. cbn [bind].
  destruct (c <? 0); [|reflexivity]. rewrite IH.
  now destruct (insert_sorted _ x l).
Qed.

Lemma sorted_map {A B : Type} (f : A -> B) (cmp : B -> B -> result Z) :
  forall l,
    sorted cmp (map f l)
    = (r <- sorted (fun a b => cmp (f a) (f b)) l ;; Ok (map f r)).
Proof.
  induction l as [|x l IH]; cbn [map sorted]; [reflexivity|].
  rewrite IH. destruct (sorted _ l) as [s|e]; [|reflexivity].
  cbn [bind]. apply insert_sorted_map.
Qed.

(** [sorted] asks of the comparison only what it answers. *)
Lemma sorted_ext {A : Type} (cmp cmp' : A -> A -> result Z) :
  (forall a b, cmp a b = cmp' a b) ->
  forall l, sorted cmp l = sorted cmp' l.
Proof.
  intros H. induction l as [|x l IH]; cbn [sorted]; [reflexivity|].
  rewrite IH. destruct (sorted cmp' l) as [s|e]; [|reflexivity].
  cbn [bind]. clear IH. induction s as [|y s IH]; cbn [insert_sorted];
    [reflexivity|].
  rewrite H, IH. reflexivity.
Qed.

(** One round of the loop of [compare_keys]: the null orders, then
    [compare_values] in the direction of the item. *)
Definition key_cmp (direction : OrderDirection) (a b : Z * value)
  : result Z :=
  if negb (fst a =? fst b) then Ok (fst a - fst b)
  else c <- compare_values (snd a) (snd b) ;;
       Ok (match direction with ASC => c | DESC => - c end).

Lemma compare_keys_cons item items a a' b b' :
  compare_keys (item :: items) (a :: a') (b :: b')
  = (c <- key_cmp (ob_direction item) a b ;;
     if c =? 0 then compare_keys items a' b' else Ok c).
Proof.
  destruct a as [na va], b as [nb vb]. unfold key_cmp.
  cbn [compare_keys fst snd tl].
  destruct (na =? nb) eqn:E; cbn [negb bind].
  - destruct (Py.is_none va && Py.is_none vb) eqn:En.
    + apply andb_prop in En. destruct En as [Ha Hb].
      destruct va; try discriminate. destruct vb; try discriminate.
      cbn. now destruct (ob_direction item).
    + destruct (compare_values va vb) as [c|e]; [|reflexivity]. cbn [bind].
      destruct (ob_direction item); cbn.
      * now destruct (c =? 0).
      * destruct (c =? 0) eqn:Ec.
        -- apply Z.eqb_eq in Ec. subst c. reflexivity.
        -- cbn. apply Z.eqb_neq in Ec.
           destruct (- c =? 0) eqn:Ec'; [|reflexivity].
           apply Z.eqb_eq in Ec'. lia.
  - apply Z.eqb_neq in E. destruct (na - nb =? 0) eqn:E'; [|reflexivity].
    apply Z.eqb_eq in E'. lia.
Qed.

Lemma key_cmp_consistent direction : consistent (key_cmp direction).
Proof.
  split.
  - intros [na va] [nb vb] n. unfold key_cmp. cbn [fst snd].
    rewrite (Z.eqb_sym nb na). destruct (na =? nb); cbn [negb].
    + destruct (compare_values va vb) as [c|e] eqn:Hc; [|discriminate].
      cbn [bind]. intros H. apply Ok_inj in H. subst n.
      rewrite (compare_values_opp _ _ Hc). cbn [bind]. f_equal.
      destruct direction; lia.
    + intros H. apply Ok_inj in H. subst n. f_equal. lia.
  - intros [na va] [nb vb] [nc vc] n1 n2 n3. unfold key_cmp. cbn [fst snd].
    destruct (na =? nb) eqn:Eab, (nb =? nc) eqn:Ebc, (na =? nc) eqn:Eac;
      cbn [negb];
      repeat match goal with
        | H : (_ =? _) = true |- _ => apply Z.eqb_eq in H
        | H : (_ =? _) = false |- _ => apply Z.eqb_neq in H
        end;
      try (intros H1 H2 H3; try (exfalso; lia);
           repeat match goal with
             | H : Ok _ = Ok _ |- _ => apply Ok_inj in H
             end; lia).
    destruct (compare_values va vb) as [c1|] eqn:H1; [|discriminate].
    destruct (compare_values vb vc) as [c2|] eqn:H2; [|discriminate].
    destruct (compare_values va vc) as [c3|] eqn:H3; [|discriminate].
    cbn [bind]. intros E1 E2 E3. apply Ok_inj in E1, E2, E3. subst n1 n2 n3.
    destruct direction.
    + now apply (compare_values_trans _ _ _ H1 H2 H3).
    + intros Hn1 Hn2.
      apply compare_values_opp in H1, H2, H3.
      destruct (compare_values_trans _ _ _ H2 H1 H3); lia.
Qed.

Lemma compare_keys_opp :
  forall order_by a b n,
    length a = length order_by -> length b = length order_by ->
    compare_keys order_by a b = Ok n -> compare_keys order_by b a = Ok (- n).
Proof.
  induction order_by as [|item items IH]; intros a b n Ha Hb H.
  - destruct a, b; try discriminate. cbn in *. apply Ok_inj in H. now subst n.
  - destruct a as [|ka a], b as [|kb b]; try discriminate.
    rewrite compare_keys_cons in *.
    destruct (key_cmp (ob_direction item) ka kb) as [c|e] eqn:Hc;
      [|discriminate].
    rewrite (proj1 (key_cmp_consistent (ob_direction item)) _ _ _ Hc).
    cbn [bind] in *. destruct (c =? 0) eqn:E.
    + apply Z.eqb_eq in E. subst c. cbn. apply IH; auto.
    + apply Z.eqb_neq in E. apply Ok_inj in H. subst n.
      destruct (- c =? 0) eqn:E'; [|reflexivity].
      apply Z.eqb_eq in E'. lia.
Qed.

Lemma compare_keys_trans :
  forall order_by a b c n1 n2 n3,
    length a = length order_by -> length b = length order_by ->
    length c = length order_by ->
    compare_keys order_by a b = Ok n1 -> compare_keys order_by b c = Ok n2 ->
    compare_keys order_by a c = Ok n3 ->
    n1 <= 0 -> n2 <= 0 -> n3 <= 0 /\ (n1 < 0 \/ n2 < 0 -> n3 < 0).
Proof.
  induction order_by as [|item items IH]; intros a b c n1 n2 n3 Ha Hb Hc.
  - destruct a, b, c; try discriminate. cbn. intros H1 H2 H3.
    apply Ok_inj in H1, H2, H3. lia.
  - destruct a as [|ka a], b as [|kb b], c as [|kc c]; try discriminate.
    rewrite !compare_keys_cons.
    destruct (key_cmp (ob_direction item) ka kb) as [c1|] eqn:E1;
      [|discriminate].
    destruct (key_cmp (ob_direction item) kb kc) as [c2|] eqn:E2;
      [|discriminate].
    destruct (key_cmp (ob_direction item) ka kc) as [c3|] eqn:E3;
      [|discriminate].
    cbn [bind]. pose proof (key_cmp_consistent (ob_direction item)) as Hk.
    pose proof (proj2 Hk _ _ _ _ _ _ E1 E2 E3) as Ht.
    destruct (c1 =? 0) eqn:Z1, (c2 =? 0) eqn:Z2;
      repeat match goal with
        | H : (_ =? _) = true |- _ => apply Z.eqb_eq in H
        | H : (_ =? _) = false |- _ => apply Z.eqb_neq in H
        end.
    + subst c1 c2. rewrite (@tied_trans _ _ Hk _ _ _ _ E1 E2 E3). cbn.
      apply IH; auto.
    + subst c1. intros H1 H2 H3 Hn1 Hn2. apply Ok_inj in H2. subst n2.
      destruct Ht as [Ht1 Ht2]; try lia.
      assert (c3 < 0) by (apply Ht2; lia).
      destruct (c3 =? 0) eqn:Z3; [apply Z.eqb_eq in Z3; lia|].
      apply Ok_inj in H3. lia.
    + subst c2. intros H1 H2 H3 Hn1 Hn2. apply Ok_inj in H1. subst n1.
      destruct Ht as [Ht1 Ht2]; try lia.
      assert (c3 < 0) by (apply Ht2; lia).
      destruct (c3 =? 0) eqn:Z3; [apply Z.eqb_eq in Z3; lia|].
      apply Ok_inj in H3. lia.
    + intros H1 H2 H3 Hn1 Hn2. apply Ok_inj in H1, H2. subst n1 n2.
      destruct Ht as [Ht1 Ht2]; try lia.
      assert (c3 < 0) by (apply Ht2; lia).
      destruct (c3 =? 0) eqn:Z3; [apply Z.eqb_eq in Z3; lia|].
      apply Ok_inj in H3. lia.
Qed.

Lemma sort_key_length ctx :
  forall order_by row k,
    sort_key ctx order_by row = Ok k -> length k = length order_by.
Proof.
  induction order_by as [|item items IH]; intros row k H; cbn in H.
  - apply Ok_inj in H. now subst k.
  - destruct (resolve_column ctx _ _ row); [|discriminate]. cbn [bind] in H.
    destruct (sort_key ctx items row) as [rest|] eqn:E; [|discriminate].
    cbn [bind] in H. apply Ok_inj in H. subst k. cbn. f_equal. eauto.
Qed.

Lemma compare_rows_consistent ctx order_by :
  consistent (compare_rows ctx order_by).
Proof.
  split.
  - intros a b n. unfold compare_rows.
    destruct (sort_key ctx order_by (bindings a)) as [ka|] eqn:Ea;
      [|discriminate].
    destruct (sort_key ctx order_by (bindings b)) as [kb|] eqn:Eb;
      [|discriminate].
    cbn [bind]. apply compare_keys_opp; eapply sort_key_length; eauto.
  - intros a b c n1 n2 n3. unfold compare_rows.
    destruct (sort_key ctx order_by (bindings a)) as [ka|] eqn:Ea;
      [|discriminate].
    destruct (sort_key ctx order_by (bindings b)) as [kb|] eqn:Eb;
      [|discriminate].
    destruct (sort_key ctx order_by (bindings c)) as [kc|] eqn:Ec;
      [|discriminate].
    cbn [bind]. apply compare_keys_trans; eapply sort_key_length; eauto.
Qed.


(** When the rows compare with one another, [_apply_order_by] returns them
    rearranged so that no row is after a later one, and rows that tie on
    every key are in their input order. *)
Lemma _apply_order_by_spec ctx order_by rows :
  (forall a b, In a rows -> In b rows ->
               exists n, compare_rows ctx order_by a b = Ok n) ->
  exists out,
    _apply_order_by ctx order_by rows = Ok out /\
    Permutation rows out /\
    StronglySorted (not_after (compare_rows ctx order_by)) out /\
    forall w, filter (tied (compare_rows ctx order_by) w) out
              = filter (tied (compare_rows ctx order_by) w) rows.
Proof.
  intros H. unfold _apply_order_by.
  apply sorted_spec; [apply compare_rows_consistent|assumption].
Qed.

(** *** NULL in conditions *)

(** The operators that compare: all but AND and OR. *)
Definition comparison (op : BinaryOp) : bool :=
  match op with
  | AND | OR => false
  | _ => true
  end.

Lemma dotted_inj prefix a b : dotted prefix a = dotted prefix b -> a = b.
Proof.
  unfold dotted. induction prefix as [|ch prefix IH]; cbn.
  - now intros [= ->].
  - intros [= H]. auto.
Qed.

Lemma get_absent {V : Type} (d : Dict.t string V) k :
  ~ In k (Dict.keys d) -> Dict.get String.eqb d k = None.
Proof.
  intros H. destruct (Dict.get String.eqb d k) eqn:E; [|reflexivity].
  exfalso. apply H. apply (Dict.contains_In_keys String.eqb String.eqb_eq).
  unfold Dict.contains. now rewrite E.
Qed.

Lemma prefixed_fold prefix k :
  forall (d acc : Dict.t string value),
    NoDup (Dict.keys d) ->
    Dict.get String.eqb
      (fold_left (fun a kv => Dict.set String.eqb a (dotted prefix (fst kv))
                                       (snd kv)) d acc)
      (dotted prefix k)
    = match Dict.get String.eqb d k with
      | Some v => Some v
      | None => Dict.get String.eqb acc (dotted prefix k)
      end.
Proof.
  induction d as [|[k0 v0] d IH]; intros acc Hnd; cbn [fold_left];
    [reflexivity|].
  inversion Hnd as [|? ? Hk0 Hnd']; subst.
  rewrite IH by assumption. cbn [fst snd Dict.get].
  destruct (String.eqb_spec k k0) as [->|Hne].
  - rewrite (@get_absent _ d k0 Hk0).
    now rewrite (Dict.get_set_same String.eqb String.eqb_eq).
  - destruct (Dict.get String.eqb d k); [reflexivity|].
    rewrite (Dict.get_set_other String.eqb String.eqb_eq); [reflexivity|].
    intros E. apply dotted_inj in E. congruence.
Qed.

Lemma prefixed_get prefix row k :
  NoDup (Dict.keys (data row)) ->
  Dict.get String.eqb (prefixed prefix row) (dotted prefix k)
  = Dict.get String.eqb (data row) k.
Proof.
  intros Hnd. unfold prefixed. rewrite prefixed_fold by assumption.
  now destruct (Dict.get String.eqb (data row) k).
Qed.

(** An unqualified reference to a column of the only table of the context
    resolves to the cell of the row. *)
Lemma resolve_own_column prefix table row c col :
  row_ok (schema table) row -> In col (Schema.columns (schema table)) ->
  Py.lower c = Py.lower (name col) ->
  resolve_column [(prefix, table)] c None (prefixed prefix row)
  = Ok (cell row (Py.lower c)).
Proof.
  intros [Hnd Hall] Hin Hc. unfold resolve_column. cbn [nonempty Dict.keys map fst
    filter]. unfold Dict.contains, cell, data_get.
  rewrite (prefixed_get prefix row (Py.lower c) Hnd).
  specialize (Hall col Hin). unfold Dict.contains in Hall. rewrite <- Hc in Hall.
  destruct (Dict.get String.eqb (data row) (Py.lower c)) as [v|] eqn:E;
    [|discriminate].
  now rewrite (prefixed_get prefix row (Py.lower c) Hnd), E.
Qed.

Lemma filter_rows_pure {A : Type} (keep : A -> result bool) (f : A -> bool) :
  forall l, (forall a, In a l -> keep a = Ok (f a)) ->
            filter_rows keep l = Ok (filter f l).
Proof.
  induction l as [|a l IH]; intros H; cbn; [reflexivity|].
  rewrite (H a) by now left. cbn [bind].
  rewrite IH by (intros b Hb; apply H; now right). cbn [bind].
  now destruct (f a).
Qed.

Lemma filter_rows_map {A B : Type} (keep : B -> result bool) (g : A -> B)
      (f : A -> bool) :
  forall l, (forall a, In a l -> keep (g a) = Ok (f a)) ->
            filter_rows keep (map g l) = Ok (map g (filter f l)).
Proof.
  induction l as [|a l IH]; intros H; cbn; [reflexivity|].
  rewrite (H a) by now left. cbn [bind].
  rewrite IH by (intros b Hb; apply H; now right). cbn [bind].
  now destruct (f a).
Qed.

Lemma select_after_where_nil ctx stmt :
  select_after_where ctx stmt []
  = (names <- result_columns ctx (sel_columns stmt) ;;
     Ok (mkQueryResult names [] 0)).
Proof.
  unfold select_after_where.
  assert (E : match sel_order_by stmt with
              | [] => Ok []
              | i :: l => _apply_order_by ctx (i :: l) []
              end = Ok (@nil WorkRow)) by now destruct (sel_order_by stmt).
  rewrite E. cbn [bind].
  assert (E1 : match sel_offset stmt with
               | Some o => if o =? 0 then [] else slice_from [] o
               | None => @nil WorkRow
               end = []).
  { destruct (sel_offset stmt) as [o|]; [|reflexivity].
    destruct (o =? 0); [reflexivity|]. unfold slice_from.
    destruct (o <? 0); apply skipn_nil. }
  rewrite E1.
  assert (E2 : match sel_limit stmt with
               | Some l => slice_to [] l
               | None => @nil WorkRow
               end = []).
  { destruct (sel_limit stmt) as [l|]; [|reflexivity]. unfold slice_to.
    destruct (l <? 0); apply firstn_nil. }
  rewrite E2. unfold _project_columns.
  destruct (result_columns ctx (sel_columns stmt)); reflexivity.
Qed.

(** A comparison with a null operand is null, and AND and OR with a null
    operand are false, respectively true, when the other operand is, and
    null otherwise. *)
Lemma null_operand op v :
  comparison op = true ->
  _apply_binary_op op VNull v = Ok VNull /\
  _apply_binary_op op v VNull = Ok VNull.
Proof.
  intros Hop. destruct op; try discriminate Hop; cbn;
    (split; [reflexivity|]); now destruct (Py.is_none v).
Qed.

Lemma null_and_or v :
  _apply_binary_op AND v VNull
  = Ok (if is_false v then VBool false else VNull) /\
  _apply_binary_op AND VNull v
  = Ok (if is_false v then VBool false else VNull) /\
  _apply_binary_op OR v VNull
  = Ok (if is_true v then VBool true else VNull) /\
  _apply_binary_op OR VNull v
  = Ok (if is_true v then VBool true else VNull).
Proof.
  cbn. rewrite !orb_false_r, !orb_true_r.
  repeat split; destruct (is_false v), (is_true v); reflexivity.
Qed.

(** On a table whose rows hold every column, the WHERE clause [c op NULL]
    of a comparison on a column [c] keeps no row, and [c IS NULL] keeps the
    rows whose cell in [c] is null, in table order. *)
Lemma where_null_rows db stmt table_ref table c col :
  sel_from stmt = Some table_ref ->
  Database.get_table db (tr_name table_ref) = Ok table ->
  Inv0 table -> rows_ok table ->
  In col (Schema.columns (schema table)) ->
  Py.lower c = Py.lower (name col) ->
  let prefix := Py.lower (effective_name table_ref) in
  (forall op, comparison op = true ->
     sel_where stmt = Some (BinaryExpr (ColumnRef c None) op (Literal VNull)) ->
     execute_select db stmt = select_after_where [(prefix, table)] stmt []) /\
  (sel_where stmt = Some (UnaryExpr IS_NULL (ColumnRef c None)) ->
   execute_select db stmt
   = select_after_where [(prefix, table)] stmt
       (map (work_row prefix)
            (filter (fun row => Py.is_none (cell row (Py.lower c)))
                    (Table_scan table)))).
Proof.
  intros Hfrom Hget H0 Hrows Hin Hc prefix.
  assert (Hres : forall row, In row (Table_scan table) ->
            resolve_column [(prefix, table)] c None (prefixed prefix row)
            = Ok (cell row (Py.lower c))).
  { intros row Hrow. apply resolve_own_column with col; auto.
    unfold Table_scan in Hrow. apply in_map_iff in Hrow.
    destruct Hrow as ([rid row'] & <- & Hrow).
    apply (Hrows rid). unfold live. cbn [snd].
    apply (Dict.In_get Z.eqb Z.eqb_eq); [apply (inv_keys H0)|assumption]. }
  unfold execute_select. rewrite Hfrom, Hget. cbn [bind].
  unfold _table_to_rows. fold prefix. split; [intros op Hop Hw|intros Hw];
    rewrite Hw.
  - assert (E : filter_rows
                  (fun r => _evaluate_where [(prefix, table)] (bindings r)
                              (BinaryExpr (ColumnRef c None) op (Literal VNull)))
                  (map (work_row prefix) (Table_scan table)) = Ok []).
    { rewrite (@filter_rows_pure _ _ (fun _ => false)).
      - f_equal. induction (map (work_row prefix) (Table_scan table));
          cbn; auto.
      - intros a Ha. apply in_map_iff in Ha. destruct Ha as (row & <- & Hrow).
        unfold _evaluate_where. cbn [evaluate_expr work_row bindings].
        rewrite (Hres row Hrow). cbn [bind].
        now rewrite (proj2 (@null_operand op _ Hop)). }
    now rewrite E.
  - rewrite (@filter_rows_map _ _ _ (work_row prefix)
               (fun row => Py.is_none (cell row (Py.lower c)))).
    + reflexivity.
    + intros row Hrow. unfold _evaluate_where.
      cbn [evaluate_expr work_row bindings].
      rewrite (Hres row Hrow). cbn.
      now destruct (Py.is_none (cell row (Py.lower c))).
Qed.

End WithBuiltins.
End Executor.

(** ** [_apply_order_by] over rows that may hold NaN *)

(** [_apply_order_by] asks of the values of its rows only whether they are
    [None] and how [compare_values] orders them.  Here it is over rows of
    [obj], with the names of [ctx.tables] for the context; over rows of
    values it is the [_apply_order_by] of [Executor]. *)
Module OrderBy.
Import Datatypes Ast Objects.
Local Open Scope string_scope.
Local Open Scope Z_scope.

Definition row : Type := Dict.t string obj.

(** [ExecutionContext.resolve_column] *)
Definition resolve_column (prefixes : list string) (column : string)
           (table : option string) (row_data : row) : result obj :=
  let col_name := Py.lower column in
  match nonempty table with
  | Some tbl =>
      match Dict.get String.eqb row_data
                     (Executor.dotted (Py.lower tbl) col_name) with
      | Some v => Ok v
      | None => Raise (ColumnNotFoundError column (Some tbl))
      end
  | None =>
      let matches :=
        filter (fun key => Dict.contains String.eqb row_data key)
               (map (fun prefix => Executor.dotted prefix col_name)
                    prefixes) in
      match matches with
      | [] => Raise (ColumnNotFoundError column None)
      | [key] =>
          match Dict.get String.eqb row_data key with
          | Some v => Ok v
          | None => Raise KeyError
          end
      | _ => Raise (AmbiguousColumnError column)
      end
  end.

Definition null_order (v : obj) (direction : OrderDirection) : Z :=
  match is_none v, direction with
  | true, ASC => 1
  | true, DESC => 0
  | false, ASC => 0
  | false, DESC => 1
  end.

(** [sort_key(row)] *)
Fixpoint sort_key (prefixes : list string) (order_by : list OrderByItem)
         (r : row) : result (list (Z * obj)) :=
  match order_by with
  | [] => Ok []
  | item :: items =>
      v <- resolve_column prefixes (ob_column item) (ob_table item) r ;;
      rest <- sort_key prefixes items r ;;
      Ok ((null_order v (ob_direction item), v) :: rest)
  end.

(** [compare_keys(a, b)] *)
Fixpoint compare_keys (order_by : list OrderByItem) (a b : list (Z * obj))
  : result Z :=
  match a with
  | [] => Ok 0
  | (a_null_order, a_val) :: a' =>
      match b with
      | [] => Raise IndexError
      | (b_null_order, b_val) :: b' =>
          if negb (a_null_order =? b_null_order)
          then Ok (a_null_order - b_null_order)
          else if is_none a_val && is_none b_val
          then compare_keys (tl order_by) a' b'
          else
            match order_by with
            | [] => Raise IndexError
            | item :: _ =>
                cmp <- compare_values a_val b_val ;;
                if negb (cmp =? 0)
                then Ok (match ob_direction item with
                         | ASC => cmp
                         | DESC => - cmp
                         end)
                else compare_keys (tl order_by) a' b'
            end
      end
  end.

Definition compare_rows (prefixes : list string)
           (order_by : list OrderByItem) (a b : row) : result Z :=
  ka <- sort_key prefixes order_by a ;;
  kb <- sort_key prefixes order_by b ;;
  compare_keys order_by ka kb.

(** [Executor._apply_order_by] *)
Definition _apply_order_by (prefixes : list string)
           (order_by : list OrderByItem) (rows : list row)
  : result (list row) :=
  Executor.sorted (compare_rows prefixes order_by) rows.

(** *** Rows of values *)

Definition lift_key (e : Z * value) : Z * obj := (fst e, Val (snd e)).

Definition lift (d : Dict.t string value) : row :=
  map (fun kv => (fst kv, Val (snd kv))) d.

Lemma get_lift d k :
  Dict.get String.eqb (lift d) k
  = match Dict.get String.eqb d k with
    | Some v => Some (Val v)
    | None => None
    end.
Proof.
  induction d as [|[k0 v0] d IH]; cbn; [reflexivity|].
  now destruct (String.eqb k k0).
Qed.

Lemma contains_lift d k :
  Dict.contains String.eqb (lift d) k = Dict.contains String.eqb d k.
Proof.
  unfold Dict.contains. rewrite get_lift.
  now destruct (Dict.get String.eqb d k).
Qed.

Lemma resolve_column_lift (ctx : Executor.ExecutionContext) c t d :
  resolve_column (Dict.keys ctx) c t (lift d)
  = (v <- Executor.resolve_column ctx c t d ;; Ok (Val v)).
Proof.
  unfold resolve_column, Executor.resolve_column.
  destruct (nonempty t) as [tbl|].
  - rewrite get_lift. now destruct (Dict.get String.eqb d _).
  - rewrite (filter_ext _ _ (contains_lift d)).
    destruct (filter _ _) as [|key [|key' l]]; try reflexivity.
    rewrite get_lift. now destruct (Dict.get String.eqb d key).
Qed.

Lemma sort_key_lift (ctx : Executor.ExecutionContext) order_by d :
  sort_key (Dict.keys ctx) order_by (lift d)
  = (k <- Executor.sort_key ctx order_by d ;; Ok (map lift_key k)).
Proof.
  induction order_by as [|item items IH]; cbn [sort_key Executor.sort_key];
    [reflexivity|].
  rewrite resolve_column_lift, IH.
  destruct (Executor.resolve_column ctx _ _ d) as [v|e]; [|reflexivity].
  cbn [bind]. destruct (Executor.sort_key ctx items d); reflexivity.
Qed.

Lemma compare_keys_lift :
  forall order_by ka kb,
    compare_keys order_by (map lift_key ka) (map lift_key kb)
    = Executor.compare_keys order_by ka kb.
Proof.
  intros order_by ka. revert order_by.
  induction ka as [|[na va] ka IH]; intros order_by kb; [reflexivity|].
  destruct kb as [|[nb vb] kb]; [reflexivity|].
  cbn [map lift_key fst snd compare_keys Executor.compare_keys is_none].
  rewrite compare_values_Val, !IH. reflexivity.
Qed.

(** On rows of values the comparison is that of [Executor]. *)
Lemma compare_rows_lift (ctx : Executor.ExecutionContext) order_by a b :
  compare_rows (Dict.keys ctx) order_by (lift (Executor.bindings a))
               (lift (Executor.bindings b))
  = Executor.compare_rows ctx order_by a b.
Proof.
  unfold compare_rows, Executor.compare_rows. rewrite !sort_key_lift.
  destruct (Executor.sort_key ctx order_by (Executor.bindings a));
    [|reflexivity].
  cbn [bind].
  destruct (Executor.sort_key ctx order_by (Executor.bindings b));
    [|reflexivity].
  cbn [bind]. apply compare_keys_lift.
Qed.

(** *** Rows whose sort keys hold no NaN *)










(** On rows of values [_apply_order_by] is that of [Executor]. *)
Lemma _apply_order_by_lift (ctx : Executor.ExecutionContext) order_by rows :
  _apply_order_by (Dict.keys ctx) order_by
                  (map (fun w => lift (Executor.bindings w)) rows)
  = (out <- Executor._apply_order_by ctx order_by rows ;;
     Ok (map (fun w => lift (Executor.bindings w)) out)).
Proof.
  unfold _apply_order_by, Executor._apply_order_by.
  rewrite Executor.sorted_map.
  now rewrite (Executor.sorted_ext _ _ (compare_rows_lift ctx order_by)).
Qed.

End OrderBy.

(** ** Statements run against a small database *)

Module ExecutorExamples.
Import Datatypes Schema Storage Ast Executor.
Local Open Scope string_scope.
Local Open Scope Z_scope.

Definition stub : Py.builtins := StorageExamples.stub.

(** [CREATE TABLE users (id INTEGER PRIMARY KEY, name TEXT NOT NULL)] *)
Definition create_users : Statement :=
  Create (mkCreateTableStmt "users"
            [mkColumnDef "id" "INTEGER" true false false;
             mkColumnDef "name" "TEXT" false false true]
            false).

Definition users_db : Database.t :=
  fst (execute stub Database.empty create_users).

(** [INSERT INTO users VALUES (1, 'Alice'), (1, 'Bob')] *)
Definition alice_then_clash : InsertStmt :=
  mkInsertStmt "users" None
    [[Literal (VInt 1); Literal (VText "Alice")];
     [Literal (VInt 1); Literal (VText "Bob")]].

Definition users_db_after : Database.t :=
  fst (execute stub users_db (Insert alice_then_clash)).

(** The number of rows of a table of the database. *)
Definition count_of (db : Database.t) (name : string) : result Z :=
  table <- Database.get_table db name ;; Ok (Table_count table).

Lemma users_db_ok : db_ok users_db.
Proof. apply db_ok_execute, db_ok_empty. Qed.

(** C1, as stated, fails: the second value list of
    [INSERT INTO users VALUES (1, 'Alice'), (1, 'Bob')] raises
    [PrimaryKeyViolation], and the row of the first value list stays in the
    table. *)
Theorem multi_row_insert_counterexample :
  db_ok users_db /\
  execute stub users_db (Insert alice_then_clash)
  = (users_db_after, Raise (PrimaryKeyViolation "id" (VInt 1))) /\
  count_of users_db "users" = Ok 0 /\
  count_of users_db_after "users" = Ok 1 /\
  users_db_after <> users_db.
Proof.
  split; [exact users_db_ok|].
  split; [reflexivity|]. split; [reflexivity|]. split; [reflexivity|].
  intros E. apply (f_equal (fun db => count_of db "users")) in E.
  discriminate E.
Qed.

Lemma failing_statement_state_witness :
  users_db_after = users_db \/
  exists k, (0 < k < length (ins_values alice_then_clash))%nat /\
            execute stub users_db (Insert (first_lists alice_then_clash k))
            = (users_db_after, Ok (mkQueryResult [] [] (Z.of_nat k))).
Proof.
  apply (@failing_statement_state stub users_db (Insert alice_then_clash)
           users_db_after (PrimaryKeyViolation "id" (VInt 1))).
  - apply db_ok_execute, db_ok_empty.
  - reflexivity.
Defined.

(** [CREATE TABLE people (id INTEGER PRIMARY KEY, nick TEXT)], then
    [INSERT INTO people VALUES (1, 'al'), (2, NULL)]. *)
Definition create_people : Statement :=
  Create (mkCreateTableStmt "people"
            [mkColumnDef "id" "INTEGER" true false false;
             mkColumnDef "nick" "TEXT" false false false]
            false).

Definition insert_people : Statement :=
  Insert (mkInsertStmt "people" None
            [[Literal (VInt 1); Literal (VText "al")];
             [Literal (VInt 2); Literal VNull]]).

Definition people_db : Database.t :=
  fst (execute stub (fst (execute stub Database.empty create_people))
               insert_people).

Definition people_schema : TableSchema :=
  mkTableSchema "people"
    [Column_init "id" INTEGER true false false;
     Column_init "nick" TEXT false false false].

Definition people : Table :=
  run stub (Table_init people_schema)
      [OpInsert [("id", VInt 1); ("nick", VText "al")];
       OpInsert [("id", VInt 2); ("nick", VNull)]].

(** [SELECT * FROM people WHERE nick = NULL] *)
Definition nick_equals_null : SelectStmt :=
  mkSelectStmt [StarExpr None] (Some (mkTableRef "people" None))
               (Some (BinaryExpr (ColumnRef "nick" None) EQ (Literal VNull)))
               [] None None.

(** [SELECT * FROM people WHERE nick IS NULL] *)
Definition nick_is_null : SelectStmt :=
  mkSelectStmt [StarExpr None] (Some (mkTableRef "people" None))
               (Some (UnaryExpr IS_NULL (ColumnRef "nick" None)))
               [] None None.

Lemma people_selects :
  execute_select stub people_db nick_equals_null
  = Ok (mkQueryResult ["people.id"; "people.nick"] [] 0) /\
  execute_select stub people_db nick_is_null
  = Ok (mkQueryResult ["people.id"; "people.nick"]
                      [[("people.id", VInt 2); ("people.nick", VNull)]] 0).
Proof. split; reflexivity. Qed.

(** [ORDER BY nick] and [ORDER BY nick DESC] on the rows of [people]. *)
Definition people_ctx : ExecutionContext := [("people", people)].
Definition people_rows : list WorkRow := _table_to_rows people "people".
Definition by_nick (direction : OrderDirection) : list OrderByItem :=
  [mkOrderByItem "nick" None direction].

Lemma people_by_nick :
  (r <- _apply_order_by people_ctx (by_nick ASC) people_rows ;;
   Ok (map _row_ids r)) = Ok [[("people", 1)]; [("people", 2)]] /\
  (r <- _apply_order_by people_ctx (by_nick DESC) people_rows ;;
   Ok (map _row_ids r)) = Ok [[("people", 2)]; [("people", 1)]].
Proof. split; reflexivity. Qed.

End ExecutorExamples.

(** ** lexer.py *)

(** The text is a sequence of ASCII characters.  The lexer reads it from
    left to right and never looks behind [pos], so its state keeps the part
    of the text from [pos] on, with the line and the column. *)
Module Lexer.
Local Open Scope string_scope.
Local Open Scope Z_scope.

Inductive TokenType : Type :=
| SELECT | FROM | WHERE | INSERT | INTO | VALUES | UPDATE | SET | DELETE
| CREATE | DROP | TABLE | IF | EXISTS | NOT | NULL | AND | OR | JOIN | INNER
| LEFT | RIGHT | CROSS | ON | AS | ORDER | BY | ASC | DESC | LIMIT | OFFSET
| PRIMARY | KEY | UNIQUE | IS | LIKE | TRUE | FALSE
| INTEGER | INT | TEXT | VARCHAR | REAL | FLOAT | BOOLEAN | BOOL
| NUMBER | STRING
| IDENTIFIER
| EQ | NE | LT | LE | GT | GE | STAR | PLUS | MINUS | SLASH | DOT
| LPAREN | RPAREN | COMMA | SEMICOLON
| EOF | NEWLINE.

Definition TokenType_eqb (a b : TokenType) : bool :=
  match a, b with
  | SELECT, SELECT | FROM, FROM | WHERE, WHERE | INSERT, INSERT | INTO, INTO
  | VALUES, VALUES | UPDATE, UPDATE | SET, SET | DELETE, DELETE
  | CREATE, CREATE | DROP, DROP | TABLE, TABLE | IF, IF | EXISTS, EXISTS
  | NOT, NOT | NULL, NULL | AND, AND | OR, OR | JOIN, JOIN | INNER, INNER
  | LEFT, LEFT | RIGHT, RIGHT | CROSS, CROSS | ON, ON | AS, AS
  | ORDER, ORDER | BY, BY | ASC, ASC | DESC, DESC | LIMIT, LIMIT
  | OFFSET, OFFSET | PRIMARY, PRIMARY | KEY, KEY | UNIQUE, UNIQUE | IS, IS
  | LIKE, LIKE | TRUE, TRUE | FALSE, FALSE | INTEGER, INTEGER | INT, INT
  | TEXT, TEXT | VARCHAR, VARCHAR | REAL, REAL | FLOAT, FLOAT
  | BOOLEAN, BOOLEAN | BOOL, BOOL | NUMBER, NUMBER | STRING, STRING
  | IDENTIFIER, IDENTIFIER | EQ, EQ | NE, NE | LT, LT | LE, LE | GT, GT
  | GE, GE | STAR, STAR | PLUS, PLUS | MINUS, MINUS | SLASH, SLASH
  | DOT, DOT | LPAREN, LPAREN | RPAREN, RPAREN | COMMA, COMMA
  | SEMICOLON, SEMICOLON | EOF, EOF | NEWLINE, NEWLINE => true
  | _, _ => false
  end.

(** [KEYWORDS] *)
Definition KEYWORDS : Dict.t string TokenType :=
  [("SELECT", SELECT); ("FROM", FROM); ("WHERE", WHERE); ("INSERT", INSERT);
   ("INTO", INTO); ("VALUES", VALUES); ("UPDATE", UPDATE); ("SET", SET);
   ("DELETE", DELETE); ("CREATE", CREATE); ("DROP", DROP); ("TABLE", TABLE);
   ("IF", IF); ("EXISTS", EXISTS); ("NOT", NOT); ("NULL", NULL);
   ("AND", AND); ("OR", OR); ("JOIN", JOIN); ("INNER", INNER);
   ("LEFT", LEFT); ("RIGHT", RIGHT); ("CROSS", CROSS); ("ON", ON);
   ("AS", AS); ("ORDER", ORDER); ("BY", BY); ("ASC", ASC); ("DESC", DESC);
   ("LIMIT", LIMIT); ("OFFSET", OFFSET); ("PRIMARY", PRIMARY); ("KEY", KEY);
   ("UNIQUE", UNIQUE); ("IS", IS); ("LIKE", LIKE); ("TRUE", TRUE);
   ("FALSE", FALSE); ("INTEGER", INTEGER); ("INT", INT); ("TEXT", TEXT);
   ("VARCHAR", VARCHAR); ("REAL", REAL); ("FLOAT", FLOAT);
   ("BOOLEAN", BOOLEAN); ("BOOL", BOOL)].

(** [Token]; the value is [None], a [str], an [int] or a [float]. *)
Record Token : Type := mkToken {
  tok_type : TokenType;
  tok_value : value;
  tok_line : Z;
  tok_column : Z
}.

(** The characters the lexer names. *)
Definition newline : ascii := ascii_of_N 10.
Definition tab : ascii := ascii_of_N 9.
Definition dquote : ascii := ascii_of_N 34.
Definition squote : ascii := "'"%char.
Definition backslash : ascii := "\"%char.

(** [str.isspace], [str.isdigit], [str.isalpha] and [str.isalnum] of one
    ASCII character. *)
Definition isspace (c : ascii) : bool :=
  let n := Z.of_N (N_of_ascii c) in
  ((9 <=? n) && (n <=? 13)) || ((28 <=? n) && (n <=? 32)).

Definition isdigit (c : ascii) : bool :=
  let n := Z.of_N (N_of_ascii c) in (48 <=? n) && (n <=? 57).

Definition isalpha (c : ascii) : bool :=
  let n := Z.of_N (N_of_ascii c) in
  ((65 <=? n) && (n <=? 90)) || ((97 <=? n) && (n <=? 122)).

Definition isalnum (c : ascii) : bool := isalpha c || isdigit c.

(** [result += c] *)
Definition push (result : string) (c : ascii) : string :=
  result ++ String c EmptyString.

(** The lexer: [rest] is [text[pos:]]. *)
Record Lexer : Type := mkLexer {
  rest : string;
  line : Z;
  column : Z
}.

(** [Lexer(text)] *)
Definition Lexer_init (text : string) : Lexer := mkLexer text 1 1.

(** [Lexer.current_char] and [Lexer.peek()] *)
Definition current_char (lx : Lexer) : option ascii :=
  match rest lx with
  | String c _ => Some c
  | EmptyString => None
  end.

Definition peek (lx : Lexer) : option ascii :=
  match rest lx with
  | String _ (String d _) => Some d
  | _ => None
  end.

(** [Lexer.advance] *)
Definition advance (lx : Lexer) : Lexer :=
  match rest lx with
  | String c r =>
      if Ascii.eqb c newline then mkLexer r (line lx + 1) 1
      else mkLexer r (line lx) (column lx + 1)
  | EmptyString => mkLexer EmptyString (line lx) (column lx + 1)
  end.

(** The loops of the lexer advance by one or two characters per round; they
    are written by recursion on the text that is left, the line and the
    column moving as [advance] moves them. *)
Definition after (c : ascii) (lc : Z * Z) : Z * Z :=
  if Ascii.eqb c newline then (fst lc + 1, 1) else (fst lc, snd lc + 1).

Lemma advance_after c r l k :
  advance (mkLexer (String c r) l k)
  = mkLexer r (fst (after c (l, k))) (snd (after c (l, k))).
Proof.
  unfold advance, after. cbn [rest line column fst snd].
  now destruct (Ascii.eqb c newline).
Qed.

(** [Lexer.skip_whitespace] *)
Fixpoint skip_whitespace_from (s : string) (lc : Z * Z) : Lexer :=
  match s with
  | String c r =>
      if isspace c then skip_whitespace_from r (after c lc)
      else mkLexer s (fst lc) (snd lc)
  | EmptyString => mkLexer s (fst lc) (snd lc)
  end.

Definition skip_whitespace (lx : Lexer) : Lexer :=
  skip_whitespace_from (rest lx) (line lx, column lx).

(** The loop of a [--] comment: up to the end of the line. *)
Fixpoint skip_line_from (s : string) (lc : Z * Z) : Lexer :=
  match s with
  | String c r =>
      if Ascii.eqb c newline then mkLexer s (fst lc) (snd lc)
      else skip_line_from r (after c lc)
  | EmptyString => mkLexer s (fst lc) (snd lc)
  end.

(** The loop of a [/* */] comment: past the closing [*/], or to the end of
    the text. *)
Fixpoint skip_block_from (s : string) (lc : Z * Z) : Lexer :=
  match s with
  | String c r =>
      match r with
      | String d r' =>
          if Ascii.eqb c "*" && Ascii.eqb d "/"
          then mkLexer r' (fst (after d (after c lc)))
                       (snd (after d (after c lc)))
          else skip_block_from r (after c lc)
      | EmptyString => skip_block_from r (after c lc)
      end
  | EmptyString => mkLexer s (fst lc) (snd lc)
  end.

(** [Lexer.skip_comment]: whether a comment was skipped, and the lexer
    after it. *)
Definition skip_comment (lx : Lexer) : bool * Lexer :=
  match rest lx with
  | String c (String d r) =>
      if Ascii.eqb c "-" && Ascii.eqb d "-"
      then (true, skip_line_from (rest lx) (line lx, column lx))
      else if Ascii.eqb c "/" && Ascii.eqb d "*"
      then (true, skip_block_from r (after d (after c (line lx, column lx))))
      else (false, lx)
  | _ => (false, lx)
  end.

(** The loop of [read_number]: the digits and the first dot. *)
Fixpoint read_number_from (s : string) (result : string) (is_float : bool)
         (lc : Z * Z) : string * bool * Lexer :=
  match s with
  | String c r =>
      if isdigit c then read_number_from r (push result c) is_float (after c lc)
      else if Ascii.eqb c "." then
        if is_float then (result, is_float, mkLexer s (fst lc) (snd lc))
        else read_number_from r (push result c) true (after c lc)
      else (result, is_float, mkLexer s (fst lc) (snd lc))
  | EmptyString => (result, is_float, mkLexer s (fst lc) (snd lc))
  end.

(** The loop of [read_string].  After a backslash the next character is
    appended whatever it is; at the end of the text there is none, and
    [result += self.current_char] raises [TypeError]. *)
Fixpoint read_string_from (quote : ascii) (s : string) (text : string)
         (lc : Z * Z) : result (string * Lexer) :=
  match s with
  | EmptyString => Ok (text, mkLexer s (fst lc) (snd lc))
  | String c r =>
      if Ascii.eqb c quote then
        match r with
        | String d r' =>
            if Ascii.eqb d quote
            then read_string_from quote r' (push text c)
                                  (after d (after c lc))
            else Ok (text, mkLexer r (fst (after c lc)) (snd (after c lc)))
        | EmptyString =>
            Ok (text, mkLexer r (fst (after c lc)) (snd (after c lc)))
        end
      else if Ascii.eqb c backslash then
        match r with
        | String d r' =>
            let escaped :=
              if Ascii.eqb d "n" then newline
              else if Ascii.eqb d "t" then tab
              else if Ascii.eqb d backslash then backslash
              else if Ascii.eqb d quote then quote
              else d in
            read_string_from quote r' (push text escaped)
                             (after d (after c lc))
        | EmptyString => Raise TypeError
        end
      else read_string_from quote r (push text c) (after c lc)
  end.

(** The loop of [read_identifier]. *)
Fixpoint read_identifier_from (s : string) (result : string) (lc : Z * Z)
  : string * Lexer :=
  match s with
  | String c r =>
      if isalnum c || Ascii.eqb c "_"
      then read_identifier_from r (push result c) (after c lc)
      else (result, mkLexer s (fst lc) (snd lc))
  | EmptyString => (result, mkLexer s (fst lc) (snd lc))
  end.

Section WithBuiltins.
Variable py : Py.builtins.

(** [Lexer.read_number] *)
Definition read_number (lx : Lexer) : result (Token * Lexer) :=
  let '(sign, s, lc) :=
    match rest lx with
    | String c r =>
        if Ascii.eqb c "-"
        then (String c EmptyString, r, after c (line lx, column lx))
        else (EmptyString, rest lx, (line lx, column lx))
    | EmptyString => (EmptyString, rest lx, (line lx, column lx))
    end in
  let '(result, is_float, lx') := read_number_from s sign false lc in
  v <- (if is_float
        then match Py.float_of_str py result with
             | Some q => Ok (VReal q)
             | None => Raise ValueError
             end
        else match Py.int_of_str py result with
             | Some n => Ok (VInt n)
             | None => Raise ValueError
             end) ;;
  Ok (mkToken NUMBER v (line lx) (column lx), lx').

(** [Lexer.read_string]; it is called on a quote. *)
Definition read_string (lx : Lexer) : result (Token * Lexer) :=
  match rest lx with
  | String quote r =>
      '(result, lx') <- read_string_from quote r EmptyString
                                         (after quote (line lx, column lx)) ;;
      Ok (mkToken STRING (VText result) (line lx) (column lx), lx')
  | EmptyString => Raise TypeError
  end.

(** [Lexer.read_identifier] *)
Definition read_identifier (lx : Lexer) : Token * Lexer :=
  let '(result, lx') :=
    read_identifier_from (rest lx) EmptyString (line lx, column lx) in
  match Dict.get String.eqb KEYWORDS (Py.upper result) with
  | Some t => (mkToken t (VText result) (line lx) (column lx), lx')
  | None => (mkToken IDENTIFIER (VText result) (line lx) (column lx), lx')
  end.

(** The first loop of [next_token]: white space and comments. *)
Fixpoint skip_blanks (fuel : nat) (lx : Lexer) : result Lexer :=
  match fuel with
  | O => Raise OutOfFuel
  | S fuel' =>
      let '(skipped, lx') := skip_comment (skip_whitespace lx) in
      if skipped then skip_blanks fuel' lx' else Ok lx'
  end.

(** [single_char_tokens] *)
Definition single_char_tokens : list (ascii * TokenType) :=
  [("="%char, EQ); ("<"%char, LT); (">"%char, GT); ("*"%char, STAR);
   ("+"%char, PLUS); ("-"%char, MINUS); ("/"%char, SLASH); ("."%char, DOT);
   ("("%char, LPAREN); (")"%char, RPAREN); (","%char, COMMA);
   (";"%char, SEMICOLON)].

(** [Lexer.next_token] *)
Definition next_token (fuel : nat) (lx : Lexer) : result (Token * Lexer) :=
  lx <- skip_blanks fuel lx ;;
  match rest lx with
  | EmptyString => Ok (mkToken EOF VNull (line lx) (column lx), lx)
  | String char r =>
      let peeked := peek lx in
      if isdigit char
         || (Ascii.eqb char "-"
             && match peeked with Some d => isdigit d | None => false end)
      then read_number lx
      else if Ascii.eqb char dquote || Ascii.eqb char squote
      then read_string lx
      else if isalpha char || Ascii.eqb char "_"
      then Ok (read_identifier lx)
      else
        let two_char := String char (match peeked with
                                     | Some d => String d EmptyString
                                     | None => EmptyString
                                     end) in
        let two t :=
          Ok (mkToken t (VText two_char) (line lx) (column lx),
              advance (advance lx)) in
        if String.eqb two_char "<>" then two NE
        else if String.eqb two_char "!=" then two NE
        else if String.eqb two_char "<=" then two LE
        else if String.eqb two_char ">=" then two GE
        else
          match Dict.get Ascii.eqb single_char_tokens char with
          | Some t =>
              Ok (mkToken t (VText (String char EmptyString))
                          (line lx) (column lx), advance lx)
          | None => Raise (SQLSyntaxError (line lx) (column lx))
          end
  end.

(** The loop of [Lexer.tokenize]. *)
Fixpoint tokenize_from (fuel : nat) (lx : Lexer) (tokens : list Token)
  : result (list Token) :=
  match fuel with
  | O => Raise OutOfFuel
  | S fuel' =>
      '(token, lx') <- next_token (S (String.length (rest lx))) lx ;;
      let tokens := (tokens ++ [token])%list in
      if TokenType_eqb (tok_type token) EOF then Ok tokens
      else tokenize_from fuel' lx' tokens
  end.

(** [Lexer(text).tokenize()].  A token other than EOF takes at least one
    character, and a comment at least two. *)
Definition tokenize (text : string) : result (list Token) :=
  tokenize_from (S (String.length text)) (Lexer_init text) [].

End WithBuiltins.

(** *** The lexer comes to an end *)

Lemma skip_whitespace_from_length s :
  forall lc, (String.length (rest (skip_whitespace_from s lc))
              <= String.length s)%nat.
Proof.
  induction s as [|c r IH]; intros lc; cbn [skip_whitespace_from]; [cbn; lia|].
  destruct (isspace c); [|cbn; lia].
  specialize (IH (after c lc)). cbn [String.length]. lia.
Qed.

Lemma skip_line_from_length s :
  forall lc, (String.length (rest (skip_line_from s lc))
              <= String.length s)%nat.
Proof.
  induction s as [|c r IH]; intros lc; cbn [skip_line_from]; [cbn; lia|].
  destruct (Ascii.eqb c newline); [cbn; lia|].
  specialize (IH (after c lc)). cbn [String.length]. lia.
Qed.

Lemma skip_block_from_length s :
  forall lc, (String.length (rest (skip_block_from s lc))
              <= String.length s)%nat.
Proof.
  induction s as [|c r IH]; intros lc; cbn [skip_block_from]; [cbn; lia|].
  destruct r as [|d r'].
  - cbn. lia.
  - destruct (Ascii.eqb c "*" && Ascii.eqb d "/").
    + cbn. lia.
    + specialize (IH (after c lc)). cbn [String.length] in *. lia.
Qed.

Lemma skip_comment_length lx :
  if fst (skip_comment lx)
  then (String.length (rest (snd (skip_comment lx)))
        < String.length (rest lx))%nat
  else snd (skip_comment lx) = lx.
Proof.
  unfold skip_comment. destruct (rest lx) as [|c [|d r]] eqn:E; cbn [fst snd];
    try reflexivity.
  destruct (Ascii.eqb c "-" && Ascii.eqb d "-") eqn:E1; cbn [fst snd].
  - apply andb_prop in E1. destruct E1 as [E1 _]. apply Ascii.eqb_eq in E1.
    subst c. cbn [skip_line_from].
    change (Ascii.eqb "-" newline) with false. cbn iota.
    pose proof (skip_line_from_length (String d r)
                  (after "-" (line lx, column lx))) as H.
    cbn [skip_line_from] in H. cbn [String.length] in *. lia.
  - destruct (Ascii.eqb c "/" && Ascii.eqb d "*"); cbn [fst snd];
      [|reflexivity].
    pose proof (skip_block_from_length r (after d (after c (line lx, column lx)))).
    cbn [String.length]. lia.
Qed.

Lemma read_number_from_length s :
  forall text is_float lc,
    (String.length (rest (snd (read_number_from s text is_float lc)))
     <= String.length s)%nat.
Proof.
  induction s as [|c r IH]; intros text is_float lc;
    cbn [read_number_from]; [cbn; lia|].
  destruct (isdigit c).
  - specialize (IH (push text c) is_float (after c lc)).
    cbn [String.length]. lia.
  - destruct (Ascii.eqb c "."); [destruct is_float|]; try (cbn; lia).
    specialize (IH (push text c) true (after c lc)).
    cbn [String.length]. lia.
Qed.

Lemma read_string_from_length quote :
  forall n s text lc,
    (String.length s <= n)%nat ->
    match read_string_from quote s text lc with
    | Ok (_, lx') => (String.length (rest lx') <= String.length s)%nat
    | Raise e => e = TypeError
    end.
Proof.
  induction n as [|n IH]; intros s text lc Hn.
  - destruct s; [cbn; lia|cbn in Hn; lia].
  - destruct s as [|c r]; [cbn; lia|]. cbn [read_string_from].
    cbn [String.length] in Hn.
    destruct (Ascii.eqb c quote).
    + destruct r as [|d r']; [cbn; lia|].
      destruct (Ascii.eqb d quote); [|cbn; lia].
      specialize (IH r' (push text c) (after d (after c lc))).
      cbn [String.length] in *.
      destruct (read_string_from quote r' _ _) as [[t lx']|e];
        [|apply IH; lia].
      assert (String.length (rest lx') <= String.length r')%nat
        by (apply IH; lia). lia.
    + destruct (Ascii.eqb c backslash).
      * destruct r as [|d r']; [reflexivity|].
        match goal with
        | |- context [read_string_from quote r' ?t ?l] =>
            specialize (IH r' t l)
        end.
        cbn [String.length] in *.
        destruct (read_string_from quote r' _ _) as [[t lx']|e];
          [|apply IH; lia].
        assert (String.length (rest lx') <= String.length r')%nat
          by (apply IH; lia). lia.
      * specialize (IH r (push text c) (after c lc)).
        destruct (read_string_from quote r _ _) as [[t lx']|e];
          [|apply IH; lia].
        assert (String.length (rest lx') <= String.length r)%nat
          by (apply IH; lia). cbn [String.length]. lia.
Qed.

Lemma read_identifier_from_length s :
  forall text lc,
    (String.length (rest (snd (read_identifier_from s text lc)))
     <= String.length s)%nat.
Proof.
  induction s as [|c r IH]; intros text lc; cbn [read_identifier_from];
    [cbn; lia|].
  destruct (isalnum c || Ascii.eqb c "_"); [|cbn; lia].
  specialize (IH (push text c) (after c lc)). cbn [String.length]. lia.
Qed.

Lemma TokenType_eqb_eq a b : TokenType_eqb a b = true <-> a = b.
Proof. destruct a, b; cbn; split; congruence. Qed.

Lemma keywords_not_EOF k t :
  Dict.get String.eqb KEYWORDS k = Some t -> t <> EOF.
Proof.
  intros H. apply (Dict.get_In String.eqb String.eqb_eq) in H.
  cbn in H. intuition congruence.
Qed.

Lemma advance_rest lx c r : rest lx = String c r -> rest (advance lx) = r.
Proof.
  intros E. unfold advance. rewrite E.
  now destruct (Ascii.eqb c newline).
Qed.

Section Outcomes.
Variable py : Py.builtins.

Lemma skip_blanks_ok :
  forall fuel lx,
    (String.length (rest lx) < fuel)%nat ->
    exists lx', skip_blanks fuel lx = Ok lx' /\
                (String.length (rest lx') <= String.length (rest lx))%nat.
Proof.
  induction fuel as [|fuel IH]; intros lx Hf; [lia|]. cbn [skip_blanks].
  pose proof (skip_whitespace_from_length (rest lx) (line lx, column lx)) as Hw.
  fold (skip_whitespace lx) in Hw.
  pose proof (skip_comment_length (skip_whitespace lx)) as Hc.
  destruct (skip_comment (skip_whitespace lx)) as [[|] lx2]; cbn [fst snd] in Hc.
  - destruct (IH lx2) as (lx' & -> & Hl); [lia|]. exists lx'. split; [auto|lia].
  - subst lx2. eauto.
Qed.

(** What a call of the lexer may raise. *)
Definition lexical (e : exn) : Prop :=
  e = TypeError \/ e = ValueError \/ exists l c, e = SQLSyntaxError l c.

Lemma read_number_ok lx c r :
  rest lx = String c r ->
  match read_number py lx with
  | Ok (t, lx') =>
      tok_type t = NUMBER /\
      (isdigit c = true \/ c = "-"%char ->
       (String.length (rest lx') < String.length (rest lx))%nat)
  | Raise e => e = ValueError
  end.
Proof.
  intros E. unfold read_number. rewrite E.
  destruct (Ascii.eqb c "-") eqn:Ec.
  - pose proof (read_number_from_length r (String c EmptyString) false
                  (after c (line lx, column lx))) as H.
    destruct (read_number_from r _ false _) as [[text is_float] lx'].
    cbn [snd] in H.
    destruct is_float; [destruct (Py.float_of_str py text)
                       |destruct (Py.int_of_str py text)];
      cbn [bind tok_type]; auto; (split; [reflexivity|]); intros _;
      cbn [String.length]; lia.
  - pose proof (read_number_from_length (String c r) EmptyString false
                  (line lx, column lx)) as H.
    assert (Hd : isdigit c = true ->
                 (String.length
                    (rest (snd (read_number_from (String c r) EmptyString false
                                                 (line lx, column lx))))
                  <= String.length r)%nat).
    { intros Hd. cbn [read_number_from]. rewrite Hd.
      apply read_number_from_length. }
    destruct (read_number_from (String c r) _ false _)
      as [[text is_float] lx'].
    cbn [snd] in *.
    destruct is_float; [destruct (Py.float_of_str py text)
                       |destruct (Py.int_of_str py text)];
      cbn [bind tok_type]; auto; (split; [reflexivity|]);
      (intros [Hc| ->]; [specialize (Hd Hc); cbn [String.length]; lia
                        |discriminate Ec]).
Qed.

Lemma read_string_ok lx c r :
  rest lx = String c r ->
  match read_string lx with
  | Ok (t, lx') =>
      tok_type t = STRING /\
      (String.length (rest lx') < String.length (rest lx))%nat
  | Raise e => e = TypeError
  end.
Proof.
  intros E. unfold read_string. rewrite E.
  pose proof (@read_string_from_length c (String.length r) r EmptyString
                (after c (line lx, column lx)) (Nat.le_refl _)) as H.
  destruct (read_string_from c r _ _) as [[text lx']|e]; cbn [bind]; auto.
  split; [reflexivity|]. cbn [String.length]. lia.
Qed.

Lemma read_identifier_ok lx c r :
  rest lx = String c r -> isalpha c || Ascii.eqb c "_" = true ->
  tok_type (fst (read_identifier lx)) <> EOF /\
  (String.length (rest (snd (read_identifier lx)))
   < String.length (rest lx))%nat.
Proof.
  intros E Hc. unfold read_identifier.
  assert (H : (String.length
                 (rest (snd (read_identifier_from (rest lx) EmptyString
                                                  (line lx, column lx))))
               <= String.length r)%nat).
  { rewrite E. cbn [read_identifier_from].
    assert (Hc' : isalnum c || Ascii.eqb c "_" = true).
    { unfold isalnum. apply orb_prop in Hc. destruct Hc as [->| ->];
        [reflexivity|apply orb_true_r]. }
    rewrite Hc'. apply read_identifier_from_length. }
  destruct (read_identifier_from (rest lx) _ _) as [text lx'].
  cbn [snd] in H. rewrite E. cbn [String.length].
  destruct (Dict.get String.eqb KEYWORDS (Py.upper text)) as [t|] eqn:Ek;
    cbn [fst snd tok_type].
  - split; [now apply keywords_not_EOF with (Py.upper text)|lia].
  - split; [discriminate|lia].
Qed.

Lemma next_token_ok fuel lx :
  (String.length (rest lx) < fuel)%nat ->
  match next_token py fuel lx with
  | Ok (t, lx') =>
      tok_type t = EOF \/
      (tok_type t <> EOF /\
       (String.length (rest lx') < String.length (rest lx))%nat)
  | Raise e => lexical e
  end.
Proof.
  intros Hf. unfold next_token.
  destruct (skip_blanks_ok _ Hf) as (lx1 & -> & Hl). cbn [bind].
  destruct (rest lx1) as [|char r] eqn:E; [now left|].
  assert (Hl1 : (String.length (rest lx1) <= String.length (rest lx))%nat)
    by (rewrite E; exact Hl).
  destruct (isdigit char
            || Ascii.eqb char "-"
               && match peek lx1 with
                  | Some d => isdigit d
                  | None => false
                  end) eqn:Hnum.
  { pose proof (read_number_ok lx1 E) as H.
    destruct (read_number py lx1) as [[t lx']|e].
    - destruct H as [Ht Hlt]. right. split; [rewrite Ht; discriminate|].
      assert (String.length (rest lx') < String.length (rest lx1))%nat.
      { apply Hlt. apply orb_prop in Hnum. destruct Hnum as [H|H]; [auto|].
        apply andb_prop in H. destruct H as [H _].
        apply Ascii.eqb_eq in H. auto. }
      lia.
    - subst e. right. now left. }
  destruct (Ascii.eqb char dquote || Ascii.eqb char squote).
  { pose proof (read_string_ok lx1 E) as H.
    destruct (read_string lx1) as [[t lx']|e].
    - destruct H as [Ht Hlt]. right. split; [rewrite Ht; discriminate|lia].
    - subst e. now left. }
  destruct (isalpha char || Ascii.eqb char "_") eqn:Hid.
  { destruct (read_identifier_ok lx1 E Hid) as [Ht Hlt].
    destruct (read_identifier lx1) as [t lx']. cbn [fst snd] in *.
    right. split; [assumption|lia]. }
  assert (H1 : (String.length (rest (advance lx1))
                < String.length (rest lx))%nat).
  { rewrite (advance_rest lx1 E). cbn [String.length] in Hl. lia. }
  assert (H2 : (String.length (rest (advance (advance lx1)))
                < String.length (rest lx))%nat).
  { destruct (rest (advance lx1)) as [|d r'] eqn:E'.
    - unfold advance at 1. rewrite E'. cbn [rest String.length]. lia.
    - rewrite (advance_rest (advance lx1) E').
      cbn [String.length] in H1. lia. }
  repeat match goal with
    | |- context [if String.eqb ?a ?b then _ else _] =>
        destruct (String.eqb a b);
        [right; split; [discriminate|exact H2]|]
    end.
  destruct (Dict.get Ascii.eqb single_char_tokens char) as [t|] eqn:Es.
  - right. split; [|exact H1]. cbn [tok_type].
    apply (Dict.get_In Ascii.eqb Ascii.eqb_eq) in Es. cbn in Es.
    intuition congruence.
  - right. right. eauto.
Qed.

Lemma tokenize_from_ok :
  forall fuel lx acc,
    (String.length (rest lx) < fuel)%nat ->
    Forall (fun t => tok_type t <> EOF) acc ->
    match tokenize_from py fuel lx acc with
    | Ok tokens =>
        exists front last,
          tokens = (front ++ [last])%list /\ tok_type last = EOF /\
          Forall (fun t => tok_type t <> EOF) front
    | Raise e => lexical e
    end.
Proof.
  induction fuel as [|fuel IH]; intros lx acc Hf Hacc; [lia|].
  cbn [tokenize_from].
  pose proof (@next_token_ok (S (String.length (rest lx))) lx
                (Nat.lt_succ_diag_r _)) as H.
  destruct (next_token py (S (String.length (rest lx))) lx) as [[t lx']|e];
    cbn [bind]; [|assumption].
  destruct (TokenType_eqb (tok_type t) EOF) eqn:Et.
  - apply TokenType_eqb_eq in Et. exists acc, t. auto.
  - destruct H as [H|[Hne Hlt]].
    + apply TokenType_eqb_eq in H. congruence.
    + apply IH; [lia|]. apply Forall_app. split; [assumption|].
      constructor; [assumption|constructor].
Qed.

(** X8.  Tokenizing comes to an end: it returns tokens of which the last,
    and only the last, is EOF, or raises [SQLSyntaxError], [TypeError] or
    [ValueError]. *)
Lemma tokenize_outcomes text :
  match tokenize py text with
  | Ok tokens =>
      exists front last,
        tokens = (front ++ [last])%list /\ tok_type last = EOF /\
        Forall (fun t => tok_type t <> EOF) front
  | Raise e => lexical e
  end.
Proof.
  unfold tokenize. apply tokenize_from_ok; [cbn; lia|constructor].
Qed.

End Outcomes.

End Lexer.

(** ** parser.py: CREATE TABLE and DROP TABLE *)

Module Parser.
Import Ast.
Local Open Scope string_scope.
Local Open Scope Z_scope.

Definition Token : Type := Lexer.Token.
Definition TokenType : Type := Lexer.TokenType.

(** The parser: the tokens and the position in them. *)
Record Parser : Type := mkParser {
  tokens : list Token;
  pos : nat
}.

(** The value of a token as a [str]; every token but NUMBER and EOF
    carries one. *)
Definition str_value (t : Token) : string :=
  match Lexer.tok_value t with
  | VText s => s
  | _ => EmptyString
  end.

(** [tokens[-1]] *)
Definition last_token (l : list Token) : result Token :=
  match rev l with
  | t :: _ => Ok t
  | [] => Raise IndexError
  end.

(** [Parser.current] *)
Definition current (p : Parser) : result Token :=
  match nth_error (tokens p) (pos p) with
  | Some t => Ok t
  | None => last_token (tokens p)
  end.

(** [Parser.advance] *)
Definition advance (p : Parser) : result (Token * Parser) :=
  token <- current p ;;
  Ok (token,
      if (S (pos p) <? length (tokens p))%nat
      then mkParser (tokens p) (S (pos p))
      else p).

(** [Parser.match] *)
Definition match_ (p : Parser) (types : list TokenType) : result bool :=
  token <- current p ;;
  Ok (existsb (Lexer.TokenType_eqb (Lexer.tok_type token)) types).

(** [Parser.expect] *)
Definition expect (p : Parser) (token_type : TokenType)
  : result (Token * Parser) :=
  token <- current p ;;
  if negb (Lexer.TokenType_eqb (Lexer.tok_type token) token_type)
  then Raise (SQLSyntaxError (Lexer.tok_line token) (Lexer.tok_column token))
  else advance p.

(** [Parser.consume_if] *)
Definition consume_if (p : Parser) (token_type : TokenType)
  : result (bool * Parser) :=
  token <- current p ;;
  if Lexer.TokenType_eqb (Lexer.tok_type token) token_type
  then ' (_, p') <- advance p ;; Ok (true, p')
  else Ok (false, p).

(** The token types [parse_column_def] takes for a data type. *)
Definition data_type_tokens : list TokenType :=
  [Lexer.INTEGER; Lexer.INT; Lexer.TEXT; Lexer.VARCHAR;
   Lexer.REAL; Lexer.FLOAT; Lexer.BOOLEAN; Lexer.BOOL].

(** The [while True] loop of [parse_column_def] over the constraints; every
    round takes a token, and the last token, EOF, ends it. *)
Fixpoint column_constraints (fuel : nat) (p : Parser)
         (primary_key unique not_null : bool)
  : result (bool * bool * bool * Parser) :=
  match fuel with
  | O => Raise OutOfFuel
  | S fuel' =>
      token <- current p ;;
      match Lexer.tok_type token with
      | Lexer.PRIMARY =>
          ' (_, p) <- advance p ;;
          ' (_, p) <- expect p Lexer.KEY ;;
          column_constraints fuel' p true unique not_null
      | Lexer.UNIQUE =>
          ' (_, p) <- advance p ;;
          column_constraints fuel' p primary_key true not_null
      | Lexer.NOT =>
          ' (_, p) <- advance p ;;
          ' (_, p) <- expect p Lexer.NULL ;;
          column_constraints fuel' p primary_key unique true
      | _ => Ok (primary_key, unique, not_null, p)
      end
  end.

(** [Parser.parse_column_def] *)
Definition parse_column_def (p : Parser) : result (ColumnDef * Parser) :=
  ' (name_token, p) <- expect p Lexer.IDENTIFIER ;;
  type_token <- current p ;;
  if negb (existsb (Lexer.TokenType_eqb (Lexer.tok_type type_token))
                   data_type_tokens)
  then Raise (SQLSyntaxError (Lexer.tok_line type_token)
                             (Lexer.tok_column type_token))
  else
    ' (t, p) <- advance p ;;
    let data_type := Py.upper (str_value t) in
    ' (primary_key, unique, not_null, p) <-
      column_constraints (S (length (tokens p))) p false false false ;;
    Ok (mkColumnDef (str_value name_token) data_type primary_key unique
                    not_null, p).

(** The loop of [parse_create] over the columns after the first. *)
Fixpoint more_columns (fuel : nat) (p : Parser) (columns : list ColumnDef)
  : result (list ColumnDef * Parser) :=
  match fuel with
  | O => Raise OutOfFuel
  | S fuel' =>
      comma <- match_ p [Lexer.COMMA] ;;
      if comma then
        ' (_, p) <- advance p ;;
        ' (col, p) <- parse_column_def p ;;
        more_columns fuel' p (columns ++ [col])%list
      else Ok (columns, p)
  end.

(** [Parser.parse_create] *)
Definition parse_create (p : Parser) : result (CreateTableStmt * Parser) :=
  ' (_, p) <- expect p Lexer.CREATE ;;
  ' (_, p) <- expect p Lexer.TABLE ;;
  is_if <- match_ p [Lexer.IF] ;;
  ' (if_not_exists, p) <-
    (if is_if then
       ' (_, p) <- advance p ;;
       ' (_, p) <- expect p Lexer.NOT ;;
       ' (_, p) <- expect p Lexer.EXISTS ;;
       Ok (true, p)
     else Ok (false, p)) ;;
  ' (name_token, p) <- expect p Lexer.IDENTIFIER ;;
  ' (_, p) <- expect p Lexer.LPAREN ;;
  ' (col, p) <- parse_column_def p ;;
  ' (columns, p) <- more_columns (S (length (tokens p))) p [col] ;;
  ' (_, p) <- expect p Lexer.RPAREN ;;
  Ok (mkCreateTableStmt (str_value name_token) columns if_not_exists, p).

(** [Parser.parse_drop] *)
Definition parse_drop (p : Parser) : result (DropTableStmt * Parser) :=
  ' (_, p) <- expect p Lexer.DROP ;;
  ' (_, p) <- expect p Lexer.TABLE ;;
  is_if <- match_ p [Lexer.IF] ;;
  ' (if_exists, p) <-
    (if is_if then
       ' (_, p) <- advance p ;;
       ' (_, p) <- expect p Lexer.EXISTS ;;
       Ok (true, p)
     else Ok (false, p)) ;;
  ' (name_token, p) <- expect p Lexer.IDENTIFIER ;;
  Ok (mkDropTableStmt (str_value name_token) if_exists, p).

Section WithStatements.
Variable py : Py.builtins.
(** The parsers of the other statements, which this development does not
    look into. *)
Variables parse_select parse_insert parse_update parse_delete :
  Parser -> result (Statement * Parser).

(** [Parser.parse_statement] *)
Definition parse_statement (p : Parser) : result (Statement * Parser) :=
  token <- current p ;;
  match Lexer.tok_type token with
  | Lexer.SELECT => parse_select p
  | Lexer.INSERT => parse_insert p
  | Lexer.UPDATE => parse_update p
  | Lexer.DELETE => parse_delete p
  | Lexer.CREATE => ' (stmt, p) <- parse_create p ;; Ok (Create stmt, p)
  | Lexer.DROP => ' (stmt, p) <- parse_drop p ;; Ok (Drop stmt, p)
  | _ => Raise (SQLSyntaxError (Lexer.tok_line token) (Lexer.tok_column token))
  end.

(** [Parser(text).parse()], that is [parse(sql)] *)
Definition parse (sql : string) : result Statement :=
  tokens <- Lexer.tokenize py sql ;;
  ' (stmt, p) <- parse_statement (mkParser tokens 0) ;;
  ' (_, _) <- consume_if p Lexer.SEMICOLON ;;
  Ok stmt.

End WithStatements.
End Parser.

(** ** Worked examples on texts *)

Module LexerExamples.
Import Lexer.
Local Open Scope string_scope.
Local Open Scope Z_scope.

Section WithBuiltins.
Variable py : Py.builtins.

(** A string literal without its closing quote is read to the end of the
    text, unless the text ends in a backslash. *)
Lemma unterminated_strings :
  tokenize py "'abc" = Ok [mkToken STRING (VText "abc") 1 1;
                           mkToken EOF VNull 1 5] /\
  tokenize py "'abc\" = Raise TypeError.
Proof. split; reflexivity. Qed.

End WithBuiltins.

Definition lex : string -> result (list Token) :=
  tokenize StorageExamples.stub.

(** C10 (code bug), at the failing input: the text ['abc\] is a string
    literal without its closing quote, and reading it raises [TypeError];
    no character that starts no token is met. *)
Theorem backslash_at_end_raises_TypeError :
  lex "'abc\" = Raise TypeError /\
  lex "x = 'abc\" = Raise TypeError /\
  lex "'abc" = Ok [mkToken STRING (VText "abc") 1 1; mkToken EOF VNull 1 5] /\
  lex "a ? b" = Raise (SQLSyntaxError 1 3).
Proof. repeat split; reflexivity. Qed.
End LexerExamples.

Module ParserExamples.
Import Datatypes Ast Parser.
Local Open Scope string_scope.
Local Open Scope Z_scope.

(** The spellings in the letter cases of [s]: every character as it is and
    in lower case. *)
Fixpoint variants (s : string) : list string :=
  match s with
  | EmptyString => [EmptyString]
  | String c r =>
      flat_map (fun v => [String c v; String (Py.lower_char c) v])
               (variants r)
  end.

Lemma upper_char_preimage d :
  d = Py.upper_char d \/ d = Py.lower_char (Py.upper_char d).
Proof. destruct d as [[] [] [] [] [] [] [] []]; cbn; auto. Qed.

Lemma upper_in_variants w : In w (variants (Py.upper w)).
Proof.
  induction w as [|d w IH]; cbn [Py.upper variants]; [now left|].
  apply in_flat_map. exists w. split; [assumption|].
  destruct (upper_char_preimage d) as [E|E]; rewrite <- E; cbn; auto.
Qed.

(** The spellings the parser takes for a data type, with their tags. *)
Definition type_keywords : list (string * DataType) :=
  [("INTEGER", INTEGER); ("INT", INTEGER); ("TEXT", TEXT); ("VARCHAR", TEXT);
   ("REAL", REAL); ("FLOAT", REAL); ("BOOLEAN", BOOLEAN); ("BOOL", BOOLEAN)].

(** [CREATE TABLE t (c <w>)] *)
Definition create_t (w : string) : string := "CREATE TABLE t (c " ++ w ++ ")".

Section WithStatements.
Variable py : Py.builtins.
Variables parse_select parse_insert parse_update parse_delete :
  Parser -> result (Statement * Parser).

Definition parse_sql : string -> result Statement :=
  parse py parse_select parse_insert parse_update parse_delete.

(** A type word is accepted when the statement parses to the one column of
    that type, and the type maps to the tag. *)
Definition accepted (w : string) (tag : DataType) : Prop :=
  parse_sql (create_t w)
  = Ok (Create (mkCreateTableStmt "t"
                  [mkColumnDef "c" (Py.upper w) false false false] false)) /\
  from_string (Py.upper w) = Ok tag.

Lemma variants_accepted spelling tag :
  In (spelling, tag) type_keywords ->
  Forall (fun w => accepted w tag) (variants spelling).
Proof.
  cbn [type_keywords In].
  intros [E|[E|[E|[E|[E|[E|[E|[E|[]]]]]]]]]; injection E as <- <-;
    cbv [variants flat_map app Py.lower_char N_of_ascii N.leb N.compare
         Pos.compare Pos.compare_cont andb ascii_of_N ascii_of_pos N.add
         Pos.add Pos.succ N_of_digits N.mul Pos.mul];
    repeat (constructor; [split; vm_compute; reflexivity|]); constructor.
Qed.

(** C7 (as amended).  In any letter case, each of the eight spellings
    INTEGER, INT, TEXT, VARCHAR, REAL, FLOAT, BOOLEAN and BOOL is accepted
    as the data type of a column of CREATE TABLE and maps to its tag. *)
Theorem parser_accepts_type_keywords w tag :
  In (Py.upper w, tag) type_keywords -> accepted w tag.
Proof.
  intros H. pose proof (variants_accepted H) as Hall.
  rewrite Forall_forall in Hall. apply Hall, upper_in_variants.
Qed.

(** STRING and DOUBLE are no keywords of the lexer: the parser finds an
    identifier where it wants a data type. *)
Lemma identifier_is_no_data_type :
  parse_sql (create_t "STRING") = Raise (SQLSyntaxError 1 19) /\
  parse_sql (create_t "DOUBLE") = Raise (SQLSyntaxError 1 19).
Proof. split; reflexivity. Qed.

End WithStatements.

(** The examples run with the built-ins of the storage examples; CREATE
    TABLE never reaches the parsers of the other statements, which are
    left out. *)
Definition left_out (p : Parser) : result (Statement * Parser) :=
  Raise RDBMSError.

Definition parse_ddl : string -> result Statement :=
  parse_sql StorageExamples.stub left_out left_out left_out left_out.

(** C7, as stated, fails: [CREATE TABLE t (c STRING)] and
    [CREATE TABLE t (c DOUBLE)] raise [SQLSyntaxError] at the type word,
    although [DataType.from_string] maps both words. *)
Theorem string_and_double_rejected :
  parse_ddl "CREATE TABLE t (c STRING)" = Raise (SQLSyntaxError 1 19) /\
  parse_ddl "CREATE TABLE t (c DOUBLE)" = Raise (SQLSyntaxError 1 19) /\
  parse_ddl "CREATE TABLE t (c TEXT)"
  = Ok (Create (mkCreateTableStmt "t"
                  [mkColumnDef "c" "TEXT" false false false] false)) /\
  from_string "STRING" = Ok TEXT /\ from_string "DOUBLE" = Ok REAL.
Proof. repeat split; reflexivity. Qed.

Lemma parser_accepts_type_keywords_witness :
  accepted StorageExamples.stub left_out left_out left_out left_out
           "VarChar" TEXT.
Proof.
  apply parser_accepts_type_keywords. cbn. auto 10.
Defined.

End ParserExamples.

(** * Further properties of the code *)

(** ** datatypes.py *)

Module DatatypesFacts.
Import Datatypes Objects.
Local Open Scope string_scope.
Local Open Scope Z_scope.

(** [isinstance(v, t)] for the Python type behind a data type; [bool] is
    told apart from [int]. *)
Definition has_type (v : value) (dt : DataType) : bool :=
  match dt, v with
  | INTEGER, VInt _ | TEXT, VText _ | REAL, VReal _ | BOOLEAN, VBool _ => true
  | _, _ => false
  end.

Lemma upper_lower_char c : Py.upper_char (Py.lower_char c) = Py.upper_char c.
Proof. destruct c as [[] [] [] [] [] [] [] []]; reflexivity. Qed.

Lemma upper_upper_char c : Py.upper_char (Py.upper_char c) = Py.upper_char c.
Proof. destruct c as [[] [] [] [] [] [] [] []]; reflexivity. Qed.

Lemma upper_lower s : Py.upper (Py.lower s) = Py.upper s.
Proof.
  induction s as [|c s IH]; cbn; [reflexivity|].
  now rewrite upper_lower_char, IH.
Qed.

Lemma upper_upper s : Py.upper (Py.upper s) = Py.upper s.
Proof.
  induction s as [|c s IH]; cbn; [reflexivity|].
  now rewrite upper_upper_char, IH.
Qed.

(** X1.  [DataType.from_string] does not look at the letter case of the
    type name, and an unknown name raises [ValueError]. *)
Theorem from_string_ignores_case s :
  from_string (Py.lower s) = from_string s /\
  from_string (Py.upper s) = from_string s /\
  (forall e, from_string s = Raise e -> e = ValueError).
Proof.
  unfold from_string. rewrite upper_lower, upper_upper.
  repeat split. intros e.
  destruct (lookup type_map (Py.upper s)); [discriminate|congruence].
Qed.

Section Coerce.
Variable py : Py.builtins.

Lemma validate_and_coerce_ok v dt v' :
  validate_and_coerce py v dt = Ok v' ->
  (v = VNull <-> v' = VNull) /\
  (v' <> VNull -> has_type v' dt = true) /\
  validate_and_coerce py v' dt = Ok v'.
Proof.
  intros H.
  destruct v, dt; cbn in H;
    repeat match type of H with
      | context [if ?b then _ else _] => destruct b
      | context [match ?o with Some _ => _ | None => _ end] => destruct o
      | context [float_of_int ?n] => destruct (float_of_int n); cbn [bind] in H
      end;
    try discriminate; apply Ok_inj in H; subst v'; cbn;
    repeat split; intros; try congruence; try reflexivity.
Qed.

(** [float(n)] raises for the [int]s from [2 ** 1024 - 2 ** 970] on, in
    either direction: these round to [2 ** 1024] or lie beyond it. *)
Lemma float_of_int_overflow n :
  float_of_int n = Raise OverflowError <-> 2 ^ 1024 - 2 ^ 970 <= Z.abs n.
Proof.
  unfold float_of_int. set (a := Z.abs n).
  assert (Ha0 : 0 <= a) by apply Z.abs_nonneg.
  destruct (Z.ltb_spec a (2 ^ 53)) as [Hsmall|Hbig].
  - split; [discriminate|]. intros H. exfalso.
    assert (2 ^ 53 < 2 ^ 1024 - 2 ^ 970) by reflexivity.
    lia.
  - assert (Hpos : 0 < a) by (assert (0 < 2 ^ 53) by reflexivity; lia).
    set (L := Z.log2 a).
    assert (HL : 2 ^ L <= a < 2 ^ (L + 1)).
    { unfold L. replace (Z.log2 a + 1) with (Z.succ (Z.log2 a)) by lia.
      now apply Z.log2_spec. }
    assert (HL53 : 53 <= L).
    { unfold L. change 53 with (Z.log2 (2 ^ 53)). now apply Z.log2_le_mono. }
    set (u := 2 ^ (L - 52)).
    assert (Hu : 0 < u) by (apply Z.pow_pos_nonneg; lia).
    assert (E1 : 2 ^ L = 2 ^ 52 * u).
    { unfold u. rewrite <- Z.pow_add_r by lia. f_equal. lia. }
    assert (E2 : 2 ^ (L + 1) = 2 ^ 53 * u).
    { unfold u. rewrite <- Z.pow_add_r by lia. f_equal. lia. }
    pose proof (Z.div_mod a u ltac:(lia)) as Hdm.
    pose proof (Z.mod_pos_bound a u Hu) as Hr.
    set (q := a / u) in *. set (r := a mod u) in *.
    assert (Hq : 2 ^ 52 <= q < 2 ^ 53) by (split; nia).
    set (q' := if (u <? 2 * r) || ((u =? 2 * r) && Z.odd q)
               then q + 1 else q).
    assert (Hq' : q <= q' <= q + 1) by (unfold q'; destruct (_ || _); lia).
    destruct (Z.leb_spec (2 ^ 1024) (q' * u)) as [Hov|Hno].
    + split; [intros _|reflexivity].
      destruct (Z.le_gt_cases 1024 L) as [Hhi|Hlo].
      { assert (2 ^ 1024 <= 2 ^ L) by (apply Z.pow_le_mono_r; lia).
        assert (0 < 2 ^ 970) by reflexivity. lia. }
      destruct (Z.le_gt_cases L 1022) as [Hlow|Hmid].
      { exfalso.
        assert (2 ^ (L + 1) <= 2 ^ 1023) by (apply Z.pow_le_mono_r; lia).
        assert (2 ^ 1023 < 2 ^ 1024) by reflexivity. nia. }
      assert (EL : L = 1023) by lia.
      assert (Eu : u = 2 ^ 971) by (unfold u; rewrite EL; reflexivity).
      unfold q' in Hov.
      destruct ((u <? 2 * r) || ((u =? 2 * r) && Z.odd q)) eqn:Eround.
      * assert (u <= 2 * r).
        { apply orb_prop in Eround. destruct Eround as [H|H].
          - apply Z.ltb_lt in H. lia.
          - apply andb_prop in H. destruct H as [H _].
            apply Z.eqb_eq in H. lia. }
        rewrite Eu in *. lia.
      * rewrite Eu in *. lia.
    + split; [discriminate|]. intros Hth. exfalso.
      destruct (Z.le_gt_cases 1024 L) as [Hhi|Hlo].
      { assert (2 ^ 1024 <= 2 ^ L) by (apply Z.pow_le_mono_r; lia). nia. }
      destruct (Z.le_gt_cases L 1022) as [Hlow|Hmid].
      { assert (2 ^ (L + 1) <= 2 ^ 1023) by (apply Z.pow_le_mono_r; lia).
        assert (2 ^ 1023 < 2 ^ 1024 - 2 ^ 970) by reflexivity. lia. }
      assert (EL : L = 1023) by lia.
      assert (Eu : u = 2 ^ 971) by (unfold u; rewrite EL; reflexivity).
      assert (Eq : q = 2 ^ 53 - 1) by (rewrite Eu in *; lia).
      unfold q' in Hno.
      destruct (Z.ltb_spec u (2 * r)) as [H1|H1]; cbn [orb] in Hno.
      * rewrite Eu in *. lia.
      * destruct (Z.eqb_spec u (2 * r)) as [H2|H2]; cbn [andb] in Hno.
        -- rewrite Eq in Hno. change (Z.odd (2 ^ 53 - 1)) with true in Hno.
           rewrite Eu in *. lia.
        -- rewrite Eu in *. lia.
Qed.

Lemma float_of_int_raises n e : float_of_int n = Raise e -> e = OverflowError.
Proof.
  unfold float_of_int. destruct (_ <? _); [discriminate|].
  destruct (_ <=? _); [congruence|discriminate].
Qed.

Lemma validate_and_coerce_raises v dt e :
  validate_and_coerce py v dt = Raise e ->
  e = DataTypeError (name dt) v \/
  (e = OverflowError /\ dt = REAL /\
   exists n, v = VInt n /\ 2 ^ 1024 - 2 ^ 970 <= Z.abs n).
Proof.
  intros H.
  destruct v as [|n|q|s|b], dt; cbn in H;
    repeat match type of H with
      | context [if ?b then _ else _] => destruct b
      | context [match ?o with Some _ => _ | None => _ end] => destruct o
      end;
    try discriminate; try (left; cbn [name]; congruence).
  right. destruct (float_of_int n) as [q|e'] eqn:E; [discriminate|].
  cbn [bind] in H. injection H as <-.
  pose proof (float_of_int_raises _ E) as ->.
  repeat split. exists n. split; [reflexivity|].
  now apply float_of_int_overflow.
Qed.

(** X2.  A value that [validate_and_coerce] returns is [None] exactly when
    the input is, has the Python type of the data type otherwise, and is
    left as it is when coerced again.  It raises [DataTypeError] with the
    type name and the offending value, or the [OverflowError] of [float()]:
    that one for exactly the [int]s from [2 ** 1024 - 2 ** 970] on that
    are to become REAL. *)
Theorem coerced_value_has_type v dt :
  (forall v', validate_and_coerce py v dt = Ok v' ->
              (v = VNull <-> v' = VNull) /\
              (v' <> VNull -> has_type v' dt = true) /\
              validate_and_coerce py v' dt = Ok v') /\
  (forall e, validate_and_coerce py v dt = Raise e ->
             e = DataTypeError (name dt) v \/
             (e = OverflowError /\ dt = REAL /\
              exists n, v = VInt n /\ 2 ^ 1024 - 2 ^ 970 <= Z.abs n)) /\
  (forall n, 2 ^ 1024 - 2 ^ 970 <= Z.abs n ->
             validate_and_coerce py (VInt n) REAL = Raise OverflowError).
Proof.
  split; [|split].
  - intros v'. apply validate_and_coerce_ok.
  - intros e. apply validate_and_coerce_raises.
  - intros n Hn. apply float_of_int_overflow in Hn. cbn. now rewrite Hn.
Qed.

End Coerce.

(** [validate_and_coerce('42', INTEGER)], and [10 ** 400] for REAL. *)
Lemma coerced_value_has_type_witness :
  ((VText "42" = VNull <-> VInt 42 = VNull) /\
   (VInt 42 <> VNull -> has_type (VInt 42) INTEGER = true) /\
   validate_and_coerce StorageExamples.stub (VInt 42) INTEGER = Ok (VInt 42)) /\
  validate_and_coerce StorageExamples.stub (VInt (10 ^ 400)) REAL
  = Raise OverflowError.
Proof.
  split.
  - apply (proj1 (coerced_value_has_type StorageExamples.stub (VText "42")
                    INTEGER)).
    reflexivity.
  - apply (proj2 (proj2 (coerced_value_has_type StorageExamples.stub VNull
                           INTEGER))).
    vm_compute. discriminate.
Defined.

Lemma compare_values_refl a : Datatypes.compare_values a a = Ok 0.
Proof.
  rewrite compare_values_ranks. destruct (rank_of a); cbn; try reflexivity;
    unfold three_way.
  - assert (E : Py.Qlt_bool q q = false)
      by (apply Qlt_bool_false; apply Qle_refl).
    now rewrite E.
  - assert (E : String.ltb s s = false).
    { unfold String.ltb.
      pose proof (proj2 (OrderedTypeEx.String_as_OT.cmp_eq s s) eq_refl)
        as E.
      unfold OrderedTypeEx.String_as_OT.cmp in E. now rewrite E. }
    now rewrite E.
Qed.

Lemma compare_values_range a b n :
  Datatypes.compare_values a b = Ok n -> n = -1 \/ n = 0 \/ n = 1.
Proof.
  rewrite compare_values_ranks. intros H.
  destruct (rank_of a), (rank_of b); cbn in H; try discriminate;
    apply Ok_inj in H; subst n; unfold three_way;
    repeat match goal with
      | |- context [if ?x then _ else _] => destruct x
      end; auto.
Qed.

Lemma compare_values_TypeError a b e :
  Datatypes.compare_values a b = Raise e -> e = TypeError.
Proof.
  rewrite compare_values_ranks.
  destruct (rank_of a), (rank_of b); cbn; congruence.
Qed.

(** X3.  [compare_values] answers -1, 0 or 1; a value ties with itself,
    [None] ties with [None] and is before every other value; swapping the
    arguments negates the answer; among values none of which is NaN, "not
    after" is transitive, strictly when one step is strict, while NaN ties
    with every number; and the only exception is [TypeError]. *)
Theorem compare_values_orders a b c n1 n2 n3 :
  compare_values a a = Ok 0 /\
  compare_values (Val VNull) a = Ok (if is_none a then 0 else -1) /\
  (compare_values a b = Ok n1 ->
   (n1 = -1 \/ n1 = 0 \/ n1 = 1) /\ compare_values b a = Ok (- n1)) /\
  (is_nan a = false -> is_nan b = false -> is_nan c = false ->
   compare_values a b = Ok n1 -> compare_values b c = Ok n2 ->
   compare_values a c = Ok n3 -> n1 <= 0 -> n2 <= 0 ->
   n3 <= 0 /\ (n1 < 0 \/ n2 < 0 -> n3 < 0)) /\
  (forall x, Py.num_of x <> None ->
             compare_values NaN (Val x) = Ok 0 /\
             compare_values (Val x) NaN = Ok 0) /\
  (forall e, compare_values a b = Raise e -> e = TypeError).
Proof.
  split; [|split; [|split; [|split; [|split]]]].
  - destruct a as [x|]; [|reflexivity].
    rewrite compare_values_Val. apply compare_values_refl.
  - destruct a as [x|]; [|reflexivity]. now destruct x.
  - destruct a as [x|], b as [y|].
    + rewrite !compare_values_Val. intros H.
      split; [now apply compare_values_range with x y|].
      now apply compare_values_opp.
    + destruct x; cbn; intros H; apply Ok_inj in H || discriminate H;
        subst n1; auto.
    + destruct y; cbn; intros H; apply Ok_inj in H || discriminate H;
        subst n1; auto.
    + cbn. intros H. apply Ok_inj in H. subst n1. auto.
  - destruct a as [x|]; [|discriminate]. destruct b as [y|]; [|discriminate].
    destruct c as [z|]; [|discriminate]. intros _ _ _.
    rewrite !compare_values_Val. apply compare_values_trans.
  - intros x. apply compare_values_NaN.
  - intros e. destruct a as [x|], b as [y|].
    + rewrite compare_values_Val. apply compare_values_TypeError.
    + destruct x; cbn; congruence.
    + destruct y; cbn; congruence.
    + discriminate.
Qed.

(** [compare_values(2, 2.5)] and [compare_values(2.5, 2)]; 2, 2.5 and 3
    in a row. *)
Lemma compare_values_orders_witness :
  ((-1 = -1 \/ -1 = 0 \/ -1 = 1) /\
   compare_values (Val (VReal (5 # 2))) (Val (VInt 2)) = Ok (- -1)) /\
  (-1 <= 0 /\ (-1 < 0 \/ -1 < 0 -> -1 < 0)).
Proof.
  split.
  - apply (proj1 (proj2 (proj2 (compare_values_orders
                                  (Val (VInt 2)) (Val (VReal (5 # 2)))
                                  NaN (-1) 0 0)))).
    reflexivity.
  - apply (proj1 (proj2 (proj2 (proj2 (compare_values_orders
                                         (Val (VInt 2)) (Val (VReal (5 # 2)))
                                         (Val (VInt 3)) (-1) (-1) (-1))))));
      (reflexivity || lia).
Defined.

End DatatypesFacts.

(** ** lexer.py *)

Module LexerFacts.
Import Lexer.
Local Open Scope string_scope.
Local Open Scope Z_scope.

(** A word: a letter or an underscore, then letters, digits and
    underscores. *)
Definition word_char (c : ascii) : bool := isalnum c || Ascii.eqb c "_".

Fixpoint word_chars (w : string) : bool :=
  match w with
  | EmptyString => true
  | String c r => word_char c && word_chars r
  end.

Definition is_word (w : string) : bool :=
  match w with
  | String c _ => (isalpha c || Ascii.eqb c "_") && word_chars w
  | EmptyString => false
  end.

(** The text after a word: nothing, or a character that is not of a
    word. *)
Definition ends_word (tail : string) : bool :=
  match tail with
  | String c _ => negb (word_char c)
  | EmptyString => true
  end.

(** [KEYWORDS.get(w.upper(), IDENTIFIER)] *)
Definition word_type (w : string) : TokenType :=
  match Dict.get String.eqb KEYWORDS (Py.upper w) with
  | Some t => t
  | None => IDENTIFIER
  end.

Definition lenZ_str (s : string) : Z := Z.of_nat (String.length s).

Lemma word_char_facts c :
  word_char c = true ->
  Ascii.eqb c newline = false /\ isspace c = false /\
  Ascii.eqb c "-" = false /\ Ascii.eqb c "/" = false /\
  Ascii.eqb c dquote = false /\ Ascii.eqb c squote = false.
Proof.
  destruct c as [[] [] [] [] [] [] [] []]; cbn; intros H;
    try discriminate H; repeat split.
Qed.

Lemma word_start_facts c :
  isalpha c || Ascii.eqb c "_" = true ->
  word_char c = true /\ isdigit c = false.
Proof.
  destruct c as [[] [] [] [] [] [] [] []]; cbn; intros H;
    try discriminate H; repeat split.
Qed.

Lemma append_assoc (a b c : string) : (a ++ b) ++ c = a ++ (b ++ c).
Proof. induction a as [|x a IH]; cbn; [reflexivity|now rewrite IH]. Qed.

Lemma append_nil_r (a : string) : a ++ "" = a.
Proof. induction a as [|x a IH]; cbn; [reflexivity|now rewrite IH]. Qed.

Lemma length_append (a b : string) :
  String.length (a ++ b) = (String.length a + String.length b)%nat.
Proof. induction a as [|x a IH]; cbn; [reflexivity|now rewrite IH]. Qed.

Lemma push_append text c r : push text c ++ r = text ++ String c r.
Proof. unfold push. now rewrite append_assoc. Qed.

Lemma skip_whitespace_none lx c r :
  rest lx = String c r -> isspace c = false -> skip_whitespace lx = lx.
Proof.
  destruct lx as [s l k]. cbn [rest]. intros -> H.
  unfold skip_whitespace. cbn [rest skip_whitespace_from line column].
  now rewrite H.
Qed.

Lemma skip_comment_none lx c r :
  rest lx = String c r -> Ascii.eqb c "-" = false ->
  Ascii.eqb c "/" = false -> skip_comment lx = (false, lx).
Proof.
  intros E H1 H2. unfold skip_comment. rewrite E.
  destruct r; [reflexivity|]. now rewrite H1, H2.
Qed.

(** The loop of [read_identifier] takes the whole word and stops behind
    it. *)
Lemma read_identifier_from_word w :
  forall tail text lc,
    word_chars w = true -> ends_word tail = true ->
    read_identifier_from (w ++ tail) text lc
    = (text ++ w, mkLexer tail (fst lc) (snd lc + lenZ_str w)).
Proof.
  induction w as [|c w IH]; intros tail text lc Hw Ht.
  - cbn [append]. rewrite append_nil_r. unfold lenZ_str. cbn [String.length].
    rewrite Z.add_0_r. destruct tail as [|d tail]; [reflexivity|].
    cbn [read_identifier_from]. cbn in Ht. fold (word_char d).
    now rewrite (proj1 (negb_true_iff _) Ht).
  - cbn [word_chars] in Hw. apply andb_prop in Hw. destruct Hw as [Hc Hw].
    cbn [append read_identifier_from]. fold (word_char c). rewrite Hc.
    rewrite (IH tail (push text c) (after c lc) Hw Ht).
    rewrite push_append. unfold after.
    rewrite (proj1 (word_char_facts c Hc)). cbn [fst snd]. unfold lenZ_str.
    cbn [String.length]. do 2 f_equal. lia.
Qed.

Section WithBuiltins.
Variable py : Py.builtins.

(** [next_token] on a word. *)
Lemma next_token_word fuel lx w tail :
  rest lx = w ++ tail -> is_word w = true -> ends_word tail = true ->
  next_token py (S fuel) lx
  = Ok (mkToken (word_type w) (VText w) (line lx) (column lx),
        mkLexer tail (line lx) (column lx + lenZ_str w)).
Proof.
  intros E Hw Ht. destruct w as [|c w]; [discriminate|].
  cbn [is_word] in Hw. apply andb_prop in Hw. destruct Hw as [Hc Hw].
  destruct (word_start_facts c Hc) as [Hwc Hd].
  destruct (word_char_facts c Hwc) as (_ & Hsp & Hm & Hsl & Hdq & Hsq).
  unfold next_token. cbn [skip_blanks]. unfold skip_whitespace.
  rewrite E. cbn [append skip_whitespace_from]. rewrite Hsp.
  unfold skip_comment. cbn [rest fst snd].
  assert (Hcom : (let '(skipped, lx') :=
                    match w ++ tail with
                    | String d r =>
                        if Ascii.eqb c "-" && Ascii.eqb d "-"
                        then (true, skip_line_from (String c (w ++ tail))
                                      (line lx, column lx))
                        else if Ascii.eqb c "/" && Ascii.eqb d "*"
                        then (true, skip_block_from r
                                      (after d (after c (line lx, column lx))))
                        else (false, mkLexer (String c (w ++ tail))
                                             (line lx) (column lx))
                    | EmptyString =>
                        (false, mkLexer (String c (w ++ tail))
                                        (line lx) (column lx))
                    end in
                  if skipped then skip_blanks fuel lx' else Ok lx')
                 = Ok (mkLexer (String c (w ++ tail)) (line lx) (column lx))).
  { rewrite Hm, Hsl. cbn [andb]. now destruct (w ++ tail). }
  cbn [line column]. rewrite Hcom. cbn [bind rest].
  rewrite Hd, Hm, Hdq, Hsq. cbn [orb andb]. rewrite Hc.
  unfold read_identifier. cbn [rest line column].
  change (String c (w ++ tail)) with (String c w ++ tail).
  rewrite (read_identifier_from_word (String c w) tail EmptyString
             (line lx, column lx) Hw Ht).
  cbn [append fst snd]. unfold word_type.
  now destruct (Dict.get String.eqb KEYWORDS (Py.upper (String c w))).
Qed.

(** X4.  A text that is one word gives one token and EOF: the token has
    the type [KEYWORDS] gives the word in upper case, IDENTIFIER when it
    gives none, and the word as written for value. *)
Theorem word_is_one_token w :
  is_word w = true ->
  tokenize py w
  = Ok [mkToken (word_type w) (VText w) 1 1;
        mkToken EOF VNull 1 (1 + lenZ_str w)].
Proof.
  intros Hw. unfold tokenize.
  destruct w as [|c w0] eqn:Ew; [discriminate|]. rewrite <- Ew in *.
  assert (Hlen : String.length w = S (String.length w0))
    by (subst w; reflexivity).
  rewrite Hlen. cbn [tokenize_from]. unfold Lexer_init. cbn [rest].
  rewrite (@next_token_word (String.length w) (mkLexer w 1 1) w EmptyString
             (eq_sym (append_nil_r w)) Hw eq_refl).
  cbn [bind app tok_type line column].
  assert (Hne : TokenType_eqb (word_type w) EOF = false).
  { destruct (TokenType_eqb (word_type w) EOF) eqn:E; [|reflexivity].
    apply TokenType_eqb_eq in E. unfold word_type in E.
    destruct (Dict.get String.eqb KEYWORDS (Py.upper w)) eqn:Ek;
      [|discriminate].
    now apply keywords_not_EOF in Ek. }
  rewrite Hne. reflexivity.
Qed.

(** A string written as a literal between quotes [q]: every quote and
    every backslash in it is doubled. *)
Fixpoint quoted (q : ascii) (s : string) : string :=
  match s with
  | EmptyString => EmptyString
  | String c r =>
      if Ascii.eqb c q || Ascii.eqb c backslash
      then String c (String c (quoted q r))
      else String c (quoted q r)
  end.

Lemma read_string_from_quoted q :
  forall s text lc,
    exists lc',
      read_string_from q (quoted q s ++ String q EmptyString) text lc
      = Ok (text ++ s, mkLexer EmptyString (fst lc') (snd lc')).
Proof.
  induction s as [|c s IH]; intros text lc.
  - cbn [quoted append read_string_from]. rewrite Ascii.eqb_refl.
    rewrite append_nil_r. eauto.
  - cbn [quoted]. destruct (Ascii.eqb c q) eqn:Eq; cbn [orb].
    + apply Ascii.eqb_eq in Eq. subst c.
      cbn [append read_string_from]. rewrite !Ascii.eqb_refl.
      destruct (IH (push text q) (after q (after q lc))) as [lc' ->].
      rewrite push_append. eauto.
    + destruct (Ascii.eqb c backslash) eqn:Eb.
      * apply Ascii.eqb_eq in Eb. subst c.
        cbn [append read_string_from]. rewrite Eq, !Ascii.eqb_refl.
        change (Ascii.eqb backslash "n") with false.
        change (Ascii.eqb backslash "t") with false. cbn iota.
        destruct (IH (push text backslash)
                     (after backslash (after backslash lc))) as [lc' ->].
        rewrite push_append. eauto.
      * cbn [append read_string_from]. rewrite Eq, Eb.
        destruct (IH (push text c) (after c lc)) as [lc' ->].
        rewrite push_append. eauto.
Qed.

(** X5.  A string literal reads back: the text of a string between single
    or double quotes, with its quotes and backslashes doubled, gives one
    STRING token whose value is the string, and EOF. *)
Theorem string_literal_reads_back q s :
  q = squote \/ q = dquote ->
  exists l c,
    tokenize py (String q (quoted q s ++ String q EmptyString))
    = Ok [mkToken STRING (VText s) 1 1; mkToken EOF VNull l c].
Proof.
  intros Hq. unfold tokenize. cbn [String.length].
  rewrite length_append. cbn [String.length]. rewrite Nat.add_1_r.
  cbn [tokenize_from]. unfold Lexer_init. cbn [rest].
  assert (H1 : exists lc',
    next_token py
      (S (String.length (String q (quoted q s ++ String q EmptyString))))
      (mkLexer (String q (quoted q s ++ String q EmptyString)) 1 1)
    = Ok (mkToken STRING (VText s) 1 1,
          mkLexer EmptyString (fst lc') (snd lc'))).
  { destruct (read_string_from_quoted q s EmptyString (after q (1, 1)))
      as [lc' E].
    exists lc'. unfold next_token. cbn [skip_blanks].
    destruct Hq as [-> | ->].
    - set (lx := mkLexer
                 (String squote (quoted squote s ++ String squote EmptyString))
                 1 1).
      rewrite (@skip_whitespace_none lx squote _ eq_refl eq_refl).
      rewrite (@skip_comment_none lx squote _ eq_refl eq_refl eq_refl).
      subst lx. cbn [bind rest]. unfold read_string. cbn [rest line column].
      rewrite E. reflexivity.
    - set (lx := mkLexer
                 (String dquote (quoted dquote s ++ String dquote EmptyString))
                 1 1).
      rewrite (@skip_whitespace_none lx dquote _ eq_refl eq_refl).
      rewrite (@skip_comment_none lx dquote _ eq_refl eq_refl eq_refl).
      subst lx. cbn [bind rest]. unfold read_string. cbn [rest line column].
      rewrite E. reflexivity. }
  destruct H1 as [lc' ->]. cbn [bind tok_type TokenType_eqb rest app].
  cbn. eauto.
Qed.

(** The characters that begin a token or are skipped. *)
Definition starts_token (c : ascii) : bool :=
  isspace c || isdigit c || isalpha c || Ascii.eqb c "_"
  || Ascii.eqb c dquote || Ascii.eqb c squote
  || existsb (fun p => Ascii.eqb c (fst p)) single_char_tokens
  || Ascii.eqb c "!".

(** The characters of ASCII, on which [isspace], [isdigit] and [isalpha]
    are those of [str]. *)
Definition is_ascii (c : ascii) : bool := (N_of_ascii c <? 128)%N.

(** X6.  A text whose first character is one of ASCII that neither begins a
    token nor is white space raises [SQLSyntaxError] at line 1, column 1,
    whatever follows. *)
Theorem unknown_character_raises c s :
  is_ascii c = true -> starts_token c = false ->
  tokenize py (String c s) = Raise (SQLSyntaxError 1 1).
Proof.
  destruct c as [[] [] [] [] [] [] [] []]; intros Ha H;
    try discriminate Ha; try discriminate H; destruct s; reflexivity.
Qed.

Fixpoint no_newline (s : string) : bool :=
  match s with
  | EmptyString => true
  | String c r => negb (Ascii.eqb c newline) && no_newline r
  end.

Lemma skip_line_from_all s :
  forall lc, no_newline s = true ->
             skip_line_from s lc
             = mkLexer EmptyString (fst lc) (snd lc + lenZ_str s).
Proof.
  induction s as [|c s IH]; intros lc H.
  - cbn. unfold lenZ_str. cbn. now rewrite Z.add_0_r.
  - cbn [no_newline] in H. apply andb_prop in H. destruct H as [Hc Hs].
    apply negb_true_iff in Hc. cbn [skip_line_from]. rewrite Hc.
    rewrite (IH _ Hs). unfold after. rewrite Hc. cbn [fst snd].
    unfold lenZ_str. cbn [String.length]. f_equal. lia.
Qed.

Lemma skip_blanks_line_comment fuel lx s :
  rest lx = "--" ++ s -> no_newline s = true ->
  skip_blanks (S (S fuel)) lx
  = Ok (mkLexer EmptyString (line lx) (column lx + 2 + lenZ_str s)).
Proof.
  intros E Hs. cbn [skip_blanks].
  rewrite (@skip_whitespace_none lx "-" _ E eq_refl).
  unfold skip_comment at 1. rewrite E. cbn [append].
  change (Ascii.eqb "-" "-") with true. cbn [andb].
  assert (Hn : no_newline ("--" ++ s) = true) by exact Hs.
  rewrite (skip_line_from_all _ _ Hn). cbn [fst snd].
  unfold skip_whitespace, skip_comment. cbn [rest skip_whitespace_from fst snd].
  unfold lenZ_str. cbn [append String.length line column]. do 2 f_equal. lia.
Qed.

(** X7.  A text that is one [--] comment, without a line end, has no token
    but EOF, which stands behind the comment. *)
Theorem line_comment_is_skipped s :
  no_newline s = true ->
  tokenize py ("--" ++ s)
  = Ok [mkToken EOF VNull 1 (3 + lenZ_str s)].
Proof.
  intros Hs. unfold tokenize. cbn [append String.length tokenize_from].
  unfold Lexer_init, next_token. cbn [rest String.length].
  rewrite (@skip_blanks_line_comment _ (mkLexer (String "-" (String "-" s)) 1 1)
             s eq_refl Hs).
  cbn [bind rest tok_type TokenType_eqb app line column].
  do 3 f_equal; lia.
Qed.
End WithBuiltins.

Lemma line_comment_is_skipped_witness :
  tokenize StorageExamples.stub ("--" ++ " drop everything")
  = Ok [mkToken EOF VNull 1 (3 + lenZ_str " drop everything")].
Proof. apply line_comment_is_skipped. reflexivity. Defined.

Lemma string_literal_reads_back_witness :
  exists l c,
    tokenize StorageExamples.stub
             (String squote (quoted squote "it's" ++ String squote EmptyString))
    = Ok [mkToken STRING (VText "it's") 1 1; mkToken EOF VNull l c].
Proof. apply string_literal_reads_back. now left. Defined.

Lemma unknown_character_raises_witness :
  tokenize StorageExamples.stub "? = 1" = Raise (SQLSyntaxError 1 1).
Proof. apply unknown_character_raises; reflexivity. Defined.

Lemma word_is_one_token_witness :
  tokenize StorageExamples.stub "Select"
  = Ok [mkToken (word_type "Select") (VText "Select") 1 1;
        mkToken EOF VNull 1 (1 + lenZ_str "Select")].
Proof. apply word_is_one_token. reflexivity. Defined.

End LexerFacts.

(** ** storage.py *)

Module StorageFacts.
Import Datatypes Schema Storage DatatypesFacts.
Local Open Scope string_scope.
Local Open Scope list_scope.
Local Open Scope Z_scope.

Lemma length_set_new {V : Type} (d : Dict.t Z V) k v :
  Dict.contains Z.eqb d k = false ->
  lenZ (Dict.set Z.eqb d k v) = lenZ d + 1.
Proof.
  intros H. unfold lenZ.
  rewrite <- (length_map fst (Dict.set Z.eqb d k v)).
  change (map fst (Dict.set Z.eqb d k v))
    with (Dict.keys (Dict.set Z.eqb d k v)).
  rewrite (Dict.keys_set Z.eqb), H, length_app. unfold Dict.keys.
  rewrite length_map. cbn. lia.
Qed.

Lemma length_remove_present {V : Type} (d : Dict.t Z V) k v :
  NoDup (Dict.keys d) -> Dict.get Z.eqb d k = Some v ->
  lenZ (Dict.remove Z.eqb d k) = lenZ d - 1.
Proof.
  unfold lenZ, Dict.remove.
  induction d as [|[k0 v0] d IH]; cbn [Dict.get Dict.keys map]; [discriminate|].
  intros Hnd. inversion Hnd as [|? ? Hk0 Hnd']; subst.
  cbn [filter fst]. destruct (Z.eqb_spec k k0) as [->|Hne]; cbn [negb].
  - intros _. assert (E : filter (fun kv => negb (k0 =? fst kv)) d = d).
    { clear - Hk0. induction d as [|[k1 v1] d IH]; cbn; [reflexivity|].
      cbn in Hk0. destruct (Z.eqb_spec k0 k1) as [->|Hne]; [tauto|].
      cbn. f_equal. apply IH. tauto. }
    rewrite E. cbn [length]. lia.
  - intros H. cbn [length]. specialize (IH Hnd' H).
    assert (0 < length d)%nat by (destruct d; [discriminate|cbn; lia]).
    lia.
Qed.

Section WithBuiltins.
Variable py : Py.builtins.

(** X9.  On a table reached by row operations, an [insert] that returns
    hands out the id [_next_row_id], moves the counter on by one, and adds
    exactly the returned row: [get] finds it under its id, finds under every
    other id what it found before, and [count] is one more. *)
Theorem insert_then_get t values t' row :
  reachable py t -> Table_insert py t values = (t', Ok row) ->
  row_id row = _next_row_id t /\
  _next_row_id t' = _next_row_id t + 1 /\
  Table_get t' (row_id row) = Some row /\
  (forall rid, rid <> row_id row -> Table_get t' rid = Table_get t rid) /\
  Table_count t' = Table_count t + 1.
Proof.
  intros Hr H. pose proof (reachable_Inv0 Hr) as H0.
  destruct (@Table_insert_cases py t values H0)
    as [(e & _ & E)|(rd & _ & E)]; rewrite E in H; [discriminate|].
  injection H as <- <-. cbn [row_id _next_row_id].
  unfold Table_get, Table_count.
  cbn [_rows]. repeat split.
  - apply (Dict.get_set_same Z.eqb Z.eqb_eq).
  - intros rid Hne. apply (Dict.get_set_other Z.eqb Z.eqb_eq). congruence.
  - apply length_set_new. unfold Dict.contains.
    destruct (Dict.get Z.eqb (_rows t) (_next_row_id t)) as [r|] eqn:Hg;
      [|reflexivity].
    destruct (inv_ids H0 Hg). lia.
Qed.

(** X10.  On a table reached by row operations, [delete] never raises: for
    an id that [get] finds it returns the row, after which [get] finds
    nothing under that id, the same as before under every other id, and
    [count] is one less; for any other id it returns [None] and leaves the
    table as it is. *)
Theorem delete_then_get t rid :
  reachable py t ->
  match Table_get t rid with
  | Some row =>
      exists t',
        Table_delete t rid = (t', Ok (Some row)) /\
        Table_get t' rid = None /\
        (forall rid', rid' <> rid -> Table_get t' rid' = Table_get t rid') /\
        Table_count t' = Table_count t - 1 /\
        _next_row_id t' = _next_row_id t
  | None => Table_delete t rid = (t, Ok None)
  end.
Proof.
  intros Hr. pose proof (reachable_Inv0 Hr) as H0.
  destruct (@Table_delete_cases t rid H0) as [[Hg ->]|(row & Hl & ->)];
    unfold Table_get.
  - now rewrite Hg.
  - unfold live in Hl. rewrite Hl. exists (deleted t rid row).
    unfold Table_count, deleted. cbn [_rows _next_row_id]. repeat split.
    + apply (Dict.get_remove_same Z.eqb).
    + intros rid' Hne. apply (Dict.get_remove_other Z.eqb Z.eqb_eq). congruence.
    + apply length_remove_present with row; [apply (inv_keys H0)|assumption].
Qed.

(** X11.  On a table reached by row operations, an [insert] or [update]
    that raises leaves the table exactly as it was, and an [update] of an id
    that [get] does not find returns [None] and changes nothing. *)
Theorem failed_row_operation_changes_nothing t :
  reachable py t ->
  (forall values t' e, Table_insert py t values = (t', Raise e) -> t' = t) /\
  (forall rid values t' e,
      Table_update py t rid values = (t', Raise e) -> t' = t) /\
  (forall rid values,
      Table_get t rid = None -> Table_update py t rid values = (t, Ok None)).
Proof.
  intros Hr. pose proof (reachable_Inv0 Hr) as H0. repeat split.
  - intros values t' e. now apply Table_insert_atomic.
  - intros rid values t' e. now apply Table_update_atomic.
  - intros rid values Hg. unfold Table_update, Table_get in *. now rewrite Hg.
Qed.

(** X12.  [insert] checks the columns in schema order: when the columns
    before [col] pass, a missing or [None] value for a NOT NULL column
    raises [NotNullViolation], and a value that [validate_and_coerce]
    refuses raises what that raises: [DataTypeError] with the name of the
    column's type, or [OverflowError]; the table is left as it was. *)
Theorem insert_rejects_bad_value t values pre col post rd1 :
  columns (schema t) = (pre ++ col :: post)%list ->
  validate_insert py (_unique_values t) (normalize values) pre [] = Ok rd1 ->
  let x := data_get (normalize values) (Py.lower (Schema.name col)) in
  (x = VNull -> not_null col = true ->
   Table_insert py t values = (t, Raise (NotNullViolation (Schema.name col)))) /\
  (forall e, x <> VNull ->
             validate_and_coerce py x (data_type col) = Raise e ->
             Table_insert py t values = (t, Raise e) /\
             (e = DataTypeError (Datatypes.name (data_type col)) x \/
              e = OverflowError)).
Proof.
  intros Hcols Hpre x. unfold Table_insert.
  rewrite Hcols, validate_insert_app, Hpre. cbn [bind validate_insert].
  fold x. split.
  - intros -> ->. reflexivity.
  - intros e Hx He. assert (Hn : Py.is_none x = false) by now destruct x.
    rewrite Hn. cbn [andb]. rewrite He. split; [reflexivity|].
    destruct (@validate_and_coerce_raises py x (data_type col) e He)
      as [->|(-> & _)]; auto.
Qed.

(** *** Invariants of the rows *)

Lemma run_keeps (P : Table -> Prop) :
  (forall t o, Inv0 t -> P t -> P (step py t o)) ->
  forall ops t, Inv0 t -> P t -> P (run py t ops).
Proof.
  intros Hstep. induction ops as [|o ops IH]; intros t H0 HP;
    cbn [run fold_left]; [assumption|].
  apply IH; [now apply Inv0_step|now apply Hstep].
Qed.

(** The second loop of [Table.update] keeps what each of its rounds
    keeps. *)
Lemma apply_updates_keeps (P : Table -> Prop)
      (Q : TableSchema -> string * value -> Prop) rid :
  (forall t row col cn nv,
      Inv0 t -> live t rid row -> Q (schema t) (cn, nv) -> P t ->
      P (table_after t rid row col cn nv)) ->
  forall items t row,
    Inv0 t -> live t rid row ->
    NoDup (Dict.keys items) -> Forall (validated t row) items ->
    Forall (Q (schema t)) items -> P t ->
    P (fst (apply_updates t rid row items)).
Proof.
  intros Hstep.
  induction items as [|[cn nv] items IH]; intros t row H0 Hl Hnd Hall HQ HP.
  - exact HP.
  - inversion Hall as [|? ? Hv Hall']; subst.
    inversion Hnd as [|? ? Hcn Hnd']; subst.
    inversion HQ as [|? ? Hq HQ']; subst.
    destruct Hv as (col & Hc & Hin & Hname & Hval).
    cbn [apply_updates].
    rewrite (@apply_update_eq t rid row cn nv col (inv_fresh H0) Hc).
    2:{ intros Hu. rewrite <- Hname. now apply (inv_sets H0). }
    specialize (IH (table_after t rid row col cn nv) (row_after row cn nv)).
    destruct (apply_updates (table_after t rid row col cn nv) rid
                            (row_after row cn nv) items) as [t' [r|e]];
      cbn [fst] in *; apply IH; auto.
    all: try (now apply Inv0_table_after).
    all: try (apply live_table_after; auto).
    all: try (now apply Hstep).
    all: rewrite Forall_forall in *; intros item Hitem;
      (apply validated_frame; [|now apply Hall']);
      intros ->; apply Hcn; unfold Dict.keys; now apply in_map.
Qed.

(** A value fits a column: [None] only when the column allows it, and of
    the column's type otherwise. *)
Definition cell_ok (col : Column) (v : value) : Prop :=
  (v = VNull -> not_null col = false) /\
  (v <> VNull -> has_type v (data_type col) = true).

(** Every entry of a row belongs to a column, the one [get_column] finds
    for its key, and fits it. *)
Definition typed_data (cols : list Column) (d : Dict.t string value) : Prop :=
  forall k v, Dict.get String.eqb d k = Some v ->
              exists col, column_map_get cols k = Some col /\ cell_ok col v.

Definition typed_rows (t : Table) : Prop :=
  forall rid row, live t rid row ->
                  typed_data (columns (schema t)) (data row).

Definition typed_item (s : TableSchema) (item : string * value) : Prop :=
  exists col, column_map_get (columns s) (fst item) = Some col /\
              cell_ok col (snd item).

Lemma checked_value_ok col x v :
  Py.is_none x && not_null col = false ->
  (if Py.is_none x then Ok x
   else validate_and_coerce py x (data_type col)) = Ok v ->
  cell_ok col v.
Proof.
  intros Hnn H. destruct (Py.is_none x) eqn:Hx.
  - apply Ok_inj in H. subst v. cbn [andb] in Hnn. split; [auto|].
    destruct x; discriminate || congruence.
  - destruct (@validate_and_coerce_ok py x (data_type col) v H)
      as (Hnull & Hty & _).
    split; [|assumption]. intros ->.
    assert (x = VNull) by now apply Hnull. subst x. discriminate.
Qed.

Lemma validate_insert_typed u n :
  forall cols rd rd',
    validate_insert py u n cols rd = Ok rd' ->
    forall k v, Dict.get String.eqb rd' k = Some v ->
                match column_map_get cols k with
                | Some col => cell_ok col v
                | None => Dict.get String.eqb rd k = Some v
                end.
Proof.
  induction cols as [|c cols IH]; intros rd rd' H k v Hk.
  - cbn in H. apply Ok_inj in H. subst rd'. exact Hk.
  - cbn [validate_insert] in H.
    destruct (Py.is_none (data_get n (Py.lower (Schema.name c))) && not_null c)
      eqn:Hnn; [discriminate|].
    destruct (if Py.is_none (data_get n (Py.lower (Schema.name c))) then _
              else _) as [x|e] eqn:Hx; [|discriminate].
    cbn [bind] in H.
    destruct (if unique c && negb (Py.is_none x) then _ else _)
      as [[]|e]; [|discriminate].
    cbn [bind] in H. specialize (IH _ _ H k v Hk). cbn [column_map_get].
    destruct (column_map_get cols k) as [col|]; [exact IH|].
    destruct (String.eqb_spec (Py.lower (Schema.name c)) k) as [<-|Hne].
    + rewrite (Dict.get_set_same String.eqb String.eqb_eq) in IH.
      injection IH as <-. now apply checked_value_ok with (2 := Hx).
    + now rewrite (Dict.get_set_other String.eqb String.eqb_eq) in IH.
Qed.

Lemma validate_update_typed t row :
  forall items done n',
    NoDup (Dict.keys (done ++ items)) ->
    Forall (fun k => Py.lower k = k) (Dict.keys items) ->
    validate_update py t row items (done ++ items) = Ok n' ->
    exists items',
      n' = (done ++ items')%list /\ Forall (typed_item (schema t)) items'.
Proof.
  induction items as [|[cn nv] items IH]; intros done n' Hnd Hlow H.
  - cbn in H. apply Ok_inj in H. subst. exists []. auto.
  - cbn [validate_update] in H.
    destruct (get_column (schema t) cn) as [col|e] eqn:Hcol; [|discriminate].
    cbn [bind] in H.
    inversion Hlow as [|? ? Hcn Hlow']; subst.
    destruct (Py.is_none nv && not_null col) eqn:Hnn; [discriminate|].
    assert (Hdone : ~ In cn (Dict.keys done)).
    { unfold Dict.keys in *. rewrite map_app in Hnd. cbn in Hnd.
      apply NoDup_remove_2 in Hnd. rewrite in_app_iff in Hnd. tauto. }
    assert (Hcont : forall v,
      cell_ok col v ->
      (_ <- (if unique col && negb (Py.is_none v)
                && negb (Py.eq v (data_get (data row) cn))
             then s <- unique_set (_unique_values t) cn ;;
                  (if set_contains v s then Raise (violation col v)
                   else Ok tt)
             else Ok tt) ;;
       validate_update py t row items (done ++ (cn, v) :: items)) = Ok n' ->
      exists items',
        n' = done ++ items' /\ Forall (typed_item (schema t)) items').
    { intros v Hok Hrest.
      destruct (if unique col && negb (Py.is_none v)
                   && negb (Py.eq v (data_get (data row) cn)) then _ else _)
        as [[]|e]; [|discriminate].
      cbn [bind] in Hrest.
      change (done ++ (cn, v) :: items)
        with (done ++ [(cn, v)] ++ items) in Hrest.
      rewrite app_assoc in Hrest.
      apply IH in Hrest; [|unfold Dict.keys in *; rewrite <- app_assoc;
                           rewrite map_app in *; exact Hnd|assumption].
      destruct Hrest as (items' & -> & Hall).
      exists ((cn, v) :: items'). rewrite <- app_assoc. split; [reflexivity|].
      constructor; [|assumption].
      exists col. cbn [fst snd]. split; [|assumption].
      unfold get_column in Hcol. rewrite Hcn in Hcol.
      destruct (column_map_get (columns (schema t)) cn); congruence. }
    destruct (Py.is_none nv) eqn:Hnone.
    + cbn [bind] in H. apply (Hcont nv); [|exact H].
      apply checked_value_ok with (x := nv); rewrite Hnone;
        [exact Hnn|reflexivity].
    + destruct (validate_and_coerce py nv (data_type col)) as [v|e] eqn:Hco;
        [|discriminate].
      cbn [bind] in H. rewrite set_middle in H by assumption.
      apply (Hcont v); [|exact H].
      apply checked_value_ok with (x := nv); rewrite Hnone;
        [exact Hnn|exact Hco].
Qed.

Lemma typed_rows_table_after t rid row col cn nv :
  live t rid row -> typed_item (schema t) (cn, nv) -> typed_rows t ->
  typed_rows (table_after t rid row col cn nv).
Proof.
  intros Hl (c & Hc & Hok) HT rid0 row0 H. apply live_table_after in H.
  cbn [table_after schema]. cbn [fst snd] in *.
  destruct H as [[-> ->]|[_ H]]; [|now apply (HT rid0)].
  intros k v Hk. cbn [row_after data] in Hk.
  destruct (String.eqb_spec cn k) as [<-|Hne].
  - rewrite (Dict.get_set_same String.eqb String.eqb_eq) in Hk.
    injection Hk as <-. eauto.
  - rewrite (Dict.get_set_other String.eqb String.eqb_eq) in Hk by assumption.
    now apply (HT rid row).
Qed.

Lemma typed_rows_step t o : Inv0 t -> typed_rows t -> typed_rows (step py t o).
Proof.
  intros H0 HT. destruct o as [values|rid values|rid|]; cbn [step].
  - destruct (@Table_insert_cases py t values H0)
      as [(e & _ & ->)|(rd & Hv & ->)]; cbn [fst]; [assumption|].
    intros rid row Hl. apply (@live_inserted t rd rid row H0) in Hl.
    cbn [schema]. destruct Hl as [[-> ->]|[_ Hl]]; [|now apply (HT rid)].
    intros k v Hk. cbn [data] in Hk.
    pose proof (@validate_insert_typed _ _ _ _ _ Hv k v Hk) as H.
    destruct (column_map_get (columns (schema t)) k) as [col|];
      [eauto|discriminate].
  - unfold Table_update.
    destruct (Dict.get Z.eqb (_rows t) rid) as [row|] eqn:Hrow; [|exact HT].
    destruct (validate_update py t row (normalize values) (normalize values))
      as [n'|e] eqn:Hv; [|exact HT].
    destruct (normalize_keys values) as [Hnd Hlow].
    destruct (@validate_update_spec py t row (normalize values) [] n'
                Hnd Hlow Hv) as (items' & -> & Hk & Hall).
    destruct (@validate_update_typed t row (normalize values) [] _
                Hnd Hlow Hv) as (items2 & E & Hty).
    cbn [app] in *. subst items2. rewrite <- Hk in Hnd.
    pose proof (@apply_updates_keeps typed_rows typed_item rid) as Hkeep.
    specialize (Hkeep (fun t0 row0 col cn nv _ Hl0 Hq HT0 =>
                         @typed_rows_table_after t0 rid row0 col cn nv
                                                 Hl0 Hq HT0)).
    pose proof (Hkeep items' t row H0 Hrow Hnd Hall Hty HT) as H.
    destruct (apply_updates t rid row items') as [t' [r|e]]; exact H.
  - destruct (@Table_delete_cases t rid H0) as [[_ ->]|(row & Hl & ->)];
      cbn [fst]; [assumption|].
    intros rid0 row0 H. apply live_deleted in H. now apply (HT rid0).
  - intros rid0 row0 H. discriminate H.
Qed.

Lemma typed_rows_init s : typed_rows (Table_init s).
Proof. intros rid row H. discriminate H. Qed.

Lemma reachable_typed_rows t : reachable py t -> typed_rows t.
Proof.
  intros (s & ops & ->).
  apply run_keeps;
    [apply typed_rows_step|apply Inv0_init|apply typed_rows_init].
Qed.

(** X13.  A row in a table has exactly one entry per column name, under the
    lower-case name; in a NOT NULL column it is never [None], and a value
    that is not [None] has the Python type of the column. *)
Theorem stored_rows_fit_schema t rid row :
  reachable py t -> Table_get t rid = Some row ->
  NoDup (Dict.keys (data row)) /\
  (forall k, In k (Dict.keys (data row)) <->
             exists col, In col (columns (schema t)) /\
                         Py.lower (Schema.name col) = k) /\
  (forall c col, get_column (schema t) c = Ok col ->
     let v := data_get (data row) (Py.lower c) in
     (not_null col = true -> v <> VNull) /\
     (v <> VNull -> has_type v (data_type col) = true)).
Proof.
  intros Hr Hg.
  destruct (@reachable_rows_ok py t Hr rid row Hg) as [Hnd Hall].
  pose proof (@reachable_typed_rows t Hr rid row Hg) as Hty.
  split; [assumption|]. split.
  - intros k. split.
    + intros Hk. apply Dict.In_keys_contains with (eqb := String.eqb) in Hk;
        [|apply String.eqb_eq]. unfold Dict.contains in Hk.
      destruct (Dict.get String.eqb (data row) k) as [v|] eqn:E;
        [|discriminate].
      destruct (Hty k v E) as (col & Hc & _).
      exists col. now apply column_map_get_Some.
    + intros (col & Hin & <-).
      eapply Dict.contains_In_keys; [apply String.eqb_eq|apply Hall, Hin].
  - intros c col Hc v. unfold get_column in Hc.
    destruct (column_map_get (columns (schema t)) (Py.lower c)) as [col'|]
      eqn:E; [|discriminate].
    injection Hc as ->.
    destruct (column_map_get_Some _ _ E) as [Hin Hname].
    pose proof (Hall col Hin) as Hk. rewrite Hname in Hk.
    unfold Dict.contains in Hk. subst v. unfold data_get.
    destruct (Dict.get String.eqb (data row) (Py.lower c)) as [v|] eqn:Ev;
      [|discriminate].
    destruct (Hty _ _ Ev) as (col2 & Hc2 & Hnull & Htype).
    rewrite E in Hc2. injection Hc2 as <-.
    split; [|assumption]. intros Hnn ->. specialize (Hnull eq_refl).
    congruence.
Qed.

(** *** Lookups and clearing *)

(** X14.  On a table built by inserts, updates, deletes and clears,
    [find_by_index] never answers from an index: it returns, in insertion
    order, the rows whose entry for the column equals the value, which are
    the rows [get] returns for some id with such an entry. *)
Theorem find_by_index_scans t c v :
  reachable py t ->
  let hit row := Py.eq (data_get (data row) (Py.lower c)) v in
  Table_find_by_index t c v = Ok (filter hit (Table_scan t)) /\
  (forall row, In row (filter hit (Table_scan t)) <->
               Table_get t (row_id row) = Some row /\ hit row = true).
Proof.
  intros Hr hit. pose proof (reachable_Inv0 Hr) as H0. split.
  - unfold Table_find_by_index.
    now rewrite (search_on_fresh _ _ (inv_fresh H0)).
  - intros row. rewrite filter_In. unfold Table_scan, Table_get.
    split; intros [H Hhit]; (split; [|assumption]).
    + apply in_map_iff in H. destruct H as ([rid row'] & E & Hin).
      cbn [snd] in E. subst row'.
      apply (Dict.In_get Z.eqb Z.eqb_eq) in Hin; [|apply (inv_keys H0)].
      destruct (inv_ids H0 Hin) as [-> _]. exact Hin.
    + apply Dict.get_In in H; [|apply Z.eqb_eq].
      apply in_map_iff. now exists (row_id row, row).
Qed.

Lemma keys_set_present {V : Type} (d : Dict.t string V) k v v' :
  Dict.get String.eqb d k = Some v ->
  Dict.keys (Dict.set String.eqb d k v') = Dict.keys d.
Proof.
  intros H. rewrite Dict.keys_set. unfold Dict.contains. now rewrite H.
Qed.

Lemma add_unique_values_keys cols rd :
  forall u, Dict.keys (fst (add_unique_values u cols rd)) = Dict.keys u.
Proof.
  induction cols as [|col cols IH]; intros u; cbn [add_unique_values];
    [reflexivity|].
  destruct (unique col && negb _); [|apply IH].
  unfold unique_set.
  destruct (Dict.get String.eqb u (Py.lower (Schema.name col))) as [s|] eqn:E;
    [|reflexivity].
  rewrite IH. now apply keys_set_present with (v := s).
Qed.

Lemma discard_unique_values_keys cols rd :
  forall u, Dict.keys (fst (discard_unique_values u cols rd)) = Dict.keys u.
Proof.
  induction cols as [|col cols IH]; intros u; cbn [discard_unique_values];
    [reflexivity|].
  destruct (unique col && negb _); [|apply IH].
  unfold unique_set.
  destruct (Dict.get String.eqb u (Py.lower (Schema.name col))) as [s|] eqn:E;
    [|reflexivity].
  rewrite IH. now apply keys_set_present with (v := s).
Qed.

Lemma apply_update_keys t rid row cn nv :
  Dict.keys (_unique_values (fst (fst (apply_update t rid row cn nv))))
  = Dict.keys (_unique_values t).
Proof.
  unfold apply_update.
  destruct (get_column (schema t) cn) as [col|e]; [|reflexivity].
  destruct (unique col).
  - unfold unique_set.
    destruct (Dict.get String.eqb (_unique_values t) cn) as [s|] eqn:E;
      [|reflexivity].
    destruct (_ <- _ ;; _) as [im|e]; cbn [fst _unique_values];
      now apply keys_set_present with (v := s).
  - destruct (_ <- _ ;; _) as [im|e]; reflexivity.
Qed.

Lemma apply_updates_keys rid :
  forall items t row,
    Dict.keys (_unique_values (fst (apply_updates t rid row items)))
    = Dict.keys (_unique_values t).
Proof.
  induction items as [|[cn nv] items IH]; intros t row; cbn [apply_updates];
    [reflexivity|].
  pose proof (apply_update_keys t rid row cn nv) as H.
  destruct (apply_update t rid row cn nv) as [[t' row'] [[]|e]];
    cbn [fst] in *; [|exact H].
  now rewrite IH.
Qed.

(** The names of the unique sets of a table are fixed when it is created. *)
Lemma step_unique_names t o :
  Dict.keys (_unique_values (step py t o)) = Dict.keys (_unique_values t).
Proof.
  destruct o as [values|rid values|rid|]; cbn [step].
  - unfold Table_insert.
    destruct (validate_insert _ _ _ _ _) as [rd|e]; [|reflexivity].
    pose proof (add_unique_values_keys (columns (schema t)) rd
                                       (_unique_values t)) as H.
    destruct (add_unique_values _ _ _) as [u [[]|e]]; cbn [fst] in *;
      [|exact H].
    destruct (index_insert_all _ _ _) as [im r2]. exact H.
  - unfold Table_update.
    destruct (Dict.get Z.eqb (_rows t) rid) as [row|]; [|reflexivity].
    destruct (validate_update _ _ _ _ _) as [n'|e]; [|reflexivity].
    pose proof (apply_updates_keys rid n' t row) as H.
    destruct (apply_updates t rid row n') as [t' [r|e]]; exact H.
  - unfold Table_delete.
    destruct (Dict.get Z.eqb (_rows t) rid) as [row|]; [|reflexivity].
    pose proof (discard_unique_values_keys (columns (schema t)) (data row)
                                           (_unique_values t)) as H.
    destruct (discard_unique_values _ _ _) as [u [[]|e]]; cbn [fst] in *;
      [|exact H].
    destruct (index_delete_all _ _ _) as [im r2]. exact H.
  - unfold Table_clear, Dict.keys. cbn [_unique_values].
    rewrite map_map. reflexivity.
Qed.

Lemma empty_sets_set (d : Dict.t string (list value)) k :
  map (fun kv => (fst kv, @nil value)) d = d ->
  map (fun kv => (fst kv, @nil value)) (Dict.set String.eqb d k []) =
  Dict.set String.eqb d k [].
Proof.
  induction d as [|[k0 v0] d IH]; cbn [map Dict.set fst]; intros H;
    [reflexivity|].
  injection H as <- Hd.
  destruct (String.eqb k k0); cbn [map fst]; [now rewrite Hd|].
  now rewrite IH.
Qed.

Lemma init_unique_values_empty_sets s :
  map (fun kv => (fst kv, @nil value)) (init_unique_values s)
  = init_unique_values s.
Proof.
  unfold init_unique_values.
  assert (H : forall cols (d : Dict.t string (list value)),
             map (fun kv => (fst kv, @nil value)) d = d ->
             let d' := fold_left
                         (fun d col =>
                            if unique col
                            then Dict.set String.eqb d
                                          (Py.lower (Schema.name col)) []
                            else d) cols d in
             map (fun kv => (fst kv, @nil value)) d' = d').
  { induction cols as [|col cols IH]; intros d Hd; cbn [fold_left];
      [exact Hd|].
    apply IH. destruct (unique col); [|exact Hd].
    now apply empty_sets_set. }
  now apply H.
Qed.

Lemma empty_sets_by_names (u u' : Dict.t string (list value)) :
  Dict.keys u = Dict.keys u' ->
  map (fun kv => (fst kv, @nil value)) u
  = map (fun kv => (fst kv, @nil value)) u'.
Proof.
  unfold Dict.keys. intros H.
  rewrite <- (map_map fst (fun k => (k, @nil value)) u).
  rewrite <- (map_map fst (fun k => (k, @nil value)) u').
  now rewrite H.
Qed.

Lemma run_unique_names ops :
  forall t, Dict.keys (_unique_values (run py t ops))
            = Dict.keys (_unique_values t).
Proof.
  induction ops as [|o ops IH]; intros t; cbn [run fold_left];
    [reflexivity|].
  fold (run py (step py t o) ops). now rewrite IH, step_unique_names.
Qed.

(** X15.  [clear] puts a table back into the state [Table(schema)] creates:
    no rows, row ids starting at 1 again, empty unique sets and new empty
    indexes. *)
Theorem clear_gives_new_table t :
  reachable py t -> Table_clear t = Table_init (schema t).
Proof.
  intros (s & ops & ->).
  assert (Hs : schema (run py (Table_init s) ops) = s).
  { apply (run_Inv py ops (Inv0_init s)). }
  assert (Hk : Dict.keys (_unique_values (run py (Table_init s) ops))
               = Dict.keys (init_unique_values s)).
  { apply run_unique_names. }
  unfold Table_clear. rewrite Hs.
  rewrite (empty_sets_by_names _ _ Hk), init_unique_values_empty_sets.
  reflexivity.
Qed.

End WithBuiltins.

(** *** The properties on the [users] table *)

Import StorageExamples.

Lemma users1_reachable : reachable stub users1.
Proof. exists users, [OpInsert alice]. reflexivity. Qed.

Definition users2 : Table :=
  run stub (Table_init users) [OpInsert alice; OpInsert bob].

Lemma insert_then_get_witness :
  reachable stub users1 /\
  Table_insert stub users1 bob = (users2, Ok (mkRow 2 bob)) /\
  Table_get users2 2 = Some (mkRow 2 bob) /\
  Table_count users2 = Table_count users1 + 1.
Proof.
  split; [exact users1_reachable|]. split; [reflexivity|].
  destruct (@insert_then_get stub users1 bob users2 (mkRow 2 bob)
              users1_reachable eq_refl) as (_ & _ & H1 & _ & H2).
  split; assumption.
Defined.

Lemma delete_then_get_witness :
  reachable stub users1 /\
  exists t',
    Table_delete users1 1 = (t', Ok (Some (mkRow 1 alice))) /\
    Table_get t' 1 = None /\
    (forall rid', rid' <> 1 -> Table_get t' rid' = Table_get users1 rid') /\
    Table_count t' = Table_count users1 - 1 /\
    _next_row_id t' = _next_row_id users1.
Proof.
  split; [exact users1_reachable|].
  exact (@delete_then_get stub users1 1 users1_reachable).
Defined.

Lemma failed_row_operation_changes_nothing_witness :
  reachable stub users1 /\
  Table_insert stub users1 bob_as_1
  = (fst (Table_insert stub users1 bob_as_1),
     Raise (PrimaryKeyViolation "id" (VInt 1))) /\
  fst (Table_insert stub users1 bob_as_1) = users1.
Proof.
  split; [exact users1_reachable|]. split; [reflexivity|].
  destruct (@failed_row_operation_changes_nothing stub users1
              users1_reachable) as (H & _).
  exact (H bob_as_1 _ _ eq_refl).
Defined.

Definition only_id : Dict.t string value := [("ID", VInt 5)].

Lemma insert_rejects_bad_value_witness :
  validate_insert stub (_unique_values users1) (normalize only_id)
                  [Column_init "id" INTEGER true false false] []
  = Ok [("id", VInt 5)] /\
  Table_insert stub users1 only_id = (users1, Raise (NotNullViolation "name")).
Proof.
  split; [reflexivity|].
  destruct (@insert_rejects_bad_value stub users1 only_id
              [Column_init "id" INTEGER true false false]
              (Column_init "name" TEXT false false true) []
              [("id", VInt 5)] eq_refl eq_refl) as [H _].
  exact (H eq_refl eq_refl).
Defined.

Lemma stored_rows_fit_schema_witness :
  reachable stub users1 /\ Table_get users1 1 = Some (mkRow 1 alice) /\
  NoDup (Dict.keys alice) /\
  (VText "Alice" <> VNull -> has_type (VText "Alice") TEXT = true).
Proof.
  split; [exact users1_reachable|]. split; [reflexivity|].
  destruct (@stored_rows_fit_schema stub users1 1 (mkRow 1 alice)
              users1_reachable eq_refl) as (H1 & _ & H2).
  split; [exact H1|].
  exact (proj2 (H2 "Name" (Column_init "name" TEXT false false true)
                   eq_refl)).
Defined.

Lemma find_by_index_scans_witness :
  reachable stub users1 /\
  Table_find_by_index users1 "Name" (VText "Alice") = Ok [mkRow 1 alice].
Proof.
  split; [exact users1_reachable|].
  exact (proj1 (@find_by_index_scans stub users1 "Name" (VText "Alice")
                  users1_reachable)).
Defined.

Lemma clear_gives_new_table_witness :
  reachable stub users1 /\ Table_clear users1 = Table_init users.
Proof.
  split; [exact users1_reachable|].
  exact (@clear_gives_new_table stub users1 users1_reachable).
Defined.

End StorageFacts.

(** ** executor.py *)

Module ExecutorFacts.
Import Datatypes Schema Storage Ast Executor.
Local Open Scope string_scope.
Local Open Scope list_scope.
Local Open Scope Z_scope.

(** The three truth values of SQL: [True], [False] and [None]. *)
Definition truth_value (v : value) : Prop :=
  v = VNull \/ exists b, v = VBool b.

Section WithBuiltins.
Variable py : Py.builtins.

(** X16.  On [True], [False] and [None] the operators AND, OR and NOT
    return a truth value and never raise: AND is [True] exactly when both
    operands are and [False] exactly when one is, OR is [True] exactly when
    one operand is and [False] exactly when both are, and NOT swaps [True]
    and [False]; in every other case the answer is [None].  NOT of an AND
    is the OR of the NOTs, and NOT of an OR the AND of the NOTs. *)
Theorem and_or_not_are_three_valued a b :
  truth_value a -> truth_value b ->
  (exists c, _apply_binary_op py AND a b = Ok c /\ truth_value c /\
             (c = VBool true <-> a = VBool true /\ b = VBool true) /\
             (c = VBool false <-> a = VBool false \/ b = VBool false)) /\
  (exists c, _apply_binary_op py OR a b = Ok c /\ truth_value c /\
             (c = VBool true <-> a = VBool true \/ b = VBool true) /\
             (c = VBool false <-> a = VBool false /\ b = VBool false)) /\
  (exists c, _apply_unary_op NOT a = Ok c /\ truth_value c /\
             (c = VBool true <-> a = VBool false) /\
             (c = VBool false <-> a = VBool true)) /\
  (c <- _apply_binary_op py AND a b ;; _apply_unary_op NOT c)
  = (na <- _apply_unary_op NOT a ;; nb <- _apply_unary_op NOT b ;;
     _apply_binary_op py OR na nb) /\
  (c <- _apply_binary_op py OR a b ;; _apply_unary_op NOT c)
  = (na <- _apply_unary_op NOT a ;; nb <- _apply_unary_op NOT b ;;
     _apply_binary_op py AND na nb).
Proof.
  unfold truth_value.
  intros [->|[[] ->]] [->|[[] ->]]; cbn;
    (split; [|split; [|split; [|split; reflexivity]]]);
    eexists; (split; [reflexivity|]); repeat split;
    try (intros; discriminate); try tauto; eauto;
    try (intros [H|H]; discriminate H);
    try (intros [H1 H2]; discriminate H1 || discriminate H2).
Qed.

(** *** Databases built by statements *)

(** The statements of a script, one after the other; a statement that
    raises leaves what it has done so far, and the script goes on, as in the
    command loop of [main.py]. *)
Definition execute_all (db : Database.t) (stmts : list Statement)
  : Database.t :=
  fold_left (fun db stmt => fst (execute py db stmt)) stmts db.

(** The catalog and the tables have the same names in the same order, each
    table is registered under the lower-case name of its schema, which is
    the schema of the catalog, and was reached by row operations from
    [Table(schema)]. *)
Record db_built (db : Database.t) : Prop := {
  built_names :
    Dict.keys (Database.catalog db) = Dict.keys (Database._tables db);
  built_tables : forall k table,
      Dict.get String.eqb (Database._tables db) k = Some table ->
      reachable py table /\
      Dict.get String.eqb (Database.catalog db) k = Some (schema table) /\
      Py.lower (table_name (schema table)) = k
}.

Lemma run_app ops1 ops2 t :
  run py t (ops1 ++ ops2) = run py (run py t ops1) ops2.
Proof. unfold run. apply fold_left_app. Qed.

Lemma reachable_run t ops : reachable py t -> reachable py (run py t ops).
Proof.
  intros (s & ops0 & ->). exists s, (ops0 ++ ops). symmetry. apply run_app.
Qed.

Lemma reachable_init s : reachable py (Table_init s).
Proof. now exists s, []. Qed.

Lemma insert_value_lists_runs columns value_lists :
  forall table n,
    exists ops, fst (insert_value_lists py table columns value_lists n)
                = run py table ops.
Proof.
  induction value_lists as [|vl rest IH]; intros table n;
    cbn [insert_value_lists]; [now exists []|].
  destruct (negb _); [now exists []|].
  destruct (insert_row_data _ _ vl []) as [rd|e]; [|now exists []].
  destruct (Table_insert py table rd) as [t1 [row|e]] eqn:E.
  - destruct (IH t1 (n + 1)) as (ops & Hops).
    exists (OpInsert rd :: ops). cbn [run fold_left step].
    rewrite E. exact Hops.
  - exists [OpInsert rd]. cbn [run fold_left step]. now rewrite E.
Qed.

Lemma update_rows_runs prefix stmt snapshot :
  forall table n,
    exists ops, fst (update_rows py table prefix stmt snapshot n)
                = run py table ops.
Proof.
  induction snapshot as [|row rest IH]; intros table n;
    cbn [update_rows]; [now exists []|].
  destruct (match upd_where stmt with None => _ | Some w => _ end)
    as [[]|e]; [|apply IH|now exists []].
  destruct (update_values _ _ _ _) as [updates|e]; [|now exists []].
  destruct (Table_update py table (row_id row) updates) as [t1 [r|e]] eqn:E.
  - destruct (IH t1 (n + 1)) as (ops & Hops).
    exists (OpUpdate (row_id row) updates :: ops). cbn [run fold_left step].
    rewrite E. exact Hops.
  - exists [OpUpdate (row_id row) updates]. cbn [run fold_left step].
    now rewrite E.
Qed.

Lemma delete_rows_runs to_delete :
  forall table,
    exists ops, fst (delete_rows table to_delete) = run py table ops.
Proof.
  induction to_delete as [|rid rest IH]; intros table; cbn [delete_rows];
    [now exists []|].
  destruct (Table_delete table rid) as [t1 [r|e]] eqn:E.
  - destruct (IH t1) as (ops & Hops).
    exists (OpDelete rid :: ops). cbn [run fold_left step].
    rewrite E. exact Hops.
  - exists [OpDelete rid]. cbn [run fold_left step]. now rewrite E.
Qed.

Lemma contains_by_keys {V W : Type} (d : Dict.t string V)
      (d' : Dict.t string W) k :
  Dict.keys d = Dict.keys d' ->
  Dict.contains String.eqb d k = Dict.contains String.eqb d' k.
Proof.
  intros H.
  destruct (Dict.contains String.eqb d k) eqn:E,
           (Dict.contains String.eqb d' k) eqn:E'; try reflexivity.
  - apply (Dict.contains_In_keys String.eqb String.eqb_eq) in E.
    rewrite H in E.
    apply (Dict.In_keys_contains String.eqb String.eqb_eq) in E. congruence.
  - apply (Dict.contains_In_keys String.eqb String.eqb_eq) in E'.
    rewrite <- H in E'.
    apply (Dict.In_keys_contains String.eqb String.eqb_eq) in E'. congruence.
Qed.

Lemma db_built_empty : db_built Database.empty.
Proof. split; [reflexivity|]. intros k table H. discriminate H. Qed.

(** Replacing a table by one reached from it keeps the database built. *)
Lemma db_built_put_table db name table ops :
  db_built db -> Database.get_table db name = Ok table ->
  db_built (Database.put_table db name (run py table ops)).
Proof.
  intros [Hn Ht] Hg. apply get_table_Ok in Hg.
  destruct (Ht _ _ Hg) as (Hr & Hc & Hk).
  assert (Hs : schema (run py table ops) = schema table).
  { apply run_Inv, (reachable_Inv0 Hr). }
  split; cbn [Database.put_table Database.catalog Database._tables].
  - rewrite Hn. symmetry. now apply StorageFacts.keys_set_present with table.
  - intros k t H. destruct (String.eqb_spec (Py.lower name) k) as [<-|Hne].
    + rewrite (Dict.get_set_same String.eqb String.eqb_eq) in H.
      injection H as <-. rewrite Hs. split; [|now split].
      now apply reachable_run.
    + rewrite (Dict.get_set_other String.eqb String.eqb_eq) in H
        by assumption.
      now apply Ht.
Qed.

Lemma db_built_execute db stmt :
  db_built db -> db_built (fst (execute py db stmt)).
Proof.
  intros Hb. destruct stmt as [c|d|i|q|u|d]; cbn [execute].
  - unfold execute_create_table.
    destruct (ct_if_not_exists c && Database.has_table db (ct_table_name c));
      [assumption|].
    destruct (cols <- convert_columns (ct_columns c) ;;
              TableSchema_init (ct_table_name c) cols) as [s|e];
      [|assumption].
    unfold Database.create_table, Catalog_create_table.
    destruct (Dict.contains String.eqb (Database.catalog db)
                (Py.lower (table_name s))) eqn:Hc; [assumption|].
    cbn [fst]. destruct Hb as [Hn Ht].
    split; cbn [Database.catalog Database._tables].
    + rewrite !Dict.keys_set, <- (contains_by_keys _ _ _ Hn), Hc.
      now rewrite Hn.
    + intros k t H.
      destruct (String.eqb_spec (Py.lower (table_name s)) k) as [<-|Hne].
      * rewrite (Dict.get_set_same String.eqb String.eqb_eq) in H.
        rewrite (Dict.get_set_same String.eqb String.eqb_eq).
        injection H as <-. split; [apply reachable_init|now split].
      * rewrite (Dict.get_set_other String.eqb String.eqb_eq) in H
          by assumption.
        rewrite (Dict.get_set_other String.eqb String.eqb_eq) by assumption.
        now apply Ht.
  - unfold execute_drop_table.
    destruct (dt_if_exists d
              && negb (Database.has_table db (dt_table_name d)));
      [assumption|].
    unfold Database.drop_table, Catalog_drop_table.
    destruct (Dict.contains String.eqb (Database.catalog db)
                (Py.lower (dt_table_name d))) eqn:Hc; [|assumption].
    destruct Hb as [Hn Ht].
    rewrite <- (contains_by_keys _ _ _ Hn), Hc. cbn [fst].
    split; cbn [Database.catalog Database._tables].
    + now rewrite !Dict.keys_remove, Hn.
    + intros k t H.
      destruct (String.eqb_spec (Py.lower (dt_table_name d)) k) as [<-|Hne].
      * now rewrite (Dict.get_remove_same String.eqb) in H.
      * rewrite (Dict.get_remove_other String.eqb String.eqb_eq) in H
          by assumption.
        rewrite (Dict.get_remove_other String.eqb String.eqb_eq)
          by assumption.
        now apply Ht.
  - unfold execute_insert.
    destruct (Database.get_table db (ins_table_name i)) as [table|e] eqn:Hg;
      [|assumption].
    destruct (insert_value_lists_runs (ins_columns i) (ins_values i) table 0)
      as (ops & Hops).
    destruct (insert_value_lists _ _ _ _ _) as [t1 r]. cbn [fst] in *.
    subst t1. now apply db_built_put_table.
  - assumption.
  - unfold execute_update.
    destruct (Database.get_table db (upd_table_name u)) as [table|e] eqn:Hg;
      [|assumption].
    destruct (update_rows_runs (Py.lower (upd_table_name u)) u
                (Table_scan table) table 0) as (ops & Hops).
    destruct (update_rows _ _ _ _ _ _) as [t1 r]. cbn [fst] in *.
    subst t1. now apply db_built_put_table.
  - unfold execute_delete.
    destruct (Database.get_table db (del_table_name d)) as [table|e] eqn:Hg;
      [|assumption].
    destruct (filter_rows _ (Table_scan table)) as [doomed|e]; [|assumption].
    destruct (delete_rows_runs (map row_id doomed) table) as (ops & Hops).
    destruct (delete_rows _ _) as [t1 r]. cbn [fst] in *.
    subst t1. now apply db_built_put_table.
Qed.

Lemma db_built_execute_all stmts :
  forall db, db_built db -> db_built (execute_all db stmts).
Proof.
  unfold execute_all.
  induction stmts as [|stmt stmts IH]; intros db Hb; cbn [fold_left];
    [assumption|].
  now apply IH, db_built_execute.
Qed.

Lemma db_built_ok db : db_built db -> db_ok db.
Proof.
  intros [Hn Ht]. split.
  - intros k table H. destruct (Ht _ _ H) as (Hr & _).
    exact (reachable_Inv0 Hr).
  - intros k H. now rewrite <- (contains_by_keys _ _ k Hn).
Qed.

(** X17.  Whatever statements are executed on a new database, and whether
    they return or raise, the catalog and the tables keep the same names,
    every table is registered under the lower-case name of its schema with
    that schema in the catalog, and every table is one that row operations
    reach from [Table(schema)]; [get_table] then answers for exactly the
    names [has_table] knows. *)
Theorem scripts_build_databases stmts :
  let db := execute_all Database.empty stmts in
  db_built db /\
  forall name,
    if Database.has_table db name
    then exists table, Database.get_table db name = Ok table /\
                       reachable py table /\
                       Py.lower (table_name (schema table)) = Py.lower name
    else Database.get_table db name = Raise (TableNotFoundError name).
Proof.
  cbv zeta.
  pose proof (db_built_execute_all stmts db_built_empty) as Hb.
  split; [assumption|]. intros name.
  set (db := execute_all Database.empty stmts) in *.
  unfold Database.has_table, Database.get_table, Catalog_has_table,
    Catalog_get_table.
  rewrite (contains_by_keys _ _ (Py.lower name) (built_names Hb)).
  unfold Dict.contains.
  destruct (Dict.get String.eqb (Database._tables db) (Py.lower name))
    as [table|] eqn:Ht.
  - destruct (built_tables Hb _ Ht) as (Hr & Hc & Hk).
    exists table. rewrite Hc. cbn [bind]. auto.
  - pose proof (contains_by_keys _ _ (Py.lower name) (built_names Hb)) as E.
    unfold Dict.contains in E. rewrite Ht in E.
    destruct (Dict.get String.eqb (Database.catalog db) (Py.lower name));
      [discriminate|reflexivity].
Qed.

(** *** What a statement that returns has done *)

Lemma get_put_table db name table table' :
  Database.get_table db name = Ok table ->
  Database.get_table (Database.put_table db name table') name = Ok table'.
Proof.
  unfold Database.get_table, Database.put_table.
  cbn [Database.catalog Database._tables]. intros H.
  destruct (Catalog_get_table (Database.catalog db) name); [|discriminate].
  cbn [bind]. now rewrite (Dict.get_set_same String.eqb String.eqb_eq).
Qed.

Lemma insert_value_lists_Ok columns value_lists :
  forall table n table' m,
    Inv0 table ->
    insert_value_lists py table columns value_lists n = (table', Ok m) ->
    m = n + lenZ value_lists /\
    Table_count table' = Table_count table + lenZ value_lists /\
    _next_row_id table' = _next_row_id table + lenZ value_lists /\
    (forall rid row, Table_get table rid = Some row ->
                     Table_get table' rid = Some row) /\
    (forall rid, _next_row_id table <= rid < _next_row_id table' ->
                 exists row, Table_get table' rid = Some row /\
                             row_id row = rid).
Proof.
  unfold lenZ.
  induction value_lists as [|vl rest IH]; intros table n table' m H0 H;
    cbn [insert_value_lists] in H.
  - injection H as <- <-. cbn [length].
    repeat split; try lia; auto; intros rid Hrid; lia.
  - destruct (negb _); [discriminate|].
    destruct (insert_row_data _ _ vl []) as [rd|e]; [|discriminate].
    destruct (@Table_insert_cases py table rd H0)
      as [(e & _ & E)|(rd' & _ & E)]; rewrite E in H; [discriminate|].
    fold (inserted table rd') in H.
    apply IH in H; [|now apply Inv0_inserted].
    destruct H as (Hm & Hc & Hn & Hold & Hnew).
    assert (Hfresh : Dict.get Z.eqb (_rows table) (_next_row_id table) = None).
    { destruct (Dict.get Z.eqb (_rows table) (_next_row_id table)) as [r|]
        eqn:Hg; [|reflexivity].
      destruct (inv_ids H0 Hg). lia. }
    assert (Hcount : Table_count (inserted table rd') = Table_count table + 1).
    { unfold Table_count, inserted. cbn [_rows].
      apply StorageFacts.length_set_new. unfold Dict.contains.
      now rewrite Hfresh. }
    cbn [inserted _next_row_id] in Hn, Hnew. cbn [length].
    repeat split; try lia.
    + intros rid row Hg. apply Hold. unfold Table_get, inserted in *.
      cbn [_rows]. rewrite (Dict.get_set_other Z.eqb Z.eqb_eq); [assumption|].
      intros <-. congruence.
    + intros rid Hrid.
      destruct (Z.eq_dec rid (_next_row_id table)) as [->|Hne].
      * exists (mkRow (_next_row_id table) rd'). split; [|reflexivity].
        apply Hold. unfold Table_get, inserted. cbn [_rows].
        apply (Dict.get_set_same Z.eqb Z.eqb_eq).
      * apply Hnew. lia.
Qed.

(** X18.  An INSERT statement that returns reports as many affected rows as
    it has value lists; the table has that many rows more, all rows it had
    are still there, and the new rows have the next row ids in order, one
    per value list. *)
Theorem insert_statement_adds_rows db stmt db' qr :
  db_ok db -> execute py db (Insert stmt) = (db', Ok qr) ->
  qr = mkQueryResult [] [] (lenZ (ins_values stmt)) /\
  exists table table',
    Database.get_table db (ins_table_name stmt) = Ok table /\
    Database.get_table db' (ins_table_name stmt) = Ok table' /\
    Table_count table' = Table_count table + lenZ (ins_values stmt) /\
    _next_row_id table' = _next_row_id table + lenZ (ins_values stmt) /\
    (forall rid row, Table_get table rid = Some row ->
                     Table_get table' rid = Some row) /\
    (forall rid, _next_row_id table <= rid < _next_row_id table' ->
                 exists row, Table_get table' rid = Some row /\
                             row_id row = rid).
Proof.
  intros Hok H. cbn [execute] in H. unfold execute_insert in H.
  destruct (Database.get_table db (ins_table_name stmt)) as [table|e] eqn:Hg;
    [|discriminate].
  pose proof (ok_tables Hok _ (get_table_Ok _ _ Hg)) as H0.
  destruct (insert_value_lists py table (ins_columns stmt) (ins_values stmt) 0)
    as [table' [m|e]] eqn:E; [|discriminate].
  cbn [bind] in H. injection H as <- <-.
  destruct (@insert_value_lists_Ok _ _ _ _ _ _ H0 E)
    as (-> & H1 & H2 & H3 & H4).
  split; [reflexivity|]. exists table, table'.
  split; [reflexivity|]. split; [now apply get_put_table with table|].
  auto.
Qed.

(** A list comprehension that returns has kept the elements whose
    condition returned [True]. *)
Lemma filter_rows_Ok {A : Type} (keep : A -> result bool) :
  forall l r,
    filter_rows keep l = Ok r ->
    r = filter (fun a => match keep a with Ok b => b | Raise _ => false end) l.
Proof.
  induction l as [|a l IH]; intros r H; cbn [filter_rows filter] in *.
  - now apply Ok_inj in H.
  - destruct (keep a) as [b|e]; [|discriminate]. cbn [bind] in H.
    destruct (filter_rows keep l) as [rest|e]; [|discriminate].
    cbn [bind] in H. apply Ok_inj in H. subst r.
    rewrite <- (IH rest eq_refl). reflexivity.
Qed.

Lemma filter_absent_key {V : Type} (d : Dict.t Z V) k :
  Dict.get Z.eqb d k = None ->
  filter (fun kv => negb (Z.eqb k (fst kv))) d = d.
Proof.
  induction d as [|[k0 v0] d IH]; cbn [Dict.get filter fst];
    [reflexivity|].
  destruct (Z.eqb k k0); [discriminate|]. intros H. cbn [negb].
  now rewrite IH.
Qed.

Lemma filter_filter {A : Type} (f g : A -> bool) l :
  filter g (filter f l) = filter (fun a => f a && g a) l.
Proof.
  induction l as [|a l IH]; cbn [filter]; [reflexivity|].
  destruct (f a); cbn [filter andb]; [|assumption].
  destruct (g a); now rewrite IH.
Qed.

Lemma map_snd_filter {K V : Type} (g : V -> bool) (d : list (K * V)) :
  map snd (filter (fun kv => g (snd kv)) d) = filter g (map snd d).
Proof.
  induction d as [|[k v] d IH]; cbn [filter map snd]; [reflexivity|].
  destruct (g v); cbn [map snd]; now rewrite IH.
Qed.

(** The second loop of [execute_delete] takes the rows of the given ids
    away, and nothing else. *)
Lemma delete_rows_rows to_delete :
  forall table,
    Inv0 table ->
    let table' := fst (delete_rows table to_delete) in
    _rows table'
    = filter (fun kv => negb (existsb (Z.eqb (fst kv)) to_delete))
             (_rows table) /\
    _next_row_id table' = _next_row_id table /\
    schema table' = schema table.
Proof.
  induction to_delete as [|rid rest IH]; intros table H0; cbv zeta;
    cbn [delete_rows fst existsb].
  - repeat split. cbn [negb]. induction (_rows table) as [|kv d IHd];
      cbn [filter]; [reflexivity|]. now rewrite <- IHd.
  - destruct (@Table_delete_cases table rid H0) as [[Hg ->]|(row & Hl & ->)].
    + destruct (IH table H0) as (H1 & H2 & H3). repeat split; try assumption.
      rewrite H1. rewrite <- (filter_absent_key _ _ Hg) at 1.
      rewrite filter_filter. apply filter_ext. intros [k v]. cbn [fst].
      rewrite (Z.eqb_sym k rid). now rewrite negb_orb.
    + destruct (IH (deleted table rid row) (Inv0_deleted rid row H0))
        as (H1 & H2 & H3).
      repeat split; try assumption.
      rewrite H1. unfold deleted. cbn [_rows]. unfold Dict.remove.
      rewrite filter_filter. apply filter_ext. intros [k v]. cbn [fst].
      rewrite (Z.eqb_sym k rid). now rewrite negb_orb.
Qed.

(** Whether [execute_delete] puts a row on its list: no WHERE clause, or
    one that is true on the row. *)
Definition selected (stmt : DeleteStmt) (table : Table) (row : Row) : bool :=
  match del_where stmt with
  | None => true
  | Some w =>
      let prefix := Py.lower (del_table_name stmt) in
      match _evaluate_where py [(prefix, table)] (prefixed prefix row) w with
      | Ok b => b
      | Raise _ => false
      end
  end.

(** X19.  A DELETE statement that returns has removed exactly the rows on
    which its WHERE clause was true (every row without one), kept the
    others in their order, left the row-id counter alone, and reports the
    number of removed rows. *)
Theorem delete_statement_removes_selected db stmt db' qr :
  db_ok db -> execute py db (Delete stmt) = (db', Ok qr) ->
  exists table table',
    Database.get_table db (del_table_name stmt) = Ok table /\
    Database.get_table db' (del_table_name stmt) = Ok table' /\
    qr = mkQueryResult [] []
           (lenZ (filter (selected stmt table) (Table_scan table))) /\
    Table_scan table'
    = filter (fun row => negb (selected stmt table row)) (Table_scan table) /\
    _next_row_id table' = _next_row_id table /\
    schema table' = schema table.
Proof.
  intros Hok H. cbn [execute] in H. unfold execute_delete in H.
  destruct (Database.get_table db (del_table_name stmt)) as [table|e] eqn:Hg;
    [|discriminate].
  pose proof (ok_tables Hok _ (get_table_Ok _ _ Hg)) as H0.
  destruct (filter_rows _ (Table_scan table)) as [doomed|e] eqn:Hf;
    [|discriminate].
  apply filter_rows_Ok in Hf.
  assert (Hd : doomed = filter (selected stmt table) (Table_scan table)).
  { rewrite Hf. apply filter_ext. intros row. unfold selected.
    now destruct (del_where stmt). }
  clear Hf.
  destruct (delete_rows_rows (map row_id doomed) H0) as (H1 & H2 & H3).
  pose proof (@delete_rows_returns py (map row_id doomed) table H0) as Hr.
  destruct (delete_rows table (map row_id doomed)) as [table' r].
  cbn [fst snd] in *. subst r. cbn [bind] in H. injection H as <- <-.
  exists table, table'. split; [reflexivity|].
  split; [now apply get_put_table with table|].
  split; [unfold lenZ; now rewrite Hd, length_map|].
  split; [|now split].
  unfold Table_scan. rewrite H1, <- map_snd_filter. f_equal.
  apply filter_ext_in. intros [k row] Hin. cbn [fst snd]. f_equal.
  assert (Hlive : forall k' row', In (k', row') (_rows table) ->
                                  row_id row' = k').
  { intros k' row' Hin'.
    apply (Dict.In_get Z.eqb Z.eqb_eq) in Hin'; [|apply (inv_keys H0)].
    now destruct (inv_ids H0 Hin'). }
  destruct (selected stmt table row) eqn:Hsel.
  - apply existsb_exists. exists k. split; [|apply Z.eqb_refl].
    apply in_map_iff. exists row. split; [now apply Hlive|].
    rewrite Hd. apply filter_In. split; [|assumption].
    unfold Table_scan. apply in_map_iff. now exists (k, row).
  - destruct (existsb (Z.eqb k) (map row_id doomed)) eqn:Hex;
      [|reflexivity].
    apply existsb_exists in Hex. destruct Hex as (k' & Hk' & Heq).
    apply Z.eqb_eq in Heq. subst k'.
    apply in_map_iff in Hk'. destruct Hk' as (row' & Hid & Hrow').
    rewrite Hd in Hrow'. apply filter_In in Hrow'.
    destruct Hrow' as [Hscan Hsel'].
    unfold Table_scan in Hscan. apply in_map_iff in Hscan.
    destruct Hscan as ([k' row''] & E & Hin'). cbn [snd] in E. subst row''.
    pose proof (Hlive _ _ Hin') as E. rewrite Hid in E. subst k'.
    apply (Dict.In_get Z.eqb Z.eqb_eq) in Hin; [|apply (inv_keys H0)].
    apply (Dict.In_get Z.eqb Z.eqb_eq) in Hin'; [|apply (inv_keys H0)].
    congruence.
Qed.

(** *** CREATE TABLE and DROP TABLE *)

Lemma remove_set_new {V : Type} (d : Dict.t string V) k v :
  Dict.get String.eqb d k = None ->
  Dict.remove String.eqb (Dict.set String.eqb d k v) k = d.
Proof.
  unfold Dict.remove.
  induction d as [|[k0 v0] d IH]; cbn [Dict.get Dict.set filter fst].
  - intros _. now rewrite String.eqb_refl.
  - destruct (String.eqb k k0) eqn:E; [discriminate|]. intros H.
    cbn [filter fst]. rewrite E. cbn [negb]. now rewrite IH.
Qed.

Lemma convert_columns_names defs :
  forall cols, convert_columns defs = Ok cols ->
               map Schema.name cols = map cd_name defs.
Proof.
  induction defs as [|d defs IH]; intros cols H; cbn [convert_columns] in H.
  - apply Ok_inj in H. now subst.
  - destruct (from_string (cd_data_type d)) as [dt|e]; [|discriminate].
    cbn [bind] in H.
    destruct (convert_columns defs) as [rest|e]; [|discriminate].
    cbn [bind] in H. apply Ok_inj in H. subst cols. cbn [map].
    f_equal. now apply IH.
Qed.

(** X20.  CREATE TABLE of a name the database does not have, when it
    returns, registers a new empty table under the lower-case name, with the
    columns in the order written, and leaves the other tables alone;
    DROP TABLE of that name in any letter case then returns and gives back
    the database as it was before. *)
Theorem create_then_drop db stmt db' qr name' if_exists :
  db_built db ->
  Database.has_table db (ct_table_name stmt) = false ->
  Py.lower name' = Py.lower (ct_table_name stmt) ->
  execute py db (Create stmt) = (db', Ok qr) ->
  qr = mkQueryResult [] [] 0 /\
  (exists s,
      Database.get_table db' name' = Ok (Table_init s) /\
      table_name s = ct_table_name stmt /\
      map Schema.name (Schema.columns s) = map cd_name (ct_columns stmt)) /\
  Database.has_table db' name' = true /\
  (forall other, Py.lower other <> Py.lower (ct_table_name stmt) ->
                 Database.get_table db' other = Database.get_table db other) /\
  execute py db' (Drop (mkDropTableStmt name' if_exists))
  = (db, Ok (mkQueryResult [] [] 0)).
Proof.
  intros Hb Hhas Hname H. cbn [execute] in *. unfold execute_create_table in H.
  rewrite Hhas, andb_false_r in H.
  destruct (convert_columns (ct_columns stmt)) as [cols|e] eqn:Hcols;
    [|discriminate].
  cbn [bind] in H. unfold TableSchema_init in H.
  destruct (1 <? lenZ (filter primary_key cols)); [discriminate|].
  unfold Database.create_table, Catalog_create_table in H.
  cbn [table_name] in H.
  unfold Database.has_table, Catalog_has_table in Hhas. rewrite Hhas in H.
  cbn [bind] in H. injection H as <- <-.
  assert (Hc : Dict.get String.eqb (Database.catalog db)
                        (Py.lower (ct_table_name stmt)) = None).
  { unfold Dict.contains in Hhas.
    now destruct (Dict.get String.eqb (Database.catalog db) _). }
  assert (Ht : Dict.get String.eqb (Database._tables db)
                        (Py.lower (ct_table_name stmt)) = None).
  { rewrite (contains_by_keys _ _ _ (built_names Hb)) in Hhas.
    unfold Dict.contains in Hhas.
    now destruct (Dict.get String.eqb (Database._tables db) _). }
  split; [reflexivity|]. split; [|split; [|split]].
  - exists (mkTableSchema (ct_table_name stmt) cols).
    unfold Database.get_table, Catalog_get_table.
    cbn [Database.catalog Database._tables table_name Schema.columns].
    rewrite Hname, !(Dict.get_set_same String.eqb String.eqb_eq).
    split; [reflexivity|]. split; [reflexivity|].
    now apply convert_columns_names.
  - unfold Database.has_table, Catalog_has_table, Dict.contains.
    cbn [Database.catalog]. rewrite Hname.
    now rewrite (Dict.get_set_same String.eqb String.eqb_eq).
  - intros other Hne.
    unfold Database.get_table, Catalog_get_table.
    cbn [Database.catalog Database._tables].
    rewrite !(Dict.get_set_other String.eqb String.eqb_eq) by congruence.
    reflexivity.
  - unfold execute_drop_table. cbn [dt_table_name dt_if_exists].
    unfold Database.has_table, Catalog_has_table, Database.drop_table,
      Catalog_drop_table, Dict.contains.
    cbn [Database.catalog Database._tables]. rewrite Hname.
    rewrite !(Dict.get_set_same String.eqb String.eqb_eq).
    cbn [negb]. rewrite andb_false_r. cbn [bind].
    rewrite !remove_set_new by assumption. now destruct db.
Qed.

(** X21.  DROP TABLE of a name the database does not have changes
    nothing: it raises [TableNotFoundError] with the name as written, and
    with IF EXISTS it returns; CREATE TABLE of a name the database has
    changes nothing either: it raises [TableExistsError], [ValueError] for
    an unknown type name or a second primary key, or returns when it has
    IF NOT EXISTS. *)
Theorem missing_and_existing_tables db :
  (forall name if_exists,
      Database.has_table db name = false ->
      execute py db (Drop (mkDropTableStmt name if_exists))
      = (db, if if_exists then Ok (mkQueryResult [] [] 0)
             else Raise (TableNotFoundError name))) /\
  (forall stmt,
      Database.has_table db (ct_table_name stmt) = true ->
      (ct_if_not_exists stmt = true ->
       execute py db (Create stmt) = (db, Ok (mkQueryResult [] [] 0))) /\
      (ct_if_not_exists stmt = false ->
       exists e, execute py db (Create stmt) = (db, Raise e) /\
                 (e = TableExistsError (ct_table_name stmt) \/
                  e = ValueError))).
Proof.
  split.
  - intros name if_exists Hhas. cbn [execute]. unfold execute_drop_table.
    cbn [dt_table_name dt_if_exists]. rewrite Hhas. cbn [negb].
    rewrite andb_true_r. destruct if_exists; [reflexivity|].
    unfold Database.drop_table, Catalog_drop_table.
    unfold Database.has_table, Catalog_has_table in Hhas. now rewrite Hhas.
  - intros stmt Hhas. cbn [execute]. unfold execute_create_table.
    rewrite Hhas, andb_true_r. split; intros ->; [reflexivity|].
    destruct (convert_columns (ct_columns stmt)) as [cols|e] eqn:Hcols;
      cbn [bind].
    + unfold TableSchema_init.
      destruct (1 <? lenZ (filter primary_key cols)); [eauto|].
      unfold Database.create_table, Catalog_create_table.
      cbn [table_name].
      unfold Database.has_table, Catalog_has_table in Hhas. rewrite Hhas.
      cbn [bind]. eauto.
    + exists e. split; [reflexivity|]. right.
      clear Hhas. revert e Hcols.
      assert (H : forall defs e, convert_columns defs = Raise e ->
                                 e = ValueError).
      { induction defs as [|d defs IH]; intros e H; cbn [convert_columns] in H;
          [discriminate|].
        destruct (from_string (cd_data_type d)) as [dt|e1] eqn:E.
        - cbn [bind] in H.
          destruct (convert_columns defs) as [rest|e2]; [discriminate|].
          cbn [bind] in H. injection H as <-. now apply IH.
        - cbn [bind] in H. injection H as <-. unfold from_string in E.
          destruct (lookup type_map (Py.upper (cd_data_type d)));
            [discriminate|congruence]. }
      intros e0 Hc. now apply H with (ct_columns stmt).
Qed.

(** *** SELECT *)

Lemma insert_sorted_length {A : Type} (cmp : A -> A -> result Z) x :
  forall l r, insert_sorted cmp x l = Ok r -> length r = S (length l).
Proof.
  induction l as [|y l IH]; intros r H; cbn [insert_sorted] in H.
  - apply Ok_inj in H. now subst.
  - destruct (cmp y x) as [c|e]; [|discriminate]. cbn [bind] in H.
    destruct (c <? 0).
    + destruct (insert_sorted cmp x l) as [rest|e]; [|discriminate].
      cbn [bind] in H. apply Ok_inj in H. subst r. cbn [length].
      now rewrite (IH rest eq_refl).
    + apply Ok_inj in H. now subst.
Qed.

Lemma sorted_length {A : Type} (cmp : A -> A -> result Z) :
  forall l r, sorted cmp l = Ok r -> length r = length l.
Proof.
  induction l as [|x l IH]; intros r H; cbn [sorted] in H.
  - apply Ok_inj in H. now subst.
  - destruct (sorted cmp l) as [s|e]; [|discriminate]. cbn [bind] in H.
    apply insert_sorted_length in H. rewrite H. cbn [length].
    now rewrite (IH s eq_refl).
Qed.

Lemma map_result_length {A B : Type} (f : A -> result B) :
  forall l r, map_result f l = Ok r -> length r = length l.
Proof.
  induction l as [|a l IH]; intros r H; cbn [map_result] in H.
  - apply Ok_inj in H. now subst.
  - destruct (f a) as [b|e]; [|discriminate]. cbn [bind] in H.
    destruct (map_result f l) as [rest|e]; [|discriminate].
    cbn [bind] in H. apply Ok_inj in H. subst r. cbn [length].
    now rewrite (IH rest eq_refl).
Qed.

(** X22.  With an OFFSET and a LIMIT that are not negative, a SELECT that
    returns gives as many rows as are left of its input after the first
    OFFSET rows, but not more than LIMIT; ORDER BY and the projection
    neither add nor drop a row, and [affected_rows] is 0. *)
Theorem limit_and_offset_count ctx stmt input qr :
  select_after_where py ctx stmt input = Ok qr ->
  (forall o, sel_offset stmt = Some o -> 0 <= o) ->
  (forall l, sel_limit stmt = Some l -> 0 <= l) ->
  let skipped := match sel_offset stmt with Some o => o | None => 0 end in
  let left := Z.max 0 (lenZ input - skipped) in
  lenZ (rows qr) = match sel_limit stmt with
                   | Some l => Z.min l left
                   | None => left
                   end /\
  affected_rows qr = 0.
Proof.
  unfold select_after_where, lenZ. intros H Ho Hl. cbv zeta.
  destruct (match sel_order_by stmt with [] => Ok input | _ :: _ => _ end)
    as [ordered|e] eqn:Hord; [|discriminate].
  assert (Hlen : length ordered = length input).
  { destruct (sel_order_by stmt) as [|i l].
    - apply Ok_inj in Hord. now subst.
    - now apply sorted_length in Hord. }
  cbn [bind] in H.
  destruct (_project_columns _ _ _ _) as [[names result_rows]|e] eqn:Hp;
    [|discriminate].
  cbn [bind] in H. apply Ok_inj in H. subst qr. cbn [rows affected_rows].
  split; [|reflexivity].
  unfold _project_columns in Hp.
  destruct (result_columns _ _ _) as [ns|e]; [|discriminate].
  cbn [bind] in Hp.
  destruct (map_result _ _) as [rs|e] eqn:Hm; [|discriminate].
  cbn [bind] in Hp. apply Ok_inj in Hp. injection Hp as <- <-.
  apply map_result_length in Hm. rewrite Hm. clear Hm.
  assert (Hoff : Z.of_nat
                   (length match sel_offset stmt with
                           | Some o => if o =? 0 then ordered
                                       else slice_from ordered o
                           | None => ordered
                           end)
                 = Z.max 0 (Z.of_nat (length input)
                            - match sel_offset stmt with
                              | Some o => o
                              | None => 0
                              end)).
  { destruct (sel_offset stmt) as [o|]; [|lia].
    specialize (Ho o eq_refl).
    destruct (Z.eqb_spec o 0) as [->|Hne]; [lia|].
    unfold slice_from. destruct (Z.ltb_spec o 0); [lia|].
    rewrite length_skipn. lia. }
  destruct (sel_limit stmt) as [l|]; [|exact Hoff].
  specialize (Hl l eq_refl). unfold slice_to.
  destruct (Z.ltb_spec l 0); [lia|].
  rewrite length_firstn. lia.
Qed.

(** [SELECT * FROM table_ref] *)
Definition select_star (table_ref : TableRef) : SelectStmt :=
  mkSelectStmt [StarExpr None] (Some table_ref) None [] None None.

Lemma get_fold_set {A : Type} (key : A -> string) (val : A -> value) k v :
  forall (l : list A) (acc : Dict.t string value),
    (forall a, In a l -> key a = k -> val a = v) ->
    (exists a, In a l /\ key a = k) \/ Dict.get String.eqb acc k = Some v ->
    Dict.get String.eqb
      (fold_left (fun d a => Dict.set String.eqb d (key a) (val a)) l acc) k
    = Some v.
Proof.
  induction l as [|a l IH]; intros acc Hval H; cbn [fold_left].
  - destruct H as [(a & [] & _)|H]. exact H.
  - apply IH; [intros b Hb; apply Hval; now right|].
    destruct H as [(b & [<-|Hb] & Hk)|H].
    + right. rewrite Hk, <- (Hval a (or_introl eq_refl) Hk).
      apply (Dict.get_set_same String.eqb String.eqb_eq).
    + left. eauto.
    + right. destruct (String.eqb_spec (key a) k) as [Hk|Hne].
      * rewrite Hk, <- (Hval a (or_introl eq_refl) Hk).
        apply (Dict.get_set_same String.eqb String.eqb_eq).
      * now rewrite (Dict.get_set_other String.eqb String.eqb_eq).
Qed.

Lemma map_result_pure {A B : Type} (f : A -> result B) (g : A -> B) :
  forall l, (forall a, In a l -> f a = Ok (g a)) ->
            map_result f l = Ok (map g l).
Proof.
  induction l as [|a l IH]; intros H; cbn [map_result map]; [reflexivity|].
  rewrite (H a) by now left. cbn [bind].
  rewrite IH by (intros b Hb; apply H; now right). reflexivity.
Qed.

(** X23.  [SELECT * FROM t], on a table of a database built by statements,
    returns one result row per stored row, in insertion order; the columns
    are named [t.column] with the lower-cased table name or alias, and every
    result row holds under each of these names the value the stored row has
    in that column. *)
Theorem select_star_returns_rows db table_ref table :
  db_built db -> Database.get_table db (tr_name table_ref) = Ok table ->
  let prefix := Py.lower (effective_name table_ref) in
  exists result_rows,
    execute_select py db (select_star table_ref)
    = Ok (mkQueryResult (star_columns prefix table) result_rows 0) /\
    length result_rows = length (Table_scan table) /\
    forall i row,
      nth_error (Table_scan table) i = Some row ->
      exists r,
        nth_error result_rows i = Some r /\
        forall col, In col (Schema.columns (schema table)) ->
                    data_get r (dotted prefix (Schema.name col))
                    = cell row (Py.lower (Schema.name col)).
Proof.
  intros Hb Hg prefix.
  destruct (built_tables Hb _ (get_table_Ok _ _ Hg)) as (Hr & _ & _).
  pose proof (reachable_Inv0 Hr) as H0.
  pose proof (reachable_rows_ok Hr) as Hrows.
  set (out := fun row => project_star prefix table (prefixed prefix row) []).
  exists (map out (Table_scan table)).
  split; [|split].
  - unfold execute_select, select_star.
    cbn [sel_from sel_where sel_columns]. rewrite Hg. cbn [bind].
    unfold select_after_where.
    cbn [sel_order_by sel_offset sel_limit sel_columns bind].
    unfold _project_columns.
    cbn [result_columns nonempty flat_map fst snd bind].
    rewrite !app_nil_r. fold prefix.
    unfold _table_to_rows. fold prefix.
    rewrite (map_result_pure _
               (fun w => project_star prefix table (bindings w) []));
      [|reflexivity].
    cbn [bind]. now rewrite map_map.
  - apply length_map.
  - intros i row Hi. exists (out row).
    split; [now apply map_nth_error|]. intros col Hin.
    assert (Hlive : live table (row_id row) row).
    { apply nth_error_In in Hi. unfold Table_scan in Hi.
      apply in_map_iff in Hi. destruct Hi as ([k row'] & E & Hi).
      cbn [snd] in E. subst row'.
      apply (Dict.In_get Z.eqb Z.eqb_eq) in Hi; [|apply (inv_keys H0)].
      now destruct (inv_ids H0 Hi) as [-> _]. }
    destruct (Hrows _ _ Hlive) as [Hnd _].
    unfold data_get at 1, out, project_star.
    rewrite (get_fold_set
               (fun c => dotted prefix (Schema.name c))
               (fun c => data_get (prefixed prefix row)
                           (dotted (Py.lower prefix)
                                   (Py.lower (Schema.name c))))
               (k := dotted prefix (Schema.name col))
               (v := cell row (Py.lower (Schema.name col)))); [reflexivity| |].
    + intros c _ E. apply dotted_inj in E. rewrite E.
      unfold prefix at 2. rewrite Py.lower_idem. fold prefix.
      unfold data_get, cell. now rewrite (prefixed_get prefix row _ Hnd).
    + left. eauto.
Qed.


(** *** UPDATE *)

(** The tables of the context matter to an expression by their names
    only. *)
Lemma evaluate_expr_names (ctx ctx' : ExecutionContext) row e :
  Dict.keys ctx = Dict.keys ctx' ->
  evaluate_expr py (Some ctx) row e = evaluate_expr py (Some ctx') row e.
Proof.
  intros Hk. induction e as [v|column table|l IHl op r IHr|op e IH|table];
    cbn [evaluate_expr]; try reflexivity.
  - unfold resolve_column. now rewrite Hk.
  - now rewrite IHl, IHr.
  - now rewrite IH.
Qed.

Lemma update_values_names (ctx ctx' : ExecutionContext) row assignments :
  Dict.keys ctx = Dict.keys ctx' ->
  forall updates,
    update_values py ctx row assignments updates
    = update_values py ctx' row assignments updates.
Proof.
  intros Hk. induction assignments as [|[cn e] rest IH]; intros updates;
    cbn [update_values]; [reflexivity|].
  rewrite (@evaluate_expr_names ctx ctx' row e Hk).
  destruct (evaluate_expr py (Some ctx') row e); cbn [bind]; auto.
Qed.

(** [Table.update] touches the row of its id only. *)
Lemma Table_update_frame t rid values rid' :
  Inv0 t -> rid' <> rid ->
  Table_get (fst (Table_update py t rid values)) rid' = Table_get t rid'.
Proof.
  intros H0 Hne. unfold Table_update.
  destruct (Dict.get Z.eqb (_rows t) rid) as [row|] eqn:Hrow; [|reflexivity].
  destruct (validate_update py t row (normalize values) (normalize values))
    as [n'|e] eqn:Hv; [|reflexivity].
  destruct (normalize_keys values) as [Hnd Hlow].
  destruct (@validate_update_spec py t row (normalize values) [] n'
              Hnd Hlow Hv) as (items' & -> & Hk & Hall).
  cbn [app] in *. rewrite <- Hk in Hnd.
  pose proof (@StorageFacts.apply_updates_keeps
                (fun t0 => Table_get t0 rid' = Table_get t rid')
                (fun _ _ => True) rid) as Hkeep.
  assert (Hstep : forall t0 row0 col cn nv,
             Inv0 t0 -> live t0 rid row0 -> True ->
             Table_get t0 rid' = Table_get t rid' ->
             Table_get (table_after t0 rid row0 col cn nv) rid'
             = Table_get t rid').
  { intros t0 row0 col cn nv _ _ _ <-. unfold Table_get, table_after.
    cbn [_rows]. apply (Dict.get_set_other Z.eqb Z.eqb_eq). congruence. }
  pose proof (Hkeep Hstep items' t row H0 Hrow Hnd Hall) as H.
  assert (HQ : Forall (fun _ : string * value => True) items')
    by (apply Forall_forall; auto).
  specialize (H HQ eq_refl).
  destruct (apply_updates t rid row items') as [t' [r|e]]; exact H.
Qed.

(** Whether [execute_update] updates a row: no WHERE clause, or one that is
    true on the row. *)
Definition chosen (stmt : UpdateStmt) (table : Table) (row : Row) : bool :=
  match upd_where stmt with
  | None => true
  | Some w =>
      let prefix := Py.lower (upd_table_name stmt) in
      match _evaluate_where py [(prefix, table)] (prefixed prefix row) w with
      | Ok b => b
      | Raise _ => false
      end
  end.

Lemma update_rows_Ok stmt table0 snapshot :
  forall table n table' m,
    Inv0 table ->
    update_rows py table (Py.lower (upd_table_name stmt)) stmt snapshot n
    = (table', Ok m) ->
    m = n + lenZ (filter (chosen stmt table0) snapshot) /\
    Inv0 table' /\
    Dict.keys (_rows table') = Dict.keys (_rows table) /\
    _next_row_id table' = _next_row_id table /\
    schema table' = schema table /\
    (forall rid,
        ~ In rid (map row_id (filter (chosen stmt table0) snapshot)) ->
        Table_get table' rid = Table_get table rid).
Proof.
  unfold lenZ.
  induction snapshot as [|row rest IH]; intros table n table' m H0 H;
    cbn [update_rows] in H.
  - injection H as <- <-. cbn [filter length map].
    split; [lia|]. split; [assumption|]. repeat split; auto.
  - assert (Hw : match upd_where stmt with
                 | None => Ok true
                 | Some w =>
                     _evaluate_where py
                       [(Py.lower (upd_table_name stmt), table)]
                       (prefixed (Py.lower (upd_table_name stmt)) row) w
                 end
                 = match upd_where stmt with
                   | None => Ok true
                   | Some w =>
                       _evaluate_where py
                         [(Py.lower (upd_table_name stmt), table0)]
                         (prefixed (Py.lower (upd_table_name stmt)) row) w
                   end).
    { destruct (upd_where stmt) as [w|]; [|reflexivity].
      unfold _evaluate_where.
      now rewrite (@evaluate_expr_names
                     [(Py.lower (upd_table_name stmt), table)]
                     [(Py.lower (upd_table_name stmt), table0)] _ w eq_refl). }
    rewrite Hw in H. clear Hw.
    assert (Hc : forall b,
               match upd_where stmt with
               | None => Ok true
               | Some w =>
                   _evaluate_where py
                     [(Py.lower (upd_table_name stmt), table0)]
                     (prefixed (Py.lower (upd_table_name stmt)) row) w
               end = Ok b -> chosen stmt table0 row = b).
    { unfold chosen. destruct (upd_where stmt) as [w|].
      - cbv zeta. intros b ->. reflexivity.
      - now intros b [= <-]. }
    destruct (match upd_where stmt with None => _ | Some _ => _ end)
      as [[|]|e]; [| |discriminate].
    + specialize (Hc true eq_refl).
      destruct (update_values _ _ _ _ _) as [updates|e]; [|discriminate].
      pose proof (@Table_update_frame table (row_id row) updates) as Hframe.
      destruct (@Table_update_cases py table (row_id row) updates H0)
        as [E|[(e & E)|(t1 & row' & E & H1 & _ & Hs & Hn & Hk)]];
        rewrite E in H, Hframe; cbn [fst] in Hframe; [| discriminate |].
      * apply IH in H; [|assumption].
        destruct H as (-> & Hi & Hk' & Hn' & Hs' & Hf').
        cbn [filter]. rewrite Hc. cbn [length map].
        split; [lia|]. split; [assumption|]. repeat split; auto.
        intros rid Hrid. apply Hf'. intros Hin. apply Hrid. now right.
      * apply IH in H; [|assumption].
        destruct H as (-> & Hi & Hk' & Hn' & Hs' & Hf').
        cbn [filter]. rewrite Hc. cbn [length map].
        split; [lia|]. split; [assumption|].
        repeat split; try congruence.
        intros rid Hrid. rewrite Hf'.
        -- apply Hframe; [assumption|]. intros ->. apply Hrid. now left.
        -- intros Hin. apply Hrid. now right.
    + specialize (Hc false eq_refl).
      apply IH in H; [|assumption].
      destruct H as (-> & Hi & Hk' & Hn' & Hs' & Hf').
      cbn [filter]. rewrite Hc.
      split; [reflexivity|]. split; [assumption|]. repeat split; auto.
Qed.

Lemma scan_rows t row :
  Inv0 t -> In row (Table_scan t) -> Table_get t (row_id row) = Some row.
Proof.
  intros H0 Hin. unfold Table_scan in Hin. apply in_map_iff in Hin.
  destruct Hin as ([k r] & E & Hin). cbn [snd] in E. subst r.
  apply (Dict.In_get Z.eqb Z.eqb_eq) in Hin; [|apply (inv_keys H0)].
  now destruct (inv_ids H0 Hin) as [-> _].
Qed.

Lemma scan_ids t : Inv0 t -> map row_id (Table_scan t) = Dict.keys (_rows t).
Proof.
  intros H0. unfold Table_scan, Dict.keys. rewrite map_map.
  apply map_ext_in. intros [k row] Hin. cbn [fst snd].
  apply (Dict.In_get Z.eqb Z.eqb_eq) in Hin; [|apply (inv_keys H0)].
  now destruct (inv_ids H0 Hin).
Qed.

(** X24.  An UPDATE statement that returns reports the number of rows on
    which its WHERE clause was true (every row without one); the table has
    the same row ids in the same order, the same row-id counter and schema,
    and every row on which the WHERE clause was not true is as it was. *)
Theorem update_statement_keeps_other_rows db stmt db' qr :
  db_ok db -> execute py db (Update stmt) = (db', Ok qr) ->
  exists table table',
    Database.get_table db (upd_table_name stmt) = Ok table /\
    Database.get_table db' (upd_table_name stmt) = Ok table' /\
    qr = mkQueryResult [] []
           (lenZ (filter (chosen stmt table) (Table_scan table))) /\
    map row_id (Table_scan table') = map row_id (Table_scan table) /\
    (forall row, In row (Table_scan table) ->
                 chosen stmt table row = false ->
                 Table_get table' (row_id row) = Some row) /\
    _next_row_id table' = _next_row_id table /\
    schema table' = schema table.
Proof.
  intros Hok H. cbn [execute] in H. unfold execute_update in H.
  destruct (Database.get_table db (upd_table_name stmt)) as [table|e] eqn:Hg;
    [|discriminate].
  pose proof (ok_tables Hok _ (get_table_Ok _ _ Hg)) as H0.
  destruct (update_rows py table (Py.lower (upd_table_name stmt)) stmt
                        (Table_scan table) 0) as [table' [m|e]] eqn:E;
    [|discriminate].
  cbn [bind] in H. injection H as <- <-.
  destruct (@update_rows_Ok stmt table (Table_scan table) table 0 table' m
              H0 E) as (-> & H0' & Hk & Hn & Hs & Hf).
  exists table, table'. split; [reflexivity|].
  split; [now apply get_put_table with table|].
  split; [reflexivity|].
  split; [rewrite !scan_ids by assumption; exact Hk|].
  split; [|now split].
  intros row Hin Hc. rewrite Hf; [now apply scan_rows|].
  intros Hid. apply in_map_iff in Hid. destruct Hid as (row' & Hid & Hin').
  apply filter_In in Hin'. destruct Hin' as [Hin' Hc'].
  pose proof (@scan_rows table row H0 Hin) as G.
  pose proof (@scan_rows table row' H0 Hin') as G'.
  rewrite Hid in G'. congruence.
Qed.

End WithBuiltins.

(** *** The properties on the example databases *)

Import ExecutorExamples.

Lemma users_db_built : db_built stub users_db.
Proof.
  exact (@db_built_execute_all stub [create_users] Database.empty
           (db_built_empty stub)).
Qed.

Lemma people_db_built : db_built stub people_db.
Proof.
  exact (@db_built_execute_all stub [create_people; insert_people]
           Database.empty (db_built_empty stub)).
Qed.

Lemma and_or_not_are_three_valued_witness :
  truth_value (VBool true) /\ truth_value VNull /\
  exists c, _apply_binary_op stub AND (VBool true) VNull = Ok c /\
            truth_value c /\
            (c = VBool true <-> VBool true = VBool true /\ VNull = VBool true) /\
            (c = VBool false <->
             VBool true = VBool false \/ VNull = VBool false).
Proof.
  assert (Ha : truth_value (VBool true)) by (right; now exists true).
  assert (Hb : truth_value VNull) by now left.
  split; [exact Ha|]. split; [exact Hb|].
  exact (proj1 (@and_or_not_are_three_valued stub (VBool true) VNull Ha Hb)).
Defined.

(** [INSERT INTO users VALUES (1, 'Alice'), (2, 'Bob')] *)
Definition alice_and_bob : InsertStmt :=
  mkInsertStmt "users" None
    [[Literal (VInt 1); Literal (VText "Alice")];
     [Literal (VInt 2); Literal (VText "Bob")]].

Definition two_users_db : Database.t :=
  fst (execute stub users_db (Insert alice_and_bob)).

Lemma insert_statement_adds_rows_witness :
  db_ok users_db /\
  execute stub users_db (Insert alice_and_bob)
  = (two_users_db, Ok (mkQueryResult [] [] 2)) /\
  exists table table',
    Database.get_table users_db "users" = Ok table /\
    Database.get_table two_users_db "users" = Ok table' /\
    Table_count table' = Table_count table + 2.
Proof.
  split; [exact users_db_ok|]. split; [reflexivity|].
  destruct (@insert_statement_adds_rows stub users_db alice_and_bob
              two_users_db (mkQueryResult [] [] 2) users_db_ok eq_refl)
    as (_ & table & table' & H1 & H2 & H3 & _).
  exists table, table'. auto.
Defined.

(** [DELETE FROM people WHERE nick IS NULL] *)
Definition delete_nameless : DeleteStmt :=
  mkDeleteStmt "people" (Some (UnaryExpr IS_NULL (ColumnRef "nick" None))).

Definition named_people_db : Database.t :=
  fst (execute stub people_db (Delete delete_nameless)).

Lemma delete_statement_removes_selected_witness :
  db_ok people_db /\
  execute stub people_db (Delete delete_nameless)
  = (named_people_db, Ok (mkQueryResult [] [] 1)) /\
  exists table table',
    Database.get_table people_db "people" = Ok table /\
    Database.get_table named_people_db "people" = Ok table' /\
    Table_scan table'
    = filter (fun row => negb (selected stub delete_nameless table row))
             (Table_scan table).
Proof.
  assert (Hok : db_ok people_db) by exact (db_built_ok people_db_built).
  split; [exact Hok|]. split; [reflexivity|].
  destruct (@delete_statement_removes_selected stub people_db delete_nameless
              named_people_db (mkQueryResult [] [] 1) Hok eq_refl)
    as (table & table' & H1 & H2 & _ & H3 & _).
  exists table, table'. auto.
Defined.

Definition users_stmt : CreateTableStmt :=
  mkCreateTableStmt "users"
    [mkColumnDef "id" "INTEGER" true false false;
     mkColumnDef "name" "TEXT" false false true]
    false.

Lemma create_then_drop_witness :
  db_built stub Database.empty /\
  execute stub Database.empty (Create users_stmt)
  = (users_db, Ok (mkQueryResult [] [] 0)) /\
  execute stub users_db (Drop (mkDropTableStmt "USERS" false))
  = (Database.empty, Ok (mkQueryResult [] [] 0)).
Proof.
  split; [exact (db_built_empty stub)|]. split; [reflexivity|].
  exact (proj2 (proj2 (proj2 (proj2
           (@create_then_drop stub Database.empty users_stmt users_db
              (mkQueryResult [] [] 0) "USERS" false
              (db_built_empty stub) eq_refl eq_refl eq_refl))))).
Defined.

Lemma missing_and_existing_tables_witness :
  Database.has_table users_db "orders" = false /\
  execute stub users_db (Drop (mkDropTableStmt "orders" false))
  = (users_db, Raise (TableNotFoundError "orders")).
Proof.
  split; [reflexivity|].
  exact (proj1 (missing_and_existing_tables stub users_db)
           "orders" false eq_refl).
Defined.

(** [SELECT * FROM people LIMIT 1 OFFSET 1] *)
Definition second_person : SelectStmt :=
  mkSelectStmt [StarExpr None] (Some (mkTableRef "people" None)) None []
               (Some 1) (Some 1).

Definition second_person_result : QueryResult :=
  mkQueryResult ["people.id"; "people.nick"]
                [[("people.id", VInt 2); ("people.nick", VNull)]] 0.

Lemma limit_and_offset_count_witness :
  select_after_where stub people_ctx second_person people_rows
  = Ok second_person_result /\
  lenZ (rows second_person_result) = Z.min 1 (Z.max 0 (lenZ people_rows - 1)).
Proof.
  split; [reflexivity|].
  refine (proj1 (@limit_and_offset_count stub people_ctx second_person
                   people_rows second_person_result eq_refl _ _)).
  - intros o [= <-]. lia.
  - intros l [= <-]. lia.
Defined.

Lemma select_star_returns_rows_witness :
  db_built stub people_db /\
  Database.get_table people_db "people" = Ok people /\
  exists result_rows,
    execute_select stub people_db (select_star (mkTableRef "people" None))
    = Ok (mkQueryResult (star_columns "people" people) result_rows 0) /\
    length result_rows = length (Table_scan people).
Proof.
  split; [exact people_db_built|]. split; [reflexivity|].
  destruct (@select_star_returns_rows stub people_db
              (mkTableRef "people" None) people people_db_built eq_refl)
    as (result_rows & H1 & H2 & _).
  exists result_rows. split; assumption.
Defined.

(** [UPDATE people SET nick = 'x' WHERE nick IS NULL] *)
Definition name_the_nameless : UpdateStmt :=
  mkUpdateStmt "people" [("nick", Literal (VText "x"))]
               (Some (UnaryExpr IS_NULL (ColumnRef "nick" None))).

Definition all_named_db : Database.t :=
  fst (execute stub people_db (Update name_the_nameless)).

Lemma update_statement_keeps_other_rows_witness :
  db_ok people_db /\
  execute stub people_db (Update name_the_nameless)
  = (all_named_db, Ok (mkQueryResult [] [] 1)) /\
  exists table table',
    Database.get_table people_db "people" = Ok table /\
    Database.get_table all_named_db "people" = Ok table' /\
    map row_id (Table_scan table') = map row_id (Table_scan table).
Proof.
  assert (Hok : db_ok people_db) by exact (db_built_ok people_db_built).
  split; [exact Hok|]. split; [reflexivity|].
  destruct (@update_statement_keeps_other_rows stub people_db
              name_the_nameless all_named_db (mkQueryResult [] [] 1)
              Hok eq_refl)
    as (table & table' & H1 & H2 & _ & H3 & _).
  exists table, table'. auto.
Defined.

End ExecutorFacts.

(** ** executor.py: SELECT with WHERE and with ORDER BY *)

Module Select.
Import Datatypes Schema Storage Ast Executor.
Import DatatypesFacts StorageFacts ExecutorFacts.
Local Open Scope string_scope.
Local Open Scope Z_scope.

(** [SELECT * FROM table_ref WHERE condition] and
    [SELECT * FROM table_ref ORDER BY order_by] *)
Definition select_star_where (table_ref : TableRef) (condition : Expression)
  : SelectStmt :=
  mkSelectStmt [StarExpr None] (Some table_ref) (Some condition) [] None None.

Definition select_star_order_by (table_ref : TableRef)
           (order_by : list OrderByItem) : SelectStmt :=
  mkSelectStmt [StarExpr None] (Some table_ref) None order_by None None.

(** What [SELECT *] makes of a row of the table. *)
Definition star_row (prefix : string) (table : Table) (row : Row)
  : Dict.t string value :=
  project_star prefix table (prefixed prefix row) [].

(** The result rows show the given rows of the table, one each and in
    their order: a result row holds, under the display name of each column,
    the cell of its row. *)
Definition shows (prefix : string) (table : Table)
           (result_rows : list (Dict.t string value)) (rs : list Row) : Prop :=
  length result_rows = length rs /\
  forall i row,
    nth_error rs i = Some row ->
    exists r,
      nth_error result_rows i = Some r /\
      forall col, In col (Schema.columns (schema table)) ->
                  data_get r (dotted prefix (name col))
                  = cell row (Py.lower (name col)).

Section WithBuiltins.
Variable py : Py.builtins.

Lemma scan_row_ok table row :
  Inv0 table -> rows_ok table -> In row (Table_scan table) ->
  row_ok (schema table) row.
Proof.
  intros H0 Hrows Hrow. unfold Table_scan in Hrow. apply in_map_iff in Hrow.
  destruct Hrow as ([rid row'] & <- & Hrow).
  apply (Hrows rid). unfold live. cbn [snd].
  apply (Dict.In_get Z.eqb Z.eqb_eq); [apply (inv_keys H0)|assumption].
Qed.

Lemma star_row_cell prefix table row col :
  Py.lower prefix = prefix -> NoDup (Dict.keys (data row)) ->
  In col (Schema.columns (schema table)) ->
  data_get (star_row prefix table row) (dotted prefix (name col))
  = cell row (Py.lower (name col)).
Proof.
  intros Hp Hnd Hin. unfold data_get at 1, star_row, project_star.
  rewrite (get_fold_set
             (fun c => dotted prefix (name c))
             (fun c => data_get (prefixed prefix row)
                         (dotted (Py.lower prefix) (Py.lower (name c))))
             (k := dotted prefix (name col))
             (v := cell row (Py.lower (name col)))); [reflexivity| |].
  - intros c _ E. apply dotted_inj in E. rewrite E, Hp.
    unfold data_get, cell. now rewrite (prefixed_get prefix row _ Hnd).
  - left. eauto.
Qed.

Lemma shows_star_rows prefix table rs :
  Py.lower prefix = prefix ->
  (forall row, In row rs -> NoDup (Dict.keys (data row))) ->
  shows prefix table (map (star_row prefix table) rs) rs.
Proof.
  intros Hp Hnd. split; [apply length_map|].
  intros i row Hi. exists (star_row prefix table row).
  split; [now apply map_nth_error|]. intros col Hin.
  apply star_row_cell; auto. apply Hnd. now apply nth_error_In with i.
Qed.

(** The steps of [SELECT *] after the WHERE clause, without ORDER BY, LIMIT
    and OFFSET. *)
Lemma select_star_after_where prefix table stmt rs :
  sel_columns stmt = [StarExpr None] -> sel_order_by stmt = [] ->
  sel_limit stmt = None -> sel_offset stmt = None ->
  select_after_where py [(prefix, table)] stmt (map (work_row prefix) rs)
  = Ok (mkQueryResult (star_columns prefix table)
                      (map (star_row prefix table) rs) 0).
Proof.
  intros Hc Ho Hl Hf. unfold select_after_where.
  rewrite Hc, Ho, Hl, Hf. cbn [bind]. unfold _project_columns.
  cbn [result_columns nonempty flat_map fst snd bind].
  rewrite !app_nil_r.
  rewrite (map_result_pure _
             (fun w => project_star prefix table (bindings w) []));
    [|reflexivity].
  cbn [bind]. now rewrite map_map.
Qed.

(** Without LIMIT and OFFSET the steps after the WHERE clause return a
    result row for each row they are given. *)
Lemma select_after_where_length ctx stmt input q :
  sel_limit stmt = None -> sel_offset stmt = None ->
  select_after_where py ctx stmt input = Ok q ->
  length (rows q) = length input.
Proof.
  intros Hl Hf. unfold select_after_where. rewrite Hl, Hf. intros H.
  destruct (match sel_order_by stmt with [] => Ok input | _ :: _ => _ end)
    as [ordered|e] eqn:Hord; [|discriminate].
  assert (Hlen : length ordered = length input).
  { destruct (sel_order_by stmt) as [|i l].
    - apply Ok_inj in Hord. now subst.
    - now apply sorted_length in Hord. }
  cbn [bind] in H.
  destruct (_project_columns _ _ _ _) as [[names result_rows]|e] eqn:Hp;
    [|discriminate].
  cbn [bind] in H. apply Ok_inj in H. subst q. cbn [rows].
  unfold _project_columns in Hp.
  destruct (result_columns _ _ _) as [ns|e]; [|discriminate].
  cbn [bind] in Hp.
  destruct (map_result _ _) as [rs|e] eqn:Hm; [|discriminate].
  cbn [bind] in Hp. apply Ok_inj in Hp. injection Hp as <- <-.
  apply map_result_length in Hm. congruence.
Qed.

(** C6.  A comparison with a null operand is null; the WHERE filter takes
    null for false; AND and OR with a null operand are false, respectively
    true, when the other operand is, and null otherwise.  On a table whose
    rows hold every column, a SELECT with [WHERE c op NULL], for a
    comparison [op] on a column [c], returns no row, and
    [SELECT * ... WHERE c IS NULL] returns exactly the rows whose cell in
    [c] is null, in table order and with all their cells; with any select
    list and ORDER BY it returns as many rows as have a null cell. *)
Theorem null_is_unknown_in_where :
  (forall op v, comparison op = true ->
                _apply_binary_op py op VNull v = Ok VNull /\
                _apply_binary_op py op v VNull = Ok VNull) /\
  (forall ctx row e, evaluate_expr py (Some ctx) row e = Ok VNull ->
                     _evaluate_where py ctx row e = Ok false) /\
  (forall v,
      _apply_binary_op py AND v VNull
      = Ok (if is_false v then VBool false else VNull) /\
      _apply_binary_op py AND VNull v
      = Ok (if is_false v then VBool false else VNull) /\
      _apply_binary_op py OR v VNull
      = Ok (if is_true v then VBool true else VNull) /\
      _apply_binary_op py OR VNull v
      = Ok (if is_true v then VBool true else VNull)) /\
  (forall db table_ref table c col,
      Database.get_table db (tr_name table_ref) = Ok table ->
      Inv0 table -> rows_ok table ->
      In col (Schema.columns (schema table)) ->
      Py.lower c = Py.lower (name col) ->
      let prefix := Py.lower (effective_name table_ref) in
      let is_null := UnaryExpr IS_NULL (ColumnRef c None) in
      let null_rows :=
        filter (fun row => Py.is_none (cell row (Py.lower c)))
               (Table_scan table) in
      (forall op, comparison op = true ->
         let op_null := BinaryExpr (ColumnRef c None) op (Literal VNull) in
         (forall stmt q,
             sel_from stmt = Some table_ref ->
             sel_where stmt = Some op_null ->
             execute_select py db stmt = Ok q -> rows q = []) /\
         execute_select py db (select_star_where table_ref op_null)
         = Ok (mkQueryResult (star_columns prefix table) [] 0)) /\
      (forall stmt q,
          sel_from stmt = Some table_ref -> sel_where stmt = Some is_null ->
          sel_limit stmt = None -> sel_offset stmt = None ->
          execute_select py db stmt = Ok q ->
          length (rows q) = length null_rows) /\
      exists result_rows,
        execute_select py db (select_star_where table_ref is_null)
        = Ok (mkQueryResult (star_columns prefix table) result_rows 0) /\
        shows prefix table result_rows null_rows).
Proof.
  split; [|split; [|split]].
  - intros op v. apply null_operand.
  - intros ctx row e H. unfold _evaluate_where. now rewrite H.
  - apply null_and_or.
  - intros db table_ref table c col Hget H0 Hrows Hin Hc prefix is_null
           null_rows.
    assert (Hp : Py.lower prefix = prefix) by apply Py.lower_idem.
    split; [|split].
    + intros op Hop op_null. split.
      * intros stmt q Hfrom Hw.
        rewrite (proj1 (@where_null_rows py db stmt table_ref table c col
                          Hfrom Hget H0 Hrows Hin Hc) op Hop Hw).
        rewrite select_after_where_nil. intros Hq.
        destruct (result_columns _ _); [|discriminate].
        apply Ok_inj in Hq. now subst q.
      * rewrite (proj1 (@where_null_rows py db
                          (select_star_where table_ref op_null) table_ref
                          table c col eq_refl Hget H0 Hrows Hin Hc)
                   op Hop eq_refl).
        fold prefix.
        exact (@select_star_after_where prefix table
                 (select_star_where table_ref op_null) [] eq_refl eq_refl
                 eq_refl eq_refl).
    + intros stmt q Hfrom Hw Hl Hf.
      rewrite (proj2 (@where_null_rows py db stmt table_ref table c col
                        Hfrom Hget H0 Hrows Hin Hc) Hw).
      intros Hq. apply (@select_after_where_length _ stmt _ q Hl Hf) in Hq.
      now rewrite length_map in Hq.
    + exists (map (star_row prefix table) null_rows). split.
      * rewrite (proj2 (@where_null_rows py db
                          (select_star_where table_ref is_null) table_ref
                          table c col eq_refl Hget H0 Hrows Hin Hc)
                   eq_refl).
        fold prefix. now apply select_star_after_where.
      * apply shows_star_rows; [assumption|]. intros row Hrow.
        apply filter_In in Hrow. destruct Hrow as [Hrow _].
        now destruct (@scan_row_ok table row H0 Hrows Hrow).
Qed.

(** *** ORDER BY *)











End WithBuiltins.

(** *** The claims on the example database *)

Import ExecutorExamples Objects.

(** [SELECT * FROM people WHERE nick = NULL] returns no row, and
    [SELECT * FROM people WHERE nick IS NULL] the row of id 2. *)
Lemma null_is_unknown_in_where_witness :
  execute_select stub people_db nick_equals_null
  = Ok (mkQueryResult ["people.id"; "people.nick"] [] 0) /\
  exists result_rows,
    execute_select stub people_db nick_is_null
    = Ok (mkQueryResult ["people.id"; "people.nick"] result_rows 0) /\
    shows "people" people result_rows
          [mkRow 2 [("id", VInt 2); ("nick", VNull)]].
Proof.
  destruct (proj2 (proj2 (proj2 (null_is_unknown_in_where stub)))
              people_db (mkTableRef "people" None) people "nick"
              (Column_init "nick" TEXT false false false))
    as (Hop & _ & Hnull).
  - reflexivity.
  - apply (@reachable_Inv0 stub). eexists people_schema, _. reflexivity.
  - apply (@reachable_rows_ok stub). eexists people_schema, _. reflexivity.
  - cbn. auto.
  - reflexivity.
  - split; [exact (proj2 (Hop EQ eq_refl))|exact Hnull].
Defined.

(** [SELECT * FROM people ORDER BY nick DESC] *)
Definition people_by_nick_desc : SelectStmt :=
  select_star_order_by (mkTableRef "people" None) (by_nick DESC).

Lemma people_by_nick_desc_rows :
  execute_select stub people_db people_by_nick_desc
  = Ok (mkQueryResult ["people.id"; "people.nick"]
          [[("people.id", VInt 2); ("people.nick", VNull)];
           [("people.id", VInt 1); ("people.nick", VText "al")]] 0).
Proof. reflexivity. Qed.

(** Rows of a REAL column [c] of a table [t]. *)
Definition real_row (x : obj) : OrderBy.row := [("t.c", x)].

Definition two : OrderBy.row := real_row (Val (VReal (2 # 1))).



End Select.

(** ** index.py *)

Module IndexFacts.
Import Index.

Section WithKeys.
Variable K : Type.
Variable is_none : K -> bool.
Variable lt : K -> K -> bool.

Lemma _search_wf key n :
  wf_node n = true -> exists rs, _search is_none lt n key = Ok rs.
Proof.
  induction n as [lf ks vs cs IH] using BTreeNode_ind. intros Hwf.
  apply wf_node_inv in Hwf. destruct Hwf as (Hvs & Hcs & Hall).
  rewrite _search_eq. cbv zeta.
  pose proof (scan_up_le is_none lt key ks) as Hi.
  destruct (key_at is_none lt key ks (scan_up is_none lt key ks)) eqn:Hat.
  - apply key_at_Some in Hat. destruct Hat as (k & Hk & _).
    apply getitem_lt. rewrite Hvs. apply nth_error_Some. congruence.
  - destruct lf; [eauto|]. specialize (Hcs eq_refl).
    destruct (nth_error cs (scan_up is_none lt key ks)) as [c|] eqn:Hc;
      [|apply nth_error_None in Hc; lia].
    unfold getitem. rewrite Hc. cbn [bind].
    rewrite Forall_forall in IH, Hall.
    apply IH; [|apply Hall]; now apply nth_error_In with (1 := Hc).
Qed.

Lemma key_at_absent key ks i :
  existsb (fun k => _compare is_none lt key k =? 0) ks = false ->
  key_at is_none lt key ks i = false.
Proof.
  intros H. unfold key_at. destruct (nth_error ks i) as [k|] eqn:E;
    [|reflexivity].
  destruct (_compare is_none lt key k =? 0) eqn:C; [|reflexivity].
  assert (existsb (fun k => _compare is_none lt key k =? 0) ks = true).
  { apply existsb_exists. exists k. split; [|assumption].
    now apply nth_error_In with i. }
  congruence.
Qed.

Lemma occurs_child key lf ks vs cs c :
  occurs is_none lt key (Node lf ks vs cs) = false -> In c cs ->
  occurs is_none lt key c = false.
Proof.
  cbn [occurs]. intros H Hin. apply orb_false_iff in H. destruct H as [_ H].
  destruct (occurs is_none lt key c) eqn:E; [|reflexivity].
  assert (existsb (occurs is_none lt key) cs = true)
    by (apply existsb_exists; eauto).
  congruence.
Qed.

Lemma _delete_absent key row_id n :
  wf_node n = true -> occurs is_none lt key n = false ->
  _delete is_none lt n key row_id = Ok (n, false).
Proof.
  induction n as [lf ks vs cs IH] using BTreeNode_ind. intros Hwf Habs.
  pose proof Habs as Habs0.
  apply wf_node_inv in Hwf. destruct Hwf as (Hvs & Hcs & Hall).
  rewrite _delete_eq. cbv zeta.
  cbn [occurs] in Habs. apply orb_false_iff in Habs.
  destruct Habs as [Hks _].
  rewrite (@key_at_absent key ks _ Hks).
  destruct lf; [reflexivity|]. specialize (Hcs eq_refl).
  pose proof (scan_up_le is_none lt key ks) as Hi.
  unfold descend.
  destruct (nth_error cs (scan_up is_none lt key ks)) as [c|] eqn:Hc;
    [|apply nth_error_None in Hc; lia].
  unfold getitem, setitem. rewrite Hc. cbn [bind].
  rewrite Forall_forall in IH, Hall.
  pose proof (nth_error_In _ _ Hc) as Hin.
  rewrite (IH c Hin (Hall c Hin) (@occurs_child key _ _ _ _ c Habs0 Hin)).
  cbn [bind]. now rewrite (nth_error_middle _ _ Hc).
Qed.

(** X26.  On a well-shaped tree in which no slot holds a key equal to
    [key], [search(key)] is the empty list, [key in tree] is false, and
    [delete(key, row_id)] answers [False] and leaves [len] as it is, and the
    whole tree unless the root is an internal node without keys. *)
Theorem absent_key_is_not_found t key row_id :
  wf t = true -> occurs is_none lt key (root t) = false ->
  search is_none lt t key = Ok [] /\
  contains is_none lt t key = Ok false /\
  exists t',
    delete is_none lt t key row_id = Ok (t', false) /\
    len t' = len t /\
    ((lenZ (keys (root t)) =? 0) && negb (leaf (root t)) = false -> t' = t).
Proof.
  intros Hwf Habs. unfold wf in Hwf. apply andb_true_iff in Hwf.
  destruct Hwf as [_ Hwf].
  assert (Hs : search is_none lt t key = Ok []).
  { apply _search_weightless with row_id; [assumption|].
    now apply occurs_weight. }
  split; [assumption|]. split; [unfold contains; now rewrite Hs|].
  unfold delete. rewrite (@_delete_absent key row_id _ Hwf Habs). cbn [bind].
  destruct ((lenZ (keys (root t)) =? 0) && negb (leaf (root t))) eqn:E.
  - destruct (root t) as [lf ks vs cs] eqn:Er.
    cbn [keys leaf children] in *.
    apply andb_true_iff in E. destruct E as [E1 E2].
    apply negb_true_iff in E2. subst lf.
    apply wf_node_inv in Hwf. destruct Hwf as (_ & Hcs & _).
    specialize (Hcs eq_refl).
    destruct cs as [|c cs]; [cbn in Hcs; lia|]. cbn [getitem nth_error bind].
    eexists. split; [reflexivity|]. split; [reflexivity|discriminate].
  - cbn [bind]. eexists. split; [reflexivity|]. split; [reflexivity|].
    intros _. now destruct t.
Qed.

(** *** Lists, and the two halves of a split *)

Lemma In_firstn {A : Type} (x : A) n l : In x (firstn n l) -> In x l.
Proof.
  revert n. induction l as [|a l IH]; intros [|n]; cbn; try tauto.
  intros [H|H]; [now left|right; now apply IH with n].
Qed.

Lemma In_skipn {A : Type} (x : A) n l : In x (skipn n l) -> In x l.
Proof.
  revert n. induction l as [|a l IH]; intros [|n]; cbn; try tauto.
  intros H. right. now apply IH with n.
Qed.

Lemma forallb_firstn {A : Type} (f : A -> bool) l n :
  forallb f l = true -> forallb f (firstn n l) = true.
Proof.
  rewrite !forallb_forall. intros H x Hx. apply H.
  now apply In_firstn with n.
Qed.

Lemma forallb_skipn {A : Type} (f : A -> bool) l n :
  forallb f l = true -> forallb f (skipn n l) = true.
Proof.
  rewrite !forallb_forall. intros H x Hx. apply H.
  now apply In_skipn with n.
Qed.

Lemma existsb_false {A : Type} (f : A -> bool) l :
  existsb f l = false <-> forall x, In x l -> f x = false.
Proof.
  split.
  - intros H x Hx. destruct (f x) eqn:E; [|reflexivity].
    assert (existsb f l = true) by (apply existsb_exists; eauto).
    congruence.
  - intros H. destruct (existsb f l) eqn:E; [|reflexivity].
    apply existsb_exists in E. destruct E as (x & Hx & E).
    rewrite (H x Hx) in E. discriminate.
Qed.

Lemma list_insert_app {A : Type} (l1 l2 : list A) x :
  list_insert (length l1) x (l1 ++ l2) = l1 ++ x :: l2.
Proof.
  unfold list_insert.
  rewrite firstn_app, Nat.sub_diag, firstn_all, firstn_O, app_nil_r.
  rewrite skipn_app, Nat.sub_diag, skipn_all. reflexivity.
Qed.

Lemma nth_error_list_insert {A : Type} i (x : A) l :
  (i <= length l)%nat -> nth_error (list_insert i x l) i = Some x.
Proof.
  intros H. unfold list_insert. rewrite nth_error_app2;
    rewrite length_firstn; [|lia].
  replace (i - Nat.min i (length l))%nat with O by lia. reflexivity.
Qed.

(** The two halves a split makes of a child. *)
Definition mid (c : BTreeNode K) : nat := Nat.div (length (keys c)) 2.

Definition left_half (c : BTreeNode K) : BTreeNode K :=
  Node (leaf c) (firstn (mid c) (keys c)) (firstn (mid c) (values c))
       (if leaf c then children c else firstn (S (mid c)) (children c)).

Definition right_half (c : BTreeNode K) : BTreeNode K :=
  Node (leaf c) (skipn (S (mid c)) (keys c)) (skipn (S (mid c)) (values c))
       (if leaf c then [] else skipn (S (mid c)) (children c)).

Lemma _split_child_eq lf ks vs cs i c kmid vmid :
  nth_error cs i = Some c ->
  nth_error (keys c) (mid c) = Some kmid ->
  nth_error (values c) (mid c) = Some vmid ->
  _split_child (Node lf ks vs cs) i
  = Ok (Node lf (list_insert i kmid ks) (list_insert i vmid vs)
             (firstn i cs ++ left_half c :: right_half c :: skipn (S i) cs)).
Proof.
  intros Hc Hk Hv. unfold _split_child. cbn [children keys values leaf].
  unfold getitem, setitem. rewrite Hc. cbn [bind]. fold (mid c).
  rewrite Hk, Hv. cbn [bind].
  do 2 f_equal. fold (left_half c). fold (right_half c).
  destruct (nth_error_parts _ _ Hc) as (c1 & c2 & -> & Hlen & -> & -> & _).
  unfold list_insert.
  replace (S i) with (length (c1 ++ [left_half c])) at 1 2
    by (rewrite length_app; cbn; lia).
  change (c1 ++ left_half c :: c2) with (c1 ++ [left_half c] ++ c2).
  rewrite app_assoc.
  rewrite firstn_app, Nat.sub_diag, firstn_all, firstn_O, app_nil_r.
  rewrite skipn_app, Nat.sub_diag, skipn_all. cbn [app skipn].
  now rewrite <- app_assoc.
Qed.

(** *** [range_search] *)

(** [min_key is None or self._compare(key, min_key) >= 0] *)
Definition at_least (min_key key : K) : bool :=
  is_none min_key || (0 <=? _compare is_none lt key min_key).

(** [max_key is None or self._compare(key, max_key) <= 0] *)
Definition at_most (max_key key : K) : bool :=
  is_none max_key || (_compare is_none lt key max_key <=? 0).

(** The loop [for i, key in enumerate(node.keys)] of [_range_search], from
    position [i] on; [descend] is the recursive call on a child. *)
Fixpoint visit_keys
         (descend : BTreeNode K -> list (K * Z) -> result (list (K * Z)))
         (node : BTreeNode K) (min_key max_key : K) (i : nat) (ks : list K)
         (results : list (K * Z)) : result (list (K * Z)) :=
  match ks with
  | [] => Ok results
  | key :: ks' =>
      results <-
        (if negb (leaf node) && at_least min_key key then
           c <- getitem (children node) i ;; descend c results
         else Ok results) ;;
      results <-
        (if at_least min_key key && at_most max_key key then
           rs <- getitem (values node) i ;;
           Ok (results ++ map (pair key) rs)
         else Ok results) ;;
      visit_keys descend node min_key max_key (S i) ks' results
  end.

(** [BTree._range_search(node, min_key, max_key, results)]: the list
    [results] after the call.  The recursion goes through [children[i]] and
    is bounded by [fuel]. *)
Fixpoint _range_search (fuel : nat) (node : BTreeNode K) (min_key max_key : K)
         (results : list (K * Z)) : result (list (K * Z)) :=
  match fuel with
  | O => Raise OutOfFuel
  | S fuel' =>
      let descend c results :=
        _range_search fuel' c min_key max_key results in
      results <- visit_keys descend node min_key max_key O (keys node)
                            results ;;
      if negb (leaf node)
         && Nat.ltb (length (keys node)) (length (children node))
      then
        if is_none max_key
           || match keys node with
              | [] => false
              | k :: ks => _compare is_none lt (last ks k) max_key <=? 0
              end
        then
          c <- getitem (children node) (length (children node) - 1) ;;
          descend c results
        else Ok results
      else Ok results
  end.

(** [BTree.range_search(min_key, max_key)] *)
Definition range_search (t : BTree K) (min_key max_key : K)
  : result (list (K * Z)) :=
  _range_search (S (height (root t))) (root t) min_key max_key [].

(** The pairs [(key, row_id)] in the slots of one node, and in the slots of
    all nodes below [n], [n] included. *)
Definition slot_pairs (ks : list K) (vs : list (list Z)) : list (K * Z) :=
  flat_map (fun kv => map (pair (fst kv)) (snd kv)) (combine ks vs).

Fixpoint pairs (n : BTreeNode K) : list (K * Z) :=
  match n with
  | Node _ ks vs cs => slot_pairs ks vs ++ flat_map pairs cs
  end.

Definition in_range (min_key max_key : K) (p : K * Z) : Prop :=
  at_least min_key (fst p) = true /\ at_most max_key (fst p) = true.

Lemma pairs_slot lf ks vs cs i key rs r :
  nth_error ks i = Some key -> nth_error vs i = Some rs -> In r rs ->
  In (key, r) (pairs (Node lf ks vs cs)).
Proof.
  intros Hk Hv Hr. cbn [pairs]. apply in_or_app. left.
  unfold slot_pairs. apply in_flat_map. exists (key, rs).
  split; [apply nth_error_In with i; now apply nth_error_combine|].
  cbn [fst snd]. now apply in_map.
Qed.

Lemma pairs_child lf ks vs cs c p :
  In c cs -> In p (pairs c) -> In p (pairs (Node lf ks vs cs)).
Proof.
  intros Hc Hp. cbn [pairs]. apply in_or_app. right.
  apply in_flat_map. eauto.
Qed.

Section Visit.
Variables (min_key max_key : K) (node : BTreeNode K).
Variable descend : BTreeNode K -> list (K * Z) -> result (list (K * Z)).

Definition adds_from (n : BTreeNode K) (results out : list (K * Z)) : Prop :=
  exists added,
    out = results ++ added /\
    Forall (fun p => In p (pairs n) /\ in_range min_key max_key p) added.

Lemma adds_from_refl n results : adds_from n results results.
Proof. exists []. split; [now rewrite app_nil_r|constructor]. Qed.

Lemma adds_from_trans n r1 r2 r3 :
  adds_from n r1 r2 -> adds_from n r2 r3 -> adds_from n r1 r3.
Proof.
  intros (a1 & -> & H1) (a2 & -> & H2). exists (a1 ++ a2).
  split; [now rewrite app_assoc|]. apply Forall_app. now split.
Qed.

Hypothesis descend_sound :
  forall c results out,
    In c (children node) -> descend c results = Ok out ->
    adds_from c results out.

Lemma visit_keys_sound :
  forall ks i results out,
    (forall j key, nth_error ks j = Some key ->
                   nth_error (keys node) (i + j) = Some key) ->
    visit_keys descend node min_key max_key i ks results = Ok out ->
    adds_from node results out.
Proof.
  induction ks as [|key ks IH]; intros i results out Hks H;
    cbn [visit_keys] in H.
  - apply Ok_inj in H. subst. apply adds_from_refl.
  - pose proof (Hks O key eq_refl) as Hkey. rewrite Nat.add_0_r in Hkey.
    destruct node as [lf nks nvs ncs] eqn:En.
    cbn [leaf children values keys] in *.
    destruct (if negb lf && at_least min_key key then _ else _)
      as [r1|e] eqn:E1; [|discriminate].
    cbn [bind] in H.
    destruct (if at_least min_key key && at_most max_key key then _ else _)
      as [r2|e] eqn:E2; [|discriminate].
    cbn [bind] in H.
    apply adds_from_trans with r1; [|apply adds_from_trans with r2].
    + destruct (negb lf && at_least min_key key).
      * unfold getitem in E1.
        destruct (nth_error ncs i) as [c|] eqn:Hc; [|discriminate].
        cbn [bind] in E1. pose proof (nth_error_In _ _ Hc) as Hin.
        destruct (descend_sound Hin E1) as (added & -> & Hall).
        exists added. split; [reflexivity|].
        apply Forall_forall. intros p Hp. rewrite Forall_forall in Hall.
        destruct (Hall p Hp). split; [|assumption].
        now apply pairs_child with c.
      * apply Ok_inj in E1. subst. apply adds_from_refl.
    + destruct (at_least min_key key && at_most max_key key) eqn:Hin.
      * unfold getitem in E2.
        destruct (nth_error nvs i) as [rs|] eqn:Hv; [|discriminate].
        cbn [bind] in E2. apply Ok_inj in E2. subst r2.
        exists (map (pair key) rs). split; [reflexivity|].
        apply Forall_forall. intros p Hp. apply in_map_iff in Hp.
        destruct Hp as (r & <- & Hr). apply andb_true_iff in Hin.
        split; [now apply pairs_slot with i rs|exact Hin].
      * apply Ok_inj in E2. subst. apply adds_from_refl.
    + apply IH with (S i); [|assumption].
      intros j k Hj. rewrite Nat.add_succ_l, <- Nat.add_succ_r.
      now apply Hks.
Qed.

End Visit.

(** Whatever [_range_search] appends to [results] is a pair of the node
    graph whose key is within the bounds. *)
Lemma _range_search_sound min_key max_key fuel :
  forall node results out,
    _range_search fuel node min_key max_key results = Ok out ->
    adds_from min_key max_key node results out.
Proof.
  induction fuel as [|fuel IH]; intros node results out H;
    [discriminate|].
  cbn [_range_search] in H. cbv zeta in H.
  destruct (visit_keys _ node min_key max_key 0 (keys node) results)
    as [r1|e] eqn:E1; [|discriminate].
  cbn [bind] in H.
  apply adds_from_trans with r1.
  - apply visit_keys_sound with (3 := E1); [|auto].
    intros c r o _. apply IH.
  - destruct (negb (leaf node) && _);
      [|apply Ok_inj in H; subst; apply adds_from_refl].
    destruct (is_none max_key || _);
      [|apply Ok_inj in H; subst; apply adds_from_refl].
    unfold getitem in H.
    destruct (nth_error (children node) (length (children node) - 1))
      as [c|] eqn:Hc; [|discriminate].
    cbn [bind] in H. apply IH in H. destruct H as (added & -> & Hall).
    exists added. split; [reflexivity|].
    apply Forall_forall. intros p Hp. rewrite Forall_forall in Hall.
    destruct (Hall p Hp). split; [|assumption].
    destruct node as [lf ks vs cs]. cbn [children] in Hc.
    apply pairs_child with c; [|assumption].
    now apply nth_error_In with (1 := Hc).
Qed.

Lemma visit_keys_returns min_key max_key node descend :
  (forall c results, In c (children node) ->
                     exists out, descend c results = Ok out) ->
  forall ks i results,
    (i + length ks <= length (values node))%nat ->
    (leaf node = false -> (i + length ks <= length (children node))%nat) ->
    exists out,
      visit_keys descend node min_key max_key i ks results = Ok out.
Proof.
  intros Hd. induction ks as [|key ks IH]; intros i results Hv Hc;
    cbn [visit_keys]; [eauto|].
  cbn [length] in Hv, Hc.
  assert (E1 : exists r1,
    (if negb (leaf node) && at_least min_key key
     then c <- getitem (children node) i ;; descend c results
     else Ok results) = Ok r1).
  { destruct (leaf node) eqn:El; cbn [negb andb]; [eauto|].
    destruct (at_least min_key key); [|eauto].
    destruct (@getitem_lt _ (children node) i) as (c & Ec);
      [specialize (Hc eq_refl); lia|].
    rewrite Ec. cbn [bind]. apply Hd. apply getitem_Ok in Ec.
    now apply nth_error_In with (1 := Ec). }
  destruct E1 as (r1 & ->). cbn [bind].
  assert (E2 : exists r2,
    (if at_least min_key key && at_most max_key key
     then rs <- getitem (values node) i ;; Ok (r1 ++ map (pair key) rs)
     else Ok r1) = Ok r2).
  { destruct (at_least min_key key && at_most max_key key); [|eauto].
    destruct (@getitem_lt _ (values node) i) as (rs & Ers); [lia|].
    rewrite Ers. cbn [bind]. eauto. }
  destruct E2 as (r2 & ->). cbn [bind].
  apply IH; [lia|intros El; specialize (Hc El); lia].
Qed.

Lemma _range_search_returns min_key max_key fuel :
  forall node results,
    wf_node node = true -> (height node <= fuel)%nat ->
    exists out, _range_search fuel node min_key max_key results = Ok out.
Proof.
  induction fuel as [|fuel IH]; intros [lf ks vs cs] results Hwf Hh;
    [cbn in Hh; lia|].
  apply height_le in Hh. apply wf_node_inv in Hwf.
  destruct Hwf as (Hvs & Hcs & Hall).
  rewrite Forall_forall in Hh, Hall.
  cbn [_range_search keys]. cbv zeta.
  destruct (@visit_keys_returns min_key max_key (Node lf ks vs cs)
              (fun c r => _range_search fuel c min_key max_key r))
    with (ks := ks) (i := O) (results := results) as (r1 & ->).
  - intros c r Hin. cbn [children] in Hin. apply IH; auto.
  - cbn [values]. lia.
  - cbn [leaf children]. intros ->. specialize (Hcs eq_refl). lia.
  - cbn [bind leaf keys children].
    destruct (negb lf && _) eqn:E; [|eauto].
    destruct (is_none max_key || _); [|eauto].
    apply andb_true_iff in E. destruct E as [_ E]. apply Nat.ltb_lt in E.
    destruct (@getitem_lt _ cs (length cs - 1)) as (c & Ec); [lia|].
    rewrite Ec. cbn [bind]. apply getitem_Ok in Ec.
    apply nth_error_In in Ec. apply IH; auto.
Qed.

(** *** [range_search] without bounds *)

(** The shape of a tree that only inserts have touched: a leaf has no
    children, an internal node one child more than keys. *)
Fixpoint exact_node (n : BTreeNode K) : bool :=
  match n with
  | Node lf ks vs cs =>
      Nat.eqb (length vs) (length ks)
      && Nat.eqb (length cs) (if lf then O else S (length ks))
      && forallb exact_node cs
  end.

Lemma exact_node_inv lf ks vs cs :
  exact_node (Node lf ks vs cs) = true <->
  length vs = length ks /\
  length cs = (if lf then O else S (length ks)) /\
  Forall (fun c => exact_node c = true) cs.
Proof.
  cbn [exact_node]. rewrite !andb_true_iff, !Nat.eqb_eq, forallb_forall,
    Forall_forall. tauto.
Qed.

Lemma exact_wf n : exact_node n = true -> wf_node n = true.
Proof.
  induction n as [lf ks vs cs IH] using BTreeNode_ind. intros H.
  apply exact_node_inv in H. destruct H as (Hvs & Hcs & Hall).
  apply wf_node_inv. split; [assumption|]. split.
  - intros ->. lia.
  - rewrite Forall_forall in *. auto.
Qed.

Section Unbounded.
Variables min_key max_key : K.
Hypothesis no_min : is_none min_key = true.
Hypothesis no_max : is_none max_key = true.

Definition adds_all (n : BTreeNode K) (results out : list (K * Z)) : Prop :=
  exists added, out = results ++ added /\ Permutation added (pairs n).

Lemma skipn_cons_nth {A : Type} (l : list A) i a rest :
  skipn i l = a :: rest -> nth_error l i = Some a /\ skipn (S i) l = rest.
Proof.
  revert i. induction l as [|b l IH]; intros [|i] H; cbn in *;
    try discriminate.
  - injection H as -> ->. auto.
  - now apply IH.
Qed.

Lemma visit_keys_all fuel lf nks nvs ncs :
  length nvs = length nks ->
  (lf = false -> (length nks <= length ncs)%nat) ->
  (forall c results out,
      In c ncs -> _range_search fuel c min_key max_key results = Ok out ->
      adds_all c results out) ->
  forall ks i results out,
    skipn i nks = ks ->
    visit_keys (fun c r => _range_search fuel c min_key max_key r)
               (Node lf nks nvs ncs) min_key max_key i ks results = Ok out ->
    exists added,
      out = results ++ added /\
      Permutation added
        (slot_pairs ks (skipn i nvs)
         ++ if lf then []
            else flat_map pairs (firstn (length ks) (skipn i ncs))).
Proof.
  intros Hvs Hcs Hd.
  induction ks as [|key ks IH]; intros i results out Hks H;
    cbn [visit_keys] in H.
  - apply Ok_inj in H. subst out. exists []. rewrite app_nil_r.
    split; [reflexivity|]. cbn. destruct lf; constructor.
  - destruct (skipn_cons_nth _ _ Hks) as [Hkey Hks'].
    assert (Hi : (i < length nks)%nat) by (apply nth_error_Some; congruence).
    unfold at_least, at_most in H. rewrite no_min, no_max in H.
    cbn [orb andb leaf children values] in H.
    destruct (nth_error nvs i) as [rs|] eqn:Hv;
      [|apply nth_error_None in Hv; lia].
    destruct (nth_error_parts _ _ Hv) as (v1 & v2 & Ev & _ & _ & Hv2 & Hv3).
    rewrite Hv3. cbn [slot_pairs combine flat_map fst snd length].
    fold (slot_pairs ks v2). rewrite <- Hv2.
    destruct lf; cbn [negb andb] in H.
    + cbn [bind] in H. unfold getitem in H. rewrite Hv in H.
      cbn [bind] in H.
      destruct (IH (S i) _ out Hks' H) as (added & -> & Hp).
      exists (map (pair key) rs ++ added). rewrite app_assoc.
      split; [reflexivity|]. rewrite app_nil_r in *.
      now apply Permutation_app_head.
    + specialize (Hcs eq_refl).
      destruct (nth_error ncs i) as [c|] eqn:Hc;
        [|apply nth_error_None in Hc; lia].
      destruct (nth_error_parts _ _ Hc) as (c1 & c2 & Ec & _ & _ & Hc2 & Hc3).
      unfold getitem in H. rewrite Hc, Hv in H. cbn [bind] in H.
      destruct (_range_search fuel c min_key max_key results) as [r1|e] eqn:E1;
        [|discriminate].
      cbn [bind] in H.
      destruct (Hd c results r1 (nth_error_In _ _ Hc) E1) as (a1 & -> & Hp1).
      destruct (IH (S i) _ out Hks' H) as (added & -> & Hp).
      exists (a1 ++ map (pair key) rs ++ added).
      split; [now rewrite <- !app_assoc|].
      rewrite Hc3. cbn [firstn flat_map]. rewrite <- Hc2.
      rewrite Hp1, Hp, <- !app_assoc.
      etransitivity; [apply Permutation_app_swap_app|].
      apply Permutation_app_head, Permutation_app_swap_app.
Qed.

(** On a tree of exact shape, [_range_search] without bounds appends every
    pair of the node graph once. *)
Lemma _range_search_all fuel :
  forall node results out,
    exact_node node = true ->
    _range_search fuel node min_key max_key results = Ok out ->
    adds_all node results out.
Proof.
  induction fuel as [|fuel IH]; intros [lf ks vs cs] results out Hex H;
    [discriminate|].
  apply exact_node_inv in Hex. destruct Hex as (Hvs & Hcs & Hall).
  rewrite Forall_forall in Hall.
  cbn [_range_search keys] in H. cbv zeta in H.
  destruct (visit_keys _ (Node lf ks vs cs) min_key max_key 0 ks results)
    as [r1|e] eqn:E1; [|discriminate].
  cbn [bind leaf children] in H.
  apply visit_keys_all with (ks := ks) (i := O) in E1; try assumption;
    try reflexivity.
  - destruct E1 as (a1 & -> & Hp1). cbn [skipn] in Hp1.
    destruct lf; cbn [negb andb] in H.
    + apply Ok_inj in H. subst out. exists a1. split; [reflexivity|].
      cbn [pairs]. destruct cs; [|discriminate]. exact Hp1.
    + rewrite no_max in H. cbn [orb] in H.
      assert (Hlt : Nat.ltb (length ks) (length cs) = true)
        by (apply Nat.ltb_lt; lia).
      rewrite Hlt in H. rewrite Hcs in H.
      replace (S (length ks) - 1)%nat with (length ks) in H by lia.
      unfold getitem in H.
      destruct (nth_error cs (length ks)) as [c|] eqn:Hc; [|discriminate].
      cbn [bind] in H.
      apply IH in H; [|apply Hall, nth_error_In with (1 := Hc)].
      destruct H as (a2 & -> & Hp2).
      exists (a1 ++ a2). split; [now rewrite app_assoc|].
      cbn [pairs]. rewrite Hp1, Hp2, <- app_assoc.
      apply Permutation_app_head.
      destruct (nth_error_parts _ _ Hc) as (c1 & c2 & -> & Hl & Hf & _ & _).
      rewrite Hf. rewrite length_app in Hcs. cbn [length] in Hcs.
      destruct c2; [|cbn in Hcs; lia].
      rewrite flat_map_app. cbn [flat_map]. now rewrite app_nil_r.
  - intros ->. lia.
  - intros c r o Hin. apply IH. now apply Hall.
Qed.

End Unbounded.

(** *** Inserts keep the exact shape *)

Lemma halves_exact c :
  exact_node c = true -> (mid c < length (keys c))%nat ->
  exact_node (left_half c) = true /\ exact_node (right_half c) = true.
Proof.
  destruct c as [lf ks vs cs]. unfold left_half, right_half, mid.
  cbn [leaf keys values children]. intros H Hmid.
  apply exact_node_inv in H. destruct H as (Hvs & Hcs & Hall).
  split; apply exact_node_inv.
  - rewrite !length_firstn. split; [lia|]. split.
    + destruct lf; [assumption|]. rewrite length_firstn. lia.
    + destruct lf; [assumption|now apply Forall_firstn].
  - rewrite !length_skipn. split; [lia|]. split.
    + destruct lf; [reflexivity|]. rewrite length_skipn. lia.
    + destruct lf; [constructor|now apply Forall_skipn].
Qed.

Lemma _split_child_exact lf ks vs cs i p' :
  length vs = length ks -> length cs = S (length ks) ->
  Forall (fun c => exact_node c = true) cs ->
  _split_child (Node lf ks vs cs) i = Ok p' ->
  exists kmid vmid c,
    nth_error cs i = Some c /\
    p' = Node lf (list_insert i kmid ks) (list_insert i vmid vs)
              (firstn i cs ++ left_half c :: right_half c :: skipn (S i) cs) /\
    length (list_insert i vmid vs) = length (list_insert i kmid ks) /\
    length (firstn i cs ++ left_half c :: right_half c :: skipn (S i) cs)
    = S (length (list_insert i kmid ks)) /\
    Forall (fun c => exact_node c = true)
           (firstn i cs ++ left_half c :: right_half c :: skipn (S i) cs).
Proof.
  intros Hvs Hcs Hall H.
  assert (Hc : exists c, nth_error cs i = Some c).
  { unfold _split_child in H. cbn [children] in H. unfold getitem in H at 1.
    destruct (nth_error cs i) as [c|]; [eauto|discriminate]. }
  destruct Hc as (c & Hc).
  assert (Hk : exists kmid, nth_error (keys c) (mid c) = Some kmid).
  { unfold _split_child in H. cbn [children] in H. unfold getitem in H at 1.
    rewrite Hc in H. cbn [bind] in H. unfold getitem in H at 1.
    fold (mid c) in H.
    destruct (nth_error (keys c) (mid c)) as [k|]; [eauto|discriminate]. }
  destruct Hk as (kmid & Hk).
  pose proof (nth_error_In _ _ Hc) as Hin.
  pose proof Hall as Hall'. rewrite Forall_forall in Hall'.
  pose proof (Hall' c Hin) as Hexc.
  assert (Hmid : (mid c < length (keys c))%nat)
    by (apply nth_error_Some; congruence).
  assert (Hcv : length (values c) = length (keys c)).
  { destruct c. apply exact_node_inv in Hexc. now destruct Hexc. }
  destruct (nth_error (values c) (mid c)) as [vmid|] eqn:Hv;
    [|apply nth_error_None in Hv; lia].
  rewrite (@_split_child_eq lf ks vs cs i c kmid vmid Hc Hk Hv) in H.
  apply Ok_inj in H. subst p'.
  exists kmid, vmid, c. split; [assumption|]. split; [reflexivity|].
  destruct (halves_exact c Hexc Hmid) as [Hl Hr].
  destruct (nth_error_parts _ _ Hc) as (c1 & c2 & Ec & Hl1 & Hf & Hs & _).
  rewrite Hf, Hs. rewrite !length_list_insert.
  split; [lia|]. split.
  - rewrite Ec, length_app in Hcs. cbn [length] in Hcs.
    rewrite length_app. cbn [length]. lia.
  - rewrite Ec in Hall. apply Forall_app in Hall. destruct Hall as [Ha1 Ha2].
    inversion Ha2; subst. apply Forall_app. split; [assumption|].
    repeat constructor; assumption.
Qed.

Lemma _insert_non_full_exact mx key row_id fuel :
  forall n n',
    exact_node n = true ->
    _insert_non_full is_none lt mx fuel n key row_id = Ok n' ->
    exact_node n' = true.
Proof.
  induction fuel as [|fuel IH]; intros [lf ks vs cs] n' Hex H;
    [discriminate|].
  pose proof Hex as Hex0. apply exact_node_inv in Hex.
  destruct Hex as (Hvs & Hcs & Hall).
  cbn [_insert_non_full children keys values leaf] in H.
  set (pos := scan_down is_none lt key ks (length ks)) in *.
  destruct lf.
  - assert (Hnew : exact_node (Node true (list_insert pos key ks)
                                    (list_insert pos [row_id] vs) cs) = true).
    { apply exact_node_inv. rewrite !length_list_insert. auto. }
    destruct pos as [|i]; [apply Ok_inj in H; now subst|].
    destruct (key_at is_none lt key ks i);
      [|apply Ok_inj in H; now subst].
    inv_bind H. apply setitem_Ok in Hstep0.
    destruct Hstep0 as (rs & Hrs & ->).
    apply exact_node_inv. rewrite (length_replace _ _ _ Hrs). auto.
  - inv_bind H. rename a into child. apply getitem_Ok in Hstep.
    destruct (lenZ (keys child) =? mx).
    + inv_bind H.
      destruct (@_split_child_exact false ks vs cs pos a Hvs Hcs Hall Hstep0)
        as (kmid & vmid & c & Hc & -> & Hv' & Hc' & Hall').
      cbn [children keys values leaf] in *.
      apply getitem_Ok in Hstep2. apply setitem_Ok in Hstep4.
      destruct Hstep4 as (x & Hx & ->).
      rewrite Forall_forall in Hall'.
      pose proof (IH _ _ (Hall' _ (nth_error_In _ _ Hstep2)) Hstep3) as Hn.
      apply exact_node_inv. rewrite (length_replace _ _ _ Hx).
      split; [assumption|]. split; [assumption|].
      apply Forall_replace; [now apply Forall_forall|assumption].
    + inv_bind H. apply setitem_Ok in Hstep1.
      destruct Hstep1 as (x & Hx & ->).
      rewrite Forall_forall in Hall.
      pose proof (IH _ _ (Hall _ (nth_error_In _ _ Hstep)) Hstep0) as Hn.
      apply exact_node_inv. rewrite (length_replace _ _ _ Hx).
      split; [assumption|]. split; [assumption|].
      apply Forall_replace; [now apply Forall_forall|assumption].
Qed.

Lemma insert_exact t key row_id t' :
  exact_node (root t) = true -> insert is_none lt t key row_id = Ok t' ->
  exact_node (root t') = true.
Proof.
  unfold insert. intros Hex H. inv_bind H. cbn [root].
  apply _insert_non_full_exact in Hstep0; [assumption|].
  destruct (lenZ (keys (root t)) =? max_keys t).
  - destruct (@_split_child_exact false [] [] [root t] 0 a)
      as (kmid & vmid & c & Hc & -> & Hv' & Hc' & Hall'); auto.
    apply exact_node_inv. auto.
  - apply Ok_inj in Hstep. now subst.
Qed.

Lemma insert_all_exact l :
  forall t t',
    exact_node (root t) = true -> insert_all is_none lt t l = Ok t' ->
    exact_node (root t') = true /\
    len t' - total (root t') = len t - total (root t) /\
    len t' = len t + lenZ l.
Proof.
  induction l as [|[k r] l IH]; intros t t' Hex H; cbn [insert_all] in H.
  - apply Ok_inj in H. subst. unfold lenZ. cbn [length]. split; [assumption|].
    lia.
  - inv_bind H. pose proof (@insert_exact t k r a Hex Hstep) as Hex1.
    destruct (IH _ _ Hex1 H) as (H1 & H2 & H3). split; [assumption|].
    apply insert_total in Hstep. unfold lenZ in *. cbn [length]. lia.
Qed.

Lemma lenZ_pairs n : exact_node n = true -> lenZ (pairs n) = total n.
Proof.
  induction n as [lf ks vs cs IH] using BTreeNode_ind. intros H.
  apply exact_node_inv in H. destruct H as (Hvs & _ & Hall).
  cbn [pairs total]. rewrite lenZ_app. f_equal.
  - unfold slot_pairs, slots. clear - Hvs. revert vs Hvs.
    induction ks as [|k ks IHk]; intros [|v vs] Hvs; try discriminate;
      [reflexivity|].
    cbn [combine flat_map map sumZ fst snd]. rewrite lenZ_app.
    f_equal; [unfold lenZ; now rewrite length_map|].
    apply IHk. now injection Hvs.
  - induction IH as [|c cs Hc _ IHcs]; [reflexivity|].
    inversion Hall; subst. cbn [flat_map map sumZ]. rewrite lenZ_app.
    f_equal; auto.
Qed.

(** X28.  On a tree built from a new one by inserts only, [range_search]
    without bounds returns every pair held by the slots of the tree exactly
    once; their number is [len], the number of inserts. *)
Theorem range_search_returns_everything o entries t min_key max_key :
  insert_all is_none lt (new K o) entries = Ok t ->
  is_none min_key = true -> is_none max_key = true ->
  exists out,
    range_search t min_key max_key = Ok out /\
    Permutation out (pairs (root t)) /\
    lenZ out = len t /\ len t = lenZ entries.
Proof.
  intros H Hmin Hmax.
  destruct (@insert_all_exact entries (new K o) t eq_refl H)
    as (Hex & Htot & Hlen).
  cbn [new len root total _size slots map sumZ] in Htot, Hlen.
  unfold range_search.
  destruct (@_range_search_returns min_key max_key (S (height (root t)))
              (root t) [] (exact_wf _ Hex)) as (out & E); [lia|].
  exists out. split; [assumption|].
  destruct (@_range_search_all min_key max_key Hmin Hmax _ _ _ _ Hex E)
    as (added & -> & Hp).
  cbn [app]. split; [assumption|]. split; [|lia].
  unfold lenZ at 1. rewrite (Permutation_length Hp).
  fold (lenZ (pairs (root t))). rewrite (lenZ_pairs _ Hex). lia.
Qed.

(** *** Insert, then search *)

Section Ordered.

(** The comparison is that of an order: swapping the arguments negates the
    answer, and "less than" is transitive. *)
Hypothesis compare_flip :
  forall a b, _compare is_none lt b a = - _compare is_none lt a b.
Hypothesis compare_trans :
  forall a b c, _compare is_none lt a b < 0 -> _compare is_none lt b c < 0 ->
                _compare is_none lt a c < 0.

(** The keys of a node are in strictly increasing order. *)
Fixpoint increasing (ks : list K) : bool :=
  match ks with
  | [] => true
  | k :: ks' =>
      forallb (fun k' => _compare is_none lt k k' <? 0) ks' && increasing ks'
  end.

(** Every node below [n], [n] included, has its keys in increasing order. *)
Fixpoint sorted_node (n : BTreeNode K) : bool :=
  match n with
  | Node _ ks _ cs => increasing ks && forallb sorted_node cs
  end.

Lemma compare_refl a : _compare is_none lt a a = 0.
Proof. pose proof (compare_flip a a). lia. Qed.

Lemma increasing_firstn ks n :
  increasing ks = true -> increasing (firstn n ks) = true.
Proof.
  revert n. induction ks as [|k ks IH]; intros [|n] H; try reflexivity.
  cbn [increasing firstn] in *. apply andb_true_iff in H. destruct H as [H1 H2].
  apply andb_true_iff. split; [now apply forallb_firstn|now apply IH].
Qed.

Lemma increasing_skipn ks n :
  increasing ks = true -> increasing (skipn n ks) = true.
Proof.
  revert n. induction ks as [|k ks IH]; intros [|n] H; try assumption;
    try reflexivity.
  cbn [increasing skipn] in *. apply andb_true_iff in H. destruct H as [_ H2].
  now apply IH.
Qed.

(** In a node with increasing keys none of which equals [key], the keys
    before [key] come first and the keys after it last. *)
Lemma increasing_split key ks :
  increasing ks = true ->
  existsb (fun k => _compare is_none lt key k =? 0) ks = false ->
  exists l1 l2,
    ks = l1 ++ l2 /\
    Forall (fun k => _compare is_none lt key k > 0) l1 /\
    Forall (fun k => _compare is_none lt key k < 0) l2.
Proof.
  induction ks as [|k ks IH]; intros Hinc Habs.
  - exists [], []. auto.
  - cbn [increasing existsb] in *.
    apply andb_true_iff in Hinc. destruct Hinc as [Hk Hinc].
    apply orb_false_iff in Habs. destruct Habs as [Hne Habs].
    apply Z.eqb_neq in Hne.
    destruct (Z_lt_le_dec (_compare is_none lt key k) 0) as [Hlt|Hge].
    + exists [], (k :: ks). repeat split; [constructor|].
      constructor; [assumption|].
      rewrite forallb_forall in Hk. apply Forall_forall. intros k' Hk'.
      apply compare_trans with k; [assumption|].
      apply Z.ltb_lt. now apply Hk.
    + destruct (IH Hinc Habs) as (l1 & l2 & -> & H1 & H2).
      exists (k :: l1), l2. repeat split; [|assumption].
      constructor; [lia|assumption].
Qed.

Lemma scan_up_app key l1 l2 :
  Forall (fun k => _compare is_none lt key k > 0) l1 ->
  match l2 with
  | [] => True
  | k :: _ => _compare is_none lt key k <= 0
  end ->
  scan_up is_none lt key (l1 ++ l2) = length l1.
Proof.
  induction 1 as [|k l1 Hk _ IH]; intros H2; cbn [app scan_up length].
  - destruct l2 as [|k l2]; [reflexivity|]. cbn [scan_up].
    destruct (Z.gtb_spec (_compare is_none lt key k) 0); [lia|reflexivity].
  - destruct (Z.gtb_spec (_compare is_none lt key k) 0); [|lia].
    now rewrite IH.
Qed.

Lemma scan_down_app key l1 l2 :
  Forall (fun k => _compare is_none lt key k > 0) l1 ->
  Forall (fun k => _compare is_none lt key k < 0) l2 ->
  scan_down is_none lt key (l1 ++ l2) (length (l1 ++ l2)) = length l1.
Proof.
  intros H1 H2. rewrite length_app.
  assert (Hm : forall m, (m <= length l2)%nat ->
             scan_down is_none lt key (l1 ++ l2) (length l1 + m)
             = scan_down is_none lt key (l1 ++ l2) (length l1)).
  { induction m as [|m IH]; intros Hm; [now rewrite Nat.add_0_r|].
    rewrite Nat.add_succ_r. cbn [scan_down].
    rewrite nth_error_app2 by lia.
    replace (length l1 + m - length l1)%nat with m by lia.
    destruct (nth_error l2 m) as [k|] eqn:E;
      [|apply nth_error_None in E; lia].
    rewrite Forall_forall in H2.
    pose proof (H2 k (nth_error_In _ _ E)) as Hk.
    destruct (Z.ltb_spec (_compare is_none lt key k) 0); [|lia].
    apply IH. lia. }
  rewrite Hm by lia. clear Hm.
  destruct l1 as [|k0 l1'] using rev_ind; [reflexivity|].
  rewrite length_app. cbn [length]. rewrite Nat.add_1_r. cbn [scan_down].
  rewrite <- app_assoc. rewrite nth_error_app2 by lia.
  rewrite Nat.sub_diag. cbn [app nth_error].
  apply Forall_app in H1. destruct H1 as [_ H1]. inversion H1; subst.
  destruct (Z.ltb_spec (_compare is_none lt key k0) 0); [lia|reflexivity].
Qed.

Lemma halves_sorted c :
  sorted_node c = true ->
  sorted_node (left_half c) = true /\ sorted_node (right_half c) = true.
Proof.
  destruct c as [lf ks vs cs]. unfold left_half, right_half.
  cbn [sorted_node leaf keys values children]. intros H.
  apply andb_true_iff in H. destruct H as [H1 H2].
  split; apply andb_true_iff; split.
  - now apply increasing_firstn.
  - destruct lf; [assumption|now apply forallb_firstn].
  - now apply increasing_skipn.
  - destruct lf; [reflexivity|now apply forallb_skipn].
Qed.

Lemma halves_absent key c kmid :
  occurs is_none lt key c = false ->
  nth_error (keys c) (mid c) = Some kmid ->
  occurs is_none lt key (left_half c) = false /\
  occurs is_none lt key (right_half c) = false /\
  _compare is_none lt key kmid <> 0.
Proof.
  destruct c as [lf ks vs cs]. unfold left_half, right_half.
  cbn [occurs leaf keys values children]. intros H Hk.
  apply orb_false_iff in H. destruct H as [H1 H2].
  rewrite existsb_false in H1. rewrite existsb_false in H2.
  repeat split.
  - apply orb_false_iff. split; apply existsb_false; intros x Hx.
    + apply H1. now apply In_firstn with (mid (Node lf ks vs cs)).
    + apply H2. destruct lf; [assumption|].
      now apply In_firstn with (S (mid (Node false ks vs cs))).
  - apply orb_false_iff. split; apply existsb_false; intros x Hx.
    + apply H1. now apply In_skipn with (S (mid (Node lf ks vs cs))).
    + apply H2. destruct lf; [destruct Hx|].
      now apply In_skipn with (S (mid (Node false ks vs cs))).
  - apply Z.eqb_neq. apply H1. now apply nth_error_In with (1 := Hk).
Qed.

Lemma search_at_child key ks vs cs i c :
  scan_up is_none lt key ks = i -> key_at is_none lt key ks i = false ->
  nth_error cs i = Some c ->
  _search is_none lt (Node false ks vs cs) key = _search is_none lt c key.
Proof.
  intros Hi Hat Hc. rewrite _search_eq. cbv zeta. rewrite Hi, Hat.
  unfold getitem. now rewrite Hc.
Qed.

Lemma search_new_slot key row_id lf l1 l2 vs cs :
  Forall (fun k => _compare is_none lt key k > 0) l1 ->
  length vs = length (l1 ++ l2) ->
  _search is_none lt
          (Node lf (l1 ++ key :: l2) (list_insert (length l1) [row_id] vs) cs)
          key
  = Ok [row_id].
Proof.
  intros H1 Hvs. rewrite _search_eq. cbv zeta.
  rewrite scan_up_app; [|assumption|rewrite compare_refl; lia].
  unfold key_at. rewrite nth_error_app2, Nat.sub_diag by lia.
  cbn [nth_error]. rewrite compare_refl. cbn.
  unfold getitem. rewrite nth_error_list_insert; [reflexivity|].
  rewrite Hvs, length_app. lia.
Qed.

(** An insert of a key that no slot holds, into a node graph with
    increasing keys, returns a graph in which the search finds the key with
    exactly the new row id. *)
Lemma _insert_non_full_found mx key row_id fuel :
  forall n,
    1 <= mx -> wf_node n = true -> sorted_node n = true ->
    occurs is_none lt key n = false -> (height n <= fuel)%nat ->
    exists n',
      _insert_non_full is_none lt mx fuel n key row_id = Ok n' /\
      _search is_none lt n' key = Ok [row_id].
Proof.
  induction fuel as [|fuel IH]; intros [lf ks vs cs] Hmx Hwf Hs Habs Hh;
    [cbn in Hh; lia|].
  apply height_le in Hh.
  pose proof Hwf as Hwf0. apply wf_node_inv in Hwf.
  destruct Hwf as (Hvs & Hcs & Hall).
  pose proof Habs as Habs0. cbn [occurs] in Habs.
  apply orb_false_iff in Habs. destruct Habs as [Hks _].
  cbn [sorted_node] in Hs. apply andb_true_iff in Hs.
  destruct Hs as [Hinc Hscs].
  destruct (@increasing_split key ks Hinc Hks) as (l1 & l2 & -> & H1 & H2).
  assert (Hhead : match l2 with
                  | [] => True
                  | k :: _ => _compare is_none lt key k <= 0
                  end).
  { destruct l2 as [|k l2]; [exact I|]. inversion H2; subst. lia. }
  cbn [_insert_non_full children keys values leaf].
  rewrite (@scan_down_app key l1 l2 H1 H2).
  destruct lf.
  - exists (Node true (l1 ++ key :: l2)
                 (list_insert (length l1) [row_id] vs) cs).
    split; [|now apply search_new_slot].
    rewrite <- (list_insert_app l1 l2 key).
    destruct (length l1) as [|i]; [reflexivity|].
    now rewrite (@key_at_absent key (l1 ++ l2) i Hks).
  - specialize (Hcs eq_refl). rewrite length_app in Hcs.
    destruct (nth_error cs (length l1)) as [child|] eqn:Hchild;
      [|apply nth_error_None in Hchild; lia].
    unfold getitem at 1. rewrite Hchild. cbn [bind].
    pose proof (nth_error_In _ _ Hchild) as Hin.
    rewrite forallb_forall in Hscs.
    pose proof (@occurs_child key _ _ _ _ child Habs0 Hin) as Habsc.
    destruct (lenZ (keys child) =? mx) eqn:Hfull.
    + apply Z.eqb_eq in Hfull. unfold lenZ in Hfull.
      destruct (@_split_child_ok K is_none lt (Node false (l1 ++ l2) vs cs)
                  (length l1) child key row_id fuel
                  Hwf0 Hchild ltac:(lia) Hh)
        as (p' & Ep & Hwf' & _ & Hh2 & _).
      assert (Hmid : (mid child < length (keys child))%nat)
        by (apply Nat.Div0.div_lt_upper_bound; lia).
      destruct (nth_error (keys child) (mid child)) as [kmid|] eqn:Hk;
        [|apply nth_error_None in Hk; lia].
      assert (Hcv : length (values child) = length (keys child)).
      { rewrite Forall_forall in Hall. specialize (Hall child Hin).
        destruct child. apply wf_node_inv in Hall. now destruct Hall. }
      destruct (nth_error (values child) (mid child)) as [vmid|] eqn:Hv;
        [|apply nth_error_None in Hv; lia].
      rewrite (@_split_child_eq false (l1 ++ l2) vs cs (length l1) child kmid vmid
                 Hchild Hk Hv) in Ep |- *.
      apply Ok_inj in Ep. subst p'. cbn [bind keys children values leaf] in *.
      rewrite list_insert_app.
      unfold getitem at 1.
      rewrite nth_error_app2, Nat.sub_diag by lia. cbn [nth_error bind].
      destruct (@halves_sorted child (Hscs child Hin)) as [Hsl Hsr].
      destruct (@halves_absent key child kmid Habsc Hk) as (Hal & Har & Hne).
      apply wf_node_inv in Hwf'. destruct Hwf' as (_ & _ & Hall2).
      rewrite Forall_forall in Hall2, Hh2.
      assert (Hlen1 : length (firstn (length l1) cs) = length l1)
        by (rewrite length_firstn; lia).
      assert (Hleft : nth_error (firstn (length l1) cs ++ left_half child
                                   :: right_half child
                                   :: skipn (S (length l1)) cs) (length l1)
                      = Some (left_half child)).
      { rewrite nth_error_app2 by lia. rewrite Hlen1, Nat.sub_diag.
        reflexivity. }
      assert (Hright : nth_error (firstn (length l1) cs ++ left_half child
                                    :: right_half child
                                    :: skipn (S (length l1)) cs)
                                 (S (length l1))
                       = Some (right_half child)).
      { rewrite nth_error_app2 by lia. rewrite Hlen1.
        replace (S (length l1) - length l1)%nat with 1%nat by lia.
        reflexivity. }
      destruct (Z.gtb_spec (_compare is_none lt key kmid) 0) as [Hgt|Hle].
      * unfold getitem at 1. rewrite Hright. cbn [bind].
        destruct (IH (right_half child) Hmx
                    (Hall2 _ (nth_error_In _ _ Hright)) Hsr Har
                    (Hh2 _ (nth_error_In _ _ Hright)))
          as (c' & -> & Hfound).
        cbn [bind]. unfold setitem. rewrite Hright. cbn [bind].
        eexists. split; [reflexivity|]. rewrite <- Hfound.
        apply search_at_child with (S (length l1)).
        -- change (l1 ++ kmid :: l2) with (l1 ++ [kmid] ++ l2).
           rewrite app_assoc, scan_up_app; [rewrite length_app; cbn; lia| |].
           ++ apply Forall_app. split; [assumption|].
              constructor; [lia|constructor].
           ++ assumption.
        -- unfold key_at. rewrite nth_error_app2 by lia.
           replace (S (length l1) - length l1)%nat with 1%nat by lia.
           cbn [nth_error]. destruct l2 as [|k l2]; [reflexivity|].
           cbn [nth_error]. inversion H2; subst. apply Z.eqb_neq. lia.
        -- now apply nth_error_replace_eq with (right_half child).
      * assert (Hlt : _compare is_none lt key kmid < 0) by lia.
        unfold getitem at 1. rewrite Hleft. cbn [bind].
        destruct (IH (left_half child) Hmx
                    (Hall2 _ (nth_error_In _ _ Hleft)) Hsl Hal
                    (Hh2 _ (nth_error_In _ _ Hleft)))
          as (c' & -> & Hfound).
        cbn [bind]. unfold setitem. rewrite Hleft. cbn [bind].
        eexists. split; [reflexivity|]. rewrite <- Hfound.
        apply search_at_child with (length l1).
        -- apply scan_up_app; [assumption|lia].
        -- unfold key_at. rewrite nth_error_app2, Nat.sub_diag by lia.
           cbn [nth_error]. now apply Z.eqb_neq.
        -- now apply nth_error_replace_eq with (left_half child).
    + rewrite Forall_forall in Hall, Hh.
      destruct (IH child Hmx (Hall child Hin) (Hscs child Hin) Habsc
                  (Hh child Hin)) as (c' & -> & Hfound).
      cbn [bind]. unfold setitem. rewrite Hchild. cbn [bind].
      eexists. split; [reflexivity|]. rewrite <- Hfound.
      apply search_at_child with (length l1).
      * now apply scan_up_app.
      * now apply key_at_absent.
      * now apply nth_error_replace_eq with child.
Qed.

(** X29.  When the comparison of keys is that of an order, every node of
    a well-shaped tree has its keys in increasing order, and no slot holds
    a key equal to [key]: [insert(key, row_id)] returns, [len] grows by one,
    and [search(key)] on the new tree returns exactly [[row_id]], so the key
    is [in] the tree. *)
Theorem insert_then_search t key row_id :
  wf t = true -> sorted_node (root t) = true ->
  occurs is_none lt key (root t) = false ->
  exists t',
    insert is_none lt t key row_id = Ok t' /\
    search is_none lt t' key = Ok [row_id] /\
    contains is_none lt t' key = Ok true /\
    len t' = len t + 1.
Proof.
  intros Hwf Hs Habs. unfold wf in Hwf. apply andb_true_iff in Hwf.
  destruct Hwf as [Ho Hwf]. apply Z.leb_le in Ho.
  assert (Hr : exists r,
    (if lenZ (keys (root t)) =? max_keys t
     then _split_child (Node false [] [] [root t]) 0 else Ok (root t)) = Ok r
    /\ wf_node r = true /\ sorted_node r = true /\
    occurs is_none lt key r = false).
  { destruct (lenZ (keys (root t)) =? max_keys t) eqn:Hfull; [|eauto].
    apply Z.eqb_eq in Hfull. unfold lenZ, max_keys in Hfull.
    destruct (@_split_child_ok K is_none lt (Node false [] [] [root t]) 0
                (root t) key row_id (height (root t)))
      as (r & Hr1 & Hr2 & _).
    - apply wf_node_inv. repeat split; auto.
    - reflexivity.
    - lia.
    - cbn [children]. auto.
    - exists r. split; [assumption|]. split; [assumption|].
      assert (Hmid : (mid (root t) < length (keys (root t)))%nat)
        by (apply Nat.Div0.div_lt_upper_bound; lia).
      destruct (nth_error (keys (root t)) (mid (root t))) as [kmid|] eqn:Hk;
        [|apply nth_error_None in Hk; lia].
      assert (Hcv : length (values (root t)) = length (keys (root t))).
      { destruct (root t). apply wf_node_inv in Hwf. now destruct Hwf. }
      destruct (nth_error (values (root t)) (mid (root t))) as [vmid|] eqn:Hv;
        [|apply nth_error_None in Hv; lia].
      rewrite (@_split_child_eq false [] [] [root t] 0 (root t) kmid vmid
                 eq_refl Hk Hv) in Hr1.
      apply Ok_inj in Hr1. subst r.
      destruct (@halves_sorted (root t) Hs) as [Hsl Hsr].
      destruct (@halves_absent key (root t) kmid Habs Hk) as (Hal & Har & Hne).
      cbn [sorted_node occurs list_insert firstn skipn app increasing forallb
           existsb]. rewrite Hsl, Hsr, Hal, Har.
      apply Z.eqb_neq in Hne. rewrite Hne. auto. }
  destruct Hr as (r & Er & Hwfr & Hsr & Hr).
  destruct (@_insert_non_full_found (max_keys t) key row_id (S (height r)) r)
    as (r' & Er' & Hfound); try assumption; [unfold max_keys; lia|lia|].
  unfold insert. rewrite Er. cbn [bind]. rewrite Er'. cbn [bind].
  eexists. split; [reflexivity|].
  unfold contains, search, len. cbn [root _size]. rewrite Hfound.
  auto.
Qed.

End Ordered.

End WithKeys.

(** *** The properties on example trees *)

Import IntIndex.

Lemma absent_key_is_not_found_witness :
  wf four_keys = true /\
  occurs int_none int_lt 7 (root four_keys) = false /\
  search int_none int_lt four_keys 7 = Ok [] /\
  contains int_none int_lt four_keys 7 = Ok false.
Proof.
  split; [reflexivity|]. split; [reflexivity|].
  destruct (@absent_key_is_not_found Z int_none int_lt four_keys 7 70
              eq_refl eq_refl) as (H1 & H2 & _).
  split; assumption.
Defined.

(** The tree [four_keys] with the keys as column values, for which [None]
    is a key. *)
Definition four_values : BTree value :=
  mkBTree 4
    (Node false [VInt 2] [[20]]
       [Node true [VInt 1] [[10]] [];
        Node true [VInt 3; VInt 4] [[30]; [40]] []])
    4.

Lemma range_search_returns_everything_witness :
  insert_all Py.is_none IndexManager.value_lt (new value 4)
             [(VInt 1, 10); (VInt 2, 20); (VInt 3, 30); (VInt 4, 40)]
  = Ok four_values /\
  exists out,
    range_search Py.is_none IndexManager.value_lt four_values VNull VNull
    = Ok out /\
    Permutation out (pairs (root four_values)) /\
    lenZ out = len four_values /\ len four_values = 4.
Proof.
  split; [reflexivity|].
  exact (@range_search_returns_everything value Py.is_none
           IndexManager.value_lt 4
           [(VInt 1, 10); (VInt 2, 20); (VInt 3, 30); (VInt 4, 40)]
           four_values VNull VNull eq_refl eq_refl eq_refl).
Defined.

Lemma int_compare_flip a b :
  _compare int_none int_lt b a = - _compare int_none int_lt a b.
Proof.
  unfold _compare, int_none, int_lt. cbn [andb].
  destruct (Z.ltb_spec b a), (Z.ltb_spec a b); lia.
Qed.

Lemma int_compare_trans a b c :
  _compare int_none int_lt a b < 0 -> _compare int_none int_lt b c < 0 ->
  _compare int_none int_lt a c < 0.
Proof.
  unfold _compare, int_none, int_lt. cbn [andb].
  destruct (Z.ltb_spec a b), (Z.ltb_spec b a), (Z.ltb_spec b c),
    (Z.ltb_spec c b), (Z.ltb_spec a c), (Z.ltb_spec c a); lia.
Qed.

Lemma insert_then_search_witness :
  wf four_keys = true /\
  sorted_node int_none int_lt (root four_keys) = true /\
  occurs int_none int_lt 7 (root four_keys) = false /\
  exists t',
    insert int_none int_lt four_keys 7 70 = Ok t' /\
    search int_none int_lt t' 7 = Ok [70] /\
    contains int_none int_lt t' 7 = Ok true /\
    len t' = len four_keys + 1.
Proof.
  split; [reflexivity|]. split; [reflexivity|]. split; [reflexivity|].
  exact (@insert_then_search Z int_none int_lt int_compare_flip
           int_compare_trans four_keys 7 70 eq_refl eq_refl eq_refl).
Defined.

End IndexFacts.

(** ** index.py on column values: comparisons that raise *)

Module ValueIndex.
Import Index.

(** [BTree._compare] on two Python objects: [a < b] and [a > b] raise
    [TypeError] between a text and a number. *)
Definition _compare (a b : value) : result Z :=
  if Py.is_none a && Py.is_none b then Ok 0
  else if Py.is_none a then Ok (-1)
  else if Py.is_none b then Ok 1
  else
    l <- Py.lt a b ;;
    if l then Ok (-1)
    else g <- Py.gt a b ;; if g then Ok 1 else Ok 0.

(** The loop [while i >= 0 and _compare(key, keys[i]) < 0: i -= 1] started
    at [i = n - 1]; the answer is the final [i + 1]. *)
Fixpoint scan_down (key : value) (ks : list value) (n : nat) : result nat :=
  match n with
  | O => Ok O
  | S i =>
      match nth_error ks i with
      | Some k =>
          c <- _compare key k ;;
          if c <? 0 then scan_down key ks i else Ok (S i)
      | None => Ok (S i)
      end
  end.

(** The loop [while i < len(keys) and _compare(key, keys[i]) > 0: i += 1]
    started at [i = 0]; the answer is the final [i]. *)
Fixpoint scan_up (key : value) (ks : list value) : result nat :=
  match ks with
  | [] => Ok O
  | k :: ks' =>
      c <- _compare key k ;;
      if c >? 0 then i <- scan_up key ks' ;; Ok (S i) else Ok O
  end.

(** [i < len(node.keys) and _compare(key, node.keys[i]) == 0] *)
Definition key_at (key : value) (ks : list value) (i : nat) : result bool :=
  match nth_error ks i with
  | Some k => c <- _compare key k ;; Ok (c =? 0)
  | None => Ok false
  end.

(** [BTree._insert_non_full(node, key, row_id)] *)
Fixpoint _insert_non_full (mx : Z) (fuel : nat) (node : BTreeNode value)
         (key : value) (row_id : Z) : result (BTreeNode value) :=
  match fuel with
  | O => Raise OutOfFuel
  | S fuel' =>
      pos <- scan_down key (keys node) (length (keys node)) ;;
      if leaf node then
        match pos with
        | S i =>
            found <- key_at key (keys node) i ;;
            if found then
              rs <- getitem (values node) i ;;
              vs <- setitem i (rs ++ [row_id]) (values node) ;;
              Ok (Node (leaf node) (keys node) vs (children node))
            else
              Ok (Node (leaf node)
                       (list_insert pos key (keys node))
                       (list_insert pos [row_id] (values node))
                       (children node))
        | O =>
            Ok (Node (leaf node)
                     (list_insert pos key (keys node))
                     (list_insert pos [row_id] (values node))
                     (children node))
        end
      else
        child <- getitem (children node) pos ;;
        if lenZ (keys child) =? mx then
          node' <- _split_child node pos ;;
          k <- getitem (keys node') pos ;;
          c <- _compare key k ;;
          let i := if c >? 0 then S pos else pos in
          c <- getitem (children node') i ;;
          c' <- _insert_non_full mx fuel' c key row_id ;;
          cs <- setitem i c' (children node') ;;
          Ok (Node (leaf node') (keys node') (values node') cs)
        else
          c' <- _insert_non_full mx fuel' child key row_id ;;
          cs <- setitem pos c' (children node) ;;
          Ok (Node (leaf node) (keys node) (values node) cs)
  end.

(** [BTree.insert(key, row_id)] *)
Definition insert (t : BTree value) (key : value) (row_id : Z)
  : result (BTree value) :=
  r <- (if lenZ (keys (root t)) =? max_keys t then
          _split_child (Node false [] [] [root t]) 0
        else Ok (root t)) ;;
  r' <- _insert_non_full (max_keys t) (S (height r)) r key row_id ;;
  Ok (mkBTree (order t) r' (_size t + 1)).

(** [BTree._search(node, key)] *)
Fixpoint _search (node : BTreeNode value) (key : value) : result (list Z) :=
  match node with
  | Node lf ks vs cs =>
      i <- scan_up key ks ;;
      found <- key_at key ks i ;;
      if found then getitem vs i
      else if lf then Ok []
      else
        (fix at_child (cs : list (BTreeNode value)) (i : nat)
           : result (list Z) :=
           match cs, i with
           | [], _ => Raise IndexError
           | c :: _, O => _search c key
           | _ :: cs', S i' => at_child cs' i'
           end) cs i
  end.

(** [BTree.search(key)] *)
Definition search (t : BTree value) (key : value) : result (list Z) :=
  _search (root t) key.

(** [BTree.__contains__] *)
Definition contains (t : BTree value) (key : value) : result bool :=
  rs <- search t key ;; Ok (0 <? lenZ rs).

(** [BTree._delete(node, key, row_id)] *)
Fixpoint _delete (node : BTreeNode value) (key : value) (row_id : Z)
  : result (BTreeNode value * bool) :=
  match node with
  | Node lf ks vs cs =>
      i <- scan_up key ks ;;
      let descend :=
        '(cs', d) <-
          (fix at_child (cs : list (BTreeNode value)) (i : nat)
             : result (list (BTreeNode value) * bool) :=
             match cs, i with
             | [], _ => Raise IndexError
             | c :: cs', O =>
                 '(c', d) <- _delete c key row_id ;; Ok (c' :: cs', d)
             | c :: cs', S i' =>
                 '(cs'', d) <- at_child cs' i' ;; Ok (c :: cs'', d)
             end) cs i ;;
        Ok (Node lf ks vs cs', d) in
      found <- key_at key ks i ;;
      if lf then
        if found then
          rs <- getitem vs i ;;
          if list_contains row_id rs then remove_at lf ks vs cs i rs row_id
          else Ok (node, false)
        else Ok (node, false)
      else
        if found then
          rs <- getitem vs i ;;
          if list_contains row_id rs then remove_at lf ks vs cs i rs row_id
          else descend
        else descend
  end.

(** [BTree.delete(key, row_id)] *)
Definition delete (t : BTree value) (key : value) (row_id : Z)
  : result (BTree value * bool) :=
  '(r, deleted) <- _delete (root t) key row_id ;;
  r' <- (if (lenZ (keys r) =? 0) && negb (leaf r)
         then getitem (children r) 0 else Ok r) ;;
  Ok (mkBTree (order t) r' (if deleted then _size t - 1 else _size t),
      deleted).

(** [min_key is None or self._compare(key, min_key) >= 0] *)
Definition at_least (min_key key : value) : result bool :=
  if Py.is_none min_key then Ok true
  else c <- _compare key min_key ;; Ok (0 <=? c).

(** [max_key is None or self._compare(key, max_key) <= 0] *)
Definition at_most (max_key key : value) : result bool :=
  if Py.is_none max_key then Ok true
  else c <- _compare key max_key ;; Ok (c <=? 0).

(** The loop [for i, key in enumerate(node.keys)] of [_range_search], from
    position [i] on; [descend] is the recursive call on a child. *)
Fixpoint visit_keys
         (descend : BTreeNode value -> list (value * Z)
                    -> result (list (value * Z)))
         (node : BTreeNode value) (min_key max_key : value) (i : nat)
         (ks : list value) (results : list (value * Z))
  : result (list (value * Z)) :=
  match ks with
  | [] => Ok results
  | key :: ks' =>
      results <-
        (if negb (leaf node) then
           above <- at_least min_key key ;;
           if above then c <- getitem (children node) i ;; descend c results
           else Ok results
         else Ok results) ;;
      above <- at_least min_key key ;;
      within <- (if above then at_most max_key key else Ok false) ;;
      results <-
        (if within then
           rs <- getitem (values node) i ;;
           Ok (results ++ map (pair key) rs)
         else Ok results) ;;
      visit_keys descend node min_key max_key (S i) ks' results
  end.

(** [BTree._range_search(node, min_key, max_key, results)]: the list
    [results] after the call. *)
Fixpoint _range_search (fuel : nat) (node : BTreeNode value)
         (min_key max_key : value) (results : list (value * Z))
  : result (list (value * Z)) :=
  match fuel with
  | O => Raise OutOfFuel
  | S fuel' =>
      let descend c results :=
        _range_search fuel' c min_key max_key results in
      results <- visit_keys descend node min_key max_key O (keys node)
                            results ;;
      if negb (leaf node)
         && Nat.ltb (length (keys node)) (length (children node))
      then
        below <-
          (if Py.is_none max_key then Ok true
           else
             match keys node with
             | [] => Ok false
             | k :: ks => c <- _compare (last ks k) max_key ;; Ok (c <=? 0)
             end) ;;
        if below then
          c <- getitem (children node) (length (children node) - 1) ;;
          descend c results
        else Ok results
      else Ok results
  end.

(** [BTree.range_search(min_key, max_key)] *)
Definition range_search (t : BTree value) (min_key max_key : value)
  : result (list (value * Z)) :=
  _range_search (S (height (root t))) (root t) min_key max_key [].

(** *** Keys that compare *)

(** The keys held by the slots of all nodes below [n], [n] included. *)
Fixpoint node_keys (n : BTreeNode value) : list value :=
  match n with
  | Node _ ks _ cs => ks ++ flat_map node_keys cs
  end.

(** [_compare(a, b)] returns. *)
Definition comparable (a b : value) : bool :=
  match _compare a b with
  | Ok _ => true
  | Raise _ => false
  end.

(** [_compare(key, k)] returns for every key [k] of the node graph, and
    [_compare(k, bound)] does. *)
Definition compares_with (key : value) (n : BTreeNode value) : bool :=
  forallb (comparable key) (node_keys n).

Definition bounded_by (bound : value) (n : BTreeNode value) : bool :=
  forallb (fun k => comparable k bound) (node_keys n).

(** Where [_compare] returns, it returns what the comparison of
    [IndexManager.value_lt] answers. *)

Lemma _compare_agrees a b :
  comparable a b = true ->
  _compare a b = Ok (Index._compare Py.is_none IndexManager.value_lt a b).
Proof.
  unfold comparable, _compare, Index._compare, IndexManager.value_lt, Py.gt.
  destruct (Py.is_none a), (Py.is_none b); cbn [andb]; try reflexivity.
  destruct (Py.lt a b) as [[]|e]; cbn [bind]; try reflexivity;
    try discriminate.
  destruct (Py.lt b a) as [[]|e']; cbn [bind]; try reflexivity; discriminate.
Qed.

Lemma scan_down_agrees key ks n :
  Forall (fun k => comparable key k = true) ks ->
  scan_down key ks n
  = Ok (Index.scan_down Py.is_none IndexManager.value_lt key ks n).
Proof.
  intros H. rewrite Forall_forall in H.
  induction n as [|i IH]; cbn [scan_down Index.scan_down]; [reflexivity|].
  destruct (nth_error ks i) as [k|] eqn:E; [|reflexivity].
  rewrite _compare_agrees by (apply H; now apply nth_error_In with i).
  cbn [bind]. now destruct (_ <? 0).
Qed.

Lemma scan_up_agrees key ks :
  Forall (fun k => comparable key k = true) ks ->
  scan_up key ks = Ok (Index.scan_up Py.is_none IndexManager.value_lt key ks).
Proof.
  induction 1 as [|k ks Hk _ IH]; cbn [scan_up Index.scan_up];
    [reflexivity|].
  rewrite (@_compare_agrees _ _ Hk). cbn [bind].
  destruct (_ >? 0); [|reflexivity]. now rewrite IH.
Qed.

Lemma key_at_agrees key ks i :
  Forall (fun k => comparable key k = true) ks ->
  key_at key ks i = Ok (Index.key_at Py.is_none IndexManager.value_lt key ks i).
Proof.
  intros H. rewrite Forall_forall in H. unfold key_at, Index.key_at.
  destruct (nth_error ks i) as [k|] eqn:E; [|reflexivity].
  now rewrite _compare_agrees by (apply H; now apply nth_error_In with i).
Qed.

(** [key] compares with every key of the node graph. *)
Definition covers (key : value) (n : BTreeNode value) : Prop :=
  forall k, In k (node_keys n) -> comparable key k = true.

Lemma compares_with_covers key n : compares_with key n = true -> covers key n.
Proof. unfold compares_with. intros H k. now apply forallb_forall. Qed.

Lemma covers_keys key lf ks vs cs :
  covers key (Node lf ks vs cs) ->
  Forall (fun k => comparable key k = true) ks.
Proof.
  intros H. apply Forall_forall. intros k Hk. apply H. cbn [node_keys].
  apply in_or_app. now left.
Qed.

Lemma node_keys_child lf ks vs cs c k :
  In c cs -> In k (node_keys c) -> In k (node_keys (Node lf ks vs cs)).
Proof.
  intros Hc Hk. cbn [node_keys]. apply in_or_app. right.
  apply in_flat_map. eauto.
Qed.

Lemma covers_child key lf ks vs cs c :
  covers key (Node lf ks vs cs) -> In c cs -> covers key c.
Proof. intros H Hc k Hk. apply H. now apply node_keys_child with c. Qed.

Lemma _search_agrees key n :
  covers key n ->
  _search n key = Index._search Py.is_none IndexManager.value_lt n key.
Proof.
  induction n as [lf ks vs cs IH] using BTreeNode_ind. intros Hcov.
  pose proof (@covers_keys key _ _ _ _ Hcov) as Hks.
  cbn [_search Index._search]. cbv zeta.
  rewrite (@scan_up_agrees key ks Hks). cbn [bind].
  rewrite (@key_at_agrees key _ _ Hks). cbn [bind].
  destruct (Index.key_at Py.is_none IndexManager.value_lt key ks _);
    [reflexivity|].
  destruct lf; [reflexivity|].
  assert (Hall : Forall
                   (fun c => _search c key
                             = Index._search Py.is_none IndexManager.value_lt
                                             c key) cs).
  { rewrite Forall_forall in *. intros c Hc. apply IH; [assumption|].
    now apply covers_child with (1 := Hcov). }
  clear IH Hcov Hks.
  generalize (Index.scan_up Py.is_none IndexManager.value_lt key ks) as i.
  induction Hall as [|c cs' Hc _ IH]; intros [|i]; try reflexivity.
  - exact Hc.
  - apply IH.
Qed.

Lemma _delete_agrees key row_id n :
  covers key n ->
  _delete n key row_id
  = Index._delete Py.is_none IndexManager.value_lt n key row_id.
Proof.
  induction n as [lf ks vs cs IH] using BTreeNode_ind. intros Hcov.
  pose proof (@covers_keys key _ _ _ _ Hcov) as Hks.
  cbn [_delete Index._delete]. cbv zeta.
  rewrite (@scan_up_agrees key ks Hks). cbn [bind].
  rewrite (@key_at_agrees key _ _ Hks). cbn [bind].
  assert (Hall : Forall
                   (fun c => _delete c key row_id
                             = Index._delete Py.is_none IndexManager.value_lt
                                             c key row_id) cs).
  { rewrite Forall_forall in *. intros c Hc. apply IH; [assumption|].
    now apply covers_child with (1 := Hcov). }
  clear IH Hcov Hks.
  assert (E : forall i,
    (fix at_child (cs0 : list (BTreeNode value)) (i0 : nat)
       : result (list (BTreeNode value) * bool) :=
       match cs0, i0 with
       | [], _ => Raise IndexError
       | c :: cs', O =>
           '(c', d) <- _delete c key row_id ;; Ok (c' :: cs', d)
       | c :: cs', S i' =>
           '(cs'', d) <- at_child cs' i' ;; Ok (c :: cs'', d)
       end) cs i =
    (fix at_child (cs0 : list (BTreeNode value)) (i0 : nat)
       : result (list (BTreeNode value) * bool) :=
       match cs0, i0 with
       | [], _ => Raise IndexError
       | c :: cs', O =>
           '(c', d) <- Index._delete Py.is_none IndexManager.value_lt c key
                                     row_id ;;
           Ok (c' :: cs', d)
       | c :: cs', S i' =>
           '(cs'', d) <- at_child cs' i' ;; Ok (c :: cs'', d)
       end) cs i).
  { induction Hall as [|c cs' Hc _ IHc]; intros [|i]; try reflexivity.
    - now rewrite Hc.
    - now rewrite IHc. }
  rewrite E. reflexivity.
Qed.

Lemma delete_agrees t key row_id :
  covers key (root t) ->
  delete t key row_id
  = Index.delete Py.is_none IndexManager.value_lt t key row_id.
Proof.
  intros H. unfold delete, Index.delete. now rewrite _delete_agrees.
Qed.

(** A split moves keys and makes none. *)
Lemma In_list_insert {A : Type} (i : nat) (x y : A) l :
  In y (list_insert i x l) -> y = x \/ In y l.
Proof.
  unfold list_insert. intros H. apply in_app_or in H.
  destruct H as [H|[H|H]]; auto.
  - right. now apply IndexFacts.In_firstn with i.
  - right. now apply IndexFacts.In_skipn with i.
Qed.

Lemma In_replace {A : Type} (i : nat) (x y : A) l :
  In y (firstn i l ++ x :: skipn (S i) l) -> y = x \/ In y l.
Proof.
  intros H. apply in_app_or in H. destruct H as [H|[H|H]]; auto.
  - right. now apply IndexFacts.In_firstn with i.
  - right. now apply IndexFacts.In_skipn with (S i).
Qed.

Lemma node_keys_firstn lf ks vs cs i j k :
  In k (node_keys (Node lf (firstn i ks) (firstn i vs)
                        (if lf then cs else firstn j cs))) ->
  In k (node_keys (Node lf ks vs cs)).
Proof.
  cbn [node_keys]. intros H. apply in_app_or in H. apply in_or_app.
  destruct H as [H|H]; [left; now apply IndexFacts.In_firstn with i|right].
  apply in_flat_map in H. destruct H as (c & Hc & Hk). apply in_flat_map.
  exists c. split; [|assumption].
  destruct lf; [assumption|now apply IndexFacts.In_firstn with j].
Qed.

Lemma node_keys_skipn lf ks vs cs i j k :
  In k (node_keys (Node lf (skipn i ks) (skipn i vs)
                        (if lf then [] else skipn j cs))) ->
  In k (node_keys (Node lf ks vs cs)).
Proof.
  cbn [node_keys]. intros H. apply in_app_or in H. apply in_or_app.
  destruct H as [H|H]; [left; now apply IndexFacts.In_skipn with i|right].
  apply in_flat_map in H. destruct H as (c & Hc & Hk). apply in_flat_map.
  exists c. split; [|assumption].
  destruct lf; [destruct Hc|now apply IndexFacts.In_skipn with j].
Qed.

Lemma _split_child_keys parent index node' k :
  _split_child parent index = Ok node' ->
  In k (node_keys node') -> In k (node_keys parent).
Proof.
  destruct parent as [lf ks vs cs]. unfold _split_child.
  cbn [children keys values leaf]. intros H. inv_bind H.
  apply getitem_Ok in Hstep, Hstep0. apply setitem_Ok in Hstep2.
  destruct Hstep2 as (c0 & _ & ->). destruct a as [clf cks cvs ccs].
  cbn [keys values children leaf] in *.
  pose proof (nth_error_In _ _ Hstep) as Hchild.
  pose proof (nth_error_In _ _ Hstep0) as Hmid.
  intros Hk. cbn [node_keys] in Hk. apply in_app_or in Hk.
  destruct Hk as [Hk|Hk].
  - apply In_list_insert in Hk. destruct Hk as [->|Hk].
    + apply node_keys_child with (Node clf cks cvs ccs); [assumption|].
      cbn [node_keys]. apply in_or_app. now left.
    + cbn [node_keys]. apply in_or_app. now left.
  - apply in_flat_map in Hk. destruct Hk as (c & Hc & Hk).
    apply In_list_insert in Hc. destruct Hc as [->|Hc].
    + apply node_keys_child with (Node clf cks cvs ccs); [assumption|].
      now apply node_keys_skipn in Hk.
    + apply In_replace in Hc. destruct Hc as [->|Hc].
      * apply node_keys_child with (Node clf cks cvs ccs); [assumption|].
        now apply node_keys_firstn in Hk.
      * now apply node_keys_child with c.
Qed.

Lemma covers_getitem key n i c :
  covers key n -> getitem (children n) i = Ok c -> covers key c.
Proof.
  destruct n as [lf ks vs cs]. cbn [children]. intros H Hc.
  apply getitem_Ok in Hc. apply covers_child with (1 := H).
  now apply nth_error_In with i.
Qed.

Lemma covers_key_at key n i k :
  covers key n -> getitem (keys n) i = Ok k -> comparable key k = true.
Proof.
  destruct n as [lf ks vs cs]. cbn [keys]. intros H Hk.
  apply getitem_Ok in Hk. apply H. cbn [node_keys]. apply in_or_app. left.
  now apply nth_error_In with i.
Qed.

Lemma covers_split key parent index node' :
  covers key parent -> _split_child parent index = Ok node' ->
  covers key node'.
Proof.
  intros H Hs k Hk. apply H. now apply _split_child_keys with (1 := Hs).
Qed.

Lemma _insert_non_full_agrees mx key row_id fuel :
  forall n,
    covers key n ->
    _insert_non_full mx fuel n key row_id
    = Index._insert_non_full Py.is_none IndexManager.value_lt mx fuel n key
                             row_id.
Proof.
  induction fuel as [|fuel IH]; intros n Hcov; [reflexivity|].
  cbn [_insert_non_full Index._insert_non_full]. cbv zeta.
  assert (Hks : Forall (fun k => comparable key k = true) (keys n)).
  { destruct n. cbn [keys]. now apply covers_keys with (1 := Hcov). }
  rewrite (@scan_down_agrees key _ _ Hks). cbn [bind].
  destruct (leaf n).
  - destruct (Index.scan_down Py.is_none IndexManager.value_lt key (keys n) _)
      as [|i];
      [reflexivity|].
    rewrite (@key_at_agrees key _ _ Hks). reflexivity.
  - destruct (getitem (children n) _) as [child|e] eqn:Ec; [|reflexivity].
    cbn [bind]. destruct (lenZ (keys child) =? mx).
    + destruct (_split_child n _) as [node'|e] eqn:Es; [|reflexivity].
      cbn [bind]. pose proof (@covers_split key _ _ _ Hcov Es) as Hcov'.
      destruct (getitem (keys node') _) as [k|e] eqn:Ek; [|reflexivity].
      cbn [bind].
      rewrite (@_compare_agrees _ _ (@covers_key_at key _ _ _ Hcov' Ek)).
      cbn [bind].
      destruct (getitem (children node') _) as [c|e] eqn:Ec'; [|reflexivity].
      cbn [bind]. now rewrite (IH c (@covers_getitem key _ _ _ Hcov' Ec')).
    + now rewrite (IH child (@covers_getitem key _ _ _ Hcov Ec)).
Qed.

Lemma insert_agrees t key row_id :
  covers key (root t) ->
  insert t key row_id
  = Index.insert Py.is_none IndexManager.value_lt t key row_id.
Proof.
  intros H. unfold insert, Index.insert.
  destruct (lenZ (keys (root t)) =? max_keys t).
  - destruct (_split_child _ 0) as [r|e] eqn:Es; [|reflexivity].
    cbn [bind]. rewrite _insert_non_full_agrees; [reflexivity|].
    apply covers_split with (2 := Es). intros k Hk. apply H.
    cbn [node_keys flat_map] in Hk. now rewrite app_nil_r in Hk.
  - cbn [bind]. now rewrite _insert_non_full_agrees.
Qed.

(** *** [range_search] *)

(** [_compare(k, min_key)] and [_compare(k, max_key)] return for every key
    [k] of the node graph. *)
Definition in_reach (min_key max_key : value) (n : BTreeNode value) : Prop :=
  forall k, In k (node_keys n) ->
            comparable k min_key = true /\ comparable k max_key = true.

Lemma in_reach_bounded min_key max_key n :
  bounded_by min_key n = true -> bounded_by max_key n = true ->
  in_reach min_key max_key n.
Proof.
  unfold bounded_by. intros H1 H2 k Hk. rewrite forallb_forall in H1, H2.
  split; [now apply H1|now apply H2].
Qed.

Lemma in_reach_child min_key max_key lf ks vs cs c :
  in_reach min_key max_key (Node lf ks vs cs) -> In c cs ->
  in_reach min_key max_key c.
Proof. intros H Hc k Hk. apply H. now apply node_keys_child with c. Qed.

Lemma at_least_agrees min_key key :
  comparable key min_key = true ->
  at_least min_key key
  = Ok (IndexFacts.at_least Py.is_none IndexManager.value_lt min_key key).
Proof.
  intros H. unfold at_least, IndexFacts.at_least.
  destruct (Py.is_none min_key); [reflexivity|].
  now rewrite (@_compare_agrees _ _ H).
Qed.

Lemma at_most_agrees max_key key :
  comparable key max_key = true ->
  at_most max_key key
  = Ok (IndexFacts.at_most Py.is_none IndexManager.value_lt max_key key).
Proof.
  intros H. unfold at_most, IndexFacts.at_most.
  destruct (Py.is_none max_key); [reflexivity|].
  now rewrite (@_compare_agrees _ _ H).
Qed.

Lemma visit_keys_agrees descend descend' node min_key max_key :
  (forall c results, In c (children node) ->
                     descend c results = descend' c results) ->
  forall ks i results,
    Forall (fun k => comparable k min_key = true
                     /\ comparable k max_key = true) ks ->
    visit_keys descend node min_key max_key i ks results
    = IndexFacts.visit_keys Py.is_none IndexManager.value_lt descend' node
        min_key max_key i ks results.
Proof.
  intros Hd. induction ks as [|key ks IH]; intros i results Hks;
    cbn [visit_keys IndexFacts.visit_keys]; [reflexivity|].
  inversion Hks as [|? ? [Hmin Hmax] Hks']; subst.
  rewrite (@at_least_agrees min_key key Hmin),
    (@at_most_agrees max_key key Hmax). cbn [bind].
  assert (E :
    (if negb (leaf node)
     then
       if IndexFacts.at_least Py.is_none IndexManager.value_lt min_key key
       then c <- getitem (children node) i ;; descend c results
       else Ok results
     else Ok results)
    = (if negb (leaf node)
          && IndexFacts.at_least Py.is_none IndexManager.value_lt min_key key
       then c <- getitem (children node) i ;; descend' c results
       else Ok results)).
  { destruct (negb (leaf node)); cbn [andb]; [|reflexivity].
    destruct (IndexFacts.at_least _ _ min_key key); [|reflexivity].
    destruct (getitem (children node) i) as [c|e] eqn:Ec; [|reflexivity].
    cbn [bind]. apply Hd. apply getitem_Ok in Ec.
    now apply nth_error_In with i. }
  rewrite E.
  destruct (if negb (leaf node) && _ then _ else _) as [r1|e];
    [|reflexivity].
  cbn [bind].
  destruct (IndexFacts.at_least _ _ min_key key); cbn [bind andb].
  - destruct (IndexFacts.at_most _ _ max_key key).
    + destruct (getitem (values node) i); cbn [bind]; [|reflexivity].
      now apply IH.
    + cbn [bind]. now apply IH.
  - now apply IH.
Qed.

Lemma _range_search_agrees min_key max_key fuel :
  forall node results,
    in_reach min_key max_key node ->
    _range_search fuel node min_key max_key results
    = IndexFacts._range_search Py.is_none IndexManager.value_lt fuel node
        min_key max_key results.
Proof.
  induction fuel as [|fuel IH]; intros node results Hr; [reflexivity|].
  cbn [_range_search IndexFacts._range_search]. cbv zeta.
  assert (Hks : Forall (fun k => comparable k min_key = true
                                 /\ comparable k max_key = true)
                       (keys node)).
  { apply Forall_forall. intros k Hk. apply Hr. destruct node as [lf ks vs cs].
    cbn [keys] in Hk. cbn [node_keys]. apply in_or_app. now left. }
  assert (Hcs : forall c, In c (children node) ->
                          in_reach min_key max_key c).
  { destruct node as [lf ks vs cs]. cbn [children]. intros c Hc.
    now apply in_reach_child with (1 := Hr). }
  rewrite (@visit_keys_agrees
             (fun c r => _range_search fuel c min_key max_key r)
             (fun c r => IndexFacts._range_search Py.is_none
                           IndexManager.value_lt fuel c min_key max_key r)
             node min_key max_key)
    by (intros; auto).
  destruct (IndexFacts.visit_keys _ _ _ node min_key max_key 0 (keys node)
              results) as [r1|e]; [|reflexivity].
  cbn [bind]. destruct (negb (leaf node) && _); [|reflexivity].
  assert (E :
    (if Py.is_none max_key then Ok true
     else
       match keys node with
       | [] => Ok false
       | k :: ks => c <- _compare (last ks k) max_key ;; Ok (c <=? 0)
       end)
    = Ok (Py.is_none max_key
          || match keys node with
             | [] => false
             | k :: ks =>
                 Index._compare Py.is_none IndexManager.value_lt (last ks k)
                                max_key <=? 0
             end)).
  { destruct (Py.is_none max_key); [reflexivity|]. cbn [orb].
    destruct (keys node) as [|k ks] eqn:Ek; [reflexivity|].
    assert (Hl : In (last ks k) (k :: ks)).
    { clear. induction ks as [|k' ks IH]; [now left|].
      destruct ks as [|k2 ks]; [right; now left|].
      change (last (k' :: k2 :: ks) k) with (last (k2 :: ks) k).
      destruct IH as [IH|IH]; [now left|right; now right]. }
    rewrite Forall_forall in Hks. destruct (Hks _ Hl) as [_ Hmax].
    now rewrite (@_compare_agrees _ _ Hmax). }
  rewrite E. cbn [bind].
  destruct (Py.is_none max_key || _); [|reflexivity].
  destruct (getitem (children node) _) as [c|e] eqn:Ec; [|reflexivity].
  cbn [bind]. apply IH. apply Hcs. apply getitem_Ok in Ec.
  now apply nth_error_In with (1 := Ec).
Qed.

Lemma pairs_keys key row_id n :
  In (key, row_id) (IndexFacts.pairs n) -> In key (node_keys n).
Proof.
  induction n as [lf ks vs cs IH] using BTreeNode_ind.
  cbn [IndexFacts.pairs node_keys]. intros H. apply in_app_or in H.
  apply in_or_app. destruct H as [H|H].
  - left. unfold IndexFacts.slot_pairs in H. apply in_flat_map in H.
    destruct H as ([k rs] & Hkv & Hp). cbn [fst snd] in Hp.
    apply in_map_iff in Hp. destruct Hp as (r & [= <- <-] & _).
    now apply in_combine_l in Hkv.
  - right. apply in_flat_map in H. destruct H as (c & Hc & Hp).
    apply in_flat_map. exists c. split; [assumption|].
    rewrite Forall_forall in IH. now apply IH.
Qed.

(** *** The operations return on keys that compare *)

(** X25.  A new tree is well shaped.  On a well-shaped tree of column
    values ([None], booleans, integers, texts and floats that are numbers)
    whose keys all compare with [key], no operation raises:
    [insert] returns a well-shaped tree and [len] grows by one, [delete]
    returns a well-shaped tree and [len] shrinks by one exactly when it
    answers [True], and [search] returns a list, [key in tree] telling
    whether it is empty. *)
Theorem index_operations_return t key row_id :
  wf t = true -> compares_with key (root t) = true ->
  (forall order, wf (new value order) = true) /\
  (exists t', insert t key row_id = Ok t' /\ wf t' = true /\
              len t' = len t + 1) /\
  (exists t' d, delete t key row_id = Ok (t', d) /\ wf t' = true /\
                len t' = len t - (if d then 1 else 0)) /\
  (exists rs, search t key = Ok rs /\
              contains t key = Ok (0 <? lenZ rs)).
Proof.
  intros Hwf Hc. apply compares_with_covers in Hc.
  split; [intros order; apply new_wf|]. split; [|split].
  - rewrite (@insert_agrees t key row_id Hc).
    destruct (@insert_ok _ Py.is_none IndexManager.value_lt t key row_id Hwf)
      as (t' & H & Hwf' & _).
    exists t'. split; [assumption|]. split; [assumption|].
    now apply insert_total in H.
  - rewrite (@delete_agrees t key row_id Hc).
    destruct (@delete_ok _ Py.is_none IndexManager.value_lt t key row_id Hwf)
      as (t' & d & H & Hwf').
    exists t', d. split; [assumption|]. split; [assumption|].
    unfold Index.delete in H. inv_bind H. injection H as <- <-.
    unfold len. cbn [_size]. destruct b0; lia.
  - unfold wf in Hwf. apply andb_true_iff in Hwf. destruct Hwf as [_ Hwf].
    unfold contains, search. rewrite (@_search_agrees key (root t) Hc).
    destruct (@IndexFacts._search_wf _ Py.is_none IndexManager.value_lt key
                (root t) Hwf) as (rs & H).
    exists rs. rewrite H. auto.
Qed.

(** X27.  On a well-shaped tree of column values whose keys all compare
    with both bounds, [range_search] returns, and every pair it returns is
    held by a slot of the tree and has its key within the bounds; a bound
    that is [None] does not restrict. *)
Theorem range_search_is_within_bounds t min_key max_key :
  wf t = true ->
  bounded_by min_key (root t) = true -> bounded_by max_key (root t) = true ->
  exists out,
    range_search t min_key max_key = Ok out /\
    forall key row_id,
      In (key, row_id) out ->
      In (key, row_id) (IndexFacts.pairs (root t)) /\
      at_least min_key key = Ok true /\ at_most max_key key = Ok true.
Proof.
  intros Hwf Hmin Hmax.
  pose proof (@in_reach_bounded min_key max_key _ Hmin Hmax) as Hr.
  unfold wf in Hwf. apply andb_true_iff in Hwf.
  destruct Hwf as [_ Hwf]. unfold range_search.
  rewrite (@_range_search_agrees min_key max_key _ (root t) [] Hr).
  destruct (@IndexFacts._range_search_returns _ Py.is_none
              IndexManager.value_lt min_key max_key (S (height (root t)))
              (root t) [] Hwf) as (out & E); [lia|].
  exists out. split; [assumption|].
  apply IndexFacts._range_search_sound in E.
  destruct E as (added & -> & Hall).
  intros key row_id Hin. rewrite Forall_forall in Hall.
  destruct (Hall _ Hin) as [H1 [H2 H3]]. cbn [fst] in H2, H3.
  destruct (Hr key (@pairs_keys key row_id (root t) H1)) as [Hk1 Hk2].
  rewrite (@at_least_agrees min_key key Hk1),
    (@at_most_agrees max_key key Hk2), H2, H3. auto.
Qed.

(** *** The properties on example trees *)

(** A text key on a tree of integer keys: the comparison raises, in
    [insert] and in [range_search]. *)
Example mixed_keys_raise :
  (t <- insert (new value 4) (VInt 1) 1 ;; insert t (VText "a") 2)
  = Raise TypeError /\
  range_search IndexFacts.four_values (VText "a") VNull = Raise TypeError.
Proof. split; reflexivity. Qed.

Lemma index_operations_return_witness :
  wf IndexFacts.four_values = true /\
  compares_with (VInt 5) (root IndexFacts.four_values) = true /\
  exists t',
    insert IndexFacts.four_values (VInt 5) 50 = Ok t' /\ wf t' = true /\
    len t' = len IndexFacts.four_values + 1.
Proof.
  split; [reflexivity|]. split; [reflexivity|].
  exact (proj1 (proj2 (@index_operations_return IndexFacts.four_values
                         (VInt 5) 50 eq_refl eq_refl))).
Defined.

Lemma range_search_is_within_bounds_witness :
  wf IndexFacts.four_values = true /\
  bounded_by (VInt 2) (root IndexFacts.four_values) = true /\
  bounded_by VNull (root IndexFacts.four_values) = true /\
  exists out,
    range_search IndexFacts.four_values (VInt 2) VNull = Ok out /\
    forall key row_id,
      In (key, row_id) out ->
      In (key, row_id) (IndexFacts.pairs (root IndexFacts.four_values)) /\
      at_least (VInt 2) key = Ok true /\ at_most VNull key = Ok true.
Proof.
  split; [reflexivity|]. split; [reflexivity|]. split; [reflexivity|].
  exact (@range_search_is_within_bounds IndexFacts.four_values (VInt 2) VNull
           eq_refl eq_refl eq_refl).
Defined.

End ValueIndex.

(** ** lexer.py and parser.py: DROP TABLE *)

Module ParserFacts.
Import Ast Lexer LexerFacts Parser.
Local Open Scope string_scope.
Local Open Scope Z_scope.

Section WithStatements.
Variable py : Py.builtins.
Variables parse_select parse_insert parse_update parse_delete :
  Parser -> result (Statement * Parser).

Definition parse_sql : string -> result Statement :=
  ParserExamples.parse_sql py parse_select parse_insert parse_update
                           parse_delete.

(** A blank before a token is skipped, and counts as one column. *)
Lemma next_token_blank fuel lx r :
  rest lx = String " " r ->
  next_token py fuel lx
  = next_token py fuel (mkLexer r (line lx) (column lx + 1)).
Proof.
  intros E. unfold next_token. destruct fuel as [|fuel]; [reflexivity|].
  cbn [skip_blanks]. unfold skip_whitespace. rewrite E.
  cbn [rest line column skip_whitespace_from]. reflexivity.
Qed.

Lemma next_token_end fuel l k :
  next_token py (S fuel) (mkLexer "" l k)
  = Ok (mkToken EOF VNull l k, mkLexer "" l k).
Proof. reflexivity. Qed.

Lemma word_type_not_EOF w : TokenType_eqb (word_type w) EOF = false.
Proof.
  destruct (TokenType_eqb (word_type w) EOF) eqn:E; [|reflexivity].
  apply TokenType_eqb_eq in E. unfold word_type in E.
  destruct (Dict.get String.eqb KEYWORDS (Py.upper w)) eqn:Ek;
    [|discriminate].
  now apply keywords_not_EOF in Ek.
Qed.

Lemma tokenize_from_word fuel lx w tail tokens :
  rest lx = w ++ tail -> is_word w = true -> ends_word tail = true ->
  tokenize_from py (S fuel) lx tokens
  = tokenize_from py fuel
      (mkLexer tail (line lx) (column lx + lenZ_str w))
      (tokens ++ [mkToken (word_type w) (VText w) (line lx) (column lx)])%list.
Proof.
  intros E Hw Ht. cbn [tokenize_from].
  rewrite (@next_token_word py _ lx w tail E Hw Ht).
  cbn [bind tok_type]. now rewrite word_type_not_EOF.
Qed.

Lemma tokenize_from_blank_word fuel lx w tail tokens :
  rest lx = String " " (w ++ tail) -> is_word w = true ->
  ends_word tail = true ->
  tokenize_from py (S fuel) lx tokens
  = tokenize_from py fuel
      (mkLexer tail (line lx) (column lx + 1 + lenZ_str w))
      (tokens
       ++ [mkToken (word_type w) (VText w) (line lx) (column lx + 1)])%list.
Proof.
  intros E Hw Ht. cbn [tokenize_from].
  rewrite (next_token_blank _ lx E).
  rewrite (@next_token_word py _ (mkLexer (w ++ tail) (line lx)
                                          (column lx + 1))
             w tail eq_refl Hw Ht).
  cbn [bind tok_type line column]. now rewrite word_type_not_EOF.
Qed.

Lemma tokenize_from_end fuel l k tokens :
  tokenize_from py (S fuel) (mkLexer "" l k) tokens
  = Ok (tokens ++ [mkToken EOF VNull l k])%list.
Proof. reflexivity. Qed.

Lemma tokenize_from_semicolon fuel l k tokens :
  tokenize_from py (S (S fuel)) (mkLexer ";" l k) tokens
  = Ok (tokens ++ [mkToken SEMICOLON (VText ";") l k;
                   mkToken EOF VNull l (k + 1)])%list.
Proof.
  cbn [tokenize_from rest String.length]. unfold next_token at 1.
  cbn. now rewrite <- app_assoc.
Qed.

(** Texts of DROP TABLE statements: for a word [w] that is no keyword, with
    the keywords in three spellings, with IF EXISTS, with a semicolon, and
    with a further word after the name. *)
Lemma drop_table_texts w :
  is_word w = true -> word_type w = IDENTIFIER ->
  parse_sql ("DROP TABLE " ++ w) = Ok (Drop (mkDropTableStmt w false)) /\
  parse_sql ("drop table " ++ w ++ ";")
  = Ok (Drop (mkDropTableStmt w false)) /\
  parse_sql ("Drop Table If Exists " ++ w)
  = Ok (Drop (mkDropTableStmt w true)) /\
  (forall w', is_word w' = true ->
              parse_sql ("DROP TABLE " ++ w ++ " " ++ w')
              = Ok (Drop (mkDropTableStmt w false))).
Proof.
  intros Hw Hid.
  assert (Hnil : w = w ++ "") by (symmetry; apply append_nil_r).
  split; [|split; [|split]].
  - unfold parse_sql, ParserExamples.parse_sql, parse, tokenize, Lexer_init.
    cbn [append String.length].
    rewrite (@tokenize_from_word _ (mkLexer ("DROP TABLE " ++ w) 1 1)
               "DROP" (" TABLE " ++ w) [] eq_refl eq_refl eq_refl).
    cbn [line column app].
    rewrite (@tokenize_from_blank_word _ (mkLexer (" TABLE " ++ w) 1 _)
               "TABLE" (" " ++ w) _ eq_refl eq_refl eq_refl).
    cbn [line column app].
    rewrite (@tokenize_from_blank_word _ (mkLexer (" " ++ w) 1 _) w "" _
               (f_equal (String " ") Hnil) Hw eq_refl).
    cbn [line column app]. rewrite tokenize_from_end. cbn [app bind].
    rewrite Hid. reflexivity.
  - unfold parse_sql, ParserExamples.parse_sql, parse, tokenize, Lexer_init.
    cbn [append String.length].
    rewrite (@tokenize_from_word _ (mkLexer ("drop table " ++ w ++ ";") 1 1)
               "drop" (" table " ++ w ++ ";") [] eq_refl eq_refl eq_refl).
    cbn [line column app].
    rewrite (@tokenize_from_blank_word _
               (mkLexer (" table " ++ w ++ ";") 1 _)
               "table" (" " ++ w ++ ";") _ eq_refl eq_refl eq_refl).
    cbn [line column app].
    rewrite (@tokenize_from_blank_word _ (mkLexer (" " ++ w ++ ";") 1 _)
               w ";" _ eq_refl Hw eq_refl).
    cbn [line column app]. rewrite tokenize_from_semicolon. cbn [app bind].
    rewrite Hid. reflexivity.
  - unfold parse_sql, ParserExamples.parse_sql, parse, tokenize, Lexer_init.
    cbn [append String.length].
    rewrite (@tokenize_from_word _
               (mkLexer ("Drop Table If Exists " ++ w) 1 1)
               "Drop" (" Table If Exists " ++ w) [] eq_refl eq_refl eq_refl).
    cbn [line column app].
    rewrite (@tokenize_from_blank_word _
               (mkLexer (" Table If Exists " ++ w) 1 _)
               "Table" (" If Exists " ++ w) _ eq_refl eq_refl eq_refl).
    cbn [line column app].
    rewrite (@tokenize_from_blank_word _
               (mkLexer (" If Exists " ++ w) 1 _)
               "If" (" Exists " ++ w) _ eq_refl eq_refl eq_refl).
    cbn [line column app].
    rewrite (@tokenize_from_blank_word _
               (mkLexer (" Exists " ++ w) 1 _)
               "Exists" (" " ++ w) _ eq_refl eq_refl eq_refl).
    cbn [line column app].
    rewrite (@tokenize_from_blank_word _ (mkLexer (" " ++ w) 1 _) w "" _
               (f_equal (String " ") Hnil) Hw eq_refl).
    cbn [line column app]. rewrite tokenize_from_end. cbn [app bind].
    rewrite Hid. reflexivity.
  - intros w' Hw'.
    assert (Hnil' : w' = w' ++ "") by (symmetry; apply append_nil_r).
    unfold parse_sql, ParserExamples.parse_sql, parse, tokenize, Lexer_init.
    cbn [append String.length].
    rewrite (@tokenize_from_word _
               (mkLexer ("DROP TABLE " ++ w ++ " " ++ w') 1 1)
               "DROP" (" TABLE " ++ w ++ " " ++ w') []
               eq_refl eq_refl eq_refl).
    cbn [line column app].
    rewrite (@tokenize_from_blank_word _
               (mkLexer (" TABLE " ++ w ++ " " ++ w') 1 _)
               "TABLE" (" " ++ w ++ " " ++ w') _ eq_refl eq_refl eq_refl).
    cbn [line column app].
    rewrite (@tokenize_from_blank_word _
               (mkLexer (" " ++ w ++ " " ++ w') 1 _)
               w (" " ++ w') _ eq_refl Hw eq_refl).
    cbn [line column app].
    rewrite (@tokenize_from_blank_word _ (mkLexer (" " ++ w') 1 _) w' "" _
               (f_equal (String " ") Hnil') Hw' eq_refl).
    cbn [line column app]. rewrite tokenize_from_end. cbn [app bind].
    rewrite Hid. generalize (word_type w') as t'. intros t'.
    change (word_type "DROP") with DROP.
    change (word_type "TABLE") with TABLE.
    cbn -[Z.add lenZ_str].
    now destruct (TokenType_eqb t' SEMICOLON).
Qed.

(** Reading the leading tokens of a statement: each test of a token type is
    settled by what is known of the tokens. *)
Ltac read_tokens :=
  repeat (cbn;
          repeat match goal with
                 | H : tok_type _ = _ |- _ => rewrite H
                 end).

(** X30.  A text whose token list starts with a DROP token, a TABLE token
    and an IDENTIFIER token [n] parses to the DROP TABLE statement of the
    value of [n] without IF EXISTS, and one whose token list starts with
    DROP, TABLE, IF, EXISTS and an IDENTIFIER token [n] parses to the
    DROP TABLE statement of the value of [n] with IF EXISTS, whatever
    tokens [rest] follow the name: [parse_drop] reads no further, and
    [parse] takes one semicolon if it is there and does not ask for the
    end of the input. *)
Theorem drop_table_parses sql d t n rest :
  tok_type d = DROP -> tok_type t = TABLE -> tok_type n = IDENTIFIER ->
  (tokenize py sql = Ok (d :: t :: n :: rest) ->
   parse_sql sql = Ok (Drop (mkDropTableStmt (str_value n) false))) /\
  (forall i e,
      tok_type i = IF -> tok_type e = EXISTS ->
      tokenize py sql = Ok (d :: t :: i :: e :: n :: rest) ->
      parse_sql sql = Ok (Drop (mkDropTableStmt (str_value n) true))).
Proof.
  intros Hd Ht Hn. split.
  - intros Htok. unfold parse_sql, ParserExamples.parse_sql, parse.
    rewrite Htok. cbn [bind].
    unfold parse_statement, parse_drop, expect, match_, consume_if, advance,
      current.
    destruct rest as [|r rest]; read_tokens; [reflexivity|].
    destruct (TokenType_eqb (tok_type r) SEMICOLON); reflexivity.
  - intros i e Hi He Htok.
    unfold parse_sql, ParserExamples.parse_sql, parse.
    rewrite Htok. cbn [bind].
    unfold parse_statement, parse_drop, expect, match_, consume_if, advance,
      current.
    destruct rest as [|r rest]; read_tokens; [reflexivity|].
    destruct (TokenType_eqb (tok_type r) SEMICOLON); reflexivity.
Qed.

End WithStatements.

(** The tokens of [drop Table users then 7]. *)
Definition drop_users : list Token :=
  [mkToken DROP (VText "drop") 1 1; mkToken TABLE (VText "Table") 1 6;
   mkToken IDENTIFIER (VText "users") 1 12;
   mkToken IDENTIFIER (VText "then") 1 18;
   mkToken NUMBER (VInt 7) 1 23; mkToken EOF VNull 1 24].

Lemma drop_table_parses_witness :
  tokenize StorageExamples.stub "drop Table users then 7" = Ok drop_users /\
  ParserExamples.parse_ddl "drop Table users then 7"
  = Ok (Drop (mkDropTableStmt "users" false)).
Proof.
  split; [reflexivity|].
  exact (proj1 (@drop_table_parses StorageExamples.stub
                  ParserExamples.left_out ParserExamples.left_out
                  ParserExamples.left_out ParserExamples.left_out
                  "drop Table users then 7"
                  (mkToken DROP (VText "drop") 1 1)
                  (mkToken TABLE (VText "Table") 1 6)
                  (mkToken IDENTIFIER (VText "users") 1 12)
                  (skipn 3 drop_users)
                  eq_refl eq_refl eq_refl) eq_refl).
Defined.

End ParserFacts.
